(** * telegraph-js: the content conversion engine of [src/utils.ts] and
    [src/templates.ts] and the export functions of [src/export.ts],
    embedded in Rocq.

    Strings are JavaScript strings: finite sequences of UTF-16 code units.
    Regular expressions are kept as syntax and run by a backtracking
    matcher that follows the ECMAScript semantics for the constructs the
    sources use (no [u], [i] or [y] flag occurs in them). *)

From Stdlib Require Import String Ascii.
From Stdlib Require Import DecimalString.
From Stdlib Require Import List NArith Bool Arith Lia.
Import ListNotations.
Open Scope N_scope.
Open Scope list_scope.

(** ** Code units and strings *)

Definition char := N.
Definition str := list char.

Definition code (a : ascii) : char := N_of_ascii a.

(** [u "text"] is the JavaScript string literal with the same characters. *)
Definition u (s : string) : str := map code (list_ascii_of_string s).

Definition LF : char := 10.
Definition CR : char := 13.
(** The double quote. *)
Definition DQ : char := 34.

Fixpoint str_eqb (a b : str) : bool :=
  match a, b with
  | [], [] => true
  | x :: a', y :: b' => (x =? y) && str_eqb a' b'
  | _, _ => false
  end.

Definition eqc (a : ascii) : char -> bool := fun c => c =? code a.
Definition neqc (a : ascii) : char -> bool := fun c => negb (c =? code a).
Definition inRange (lo hi : N) (c : char) : bool := (lo <=? c) && (c <=? hi).

(** [\d], [\w], [\s], [.] and line terminators, as ECMAScript defines them
    without the [u] flag. *)
Definition isDigit (c : char) : bool := inRange 48 57 c.
Definition isUpper (c : char) : bool := inRange 65 90 c.
Definition isLower (c : char) : bool := inRange 97 122 c.
Definition isWord (c : char) : bool :=
  isDigit c || isUpper c || isLower c || (c =? 95).
Definition isLineTerminator (c : char) : bool :=
  (c =? 10) || (c =? 13) || (c =? 8232) || (c =? 8233).
Definition isSpace (c : char) : bool :=
  inRange 9 13 c || (c =? 32) || (c =? 160) || (c =? 5760)
  || inRange 8192 8202 c || (c =? 8232) || (c =? 8233) || (c =? 8239)
  || (c =? 8287) || (c =? 12288) || (c =? 65279).
Definition isDot (c : char) : bool := negb (isLineTerminator c).
Definition anyChar (c : char) : bool := true.

(** [[\w-]] *)
Definition isNameChar (c : char) : bool := isWord c || (c =? 45).

(** [String.prototype.toLowerCase].  The sources apply it only to what
    [[\w-]+] matched, where lowering changes the letters A to Z alone. *)
Definition lowerChar (c : char) : char := if isUpper c then c + 32 else c.
Definition toLowerCase (s : str) : str := map lowerChar s.

(** [String.prototype.trim]: strips white space and line terminators, the
    same set as [\s]. *)
Fixpoint trimStart (s : str) : str :=
  match s with
  | c :: r => if isSpace c then trimStart r else s
  | [] => []
  end.
Definition trimEnd (s : str) : str := rev (trimStart (rev s)).
Definition trim (s : str) : str := trimEnd (trimStart s).

Definition includes (c : char) (s : str) : bool := existsb (N.eqb c) s.

Fixpoint join (sep : str) (l : list str) : str :=
  match l with
  | [] => []
  | [x] => x
  | x :: r => x ++ sep ++ join sep r
  end.

(** ** Regular expressions *)

Inductive regex : Type :=
| Eps
| Cls (p : char -> bool)
| Cat (r1 r2 : regex)
| Alt (r1 r2 : regex)
| Star (greedy : bool) (r : regex)
| Grp (n : nat) (r : regex)
| Bol (multiline : bool)
| Eol (multiline : bool)
| NotBehind (p : char -> bool)
| NotAhead (p : char -> bool).

Definition Plus (r : regex) : regex := Cat r (Star true r).
Definition Opt (r : regex) : regex := Alt r Eps.
Definition Chr (a : ascii) : regex := Cls (eqc a).
Arguments Chr a%_char.
Arguments eqc a%_char.
Arguments neqc a%_char.
Arguments code a%_char.
Fixpoint Lit (s : list ascii) : regex :=
  match s with
  | [] => Eps
  | [a] => Chr a
  | a :: r => Cat (Chr a) (Lit r)
  end.
Definition Str (s : string) : regex := Lit (list_ascii_of_string s).

Declare Scope re_scope.
Delimit Scope re_scope with re.
Bind Scope re_scope with regex.
Infix ";;" := Cat (at level 61, right associativity) : re_scope.
Infix "<|>" := Alt (at level 62, right associativity) : re_scope.

(** A position in the subject string: the code units before it (nearest
    first), those after it, and the capture groups set so far. *)
Record cursor : Type := mkCursor {
  before : str;
  after : str;
  caps : list (nat * str)
}.

Definition advance (x : char) (rest : str) (c : cursor) : cursor :=
  mkCursor (x :: before c) rest (caps c).

(** What was consumed between cursor [c] and the later cursor [c']. *)
Definition consumed (c c' : cursor) : str :=
  rev (firstn (length (before c') - length (before c)) (before c')).

Definition set_cap (n : nat) (v : str) (c : cursor) : cursor :=
  mkCursor (before c) (after c) ((n, v) :: caps c).

Fixpoint lookup_cap (n : nat) (l : list (nat * str)) : option str :=
  match l with
  | [] => None
  | (k, v) :: r => if Nat.eqb k n then Some v else lookup_cap n r
  end.

Definition at_bol (multiline : bool) (c : cursor) : bool :=
  match before c with
  | [] => true
  | x :: _ => multiline && isLineTerminator x
  end.

Definition at_eol (multiline : bool) (c : cursor) : bool :=
  match after c with
  | [] => true
  | x :: _ => multiline && isLineTerminator x
  end.

Section Matcher.
Variable A : Type.

(** The iterations of a star whose body is matched by [body]; [n]
    bounds their number.  An iteration that consumes nothing is
    rejected, as in ECMAScript. *)
Fixpoint star_loop (body : cursor -> (cursor -> option A) -> option A)
  (greedy : bool) (k : cursor -> option A) (n : nat) (c : cursor)
  {struct n} : option A :=
  match n with
  | O => k c
  | S n' =>
      let again c' :=
        if (length (after c') <? length (after c))%nat
        then star_loop body greedy k n' c' else None in
      if greedy then
        match body c again with
        | Some a => Some a
        | None => k c
        end
      else
        match k c with
        | Some a => Some a
        | None => body c again
        end
  end.

(** Backtracking matcher in continuation style: [rmatch r c k] tries the
    ways [r] can match at [c] in priority order and returns the first
    for which the continuation [k] succeeds.  Every iteration of a star
    consumes something, so the code units left bound the iterations. *)
Fixpoint rmatch (r : regex) (c : cursor) (k : cursor -> option A)
  {struct r} : option A :=
  match r with
  | Eps => k c
  | Cls p =>
      match after c with
      | x :: rest => if p x then k (advance x rest c) else None
      | [] => None
      end
  | Cat r1 r2 => rmatch r1 c (fun c' => rmatch r2 c' k)
  | Alt r1 r2 =>
      match rmatch r1 c k with
      | Some a => Some a
      | None => rmatch r2 c k
      end
  | Star greedy r1 => star_loop (rmatch r1) greedy k (length (after c)) c
  | Grp n r1 => rmatch r1 c (fun c' => k (set_cap n (consumed c c') c'))
  | Bol ml => if at_bol ml c then k c else None
  | Eol ml => if at_eol ml c then k c else None
  | NotBehind p =>
      match before c with
      | x :: _ => if p x then None else k c
      | [] => k c
      end
  | NotAhead p =>
      match after c with
      | x :: _ => if p x then None else k c
      | [] => k c
      end
  end.
End Matcher.
Arguments star_loop {A} body greedy k n c.
Arguments rmatch {A} r c k.

(** One match: the matched text and the capture groups. *)
Record hit : Type := mkHit { whole : str; groups : list (nat * str) }.

Definition group (n : nat) (h : hit) : option str := lookup_cap n (groups h).

(** [$n] in a replacement and [m[n]] used as text: an unset group reads as
    the empty string. *)
Definition grp (n : nat) (h : hit) : str :=
  match group n h with Some v => v | None => [] end.

(** Try the regex at one position. *)
Definition match_at (r : regex) (bef aft : str) : option hit :=
  let c := mkCursor bef aft [] in
  rmatch r c (fun c' => Some (mkHit (consumed c c') (caps c'))).

Inductive seg : Type :=
| Gap (c : char)
| Hit (h : hit).

(** The successive leftmost matches of a global regex, with the unmatched
    code units between them.  After a match the search resumes where the
    match ended ([skip] counts the code units the last match still
    covers); after an empty match it resumes one code unit further, which
    is what [String.prototype.replace] does. *)
Fixpoint scan (r : regex) (bef aft : str) (skip : nat) : list seg :=
  match aft with
  | [] =>
      match skip with
      | O => match match_at r bef [] with
             | Some h => [Hit h]
             | None => []
             end
      | S _ => []
      end
  | x :: rest =>
      match skip with
      | S k => scan r (x :: bef) rest k
      | O =>
          match match_at r bef aft with
          | Some h =>
              match length (whole h) with
              | O => Hit h :: Gap x :: scan r (x :: bef) rest 0
              | S k => Hit h :: scan r (x :: bef) rest k
              end
          | None => Gap x :: scan r (x :: bef) rest 0
          end
      end
  end.

Definition segments (r : regex) (s : str) : list seg := scan r [] s 0.

Fixpoint hits (l : list seg) : list hit :=
  match l with
  | [] => []
  | Gap _ :: r => hits r
  | Hit h :: r => h :: hits r
  end.

Definition nonempty (h : hit) : bool :=
  match whole h with [] => false | _ :: _ => true end.

(** [while ((m = re.exec(s)) !== null) ...] over a global regex visits the
    successive matches.  [exec] does not move [lastIndex] past an empty
    match, so the loop would then never end: that is [None]. *)
Definition exec_all (r : regex) (s : str) : option (list hit) :=
  let hs := hits (segments r s) in
  if forallb nonempty hs then Some hs else None.

(** [s.replace(re, f)] with a global regex and a pure replacement. *)
Definition replace (r : regex) (f : hit -> str) (s : str) : str :=
  flat_map (fun g => match g with Gap c => [c] | Hit h => f h end)
           (segments r s).

(** ** Content trees (the [Node] and [NodeElement] types) *)

(** A JavaScript object used as a string-to-string record, as the list of
    its own properties in enumeration order. *)
Definition obj := list (str * str).

#[warnings="-register-all"]
Inductive Node : Type :=
| NText (s : str)
| NElem (tag : str) (attrs : option obj) (children : option (list Node)).

Fixpoint parseDigits (acc : N) (s : str) : N :=
  match s with
  | [] => acc
  | c :: r => parseDigits (10 * acc + (c - 48)) r
  end.

(** An array index: a canonical decimal numeral below 2^32 - 1.  Such
    property keys are enumerated first, in ascending numeric order. *)
Definition arrayIndex (k : str) : option N :=
  match k with
  | [] => None
  | c :: r =>
      if forallb isDigit k && (negb (c =? 48) || match r with [] => true | _ => false end)
         && (length k <=? 10)%nat
      then let n := parseDigits 0 k in
           if n <? 4294967295 then Some n else None
      else None
  end.

Section Properties.
Context {V : Type}.

Definition obj_has (k : str) (o : list (str * V)) : bool :=
  existsb (fun kv => str_eqb (fst kv) k) o.

Fixpoint obj_get (k : str) (o : list (str * V)) : option V :=
  match o with
  | [] => None
  | (k', v) :: r => if str_eqb k' k then Some v else obj_get k r
  end.

Fixpoint obj_update (k : str) (v : V) (o : list (str * V)) : list (str * V) :=
  match o with
  | [] => []
  | (k', v') :: r =>
      if str_eqb k' k then (k', v) :: r else (k', v') :: obj_update k v r
  end.

Fixpoint obj_insert_index (n : N) (k : str) (v : V) (o : list (str * V))
  : list (str * V) :=
  match o with
  | [] => [(k, v)]
  | (k', v') :: r =>
      match arrayIndex k' with
      | Some n' => if n' <? n then (k', v') :: obj_insert_index n k v r
                   else (k, v) :: o
      | None => (k, v) :: o
      end
  end.

(** Creating or overwriting the own property [k]: an existing key keeps
    its place, a new array index goes among the indices, any other new
    key goes last. *)
Definition obj_define (k : str) (v : V) (o : list (str * V)) : list (str * V) :=
  if obj_has k o then obj_update k v o
  else match arrayIndex k with
       | Some n => obj_insert_index n k v o
       | None => o ++ [(k, v)]
       end.
End Properties.

(** [o[k] = v] on an ordinary object created by [{}], [v] a string.  The
    key [__proto__] reaches the inherited setter, which ignores a value
    that is not an object: no own property is created. *)
Definition obj_set (k v : str) (o : obj) : obj :=
  if str_eqb k (u "__proto__") then o else obj_define k v o.

(** ** The tokenizer and tree builder ([htmlToNodes], utils.ts 11-92) *)

(** The token regex of line 16 (flag g).  First alternative: [<], an
    optional [/] (group 1), one or more [[\w-]] (group 2), any run of
    code units other than [>] (group 3), and [>].  Second alternative:
    one or more code units other than [<] (group 4). *)
Definition tagRegex : regex :=
  (Chr "<" ;; Grp 1 (Opt (Chr "/")) ;; Grp 2 (Plus (Cls isNameChar))
     ;; Grp 3 (Star true (Cls (neqc ">"))) ;; Chr ">"
   <|> Grp 4 (Plus (Cls (neqc "<"))))%re.

Definition isQuote (c : char) : bool := (c =? DQ) || eqc "'" c.

(** The attribute regex of line 53: a name of [[\w-]] code units (group
    1), an equals sign, a double or single quote, any run of code units
    that are not quotes (group 2), and a double or single quote. *)
Definition attrRegex : regex :=
  (Grp 1 (Plus (Cls isNameChar)) ;; Chr "=" ;; Cls isQuote
     ;; Grp 2 (Star true (Cls (fun c => negb (isQuote c)))) ;; Cls isQuote)%re.

(** What one iteration of the main loop sees after destructuring the
    match: [if (text) ... else if (tagName) { if (closing) ... else ... }]. *)
Inductive event : Type :=
| EvText (text : str)
| EvClose (tagName : str)
| EvOpen (tagName attrString : str)
| EvNone.

Definition truthy (s : str) : bool :=
  match s with [] => false | _ :: _ => true end.

Definition classify (h : hit) : event :=
  if truthy (grp 4 h) then EvText (grp 4 h)
  else if truthy (grp 2 h) then
    if truthy (grp 1 h) then EvClose (grp 2 h)
    else EvOpen (grp 2 h) (grp 3 h)
  else EvNone.

(** An element under construction, on the open-element stack. *)
Record frame : Type := mkFrame {
  ftag : str;
  fattrs : obj;
  fchildren : list Node
}.

(** The builder state: the root array [nodes] and [stack], top first.
    The variable [current] of the source always aliases the children of
    the top frame, or [nodes] when the stack is empty; pushing to
    [current] is [push_current]. *)
Record bstate : Type := mkState {
  nodes : list Node;
  stack : list frame
}.

Definition init : bstate := mkState [] [].

Definition push_current (n : Node) (st : bstate) : bstate :=
  match stack st with
  | [] => mkState (nodes st ++ [n]) []
  | f :: rest =>
      mkState (nodes st) (mkFrame (ftag f) (fattrs f) (fchildren f ++ [n]) :: rest)
  end.

Definition keys_nonempty (o : obj) : bool :=
  match o with [] => false | _ :: _ => true end.

(** [{ tag }], plus [attrs] when it has keys, plus [children] when not
    empty. *)
Definition finalize (completed : frame) : Node :=
  NElem (ftag completed)
        (if keys_nonempty (fattrs completed) then Some (fattrs completed) else None)
        (match fchildren completed with [] => None | l => Some l end).

(** [stack.pop()] and the push of the finished element to its parent;
    nothing happens on an empty stack. *)
Definition close_top (st : bstate) : bstate :=
  match stack st with
  | [] => st
  | completed :: rest => push_current (finalize completed) (mkState (nodes st) rest)
  end.

(** The inner loop over [attrRegex]. *)
Definition parseAttrs (attrString : str) : option obj :=
  match exec_all attrRegex attrString with
  | Some hs => Some (fold_left (fun o h => obj_set (grp 1 h) (grp 2 h) o) hs [])
  | None => None
  end.

Definition voidTags : list str := [u "br"; u "hr"; u "img"].

Definition isSelfClosing (tag attrString : str) : bool :=
  existsb (str_eqb tag) voidTags || includes (code "/") attrString.

Definition open_tag (tag attrString : str) (attrs : obj) (st : bstate) : bstate :=
  if isSelfClosing tag attrString then
    push_current (NElem tag (if keys_nonempty attrs then Some attrs else None) None) st
  else
    mkState (nodes st) (mkFrame tag attrs [] :: stack st).

(** The body of the main loop of [htmlToNodes]. *)
Definition step (st : bstate) (e : event) : option bstate :=
  match e with
  | EvText text =>
      let trimmedText := text in
      if truthy trimmedText then Some (push_current (NText trimmedText) st)
      else Some st
  | EvClose _ => Some (close_top st)
  | EvOpen tagName attrString =>
      match parseAttrs attrString with
      | Some attrs => Some (open_tag (toLowerCase tagName) attrString attrs st)
      | None => None
      end
  | EvNone => Some st
  end.

Fixpoint run (f : bstate -> event -> option bstate) (st : bstate)
  (es : list event) : option bstate :=
  match es with
  | [] => Some st
  | e :: r => match f st e with
              | Some st' => run f st' r
              | None => None
              end
  end.

(** [while (stack.length > 0) { ... }] after the main loop. *)
Fixpoint unwind (n : nat) (st : bstate) : bstate :=
  match n with
  | O => st
  | S n' => match stack st with
            | [] => st
            | _ :: _ => unwind n' (close_top st)
            end
  end.

Definition finish (st : bstate) : list Node :=
  nodes (unwind (length (stack st)) st).

Definition tokenize (html : str) : option (list event) :=
  option_map (map classify) (exec_all tagRegex html).

Definition build (f : bstate -> event -> option bstate) (html : str)
  : option (list Node) :=
  match tokenize html with
  | Some es => option_map finish (run f init es)
  | None => None
  end.

Definition htmlToNodes (html : str) : option (list Node) := build step html.

(** ** The second builder ([parseHtmlToNodes], templates.ts 349-419) *)

(** The body of the main loop of [parseHtmlToNodes]: as [step], except
    that a text run is trimmed and dropped when nothing is left. *)
Definition parse_step (st : bstate) (e : event) : option bstate :=
  match e with
  | EvText text =>
      let trimmed := trim text in
      if truthy trimmed then Some (push_current (NText trimmed) st)
      else Some st
  | EvClose _ => Some (close_top st)
  | EvOpen tagName attrString =>
      match parseAttrs attrString with
      | Some attrs => Some (open_tag (toLowerCase tagName) attrString attrs st)
      | None => None
      end
  | EvNone => Some st
  end.

Definition parseHtmlToNodes (html : str) : option (list Node) :=
  build parse_step html.

(** ** Tree serializers (utils.ts 282-398) *)

Definition tag_is (tag : str) (names : list string) : bool :=
  existsb (fun n => str_eqb tag (u n)) names.

(** [node.attrs?.key || ''] *)
Definition attrOr (key : string) (attrs : option obj) : str :=
  match attrs with
  | Some o => match obj_get (u key) o with Some v => v | None => [] end
  | None => []
  end.

(** The [switch] of [nodeElementToMarkdown], given the Markdown of the
    children. *)
Definition markdownOfElement (tag : str) (attrs : option obj) (children : str)
  : str :=
  if tag_is tag ["h3"%string] then [LF] ++ u "# " ++ children ++ [LF]
  else if tag_is tag ["h4"%string] then [LF] ++ u "## " ++ children ++ [LF]
  else if tag_is tag ["p"%string] then [LF] ++ children ++ [LF]
  else if tag_is tag ["b"; "strong"]%string then u "**" ++ children ++ u "**"
  else if tag_is tag ["i"; "em"]%string then u "*" ++ children ++ u "*"
  else if tag_is tag ["a"%string] then
    u "[" ++ children ++ u "](" ++ attrOr "href" attrs ++ u ")"
  else if tag_is tag ["img"%string] then
    u "![image](" ++ attrOr "src" attrs ++ u ")"
  else if tag_is tag ["ul"; "ol"]%string then [LF] ++ children
  else if tag_is tag ["li"%string] then u "- " ++ children ++ [LF]
  else if tag_is tag ["blockquote"%string] then [LF] ++ u "> " ++ children ++ [LF]
  else if tag_is tag ["code"%string] then u "`" ++ children ++ u "`"
  else if tag_is tag ["pre"%string] then
    [LF] ++ u "```" ++ [LF] ++ children ++ [LF] ++ u "```" ++ [LF]
  else if tag_is tag ["br"%string] then [LF]
  else if tag_is tag ["hr"%string] then [LF] ++ u "---" ++ [LF]
  else if tag_is tag ["s"%string] then u "~~" ++ children ++ u "~~"
  else if tag_is tag ["u"%string] then u "__" ++ children ++ u "__"
  else if tag_is tag ["figure"%string] then children
  else if tag_is tag ["figcaption"%string] then []
  else if tag_is tag ["aside"%string] then [LF] ++ u "> " ++ children ++ [LF]
  else if tag_is tag ["video"; "iframe"]%string then
    [LF] ++ u "[" ++ tag ++ u "](" ++ attrOr "src" attrs ++ u ")" ++ [LF]
  else children.

(** One iteration of the loop of [nodesToMarkdown]; the element case is
    [nodeElementToMarkdown]. *)
Fixpoint nodeToMarkdown (node : Node) : str :=
  match node with
  | NText s => s
  | NElem tag attrs children =>
      markdownOfElement tag attrs
        (match children with
         | Some l => flat_map nodeToMarkdown l
         | None => []
         end)
  end.

Definition nodesToMarkdown (nodes : list Node) : str :=
  flat_map nodeToMarkdown nodes.

Definition nodeElementToMarkdown (tag : str) (attrs : option obj)
  (children : option (list Node)) : str :=
  markdownOfElement tag attrs
    (match children with Some l => nodesToMarkdown l | None => [] end).

(** [' ' + Object.entries(attrs).map(...).join(' ')], or [''] without
    [attrs]. *)
Definition attrsToHtml (attrs : option obj) : str :=
  match attrs with
  | Some o =>
      u " " ++ join (u " ")
        (map (fun kv => fst kv ++ [code "="; DQ] ++ snd kv ++ [DQ]) o)
  | None => []
  end.

Definition htmlOfElement (tag : str) (attrs : option obj) (children : str) : str :=
  if existsb (str_eqb tag) voidTags then
    u "<" ++ tag ++ attrsToHtml attrs ++ u "/>"
  else
    u "<" ++ tag ++ attrsToHtml attrs ++ u ">" ++ children ++ u "</" ++ tag ++ u ">".

Fixpoint nodeToHtml (node : Node) : str :=
  match node with
  | NText s => s
  | NElem tag attrs children =>
      htmlOfElement tag attrs
        (match children with
         | Some l => flat_map nodeToHtml l
         | None => []
         end)
  end.

Definition nodesToHtml (nodes : list Node) : str := flat_map nodeToHtml nodes.

Definition nodeElementToHtml (tag : str) (attrs : option obj)
  (children : option (list Node)) : str :=
  htmlOfElement tag attrs
    (match children with Some l => nodesToHtml l | None => [] end).

(** ** The Markdown rewriter ([markdownToHtml], utils.ts 101-226) *)

(** Decimal numeral of a number, as a template literal prints it. *)
Definition decimal (n : nat) : str :=
  u (NilZero.string_of_uint (Nat.to_uint n)).

(** [s.replace(re, callback)] with a global regex, for a callback that
    updates local state [S]; the callback runs once per match, in
    order. *)
Fixpoint replace_with {S : Type} (f : S -> hit -> S * str) (st : S)
  (l : list seg) : S * str :=
  match l with
  | [] => (st, [])
  | Gap c :: r => let (st', out) := replace_with f st r in (st', c :: out)
  | Hit h :: r =>
      let (st1, rep) := f st h in
      let (st', out) := replace_with f st1 r in (st', rep ++ out)
  end.

(** Line 106: three backticks, any code units lazily (group 1), three
    backticks. *)
Definition fenceRegex : regex :=
  (Str "```" ;; Grp 1 (Star false (Cls anyChar)) ;; Str "```")%re.

(** Line 112: a backtick, one or more code units other than a backtick
    (group 1), a backtick. *)
Definition inlineCodeRegex : regex :=
  (Chr "`" ;; Grp 1 (Plus (Cls (neqc "`"))) ;; Chr "`")%re.

Definition stashCode (prefix : string) (keep : str -> str)
  (table : list str) (h : hit) : list str * str :=
  let table' := table ++ [keep (grp 1 h)] in
  (table', u prefix ++ decimal (length table' - 1) ++ u "__").

(** Lines 118-121 and 141: start of line, the marker, white space, the
    rest of the line (group 1), end of line; flags g and m. *)
Definition lineRegex (marker : string) : regex :=
  (Bol true ;; Str marker ;; Plus (Cls isSpace) ;; Grp 1 (Plus (Cls isDot))
     ;; Eol true)%re.

(** Line 124: a whole line of three or more hyphens. *)
Definition ruleRegex : regex :=
  (Bol true ;; Str "--" ;; Plus (Chr "-") ;; Eol true)%re.

(** Line 127: [!], a bracketed run without closing bracket (group 1,
    possibly empty), a parenthesised non-empty run without closing
    parenthesis (group 2). *)
Definition imageRegex : regex :=
  (Str "![" ;; Grp 1 (Star true (Cls (neqc "]"))) ;; Str "](" ;;
   Grp 2 (Plus (Cls (neqc ")"))) ;; Chr ")")%re.

(** Line 130: as [imageRegex] without the [!] and with a non-empty
    text. *)
Definition linkRegex : regex :=
  (Chr "[" ;; Grp 1 (Plus (Cls (neqc "]"))) ;; Str "](" ;;
   Grp 2 (Plus (Cls (neqc ")"))) ;; Chr ")")%re.

(** Lines 133-134: a doubled delimiter, a non-empty run free of the
    delimiter (group 1), the doubled delimiter. *)
Definition boldRegex (d : ascii) : regex :=
  (Chr d ;; Chr d ;; Grp 1 (Plus (Cls (neqc d))) ;; Chr d ;; Chr d)%re.

(** Lines 137-138: the same with a single delimiter, not preceded and
    not followed by a word code unit. *)
Definition italicRegex (d : ascii) : regex :=
  (NotBehind isWord ;; Chr d ;; Grp 1 (Plus (Cls (neqc d))) ;; Chr d ;;
   NotAhead isWord)%re.

(** Line 151: a hyphen or asterisk at the start, white space, the rest
    (group 1) up to the end of the string; no flag. *)
Definition bulletRegex : regex :=
  (Bol false ;; Cls (fun c => eqc "-" c || eqc "*" c) ;; Plus (Cls isSpace) ;;
   Grp 1 (Plus (Cls isDot)) ;; Eol false)%re.

(** Line 178: digits and a full stop at the start, white space, the rest
    (group 1) up to the end of the string; no flag. *)
Definition numberedRegex : regex :=
  (Bol false ;; Plus (Cls isDigit) ;; Chr "." ;; Plus (Cls isSpace) ;;
   Grp 1 (Plus (Cls isDot)) ;; Eol false)%re.

(** Lines 198 and 203: the placeholder prefix, digits (group 1), two
    underscores. *)
Definition placeholderRegex (prefix : string) : regex :=
  (Str prefix ;; Grp 1 (Plus (Cls isDigit)) ;; Str "__")%re.

(** Line 208: two or more line feeds. *)
Definition blankRegex : regex := (Cls (N.eqb LF) ;; Plus (Cls (N.eqb LF)))%re.

(** [line.match(re)] without the g flag: the first match, if any. *)
Definition match_first (r : regex) (s : str) : option hit :=
  match hits (segments r s) with
  | h :: _ => Some h
  | [] => None
  end.

(** [s.split(sep)] for a one-unit separator string. *)
Fixpoint split_char (sep : char) (cur : str) (s : str) : list str :=
  match s with
  | [] => [rev cur]
  | c :: r => if c =? sep then rev cur :: split_char sep [] r
              else split_char sep (c :: cur) r
  end.

(** [s.split(re)] for a regex without groups that matches no empty
    string: the pieces between the successive matches. *)
Fixpoint split_segs (cur : str) (l : list seg) : list str :=
  match l with
  | [] => [rev cur]
  | Gap c :: r => split_segs (c :: cur) r
  | Hit _ :: r => rev cur :: split_segs [] r
  end.

Definition split_re (r : regex) (s : str) : list str :=
  split_segs [] (segments r s).

(** State of the two list loops (lines 144-168 and 171-195): the item
    buffer, the in-list flag and the output lines. *)
Record listState : Type := mkList {
  items : list str;
  inList : bool;
  processedLines : list str
}.

Definition flushList (tag : string) (st : listState) : list str :=
  processedLines st ++
  [u "<" ++ u tag ++ u ">" ++ join [] (items st) ++ u "</" ++ u tag ++ u ">"].

Definition listLine (re : regex) (tag : string) (st : listState) (line : str)
  : listState :=
  match match_first re line with
  | Some m =>
      mkList (items st ++ [u "<li>" ++ grp 1 m ++ u "</li>"]) true
             (processedLines st)
  | None =>
      let st' := if inList st
                 then mkList [] false (flushList tag st)
                 else st in
      mkList (items st') (inList st') (processedLines st' ++ [line])
  end.

Definition convertLists (re : regex) (tag : string) (html : str) : str :=
  let st := fold_left (listLine re tag) (split_char LF [] html)
                      (mkList [] false []) in
  join [LF] (if inList st then flushList tag st else processedLines st).

(** [`<tag>${table[parseInt(index)]}</tag>`]: a missing entry prints as
    [undefined]. *)
Definition restoreCode (tag : string) (table : list str) (h : hit) : str :=
  u "<" ++ u tag ++ u ">" ++
  match nth_error table (N.to_nat (parseDigits 0 (grp 1 h))) with
  | Some code => code
  | None => u "undefined"
  end ++ u "</" ++ u tag ++ u ">".

Definition startsWith (c : char) (s : str) : bool :=
  match s with x :: _ => x =? c | [] => false end.
Definition endsWith (c : char) (s : str) : bool := startsWith c (rev s).

Definition wrapParagraph (para : str) : str :=
  let trimmed := trim para in
  if startsWith (code "<") trimmed && endsWith (code ">") trimmed then trimmed
  else if negb (truthy trimmed) then []
  else u "<p>" ++ trimmed ++ u "</p>".

(** Lines 117-121: the four heading passes, longest marker first. *)
Definition convertHeaders (html : str) : str :=
  let html := replace (lineRegex "####") (fun m => u "<h4>" ++ grp 1 m ++ u "</h4>") html in
  let html := replace (lineRegex "###") (fun m => u "<h4>" ++ grp 1 m ++ u "</h4>") html in
  let html := replace (lineRegex "##") (fun m => u "<h4>" ++ grp 1 m ++ u "</h4>") html in
  replace (lineRegex "#") (fun m => u "<h3>" ++ grp 1 m ++ u "</h3>") html.

(** Lines 123-141: rules, images, links, bold, italic and block
    quotes, in this order. *)
Definition convertSpans (html : str) : str :=
  let html := replace ruleRegex (fun _ => u "<hr/>") html in
  let html := replace imageRegex
    (fun m => u "<figure><img src=" ++ [DQ] ++ grp 2 m ++ [DQ] ++ u "/><figcaption>"
              ++ grp 1 m ++ u "</figcaption></figure>") html in
  let html := replace linkRegex
    (fun m => u "<a href=" ++ [DQ] ++ grp 2 m ++ [DQ] ++ u ">" ++ grp 1 m ++ u "</a>")
    html in
  let html := replace (boldRegex "*") (fun m => u "<b>" ++ grp 1 m ++ u "</b>") html in
  let html := replace (boldRegex "_") (fun m => u "<b>" ++ grp 1 m ++ u "</b>") html in
  let html := replace (italicRegex "*") (fun m => u "<i>" ++ grp 1 m ++ u "</i>") html in
  let html := replace (italicRegex "_") (fun m => u "<i>" ++ grp 1 m ++ u "</i>") html in
  replace (lineRegex ">") (fun m => u "<blockquote>" ++ grp 1 m ++ u "</blockquote>") html.

(** Lines 207-223: the chunks between blank lines, each wrapped unless
    it already looks like an element, the empty ones dropped. *)
Definition wrapParagraphs (html : str) : str :=
  let paragraphs := split_re blankRegex html in
  join [LF] (filter truthy (map wrapParagraph paragraphs)).

Definition markdownToHtml (markdown : str) : str :=
  let html := markdown in
  let (codeBlocks, html) :=
    replace_with (stashCode "__CODEBLOCK_" trim) [] (segments fenceRegex html) in
  let (inlineCodes, html) :=
    replace_with (stashCode "__INLINECODE_" (fun c => c)) []
                 (segments inlineCodeRegex html) in
  let html := convertHeaders html in
  let html := convertSpans html in
  let html := convertLists bulletRegex "ul" html in
  let html := convertLists numberedRegex "ol" html in
  let html := replace (placeholderRegex "__CODEBLOCK_") (restoreCode "pre" codeBlocks) html in
  let html := replace (placeholderRegex "__INLINECODE_") (restoreCode "code" inlineCodes) html in
  wrapParagraphs html.

(** ** [JSON.parse] and the format dispatcher ([parseContent], utils.ts 235-258) *)

(** A JSON value.  A number is kept as its literal: which double it
    rounds to plays no part here. *)
#[warnings="-register-all"]
Inductive json : Type :=
| JNull
| JBool (b : bool)
| JNum (literal : str)
| JStr (s : str)
| JArr (l : list json)
| JObj (l : list (str * json)).

Inductive jtoken : Type :=
| TLBracket | TRBracket | TLBrace | TRBrace | TColon | TComma
| TValue (v : json)
| TBad.

Definition isHex (c : char) : bool :=
  isDigit c || inRange 65 70 c || inRange 97 102 c.
Definition hexVal (c : char) : N :=
  if isDigit c then c - 48 else if inRange 65 70 c then c - 55 else c - 87.

(** The single-character escapes of a JSON string. *)
Definition unescape (e : char) : option char :=
  if e =? 34 then Some 34 else if e =? 92 then Some 92
  else if e =? 47 then Some 47 else if e =? 98 then Some 8
  else if e =? 102 then Some 12 else if e =? 110 then Some 10
  else if e =? 114 then Some 13 else if e =? 116 then Some 9
  else None.

(** The rest of a string literal after its opening quote: the decoded
    string and the number of code units read, closing quote included. *)
Fixpoint lex_string (s : str) (acc : str) (n : nat) : option (str * nat) :=
  match s with
  | [] => None
  | c :: r =>
      if c =? 34 then Some (rev acc, S n)
      else if c =? 92 then
        match r with
        | [] => None
        | e :: r' =>
            if e =? 117 then
              match r' with
              | h1 :: h2 :: h3 :: h4 :: r'' =>
                  if isHex h1 && isHex h2 && isHex h3 && isHex h4 then
                    lex_string r''
                      (4096 * hexVal h1 + 256 * hexVal h2 + 16 * hexVal h3 + hexVal h4 :: acc)
                      (6 + n)
                  else None
              | _ => None
              end
            else match unescape e with
                 | Some x => lex_string r' (x :: acc) (2 + n)
                 | None => None
                 end
        end
      else if c <? 32 then None
      else lex_string r (c :: acc) (S n)
  end.

Fixpoint dropDigits (s : str) : str :=
  match s with
  | c :: r => if isDigit c then dropDigits r else s
  | [] => []
  end.

(** One or more digits, then the rest. *)
Definition digits1 (s : str) : option str :=
  match s with
  | c :: r => if isDigit c then Some (dropDigits r) else None
  | [] => None
  end.

Definition validExp (s : str) : bool :=
  match s with
  | [] => true
  | e :: r =>
      if (e =? 101) || (e =? 69) then
        let r' := match r with
                  | sg :: r0 => if (sg =? 43) || (sg =? 45) then r0 else r
                  | [] => r
                  end in
        match digits1 r' with Some [] => true | _ => false end
      else false
  end.

Definition validFrac (s : str) : bool :=
  match s with
  | c :: r =>
      if c =? 46 then
        match digits1 r with Some r' => validExp r' | None => false end
      else validExp s
  | [] => true
  end.

(** The JSON number grammar: optional minus, [0] or a numeral without
    leading zero, optional fraction, optional exponent. *)
Definition validNumber (s : str) : bool :=
  let s1 := match s with c :: r => if c =? 45 then r else s | [] => s end in
  match s1 with
  | c :: r =>
      if c =? 48 then validFrac r
      else if inRange 49 57 c then validFrac (dropDigits r)
      else false
  | [] => false
  end.

Definition isNumberish (c : char) : bool :=
  isDigit c || (c =? 45) || (c =? 43) || (c =? 46) || (c =? 101) || (c =? 69).

Fixpoint takeWhile (p : char -> bool) (s : str) : str :=
  match s with
  | c :: r => if p c then c :: takeWhile p r else []
  | [] => []
  end.

Fixpoint prefixb (p s : str) : bool :=
  match p, s with
  | [], _ => true
  | x :: p', y :: s' => (x =? y) && prefixb p' s'
  | _, [] => false
  end.

Definition isJsonSpace (c : char) : bool :=
  (c =? 32) || (c =? 9) || (c =? 10) || (c =? 13).

(** The token that starts at the head of [s], with its length; [None]
    on white space. *)
Definition token_at (s : str) : option (jtoken * nat) :=
  match s with
  | [] => None
  | c :: r =>
      if isJsonSpace c then None
      else if c =? 91 then Some (TLBracket, 1%nat)
      else if c =? 93 then Some (TRBracket, 1%nat)
      else if c =? 123 then Some (TLBrace, 1%nat)
      else if c =? 125 then Some (TRBrace, 1%nat)
      else if c =? 58 then Some (TColon, 1%nat)
      else if c =? 44 then Some (TComma, 1%nat)
      else if c =? 34 then
        match lex_string r [] 1 with
        | Some (v, n) => Some (TValue (JStr v), n)
        | None => Some (TBad, 1%nat)
        end
      else if isNumberish c then
        let lit := takeWhile isNumberish s in
        if validNumber lit then Some (TValue (JNum lit), length lit)
        else Some (TBad, 1%nat)
      else if prefixb (u "true") s then Some (TValue (JBool true), 4%nat)
      else if prefixb (u "false") s then Some (TValue (JBool false), 5%nat)
      else if prefixb (u "null") s then Some (TValue JNull, 4%nat)
      else Some (TBad, 1%nat)
  end.

Fixpoint jlex (s : str) (skip : nat) : list jtoken :=
  match s with
  | [] => []
  | _ :: r =>
      match skip with
      | S k => jlex r k
      | O => match token_at s with
             | Some (t, n) => t :: jlex r (n - 1)
             | None => jlex r 0
             end
      end
  end.

(** An array or object under construction; [key] is the key whose value
    is being read. *)
Inductive jctx : Type :=
| CArr (done : list json)
| CObj (done : list (str * json)) (key : str).

Inductive jmode : Type :=
| WantValue | WantValueOrEnd | WantKey | WantKeyOrEnd
| WantColon (key : str) | AfterValue | Finished (v : json) | Failed.

Definition complete (v : json) (stk : list jctx) : list jctx * jmode :=
  match stk with
  | [] => ([], Finished v)
  | CArr done :: rest => (CArr (done ++ [v]) :: rest, AfterValue)
  | CObj done key :: rest => (CObj (obj_define key v done) key :: rest, AfterValue)
  end.

Definition jstep (st : list jctx * jmode) (t : jtoken) : list jctx * jmode :=
  let (stk, mode) := st in
  match mode, t with
  | (WantValue | WantValueOrEnd), TValue v => complete v stk
  | (WantValue | WantValueOrEnd), TLBracket => (CArr [] :: stk, WantValueOrEnd)
  | (WantValue | WantValueOrEnd), TLBrace => (CObj [] [] :: stk, WantKeyOrEnd)
  | WantValueOrEnd, TRBracket =>
      match stk with
      | CArr done :: rest => complete (JArr done) rest
      | _ => (stk, Failed)
      end
  | (WantKey | WantKeyOrEnd), TValue (JStr k) => (stk, WantColon k)
  | WantKeyOrEnd, TRBrace =>
      match stk with
      | CObj done _ :: rest => complete (JObj done) rest
      | _ => (stk, Failed)
      end
  | WantColon k, TColon =>
      match stk with
      | CObj done _ :: rest => (CObj done k :: rest, WantValue)
      | _ => (stk, Failed)
      end
  | AfterValue, TComma =>
      match stk with
      | CArr _ :: _ => (stk, WantValue)
      | CObj _ _ :: _ => (stk, WantKey)
      | [] => (stk, Failed)
      end
  | AfterValue, TRBracket =>
      match stk with
      | CArr done :: rest => complete (JArr done) rest
      | _ => (stk, Failed)
      end
  | AfterValue, TRBrace =>
      match stk with
      | CObj done _ :: rest => complete (JObj done) rest
      | _ => (stk, Failed)
      end
  | _, _ => (stk, Failed)
  end.

(** [JSON.parse(text)]: the value, or [None] where it throws a
    [SyntaxError]. *)
Definition JSON_parse (text : str) : option json :=
  match fold_left jstep (jlex text 0) ([], WantValue) with
  | (_, Finished v) => Some v
  | _ => None
  end.

Inductive format : Type := Html | Markdown.

(** What [parseContent] returns: a content tree, or whatever array
    [JSON.parse] produced. *)
Inductive result : Type :=
| Tree (nodes : list Node)
| ParsedArray (items : list json).

(** [content] is a string ([inl]) or already a node array ([inr]).  The
    [try] block swallows the [SyntaxError] of [JSON.parse]. *)
Definition parseContent (content : str + list Node) (fmt : format)
  : option result :=
  match content with
  | inr nodes => Some (Tree nodes)
  | inl text =>
      match JSON_parse text with
      | Some (JArr parsed) => Some (ParsedArray parsed)
      | _ =>
          let htmlContent :=
            match fmt with
            | Markdown => markdownToHtml text
            | Html => text
            end in
          option_map Tree (htmlToNodes htmlContent)
      end
  end.

(** ** [nodesToJson] (utils.ts 266-274) *)

(** The callback of [nodes.map]: a string is returned as it is; for an
    element the result is a fresh object with [tag], with [attrs] when
    the node has one with at least one key, and with [children], itself
    converted, when the node has a non-empty array. *)
Fixpoint nodeToJson (node : Node) : Node :=
  match node with
  | NText s => NText s
  | NElem tag attrs children =>
      NElem tag
        (match attrs with
         | Some o => if keys_nonempty o then Some o else None
         | None => None
         end)
        (match children with
         | Some (c :: l) => Some (map nodeToJson (c :: l))
         | _ => None
         end)
  end.

Definition nodesToJson (nodes : list Node) : list Node := map nodeToJson nodes.

(** ** Page templates ([src/templates.ts]) *)

(** The values a caller puts in the [data] object of a template: [null],
    a string, or an array whose elements are strings or objects with
    string properties.  A key the object does not have reads as
    [undefined], which is [None] below. *)
Inductive element : Type :=
| EStr (s : str)
| EObj (o : obj).

Inductive value : Type :=
| VNull
| VStr (s : str)
| VArr (l : list element).

Definition data := list (str * value).

(** What a call can do: return, throw, or never come back. *)
Inductive exn : Type :=
| Error (message : str)
| TypeError.

Inductive outcome (A : Type) : Type :=
| Returns (a : A)
| Throws (e : exn)
| Loops.
Arguments Returns {A} a.
Arguments Throws {A} e.
Arguments Loops {A}.

(** One statement after another: what [f] does with the value of [x],
    unless [x] throws or never comes back. *)
Definition andThen {A B : Type} (x : outcome A) (f : A -> outcome B) : outcome B :=
  match x with
  | Returns a => f a
  | Throws e => Throws e
  | Loops => Loops
  end.

(** [data.key] *)
Definition field (key : string) (d : data) : option value := obj_get (u key) d.

(** [x.key] for an array element [x]: a string has no such property. *)
Definition prop (key : string) (x : element) : option value :=
  match x with
  | EStr _ => None
  | EObj o => option_map VStr (obj_get (u key) o)
  end.

(** [String(x)] for an array element, as a template literal and
    [Array.prototype.join] compute it.  An object is printed by the
    [toString] it inherits from [Object.prototype]; when it has a
    property named [toString] of its own, that property is a string here
    and cannot be called, [valueOf] (own or inherited) gives no primitive
    value either, and a [TypeError] is thrown. *)
Definition showElement (x : element) : outcome str :=
  match x with
  | EStr s => Returns s
  | EObj o => if obj_has (u "toString") o then Throws TypeError
              else Returns (u "[object Object]")
  end.

(** The elements of an array printed one after the other, as
    [Array.prototype.join] does. *)
Fixpoint showAll (l : list element) : outcome (list str) :=
  match l with
  | [] => Returns []
  | x :: r =>
      andThen (showElement x) (fun s =>
      andThen (showAll r) (fun ss => Returns (s :: ss)))
  end.

(** [`${v}`]: the string a template literal prints for a value. *)
Definition show (v : option value) : outcome str :=
  match v with
  | None => Returns (u "undefined")
  | Some VNull => Returns (u "null")
  | Some (VStr s) => Returns s
  | Some (VArr l) => andThen (showAll l) (fun ss => Returns (join (u ",") ss))
  end.

(** [if (v)] *)
Definition truthyValue (v : option value) : bool :=
  match v with
  | Some (VStr s) => truthy s
  | Some (VArr _) => true
  | _ => false
  end.

(** [v && v.length > 0] *)
Definition nonEmpty (v : option value) : bool :=
  match v with
  | Some (VStr s) => truthy s
  | Some (VArr l) => match l with [] => false | _ :: _ => true end
  | _ => false
  end.

Definition isHighSurrogate (c : char) : bool := inRange 55296 56319 c.
Definition isLowSurrogate (c : char) : bool := inRange 56320 57343 c.

(** The string iterator: one element per code point. *)
Fixpoint codePoints (s : str) : list str :=
  match s with
  | [] => []
  | c :: r =>
      match r with
      | d :: r' =>
          if isHighSurrogate c && isLowSurrogate d
          then [c; d] :: codePoints r'
          else [c] :: codePoints r
      | [] => [[c]]
      end
  end.

(** [for (const x of v)]: the elements visited, or [None] where the
    loop throws a [TypeError] because [v] is not iterable. *)
Definition iterate (v : option value) : option (list element) :=
  match v with
  | Some (VArr l) => Some l
  | Some (VStr s) => Some (map EStr (codePoints s))
  | _ => None
  end.

(** [for (let i = 0; i < v.length; i++) { ... v[i] ... }]: the elements
    visited, or [None] where reading [length] throws. *)
Definition indexed (v : option value) : option (list element) :=
  match v with
  | Some (VArr l) => Some l
  | Some (VStr s) => Some (map (fun c => EStr [c]) s)
  | _ => None
  end.

Inductive fieldType : Type := TString | TStringArray.

Record TemplateField : Type := mkField {
  fieldName : str;
  fieldDescription : str;
  required : bool;
  fieldType_ : fieldType
}.

Record Template : Type := mkTemplate {
  name : str;
  description : str;
  fields : list TemplateField;
  generate : data -> outcome str
}.

(** [html += `<tag>${text}</tag>\n`] *)
Definition addLine (html : str) (tag : string) (text : str) : str :=
  html ++ u "<" ++ u tag ++ u ">" ++ text ++ u "</" ++ u tag ++ u ">" ++ [LF].

(** A [for] loop over the elements [l] whose body appends to [html]. *)
Definition forEach {T : Type} (l : list T) (html : str)
  (body : str -> T -> outcome str) : outcome str :=
  fold_left (fun acc x => andThen acc (fun html => body html x)) l (Returns html).

(** [for (const item of l) { html += `<li>${item}</li>\n`; }] *)
Definition addItems (html : str) (l : list element) : outcome str :=
  forEach l html (fun html item =>
    andThen (showElement item) (fun text => Returns (addLine html "li" text))).

(** [if (v) { html += `<t1>label</t1>\n<t2>${v}</t2>\n`; }] *)
Definition addOptional (html : str) (t1 : string) (label : str) (t2 : string)
  (v : option value) : outcome str :=
  if truthyValue v
  then andThen (show v) (fun text => Returns (addLine (addLine html t1 label) t2 text))
  else Returns html.

(** [blogPostTemplate.generate], lines 49-66. *)
Definition blogPostGenerate (d : data) : outcome str :=
  let title := field "title" d in
  let intro := field "intro" d in
  let sections := field "sections" d in
  let conclusion := field "conclusion" d in
  andThen (show title) (fun title =>
  andThen (show intro) (fun intro =>
  let html := addLine (addLine [] "h3" title) "p" intro in
  match iterate sections with
  | None => Throws TypeError
  | Some l =>
      andThen
        (forEach l html (fun html section =>
           andThen (show (prop "heading" section)) (fun heading =>
           andThen (show (prop "content" section)) (fun content =>
           Returns (addLine (addLine html "h4" heading) "p" content)))))
        (fun html => addOptional html "h4" (u "Conclusion") "p" conclusion)
  end)).

(** [if (v && v.length > 0)], the heading [head], and the list of the
    items of [v] (lines 102-108, 168-190 and 218-224). *)
Definition addList (html : str) (head : str) (v : option value) : outcome str :=
  if nonEmpty v then
    match iterate v with
    | None => Throws TypeError
    | Some l =>
        andThen (addItems (html ++ head ++ u "<ul>" ++ [LF]) l) (fun html =>
        Returns (html ++ u "</ul>" ++ [LF]))
    end
  else Returns html.

(** [documentationTemplate.generate], lines 83-109. *)
Definition documentationGenerate (d : data) : outcome str :=
  let title := field "title" d in
  let overview := field "overview" d in
  let installation := field "installation" d in
  let usage := field "usage" d in
  let apiReference := field "api_reference" d in
  andThen (show title) (fun title =>
  andThen (show overview) (fun overview =>
  let html :=
    addLine (addLine (addLine [] "h3" title) "h4" (u "Overview")) "p" overview in
  andThen (addOptional html "h4" (u "Installation") "pre" installation) (fun html =>
  andThen (addOptional html "h4" (u "Usage") "p" usage) (fun html =>
  addList html (u "<h4>API Reference</h4>" ++ [LF]) apiReference)))).

(** [articleTemplate.generate], lines 124-140. *)
Definition articleGenerate (d : data) : outcome str :=
  let title := field "title" d in
  let subtitle := field "subtitle" d in
  let body := field "body" d in
  andThen (show title) (fun title =>
  let html := addLine [] "h3" title in
  andThen (if truthyValue subtitle
           then andThen (show subtitle) (fun subtitle =>
                  Returns (addLine html "h4" subtitle))
           else Returns html) (fun html =>
  match iterate body with
  | None => Throws TypeError
  | Some l =>
      forEach l html (fun html paragraph =>
        andThen (showElement paragraph) (fun text => Returns (addLine html "p" text)))
  end)).

(** One of the three sections of a changelog, lines 168-190. *)
Definition addChanges (label : string) (v : option value) (html : str)
  : outcome str :=
  addList html (u "<p><strong>" ++ u label ++ u "</strong></p>" ++ [LF]) v.

(** [changelogTemplate.generate], lines 158-193. *)
Definition changelogGenerate (d : data) : outcome str :=
  let title := field "title" d in
  let version := field "version" d in
  let date := field "date" d in
  let added := field "added" d in
  let changed := field "changed" d in
  let fixed := field "fixed" d in
  andThen (show title) (fun title =>
  andThen (show version) (fun version =>
  andThen (show date) (fun date =>
  let html :=
    addLine (addLine [] "h3" title) "h4" (u "Version " ++ version ++ u " - " ++ date) in
  andThen (addChanges "Added:" added html) (fun html =>
  andThen (addChanges "Changed:" changed html) (fun html =>
  addChanges "Fixed:" fixed html))))).

(** The loop over the steps of a tutorial, lines 228-231; [i] is the
    index of the first element of [l]. *)
Fixpoint addSteps (i : nat) (l : list element) (html : str) : outcome str :=
  match l with
  | [] => Returns html
  | step :: r =>
      andThen (show (prop "title" step)) (fun title =>
      andThen (show (prop "content" step)) (fun content =>
      addSteps (S i) r
        (html ++ u "<p><strong>Step " ++ decimal (i + 1) ++ u ": "
              ++ title ++ u "</strong></p>" ++ [LF]
              ++ u "<p>" ++ content ++ u "</p>" ++ [LF])))
  end.

(** [tutorialTemplate.generate], lines 210-238. *)
Definition tutorialGenerate (d : data) : outcome str :=
  let title := field "title" d in
  let description := field "description" d in
  let prerequisites := field "prerequisites" d in
  let steps := field "steps" d in
  let conclusion := field "conclusion" d in
  andThen (show title) (fun title =>
  andThen (show description) (fun description =>
  let html := addLine (addLine [] "h3" title) "p" description in
  andThen (addList html (u "<h4>Prerequisites</h4>" ++ [LF]) prerequisites) (fun html =>
  let html := addLine html "h4" (u "Steps") in
  match indexed steps with
  | None => Throws TypeError
  | Some l =>
      andThen (addSteps 0 l html) (fun html =>
      addOptional html "h4" (u "Conclusion") "p" conclusion)
  end))).

Definition stringField (n d : string) (r : bool) : TemplateField :=
  mkField (u n) (u d) r TString.
Definition arrayField (n d : string) (r : bool) : TemplateField :=
  mkField (u n) (u d) r TStringArray.

Definition blogPostTemplate : Template :=
  mkTemplate (u "blog_post")
    (u "Create a blog post with title, introduction, sections, and optional conclusion")
    [stringField "title" "Post title" true;
     stringField "intro" "Introduction paragraph" true;
     arrayField "sections" "Array of {heading, content} objects" true;
     stringField "conclusion" "Conclusion paragraph" false]
    blogPostGenerate.

Definition documentationTemplate : Template :=
  mkTemplate (u "documentation")
    (u "Create technical documentation with overview, installation, usage, and API reference")
    [stringField "title" "Documentation title" true;
     stringField "overview" "Overview section content" true;
     stringField "installation" "Installation instructions" false;
     stringField "usage" "Usage instructions" false;
     arrayField "api_reference" "Array of API reference items" false]
    documentationGenerate.

Definition articleTemplate : Template :=
  mkTemplate (u "article")
    (u "Create a simple article with title, optional subtitle, and body paragraphs")
    [stringField "title" "Article title" true;
     stringField "subtitle" "Article subtitle" false;
     arrayField "body" "Array of body paragraphs" true]
    articleGenerate.

Definition changelogTemplate : Template :=
  mkTemplate (u "changelog")
    (u "Create a changelog with version, date, and categorized changes (added, changed, fixed)")
    [stringField "title" "Changelog title" true;
     stringField "version" "Version number" true;
     stringField "date" "Release date" true;
     arrayField "added" "Array of added features" false;
     arrayField "changed" "Array of changes" false;
     arrayField "fixed" "Array of bug fixes" false]
    changelogGenerate.

Definition tutorialTemplate : Template :=
  mkTemplate (u "tutorial")
    (u "Create a step-by-step tutorial with description, prerequisites, steps, and conclusion")
    [stringField "title" "Tutorial title" true;
     stringField "description" "Tutorial description" true;
     arrayField "prerequisites" "Array of prerequisites" false;
     arrayField "steps" "Array of {title, content} objects for each step" true;
     stringField "conclusion" "Conclusion paragraph" false]
    tutorialGenerate.

(** The [templates] object, lines 244-250, in the order of its keys. *)
Definition templates : list (str * Template) :=
  [(u "blog_post", blogPostTemplate);
   (u "documentation", documentationTemplate);
   (u "article", articleTemplate);
   (u "changelog", changelogTemplate);
   (u "tutorial", tutorialTemplate)].

(** The property names every ordinary object inherits from
    [Object.prototype]. *)
Definition inheritedKeys : list str :=
  map u ["constructor"; "__defineGetter__"; "__defineSetter__"; "hasOwnProperty";
         "__lookupGetter__"; "__lookupSetter__"; "isPrototypeOf";
         "propertyIsEnumerable"; "toString"; "valueOf"; "__proto__";
         "toLocaleString"]%string.

(** What [templates[name]] evaluates to: a template, an inherited
    property (a function or, for [__proto__], the prototype; neither is
    [undefined] and neither has [fields]), or [undefined]. *)
Inductive found : Type :=
| Own (t : Template)
| Inherited
| Undefined.

Definition getTemplate (name : str) : found :=
  match obj_get name templates with
  | Some t => Own t
  | None => if existsb (str_eqb name) inheritedKeys then Inherited else Undefined
  end.

(** [listTemplates], lines 285-291. *)
Definition listTemplates : list (str * str * list TemplateField) :=
  map (fun kv => (name (snd kv), description (snd kv), fields (snd kv))) templates.

(** [v === undefined || v === null] *)
Definition isNullish (v : option value) : bool :=
  match v with
  | None | Some VNull => true
  | _ => false
  end.

(** The validation loop of lines 327-331: the name of the first
    required field the data lacks. *)
Fixpoint firstMissing (fs : list TemplateField) (d : data) : option str :=
  match fs with
  | [] => None
  | f :: r =>
      if required f && isNullish (obj_get (fieldName f) d)
      then Some (fieldName f)
      else firstMissing r d
  end.

(** [createFromTemplate], lines 320-340. *)
Definition createFromTemplate (templateName : str) (d : data)
  : outcome (list Node) :=
  match getTemplate templateName with
  | Undefined =>
      Throws (Error (u "Template " ++ [DQ] ++ templateName ++ [DQ] ++ u " not found"))
  | Inherited => Throws TypeError
  | Own template =>
      match firstMissing (fields template) d with
      | Some missing =>
          Throws (Error (u "Required field " ++ [DQ] ++ missing ++ [DQ] ++ u " is missing"))
      | None =>
          andThen (generate template d) (fun html =>
            match parseHtmlToNodes html with
            | Some t => Returns t
            | None => Loops
            end)
      end
  end.

(** ** Export of pages (export.ts) *)

(** The [Page] and [PageList] objects of the API, with the properties
    the export functions read.  [content] is absent unless the service
    returns it. *)
Record Page : Type := mkPage {
  page_title : str;
  page_path : str;
  page_url : str;
  page_content : option (list Node)
}.

Record PageList : Type := mkPageList {
  list_total_count : N;
  list_pages : list Page
}.

(** [ExportedPage], and the same without its [format] as [backupAccount]
    stores it. *)
Record ExportedPage : Type := mkExportedPage {
  exported_title : str;
  exported_path : str;
  exported_url : str;
  exported_format : format;
  exported_content : str
}.

Record BackupPage : Type := mkBackupPage {
  backup_title : str;
  backup_path : str;
  backup_url : str;
  backup_content : str
}.

Record AccountBackup : Type := mkAccountBackup {
  total_count : N;
  exported_count : nat;
  backup_format : format;
  backup_pages : list BackupPage
}.

(** What an awaited call comes to: a value, or the error it rejects
    with. *)
Inductive settled (E A : Type) : Type :=
| Fulfilled (a : A)
| Rejected (e : E).
Arguments Fulfilled {E A} a.
Arguments Rejected {E A} e.

(** An error of [exportPage]: one passed on from the client, or the
    [Error] it creates itself. *)
Inductive exportError (E : Type) : Type :=
| FromClient (e : E)
| NewError (message : str).
Arguments FromClient {E} e.
Arguments NewError {E} message.

(** [params.format || 'markdown'] *)
Definition formatOr (f : option format) : format :=
  match f with Some f => f | None => Markdown end.

(** [Math.min(params.limit || 200, 200)] for a limit that, when given,
    is a non-negative integer: zero is falsy. *)
Definition requestLimit (limit : option N) : N :=
  let limit := match limit with
               | Some 0 | None => 200
               | Some l => l
               end in
  N.min limit 200.

(** Lines 81-86 and 151-156. *)
Definition convertContent (f : format) (content : list Node) : str :=
  match f with
  | Markdown => nodesToMarkdown content
  | Html => nodesToHtml content
  end.

Section Client.
(** The client talks to a remote service: a call is a function of the
    state [world] of that service, which it may change, and is fulfilled
    or rejected with an error of type [E]. *)
Variables (world E : Type).
Variable getPage : str -> bool -> world -> settled E Page * world.
Variable getPageList : str -> N -> N -> world -> settled E PageList * world.

Definition exportPage (path : str) (fmt : option format) (w : world)
  : settled (exportError E) ExportedPage * world :=
  let format := formatOr fmt in
  match getPage path true w with
  | (Rejected e, w) => (Rejected (FromClient e), w)
  | (Fulfilled page, w) =>
      match page_content page with
      | None => (Rejected (NewError (u "Page content not returned")), w)
      | Some content =>
          (Fulfilled (mkExportedPage (page_title page) (page_path page)
                        (page_url page) format (convertContent format content)), w)
      end
  end.

(** The state of the loop of [backupAccount]: the pages exported so far,
    what [console.error] has printed (the path and the error), and the
    service. *)
Record backupState : Type := mkBackupState {
  exportedPages : list BackupPage;
  logged : list (str * E);
  service : world
}.

(** One iteration (lines 140-167). *)
Definition backupPage (format : format) (st : backupState) (pageInfo : Page)
  : backupState :=
  match getPage (page_path pageInfo) true (service st) with
  | (Rejected e, w) =>
      mkBackupState (exportedPages st) (logged st ++ [(page_path pageInfo, e)]) w
  | (Fulfilled page, w) =>
      match page_content page with
      | None => mkBackupState (exportedPages st) (logged st) w
      | Some content =>
          mkBackupState
            (exportedPages st ++
             [mkBackupPage (page_title page) (page_path page) (page_url page)
                           (convertContent format content)])
            (logged st) w
      end
  end.

Definition backupAccount (accessToken : str) (fmt : option format)
  (limit : option N) (w : world)
  : settled E AccountBackup * list (str * E) * world :=
  let format := formatOr fmt in
  match getPageList accessToken 0 (requestLimit limit) w with
  | (Rejected e, w) => (Rejected e, [], w)
  | (Fulfilled pageList, w) =>
      let st := fold_left (backupPage format) (list_pages pageList)
                          (mkBackupState [] [] w) in
      (Fulfilled (mkAccountBackup (list_total_count pageList)
                    (length (exportedPages st)) format (exportedPages st)),
       logged st, service st)
  end.
End Client.

(** ** Derived forms used in the statements *)

(** A regex that cannot match the empty string (a syntactic check). *)
Fixpoint nonnull (r : regex) : bool :=
  match r with
  | Cls _ => true
  | Cat r1 r2 => nonnull r1 || nonnull r2
  | Alt r1 r2 => nonnull r1 && nonnull r2
  | Grp _ r1 => nonnull r1
  | _ => false
  end.

(** [c'] lies [w] further in the same subject string than [c]. *)
Definition reach (c c' : cursor) (w : str) : Prop :=
  before c' = rev w ++ before c /\ after c = w ++ after c'.

(** The events of the main loop when it ends, and the attribute object
    of an opening tag when its loop ends. *)
Definition events (html : str) : list event :=
  map classify (hits (segments tagRegex html)).

Definition attrsOf (attrString : str) : obj :=
  fold_left (fun o h => obj_set (grp 1 h) (grp 2 h) o)
            (hits (segments attrRegex attrString)) [].

(** The loop body when the attribute loop ends (see [parseAttrs_total]). *)
Definition step_total (st : bstate) (e : event) : bstate :=
  match e with
  | EvText text => if truthy text then push_current (NText text) st else st
  | EvClose _ => close_top st
  | EvOpen tagName attrString =>
      open_tag (toLowerCase tagName) attrString (attrsOf attrString) st
  | EvNone => st
  end.

(** What [parseHtmlToNodes] does to the text runs, as a filter on the
    events: each run is trimmed, and dropped when nothing is left. *)
Definition trimEvent (e : event) : list event :=
  match e with
  | EvText text => if truthy (trim text) then [EvText (trim text)] else []
  | _ => [e]
  end.

Definition isTrimmed (e : event) : Prop :=
  match e with
  | EvText text => trim text = text
  | _ => True
  end.

(** A tree in document order: every text leaf and every element, the
    element with its tag, its [attrs] and whether it has a [children]
    field. *)
Inductive item : Type :=
| IText (s : str)
| IElem (tag : str) (attrs : option obj) (hasChildren : bool).

Definition isSome {T : Type} (o : option T) : bool :=
  match o with Some _ => true | None => false end.

Fixpoint outline (n : Node) : list item :=
  match n with
  | NText s => [IText s]
  | NElem tag attrs children =>
      IElem tag attrs (isSome children) ::
      match children with
      | Some l => flat_map outline l
      | None => []
      end
  end.

Definition outlines (t : list Node) : list item := flat_map outline t.

(** The events that add a node: text runs and opening tags. *)
Definition adds_node (e : event) : bool :=
  match e with
  | EvText text => truthy text
  | EvOpen _ _ => true
  | _ => false
  end.

Definition visible (es : list event) : list event := filter adds_node es.

Definition attrsField (o : obj) : option obj :=
  if keys_nonempty o then Some o else None.

(** The node an event accounts for. *)
Definition corr (e : event) (i : item) : Prop :=
  match e, i with
  | EvText text, IText s => s = text
  | EvOpen tagName attrString, IElem tag attrs hasChildren =>
      tag = toLowerCase tagName /\
      attrs = attrsField (attrsOf attrString) /\
      (isSelfClosing tag attrString = true -> hasChildren = false)
  | _, _ => False
  end.

(** The same event up to the letter case of the tag name. *)
Definition sameCase (e1 e2 : event) : Prop :=
  match e1, e2 with
  | EvText t1, EvText t2 => t1 = t2
  | EvClose n1, EvClose n2 => toLowerCase n1 = toLowerCase n2
  | EvOpen n1 a1, EvOpen n2 a2 => toLowerCase n1 = toLowerCase n2 /\ a1 = a2
  | EvNone, EvNone => True
  | _, _ => False
  end.

Definition lowercaseTag (i : item) : Prop :=
  match i with
  | IElem tag _ _ => existsb isUpper tag = false
  | IText _ => True
  end.

Definition voidWithoutChildren (i : item) : Prop :=
  match i with
  | IElem tag _ hasChildren =>
      existsb (str_eqb tag) voidTags = true -> hasChildren = false
  | IText _ => True
  end.

(** ** Notions used in the proofs and in the statements on markup *)

(** A successful match hands the continuation a later cursor of the
    same subject, strictly later when the regex cannot match the empty
    string. *)
Definition sound_matcher {A : Type} (nn : bool)
  (m : cursor -> (cursor -> option A) -> option A) : Prop :=
  forall c k a, m c k = Some a ->
    exists c' w, reach c c' w /\ k c' = Some a /\ (nn = true -> w <> []).

(** The outline of a builder state: the finished part of the tree, then
    each open frame from the outermost to the innermost with what it
    holds so far.  An open frame counts as having children. *)
Definition frame_outline (f : frame) : list item :=
  IElem (ftag f) (attrsField (fattrs f)) true :: outlines (fchildren f).

Fixpoint stack_outline (stk : list frame) : list item :=
  match stk with
  | [] => []
  | f :: rest => stack_outline rest ++ frame_outline f
  end.

Definition state_outline (st : bstate) : list item :=
  outlines (nodes st) ++ stack_outline (stack st).

(** The cursor [w] further than [c], for [w] a prefix of what follows
    [c]. *)
Definition adv (w : str) (c : cursor) : cursor :=
  mkCursor (rev w ++ before c) (skipn (length w) (after c)) (caps c).

(** The order in which a greedy [[p]*] offers its matches to the
    continuation: the longest first. *)
Fixpoint tries {A : Type} (k : cursor -> option A) (c : cursor) (run : str)
  : option A :=
  match run with
  | [] => k c
  | x :: run' =>
      match tries k (adv [x] c) run' with
      | Some a => Some a
      | None => k c
      end
  end.

(** An assertion: it consumes nothing. *)
Definition transparent (r : regex) : bool :=
  match r with
  | Bol _ | Eol _ | NotBehind _ | NotAhead _ => true
  | _ => false
  end.

(** May a match of [r] start at a position where the next code unit is
    [x] ([None]: end of the subject)?  [false] means no. *)
Fixpoint head_ok (r : regex) (x : option char) : bool :=
  match r with
  | Cls p => match x with Some y => p y | None => false end
  | Cat r1 r2 => if transparent r1 then head_ok r2 x else head_ok r1 x
  | Alt r1 r2 => head_ok r1 x || head_ok r2 x
  | Grp _ r1 => head_ok r1 x
  | _ => true
  end.

(** A code unit that means nothing to the Markdown passes: no line
    terminator, backtick, asterisk, underscore or opening bracket. *)
Definition inertChar (c : char) : bool :=
  isDot c && negb (eqc "`" c || eqc "*" c || eqc "_" c || eqc "[" c).

Definition startsSpace (s : str) : bool :=
  match s with [] => false | y :: _ => isSpace y end.

Definition inert (s : str) : Prop := forall y, In y s -> inertChar y = true.

(** A text run, or a tag with its name and raw attribute text. *)
Inductive tok : Type :=
| TkText (text : str)
| TkTag (closing : bool) (name attr : str).

Definition slash (closing : bool) : str := if closing then [code "/"] else [].

Definition render_tok (t : tok) : str :=
  match t with
  | TkText text => text
  | TkTag closing name attr =>
      code "<" :: slash closing ++ name ++ attr ++ [code ">"]
  end.

Definition render (l : list tok) : str := flat_map render_tok l.

Definition startsName (a : str) : bool :=
  match a with [] => false | y :: _ => isNameChar y end.

(** A token the regex reads back as it was written. *)
Definition tok_ok (t : tok) : Prop :=
  match t with
  | TkText text => text <> [] /\ forallb (neqc "<") text = true
  | TkTag _ name attr =>
      name <> [] /\ forallb isNameChar name = true /\
      forallb (neqc ">") attr = true /\ startsName attr = false
  end.

Definition isText (t : tok) : bool :=
  match t with TkText _ => true | TkTag _ _ _ => false end.

(** Every token is readable and no two text runs are adjacent. *)
Fixpoint toks_ok (l : list tok) : Prop :=
  match l with
  | [] => True
  | t :: r =>
      tok_ok t /\
      (isText t = true -> match r with t' :: _ => isText t' = false | [] => True end) /\
      toks_ok r
  end.

Definition tok_hit (t : tok) : hit :=
  match t with
  | TkText text => mkHit text [(4%nat, text)]
  | TkTag closing name attr =>
      mkHit (render_tok t) [(3%nat, attr); (2%nat, name); (1%nat, slash closing)]
  end.

Definition tok_event (t : tok) : event :=
  match t with
  | TkText text => EvText text
  | TkTag true name _ => EvClose name
  | TkTag false name attr => EvOpen name attr
  end.

(** The marker of a heading of a given level, and the tag it maps
    to. *)
Definition hashes (level : nat) : str := repeat (code "#") level.

Definition headingTag (level : nat) : str :=
  match level with
  | 1%nat => u "h3"
  | _ => u "h4"
  end.

(** A heading line: a marker, then white space [ws] and a title [title]
    on the same line, the title not starting with white space. *)
Definition headingLine (ws title : str) : Prop :=
  ws <> [] /\ forallb isSpace ws = true /\ forallb isDot ws = true /\
  title <> [] /\ startsSpace title = false /\ forallb isDot title = true.

(** A title that holds no inline Markdown and no markup. *)
Definition plainTitle (title : str) : Prop :=
  forallb inertChar title = true /\ forallb (neqc "<") title = true.

Definition closingTag (name : str) : tok := TkTag true name [].

Definition validName (name : str) : Prop :=
  name <> [] /\ forallb isNameChar name = true.

Definition notQuote (c : char) : bool := negb (isQuote c).

Definition attrHit (k : str) (q1 : char) (v : str) (q2 : char) : hit :=
  mkHit (k ++ code "=" :: q1 :: v ++ [q2]) [(2%nat, v); (1%nat, k)].

Definition protoKey : str := u "__proto__".

(** [a] is enumerated before [b]: array indices first, in ascending
    order, and no key twice. *)
Definition keyOrder (a b : str) : Prop :=
  a <> b /\
  match arrayIndex a, arrayIndex b with
  | Some n, Some m => n < m
  | None, Some _ => False
  | _, _ => True
  end.

(** The keys of an object that assignments built from [{}]. *)
Fixpoint wfkeys (ks : list str) : Prop :=
  match ks with
  | [] => True
  | k :: r => k <> protoKey /\ Forall (keyOrder k) r /\ wfkeys r
  end.

Definition wfobj (o : obj) : Prop := wfkeys (map fst o).

(** What holds of every attribute read from the raw text [raw]. *)
Definition goodEntry (raw : str) (kv : str * str) : Prop :=
  fst kv <> [] /\ forallb isNameChar (fst kv) = true /\
  forallb notQuote (snd kv) = true /\ incl (snd kv) raw.

(** The attribute text [nodeElementToHtml] writes for an object. *)
Definition attrText (kv : str * str) : str :=
  fst kv ++ [code "="; DQ] ++ snd kv ++ [DQ].

Definition attrsText (o : obj) : str :=
  flat_map (fun kv => code " " :: attrText kv) o.

(** Markup as it is written: text, a tag that stands alone, or an
    element with its opening tag, children and closing tag. *)
#[warnings="-register-all"]
Inductive markup : Type :=
| MText (text : str)
| MSelf (name attr : str)
| MElem (name attr : str) (children : list markup).

Fixpoint tokens (m : markup) : list tok :=
  match m with
  | MText text => [TkText text]
  | MSelf name attr => [TkTag false name attr]
  | MElem name attr children =>
      TkTag false name attr :: flat_map tokens children ++ [TkTag true name []]
  end.

Definition markupText (ms : list markup) : str := render (flat_map tokens ms).

Definition isMText (m : markup) : bool :=
  match m with MText _ => true | _ => false end.

Fixpoint noAdjacentText (ms : list markup) : Prop :=
  match ms with
  | [] => True
  | m :: r =>
      (isMText m = true -> match r with m' :: _ => isMText m' = false | [] => True end)
      /\ noAdjacentText r
  end.

Definition isVoid (tag : str) : bool := existsb (str_eqb tag) voidTags.

Definition slashFree (o : obj) : Prop :=
  Forall (fun kv => includes (code "/") (snd kv) = false) o.

(** Well-formed: every token reads back as written, a tag stands alone
    exactly when the builder takes it for self-closing, an element that
    is not void has no [/] in its attribute values, and no two text runs
    are adjacent. *)
Fixpoint wf (m : markup) : Prop :=
  match m with
  | MText text => tok_ok (TkText text)
  | MSelf name attr =>
      tok_ok (TkTag false name attr) /\
      isSelfClosing (toLowerCase name) attr = true /\
      (isVoid (toLowerCase name) = false -> slashFree (attrsOf attr))
  | MElem name attr children =>
      tok_ok (TkTag false name attr) /\
      isSelfClosing (toLowerCase name) attr = false /\
      (fix all (l : list markup) : Prop :=
         match l with [] => True | c :: r => wf c /\ all r end) children /\
      noAdjacentText children
  end.

Definition wfs (ms : list markup) : Prop := Forall wf ms /\ noAdjacentText ms.

(** The tree the markup stands for. *)
Fixpoint tree (m : markup) : Node :=
  match m with
  | MText text => NText text
  | MSelf name attr =>
      NElem (toLowerCase name) (attrsField (attrsOf attr)) None
  | MElem name attr children =>
      NElem (toLowerCase name) (attrsField (attrsOf attr))
            (match map tree children with [] => None | l => Some l end)
  end.

Definition pushes (ns : list Node) (st : bstate) : bstate :=
  fold_left (fun s n => push_current n s) ns st.

Definition markupEvents (ms : list markup) : list event :=
  map tok_event (flat_map tokens ms).

Definition startsText (l : list tok) : bool :=
  match l with t :: _ => isText t | [] => false end.

Definition endsText (l : list tok) : bool := startsText (rev l).

(** The attribute text the serializer writes for what was read from
    [attr]. *)
Definition canonAttr (attr : str) : str :=
  attrsToHtml (attrsField (attrsOf attr)).

(** The markup the serializer writes for the tree of [m]. *)
Fixpoint canon (m : markup) : markup :=
  match m with
  | MText text => MText text
  | MSelf name attr =>
      if isVoid (toLowerCase name)
      then MSelf (toLowerCase name) (canonAttr attr ++ u "/")
      else MElem (toLowerCase name) (canonAttr attr) []
  | MElem name attr children =>
      MElem (toLowerCase name) (canonAttr attr) (map canon children)
  end.

(** No element carries an [attrs] object without keys. *)
Fixpoint noEmptyAttrs (n : Node) : Prop :=
  match n with
  | NText _ => True
  | NElem _ attrs children =>
      attrs <> Some [] /\
      match children with
      | Some l => (fix all (l : list Node) : Prop :=
                     match l with [] => True | c :: r => noEmptyAttrs c /\ all r end) l
      | None => True
      end
  end.

(** ** Trimming a tree *)

(** What the trimming of [parseHtmlToNodes] amounts to on a finished
    tree: every text leaf is trimmed and dropped when nothing is left,
    and an element left without children loses its [children] field. *)
Fixpoint trimNode (n : Node) : list Node :=
  match n with
  | NText s => if truthy (trim s) then [NText (trim s)] else []
  | NElem tag attrs children =>
      [NElem tag attrs
         (match children with
          | Some l => match flat_map trimNode l with [] => None | l' => Some l' end
          | None => None
          end)]
  end.

Definition trimNodes (t : list Node) : list Node := flat_map trimNode t.

Definition trimFrame (f : frame) : frame :=
  mkFrame (ftag f) (fattrs f) (trimNodes (fchildren f)).

Definition trimState (st : bstate) : bstate :=
  mkState (trimNodes (nodes st)) (map trimFrame (stack st)).

(** The text leaves of a tree, in document order. *)
Fixpoint texts (l : list item) : list str :=
  match l with
  | [] => []
  | IText s :: r => s :: texts r
  | IElem _ _ _ :: r => texts r
  end.

(** A node [nodesToJson] returns as it is, and a builder state that
    holds such nodes only. *)
Definition jsonFixed (n : Node) : Prop := nodeToJson n = n.

Definition jsonFixedState (st : bstate) : Prop :=
  Forall jsonFixed (nodes st) /\
  Forall (fun f => Forall jsonFixed (fchildren f)) (stack st).

(** ** What a regex can consume *)

(** The strings a regex can consume at some position, assertions and
    captures left aside. *)
Inductive lang : regex -> str -> Prop :=
| LEps : lang Eps []
| LCls p x : p x = true -> lang (Cls p) [x]
| LCat r1 r2 w1 w2 : lang r1 w1 -> lang r2 w2 -> lang (Cat r1 r2) (w1 ++ w2)
| LAltL r1 r2 w : lang r1 w -> lang (Alt r1 r2) w
| LAltR r1 r2 w : lang r2 w -> lang (Alt r1 r2) w
| LStarNil g r : lang (Star g r) []
| LStarCons g r w1 w2 : lang r w1 -> lang (Star g r) w2 -> lang (Star g r) (w1 ++ w2)
| LGrp n r w : lang r w -> lang (Grp n r) w
| LBol ml : lang (Bol ml) []
| LEol ml : lang (Eol ml) []
| LNotBehind p : lang (NotBehind p) []
| LNotAhead p : lang (NotAhead p) [].

(** A matcher that hands its continuation a later cursor of the same
    subject, what lies between being in [L]. *)
Definition lang_matcher {A : Type} (L : str -> Prop)
  (m : cursor -> (cursor -> option A) -> option A) : Prop :=
  forall c k a, m c k = Some a ->
    exists c' w, reach c c' w /\ k c' = Some a /\ L w.

(** ** The input as the tokenizer reads it *)

(** A piece of the input: a token, or a [<] that starts no tag, which
    the main loop passes over. *)
Inductive piece : Type :=
| Token (t : tok)
| Stray.

Definition render_piece (p : piece) : str :=
  match p with
  | Token t => render_tok t
  | Stray => [code "<"]
  end.

Definition piece_seg (p : piece) : seg :=
  match p with
  | Token t => Hit (tok_hit t)
  | Stray => Gap (code "<")
  end.

Fixpoint piece_tokens (l : list piece) : list tok :=
  match l with
  | [] => []
  | Token t :: r => t :: piece_tokens r
  | Stray :: r => piece_tokens r
  end.

(** ** What a tree built from markup can hold *)

(** An attribute object as the inner loop leaves it: at least one key
    when it is kept, no key twice, every key a non-empty name other than
    [__proto__], no quote and no [>] in a value. *)
Definition cleanAttrs (o : obj) : Prop :=
  o <> [] /\ NoDup (map fst o) /\
  Forall (fun kv =>
            fst kv <> [] /\ forallb isNameChar (fst kv) = true /\
            fst kv <> u "__proto__" /\
            forallb notQuote (snd kv) = true /\ forallb (neqc ">") (snd kv) = true) o.

Definition cleanItem (i : item) : Prop :=
  match i with
  | IText s => s <> [] /\ forallb (neqc "<") s = true
  | IElem tag attrs _ =>
      tag <> [] /\ forallb isNameChar tag = true /\
      match attrs with Some o => cleanAttrs o | None => True end
  end.

Definition cleanEvent (e : event) : Prop :=
  match e with
  | EvText text => text <> [] /\ forallb (neqc "<") text = true
  | EvOpen tagName attrString =>
      validName tagName /\ forallb (neqc ">") attrString = true
  | _ => True
  end.

(** ** Attributes the Markdown serializer reads *)

(** [href] and [src] are the only attributes [nodeElementToMarkdown]
    looks up. *)
Definition isLinkKey (k : str) : bool := str_eqb k (u "href") || str_eqb k (u "src").

Definition keepLinkAttrs (attrs : option obj) : option obj :=
  option_map (filter (fun kv => isLinkKey (fst kv))) attrs.

Fixpoint keepLinks (n : Node) : Node :=
  match n with
  | NText s => NText s
  | NElem tag attrs children =>
      NElem tag (keepLinkAttrs attrs) (option_map (map keepLinks) children)
  end.



(** ** The markup the templates write *)

Definition textM (s : str) : list markup :=
  match s with [] => [] | _ :: _ => [MText s] end.

(** An element without attributes, and the line feed the templates put
    after every closing tag. *)
Definition el (tag : string) (children : list markup) : markup :=
  MElem (u tag) [] children.

Definition nl : markup := MText [LF].

Definition lines (es : list markup) : list markup :=
  flat_map (fun e => [e; nl]) es.

(** A tag name written in lower case that opens an ordinary element. *)
Definition plainTag (tag : string) : Prop :=
  tok_ok (TkTag false (u tag) []) /\
  isSelfClosing (toLowerCase (u tag)) [] = false /\
  toLowerCase (u tag) = u tag.

(** The element [parseHtmlToNodes] builds from [<tag>text</tag>]. *)
Definition textElement (tag : string) (text : str) : Node :=
  NElem (u tag) None (if truthy (trim text) then Some [NText (trim text)] else None).

(** An element that holds elements only. *)
Definition parent (tag : string) (children : list Node) : Node :=
  NElem (u tag) None (match children with [] => None | _ :: _ => Some children end).

Definition noLt (s : str) : Prop := forallb (neqc "<") s = true.

(** An array element with two string properties. *)
Definition pairObject (k1 k2 : string) (p : str * str) : element :=
  EObj [(u k1, fst p); (u k2, snd p)].

(** The elements built from an optional string and an optional list:
    nothing when the field is absent or empty. *)
Definition whenText (v : option str) (f : str -> list Node) : list Node :=
  match v with
  | Some s => if truthy s then f s else []
  | None => []
  end.

Definition whenItems (v : option (list str)) (f : list str -> list Node) : list Node :=
  match v with
  | Some (i :: l) => f (i :: l)
  | _ => []
  end.

Definition optText (v : option str) : list str :=
  match v with
  | Some s => if truthy s then [s] else []
  | None => []
  end.

Definition optItems (v : option (list str)) : list (list str) :=
  match v with
  | Some (i :: l) => [i :: l]
  | _ => []
  end.

(** The markup and the tree of a list written by the templates. *)
Definition ulOf (items : list str) : markup :=
  el "ul" (nl :: lines (map (fun i => el "li" (textM i)) items)).

Definition ulNode (items : list str) : Node :=
  parent "ul" (map (textElement "li") items).

(** A heading in bold inside a paragraph: [<p><strong>label</strong></p>]. *)
Definition boldOf (label : str) : markup := el "p" [el "strong" (textM label)].

Definition boldNode (label : str) : Node := parent "p" [textElement "strong" label].

Definition textStage (t1 : string) (label : str) (t2 : string) (v : option str)
  : list markup :=
  flat_map (fun s => [el t1 (textM label); el t2 (textM s)]) (optText v).

Definition stepLabel (i : nat) (s : str * str) : str :=
  u "Step " ++ decimal (i + 1) ++ u ": " ++ fst s.

Fixpoint stepLines (i : nat) (steps : list (str * str)) : list markup :=
  match steps with
  | [] => []
  | s :: r => boldOf (stepLabel i s) :: el "p" (textM (snd s)) :: stepLines (S i) r
  end.

(** The nodes of the steps of a tutorial; [i] is the index of the first
    one. *)
Fixpoint stepNodes (i : nat) (steps : list (str * str)) : list Node :=
  match steps with
  | [] => []
  | s :: r => boldNode (stepLabel i s) :: textElement "p" (snd s) :: stepNodes (S i) r
  end.

(** An array element that can be printed: a string, or an object
    without a property named [toString] of its own. *)
Definition printable (x : element) : bool :=
  match x with
  | EStr _ => true
  | EObj o => negb (obj_has (u "toString") o)
  end.

(** Data in which every element of every array can be printed. *)
Definition printableData (d : data) : Prop :=
  Forall (fun kv => match snd kv with
                    | VArr l => forallb printable l = true
                    | _ => True
                    end) d.

(** A call that returns or throws a [TypeError]. *)
Definition mild {A : Type} (x : outcome A) : Prop :=
  match x with
  | Returns _ | Throws TypeError => True
  | _ => False
  end.

(** ** Plain prose *)

(** A code unit that can open a line of prose: no white space and none
    of the characters that open a heading, a quote, a rule, a list item
    or a tag. *)
Definition opensProse (c : char) : bool :=
  negb (isSpace c || eqc "#" c || eqc ">" c || eqc "-" c || eqc "<" c || isDigit c).

(** A line of prose: it opens as above, holds no line terminator, no
    backtick, asterisk, underscore or opening bracket, and does not end
    with white space. *)
Definition prose (p : str) : Prop :=
  match p with c :: _ => opensProse c = true | [] => False end /\
  forallb inertChar p = true /\ trim p = p.

(** The list with [sep] between its elements. *)
Fixpoint between {T : Type} (sep : T) (l : list T) : list T :=
  match l with
  | [] => []
  | [x] => [x]
  | x :: r => x :: sep :: between sep r
  end.

(** Is every code unit that starts a line accepted by [ok]? *)
Fixpoint lineHeadsOk (ok : char -> bool) (atStart : bool) (s : str) : bool :=
  match s with
  | [] => true
  | c :: r => (if atStart then ok c else true) && lineHeadsOk ok (isLineTerminator c) r
  end.

Definition startsLine (bef : str) : bool :=
  match bef with [] => true | x :: _ => isLineTerminator x end.

(** ** Lists *)

(** The text of a list item: not empty, not opening with white space,
    and free of line terminators, backticks, asterisks, underscores and
    opening brackets. *)
Definition listItem (i : str) : Prop :=
  i <> [] /\ startsSpace i = false /\ forallb inertChar i = true.

Definition liText (i : str) : str := u "<li>" ++ i ++ u "</li>".

(** The element a list becomes: one [li] per item, each holding its
    text. *)
Definition listNode (tag : string) (its : list str) : Node :=
  NElem (u tag) None
        (Some (map (fun i => NElem (u "li") None (Some [NText i])) its)).

(** A numbered line: the digits, a full stop, a space, the item. *)
Definition numberedLine (p : str * str) : str := fst p ++ u ". " ++ snd p.

Definition bulletLine (i : str) : str := u "- " ++ i.

(** Where a line can end: at the end of the string or before a line
    feed. *)
Definition lineEnd (rest : str) : Prop := rest = [] \/ exists t, rest = LF :: t.

(** ** Code blocks *)

(** No code unit [c] directly followed by another [c]. *)
Fixpoint noDouble (c : char) (s : str) : bool :=
  match s with
  | x :: r => negb ((x =? c) && startsWith c r) && noDouble c r
  | [] => true
  end.

(** Free of backticks. *)
Definition codeText (s : str) : Prop := forallb (neqc "`") s = true.

(** ** Export *)

(** An exported page without its format. *)
Definition withoutFormat (e : ExportedPage) : BackupPage :=
  mkBackupPage (exported_title e) (exported_path e) (exported_url e)
               (exported_content e).

(** ** Markup with elements left open *)

(** Markup the builder reads as written: text runs without [<], tags
    whose name and raw attribute text the tokenizer takes whole, a tag
    standing alone when the builder treats it as self-closing, an
    element with a closing tag when it does not, and no two text runs in
    a row. *)
Fixpoint readable (m : markup) : Prop :=
  match m with
  | MText text => tok_ok (TkText text)
  | MSelf name attr =>
      tok_ok (TkTag false name attr) /\ isSelfClosing (toLowerCase name) attr = true
  | MElem name attr children =>
      tok_ok (TkTag false name attr) /\
      isSelfClosing (toLowerCase name) attr = false /\
      (fix all (l : list markup) : Prop :=
         match l with [] => True | c :: r => readable c /\ all r end) children /\
      noAdjacentText children
  end.

Definition readables (ms : list markup) : Prop :=
  Forall readable ms /\ noAdjacentText ms.

(** Markup cut off inside its open elements: complete markup, or
    complete markup followed by an opening tag that is never closed and
    by what stands inside that element, cut off in the same way. *)
Inductive unclosed : Type :=
| Closed (ms : list markup)
| Open (ms : list markup) (name attr : str) (inner : unclosed).

Fixpoint unclosedTokens (o : unclosed) : list tok :=
  match o with
  | Closed ms => flat_map tokens ms
  | Open ms name attr inner =>
      flat_map tokens ms ++ TkTag false name attr :: unclosedTokens inner
  end.

(** The input as written, without the closing tags. *)
Definition unclosedText (o : unclosed) : str := render (unclosedTokens o).

(** The same markup with every open element closed where the input
    ends. *)
Fixpoint closeAll (o : unclosed) : list markup :=
  match o with
  | Closed ms => ms
  | Open ms name attr inner => ms ++ [MElem name attr (closeAll inner)]
  end.

(** The names of the elements left open, innermost first. *)
Fixpoint openNames (o : unclosed) : list str :=
  match o with
  | Closed _ => []
  | Open _ name _ inner => openNames inner ++ [name]
  end.

Fixpoint readableUnclosed (o : unclosed) : Prop :=
  match o with
  | Closed ms => readables ms
  | Open ms name attr inner =>
      readables ms /\ tok_ok (TkTag false name attr) /\
      isSelfClosing (toLowerCase name) attr = false /\ readableUnclosed inner
  end.

(** ** Malformed input *)

(** No [=] directly followed by a quote: nothing the attribute regex can
    take for a pair. *)
Fixpoint noQuotedPair (s : str) : bool :=
  match s with
  | c :: r =>
      negb (eqc "=" c && match r with q :: _ => isQuote q | [] => false end)
      && noQuotedPair r
  | [] => true
  end.

(** ** Headings among other lines *)

(** A line of a Markdown text: a heading line, given by its level, the
    white space after the marker and the title, or any other line. *)
Inductive mdLine : Type :=
| Heading (level : nat) (ws title : str)
| Other (text : str).

Definition lineText (l : mdLine) : str :=
  match l with
  | Heading level ws title => hashes level ++ ws ++ title
  | Other text => text
  end.

(** The element a heading of a given level and title is rewritten to. *)
Definition headingElement (level : nat) (title : str) : str :=
  u "<" ++ headingTag level ++ u ">" ++ title ++ u "</" ++ headingTag level ++ u ">".

(** The line after the heading passes. *)
Definition lineHtml (l : mdLine) : str :=
  match l with
  | Heading level _ title => headingElement level title
  | Other text => text
  end.

(** A heading line has a level between 1 and 4; another line holds no
    line terminator and does not start with [#]. *)
Definition lineOk (l : mdLine) : Prop :=
  match l with
  | Heading level ws title => (1 <= level <= 4)%nat /\ headingLine ws title
  | Other text => forallb isDot text = true /\ startsWith (code "#") text = false
  end.

(** A block of a text whose blocks are set apart by blank lines: a
    heading with a plain title, or a paragraph of plain prose. *)
Definition blockOk (l : mdLine) : Prop :=
  match l with
  | Heading level ws title =>
      (1 <= level <= 4)%nat /\ headingLine ws title /\ plainTitle title
  | Other text => prose text /\ noLt text
  end.

Definition blockHtml (l : mdLine) : str :=
  match l with
  | Heading level _ title => headingElement level title
  | Other text => u "<p>" ++ text ++ u "</p>"
  end.

Definition blockNode (l : mdLine) : Node :=
  match l with
  | Heading level _ title => NElem (headingTag level) None (Some [NText title])
  | Other text => NElem (u "p") None (Some [NText text])
  end.

(** The line between two heading passes: after the pass of the marker
    of [k + 1] hashes, the headings of a level above [k] are
    rewritten. *)
Definition passText (k : nat) (l : mdLine) : str :=
  match l with
  | Heading level ws title =>
      if (k <? level)%nat then headingElement level title
      else hashes level ++ ws ++ title
  | Other text => text
  end.

(** What the pass of the marker of [k] hashes finds on a line. *)
Definition passHit (k : nat) (l : mdLine) : option hit :=
  match l with
  | Heading level ws title =>
      if (level =? k)%nat
      then Some (mkHit (hashes level ++ ws ++ title) [(1%nat, title)])
      else None
  | Other _ => None
  end.

(** The segments of lines joined by line feeds, given what a regex
    anchored at the start of a line finds on each. *)
Definition lineSegs (lo : str * option hit) : list seg :=
  match snd lo with
  | None => map Gap (fst lo)
  | Some h => [Hit h]
  end.

Fixpoint lineScan (ls : list (str * option hit)) : list seg :=
  match ls with
  | [] => []
  | [lo] => lineSegs lo
  | lo :: r => lineSegs lo ++ Gap LF :: lineScan r
  end.

Definition lineOut (f : hit -> str) (lo : str * option hit) : str :=
  match snd lo with
  | None => fst lo
  | Some h => f h
  end.

(** The markup of a block. *)
Definition blockMarkup (l : mdLine) : markup :=
  match l with
  | Heading level _ title => MElem (headingTag level) [] (textM title)
  | Other text => el "p" (textM text)
  end.

(** * Properties *)

(** ** The matcher *)

Lemma reach_refl c : reach c c [].
Proof. split; reflexivity. Qed.

Lemma reach_trans c1 c2 c3 w1 w2 :
  reach c1 c2 w1 -> reach c2 c3 w2 -> reach c1 c3 (w1 ++ w2).
Proof.
  intros [H1 H2] [H3 H4]. split.
  - rewrite H3, H1, rev_app_distr, app_assoc. reflexivity.
  - rewrite H2, H4, app_assoc. reflexivity.
Qed.

Lemma reach_length c c' w :
  reach c c' w -> length (after c) = (length w + length (after c'))%nat.
Proof. intros [_ H]. rewrite H, length_app. reflexivity. Qed.

Lemma reach_consumed c c' w : reach c c' w -> consumed c c' = w.
Proof.
  intros [H _]. unfold consumed. rewrite H, length_app, length_rev.
  replace (length w + length (before c) - length (before c))%nat
    with (length (rev w) + 0)%nat by (rewrite length_rev; lia).
  rewrite firstn_app_2. simpl. rewrite app_nil_r. apply rev_involutive.
Qed.

Lemma reach_set_cap c c' w n v : reach c c' w -> reach c (set_cap n v c') w.
Proof. intros [H1 H2]. split; assumption. Qed.

Section MatcherFacts.
Variable A : Type.

Lemma star_loop_sound body greedy :
  @sound_matcher A false body ->
  forall n, @sound_matcher A false (fun c k => star_loop body greedy k n c).
Proof.
  intros Hb n. induction n as [|n IH]; intros c k a H.
  - exists c, []. repeat split; [apply H | discriminate].
  - simpl in H.
    assert (Hagain : forall x,
      body c (fun c' => if (length (after c') <? length (after c))%nat
                        then star_loop body greedy k n c' else None) = Some x ->
      exists c' w, reach c c' w /\ k c' = Some x /\ (false = true -> w <> [])).
    { intros x Hx. apply Hb in Hx. destruct Hx as (c1 & w1 & R1 & K1 & _).
      destruct (length (after c1) <? length (after c))%nat; [|discriminate].
      apply IH in K1. destruct K1 as (c2 & w2 & R2 & K2 & _).
      exists c2, (w1 ++ w2). repeat split;
        [apply (reach_trans _ _ _ _ _ R1 R2) | apply (proj2 (reach_trans _ _ _ _ _ R1 R2)) | exact K2 | discriminate]. }
    specialize (Hagain a). destruct greedy.
    + revert Hagain. destruct (body c _) as [x|].
      * intros Hagain. apply Hagain. exact H.
      * intros _. exists c, []. repeat split; [exact H | discriminate].
    + destruct (k c) eqn:E.
      * inversion H; subst. exists c, []. repeat split; [exact E | discriminate].
      * apply Hagain. exact H.
Qed.

Lemma rmatch_sound r : @sound_matcher A (nonnull r) (rmatch r).
Proof.
  induction r as [|p|r1 IH1 r2 IH2|r1 IH1 r2 IH2|g r1 IH1|n r1 IH1|ml|ml|p|p];
    intros c k a H; simpl in H.
  - exists c, []. repeat split; [exact H | discriminate].
  - destruct (after c) as [|x rest] eqn:E; [discriminate|].
    destruct (p x); [|discriminate].
    exists (advance x rest c), [x]. repeat split; simpl; auto. discriminate.
  - apply IH1 in H. destruct H as (c1 & w1 & R1 & K1 & N1).
    apply IH2 in K1. destruct K1 as (c2 & w2 & R2 & K2 & N2).
    exists c2, (w1 ++ w2). split; [exact (reach_trans _ _ _ _ _ R1 R2)|].
    split; [exact K2|]. simpl. intros Hn Hw.
    apply app_eq_nil in Hw. destruct Hw as [-> ->].
    apply orb_true_iff in Hn. destruct Hn as [Hn|Hn]; [apply N1 | apply N2]; auto.
  - destruct (rmatch r1 c k) eqn:E.
    + inversion H; subst. apply IH1 in E. destruct E as (c1 & w1 & R1 & K1 & N1).
      exists c1, w1. repeat split; try apply R1; auto.
      simpl. intros Hn. apply andb_true_iff in Hn. apply N1, Hn.
    + apply IH2 in H. destruct H as (c1 & w1 & R1 & K1 & N1).
      exists c1, w1. repeat split; try apply R1; auto.
      simpl. intros Hn. apply andb_true_iff in Hn. apply N1, Hn.
  - apply (star_loop_sound (rmatch r1) g) in H.
    + exact H.
    + intros c0 k0 a0 H0. apply IH1 in H0.
      destruct H0 as (c1 & w1 & R1 & K1 & _).
      exists c1, w1. repeat split; try apply R1; auto. discriminate.
  - apply IH1 in H. destruct H as (c1 & w1 & R1 & K1 & N1).
    exists (set_cap n (consumed c c1) c1), w1.
    split; [apply reach_set_cap; exact R1|]. split; [exact K1 | exact N1].
  - destruct (at_bol ml c); [|discriminate].
    exists c, []. repeat split; [exact H | discriminate].
  - destruct (at_eol ml c); [|discriminate].
    exists c, []. repeat split; [exact H | discriminate].
  - exists c, []. split; [apply reach_refl|]. split; [|discriminate].
    destruct (before c) as [|x ?]; [exact H|]. destruct (p x); [discriminate | exact H].
  - exists c, []. split; [apply reach_refl|]. split; [|discriminate].
    destruct (after c) as [|x ?]; [exact H|]. destruct (p x); [discriminate | exact H].
Qed.
End MatcherFacts.

(** A match at a position is a prefix of what follows it. *)
Lemma match_at_prefix r bef aft h :
  match_at r bef aft = Some h ->
  exists rest, aft = whole h ++ rest /\ (nonnull r = true -> whole h <> []).
Proof.
  unfold match_at. intros H. apply rmatch_sound in H.
  destruct H as (c' & w & R & K & N). inversion K; subst. simpl.
  rewrite (reach_consumed _ _ _ R). exists (after c'). split; [apply R | exact N].
Qed.

Lemma scan_nonempty r : nonnull r = true ->
  forall aft bef skip, forallb nonempty (hits (scan r bef aft skip)) = true.
Proof.
  intros Hr aft. induction aft as [|x rest IH]; intros bef skip; simpl.
  - destruct skip; [|reflexivity].
    destruct (match_at r bef []) as [h|] eqn:E; [|reflexivity].
    apply match_at_prefix in E. destruct E as (rest & E & N).
    symmetry in E. apply app_eq_nil in E. destruct E as [E _].
    exfalso. apply (N Hr E).
  - destruct skip; [|apply IH].
    destruct (match_at r bef (x :: rest)) as [h|] eqn:E.
    + apply match_at_prefix in E. destruct E as (rest' & E & N).
      destruct (whole h) as [|y w] eqn:W; [exfalso; apply (N Hr eq_refl)|].
      simpl. unfold nonempty at 1. rewrite W. simpl. apply IH.
    + simpl. apply IH.
Qed.

(** The [exec] loop over a regex that cannot match the empty string
    always ends. *)
Lemma exec_all_total r s :
  nonnull r = true -> exec_all r s = Some (hits (segments r s)).
Proof.
  intros Hr. unfold exec_all, segments. rewrite (scan_nonempty r Hr). reflexivity.
Qed.

Lemma tokenize_total html : tokenize html = Some (events html).
Proof. unfold tokenize. rewrite exec_all_total; reflexivity. Qed.

Lemma parseAttrs_total attrString : parseAttrs attrString = Some (attrsOf attrString).
Proof. unfold parseAttrs. rewrite exec_all_total; reflexivity. Qed.

(** ** The tree builder *)

Lemma step_is_total st e : step st e = Some (step_total st e).
Proof.
  destruct e as [t| |n a|]; simpl; try reflexivity.
  - destruct (truthy t); reflexivity.
  - rewrite parseAttrs_total. reflexivity.
Qed.

Lemma run_total (f : bstate -> event -> option bstate) g :
  (forall st e, f st e = Some (g st e)) ->
  forall es st, run f st es = Some (fold_left g es st).
Proof.
  intros Hf es. induction es as [|e es IH]; intros st; simpl; [reflexivity|].
  rewrite Hf. apply IH.
Qed.

Lemma build_total f g html :
  (forall st e, f st e = Some (g st e)) ->
  build f html = Some (finish (fold_left g (events html) init)).
Proof.
  intros Hf. unfold build. rewrite tokenize_total, (run_total f g Hf). reflexivity.
Qed.

Lemma htmlToNodes_total html :
  htmlToNodes html = Some (finish (fold_left step_total (events html) init)).
Proof. apply build_total, step_is_total. Qed.

Lemma outlines_app a b : outlines (a ++ b) = outlines a ++ outlines b.
Proof. apply flat_map_app. Qed.

Lemma outline_push n st :
  state_outline (push_current n st) = state_outline st ++ outline n.
Proof.
  destruct st as [ns [|f rest]]; unfold state_outline, push_current; simpl.
  - rewrite outlines_app. unfold outlines at 2. simpl.
    rewrite !app_nil_r. reflexivity.
  - unfold frame_outline. simpl. rewrite outlines_app.
    unfold outlines at 3. simpl. rewrite app_nil_r, !app_assoc.
    rewrite <- !app_assoc. reflexivity.
Qed.

Lemma corr_flag_weaken e tag attrs :
  corr e (IElem tag attrs true) -> forall b, corr e (IElem tag attrs b).
Proof.
  destruct e; simpl; auto. intros (H1 & H2 & H3) b.
  repeat split; auto. intros H. apply H3 in H. discriminate.
Qed.

Lemma corr_last_weaken vs X tag attrs b :
  Forall2 corr vs (X ++ [IElem tag attrs true]) ->
  Forall2 corr vs (X ++ [IElem tag attrs b]).
Proof.
  intros H. apply Forall2_app_inv_r in H.
  destruct H as (v1 & v2 & H1 & H2 & ->).
  apply Forall2_app; [exact H1|].
  inversion H2 as [|e i l l' He Hl]; subst. inversion Hl; subst.
  constructor; [apply corr_flag_weaken; exact He | constructor].
Qed.

Lemma outline_close vs st :
  Forall2 corr vs (state_outline st) ->
  Forall2 corr vs (state_outline (close_top st)).
Proof.
  destruct st as [ns [|f rest]]; unfold close_top; simpl; [auto|].
  rewrite outline_push. unfold state_outline at 1 2. simpl.
  unfold frame_outline, finalize.
  destruct (fchildren f) as [|n l] eqn:E; simpl.
  - unfold outlines at 2. simpl. rewrite !app_assoc. apply corr_last_weaken.
  - rewrite <- !app_assoc. simpl. auto.
Qed.

Lemma outline_step vs st e :
  Forall2 corr vs (state_outline st) ->
  Forall2 corr (vs ++ visible [e]) (state_outline (step_total st e)).
Proof.
  intros H. destruct e as [t|n|n a|]; simpl.
  - destruct (truthy t) eqn:T.
    + rewrite outline_push. apply Forall2_app; [exact H|].
      constructor; [reflexivity | constructor].
    + rewrite app_nil_r. exact H.
  - rewrite app_nil_r. apply outline_close, H.
  - unfold open_tag. destruct (isSelfClosing (toLowerCase n) a) eqn:S.
    + rewrite outline_push. apply Forall2_app; [exact H|].
      constructor; [|constructor]. simpl. auto.
    + unfold state_outline. simpl. rewrite app_assoc.
      apply Forall2_app; [exact H|]. unfold frame_outline. simpl.
      constructor; [|constructor]. simpl. repeat split; auto.
      rewrite S. discriminate.
  - rewrite app_nil_r. exact H.
Qed.

Lemma visible_app a b : visible (a ++ b) = visible a ++ visible b.
Proof. apply filter_app. Qed.

Lemma outline_run es : forall vs st,
  Forall2 corr vs (state_outline st) ->
  Forall2 corr (vs ++ visible es) (state_outline (fold_left step_total es st)).
Proof.
  induction es as [|e es IH]; intros vs st H.
  - simpl. rewrite app_nil_r. exact H.
  - change (visible (e :: es)) with (visible ([e] ++ es)).
    rewrite visible_app, app_assoc. simpl fold_left.
    apply IH, outline_step, H.
Qed.

Lemma close_top_depth st : length (stack (close_top st)) = pred (length (stack st)).
Proof. destruct st as [ns [|f [|g r]]]; reflexivity. Qed.

Lemma unwind_stack n : forall st,
  (length (stack st) <= n)%nat -> stack (unwind n st) = [].
Proof.
  induction n as [|n IH]; intros st H; simpl.
  - destruct (stack st); [reflexivity | simpl in H; lia].
  - destruct (stack st) eqn:E; [exact E|].
    apply IH. rewrite close_top_depth, E. simpl in *. lia.
Qed.

Lemma outline_unwind vs n : forall st,
  Forall2 corr vs (state_outline st) ->
  Forall2 corr vs (state_outline (unwind n st)).
Proof.
  induction n as [|n IH]; intros st H; simpl; [exact H|].
  destruct (stack st); [exact H|]. apply IH, outline_close, H.
Qed.

(** In document order, the nodes of the finished tree are the text runs
    and opening tags of the input, one for one. *)
Lemma outline_finish es :
  Forall2 corr (visible es) (outlines (finish (fold_left step_total es init))).
Proof.
  pose proof (outline_run es [] init (Forall2_nil corr)) as H. simpl in H.
  apply (outline_unwind _ (length (stack (fold_left step_total es init)))) in H.
  unfold state_outline in H. rewrite unwind_stack in H by lia.
  simpl in H. rewrite app_nil_r in H. exact H.
Qed.

Lemma corr_void vs items :
  Forall2 corr vs items -> Forall voidWithoutChildren items.
Proof.
  induction 1 as [|e i vs items He _ IH]; constructor; [|exact IH].
  destruct e, i; try exact I; try (simpl in He; tauto).
  destruct He as (_ & _ & H). cbv [voidWithoutChildren]. intros V. apply H.
  unfold isSelfClosing. rewrite V. reflexivity.
Qed.

Lemma lowerChar_not_upper c : isUpper (lowerChar c) = false.
Proof.
  unfold lowerChar. destruct (isUpper c) eqn:E; [|exact E].
  unfold isUpper, inRange in *. apply andb_true_iff in E. destruct E as [E1 E2].
  apply N.leb_le in E1, E2. apply andb_false_iff. right. apply N.leb_gt. lia.
Qed.

Lemma toLowerCase_no_upper s : existsb isUpper (toLowerCase s) = false.
Proof.
  induction s as [|c s IH]; simpl; [reflexivity|].
  rewrite lowerChar_not_upper, IH. reflexivity.
Qed.

Lemma corr_lowercase vs items :
  Forall2 corr vs items -> Forall lowercaseTag items.
Proof.
  induction 1 as [|e i vs items He _ IH]; constructor; [|exact IH].
  destruct e, i; try exact I; try (simpl in He; tauto).
  destruct He as (-> & _). apply toLowerCase_no_upper.
Qed.

(** The second builder is the first one run on the trimmed events. *)
Lemma parse_step_trims es : forall st,
  run parse_step st es = run step st (flat_map trimEvent es).
Proof.
  induction es as [|e es IH]; intros st; [reflexivity|].
  destruct e as [t|n|n a|]; simpl.
  - destruct (truthy (trim t)) eqn:T; simpl; [rewrite T|]; apply IH.
  - apply IH.
  - destruct (parseAttrs a); [apply IH | reflexivity].
  - apply IH.
Qed.

Lemma parse_step_trimmed es : Forall isTrimmed es ->
  forall st, run parse_step st es = run step st es.
Proof.
  induction 1 as [|e es He _ IH]; intros st; [reflexivity|].
  destruct e as [t|n|n a|]; simpl in *.
  - rewrite He. destruct (truthy t); apply IH.
  - apply IH.
  - destruct (parseAttrs a); [apply IH | reflexivity].
  - apply IH.
Qed.

Lemma parseHtmlToNodes_trims html :
  parseHtmlToNodes html =
  option_map finish (run step init (flat_map trimEvent (events html))).
Proof.
  unfold parseHtmlToNodes, build. rewrite tokenize_total, parse_step_trims.
  reflexivity.
Qed.

Lemma parseHtmlToNodes_total html :
  parseHtmlToNodes html =
  Some (finish (fold_left step_total (flat_map trimEvent (events html)) init)).
Proof.
  rewrite parseHtmlToNodes_trims, (run_total step step_total step_is_total).
  reflexivity.
Qed.

Lemma sameCase_step st e1 e2 :
  sameCase e1 e2 -> step_total st e1 = step_total st e2.
Proof.
  destruct e1, e2; simpl; try tauto.
  - intros ->. reflexivity.
  - intros [-> ->]. reflexivity.
Qed.

Lemma sameCase_run es1 es2 :
  Forall2 sameCase es1 es2 ->
  forall st, fold_left step_total es1 st = fold_left step_total es2 st.
Proof.
  induction 1 as [|e1 e2 es1 es2 He _ IH]; intros st; simpl; [reflexivity|].
  rewrite (sameCase_step st e1 e2 He). apply IH.
Qed.

Lemma sameCase_trim es1 es2 :
  Forall2 sameCase es1 es2 ->
  Forall2 sameCase (flat_map trimEvent es1) (flat_map trimEvent es2).
Proof.
  induction 1 as [|e1 e2 es1 es2 He _ IH]; simpl; [constructor|].
  apply Forall2_app; [|exact IH].
  destruct e1, e2; simpl in *; try tauto.
  - subst. destruct (truthy (trim text0)); repeat constructor.
  - repeat constructor. exact He.
  - repeat constructor; apply He.
  - repeat constructor.
Qed.

(** Closing every frame that is still open is what the end of the input
    does. *)
Lemma closes_unwind names : forall st,
  length names = length (stack st) ->
  fold_left step_total (map EvClose names) st = mkState (finish st) [].
Proof.
  unfold finish. induction names as [|n names IH]; intros st H; simpl.
  - destruct st as [ns [|f r]]; [reflexivity | discriminate].
  - destruct (stack st) as [|f r] eqn:E; [discriminate|]. simpl.
    rewrite IH.
    + rewrite close_top_depth, E. reflexivity.
    + rewrite close_top_depth, E. simpl in *. lia.
Qed.

(** ** The Markdown serializer *)

Lemma markdown_ol attrs md : markdownOfElement (u "ol") attrs md = LF :: md.
Proof. reflexivity. Qed.

Lemma markdown_ul attrs md : markdownOfElement (u "ul") attrs md = LF :: md.
Proof. reflexivity. Qed.

Lemma markdown_li attrs md : markdownOfElement (u "li") attrs md = u "- " ++ md ++ [LF].
Proof. reflexivity. Qed.

Lemma nodesToMarkdown_cons n l :
  nodesToMarkdown (n :: l) = nodeToMarkdown n ++ nodesToMarkdown l.
Proof. reflexivity. Qed.

Lemma nodeToMarkdown_elem tag attrs children :
  nodeToMarkdown (NElem tag attrs children) = nodeElementToMarkdown tag attrs children.
Proof. reflexivity. Qed.

(** ** Running the matcher on strings that are only partly known *)

Lemma adv_nil c : adv [] c = c.
Proof. destruct c; reflexivity. Qed.

Lemma adv_cons x w b a cs :
  adv (x :: w) (mkCursor b (x :: a) cs) = adv w (mkCursor (x :: b) a cs).
Proof.
  unfold adv. simpl. rewrite <- app_assoc. reflexivity.
Qed.

Lemma adv_app w b a cs :
  adv w (mkCursor b (w ++ a) cs) = mkCursor (rev w ++ b) a cs.
Proof.
  unfold adv. simpl. f_equal.
  induction w as [|x w IH]; simpl; [reflexivity | exact IH].
Qed.

Lemma rmatch_cls_hit {A} p x b a cs (k : cursor -> option A) :
  p x = true ->
  rmatch (Cls p) (mkCursor b (x :: a) cs) k = k (mkCursor (x :: b) a cs).
Proof. intros H. simpl. rewrite H. reflexivity. Qed.

Lemma rmatch_cls_miss {A} p x b a cs (k : cursor -> option A) :
  p x = false -> rmatch (Cls p) (mkCursor b (x :: a) cs) k = None.
Proof. intros H. simpl. rewrite H. reflexivity. Qed.

Lemma rmatch_cls_end {A} p b cs (k : cursor -> option A) :
  rmatch (Cls p) (mkCursor b [] cs) k = None.
Proof. reflexivity. Qed.

(** A greedy star over a class, on a maximal run of the class. *)
Lemma star_cls_tries {A} p (k : cursor -> option A) rest :
  match rest with [] => True | y :: _ => p y = false end ->
  forall run, forallb p run = true ->
  forall n b cs, (length run <= n)%nat ->
  star_loop (rmatch (Cls p)) true k n (mkCursor b (run ++ rest) cs)
  = tries k (mkCursor b (run ++ rest) cs) run.
Proof.
  intros Hrest run. induction run as [|x run IH]; intros Hrun n b cs Hn.
  - simpl. destruct n as [|n]; [reflexivity|]. simpl.
    destruct rest as [|y rest]; [reflexivity|]. rewrite Hrest. reflexivity.
  - simpl in Hrun. apply andb_true_iff in Hrun. destruct Hrun as [Hx Hrun].
    destruct n as [|n]; [simpl in Hn; lia|].
    change ((x :: run) ++ rest) with (x :: run ++ rest).
    cbn [star_loop tries]. rewrite rmatch_cls_hit by exact Hx.
    cbn [after]. replace (length (run ++ rest) <? length (x :: run ++ rest))%nat
      with true by (symmetry; apply Nat.ltb_lt; simpl; lia).
    rewrite IH by (auto; simpl in Hn; lia).
    change (adv [x] (mkCursor b (x :: run ++ rest) cs))
      with (mkCursor (x :: b) (run ++ rest) cs). reflexivity.
Qed.

Lemma rmatch_star_cls {A} p (k : cursor -> option A) run rest b cs :
  forallb p run = true ->
  match rest with [] => True | y :: _ => p y = false end ->
  rmatch (Star true (Cls p)) (mkCursor b (run ++ rest) cs) k
  = tries k (mkCursor b (run ++ rest) cs) run.
Proof.
  intros Hrun Hrest. cbn [rmatch]. apply star_cls_tries; auto.
  cbn [after]. rewrite length_app. lia.
Qed.

Lemma tries_longest {A} (k : cursor -> option A) a : forall run rest b cs,
  k (mkCursor (rev run ++ b) rest cs) = Some a ->
  tries k (mkCursor b (run ++ rest) cs) run = Some a.
Proof.
  intros w. induction w as [|x run IH]; intros rest b cs H; simpl; [exact H|].
  change (adv [x] (mkCursor b (x :: run ++ rest) cs))
    with (mkCursor (x :: b) (run ++ rest) cs).
  rewrite IH; [reflexivity|]. simpl in H. rewrite <- app_assoc in H. exact H.
Qed.

(** When the continuation needs a code unit outside the class next, only
    the longest match can do. *)
Lemma tries_det {A} p (k : cursor -> option A) :
  (forall b y a cs, p y = true -> k (mkCursor b (y :: a) cs) = None) ->
  forall run rest b cs, forallb p run = true ->
  tries k (mkCursor b (run ++ rest) cs) run = k (mkCursor (rev run ++ b) rest cs).
Proof.
  intros Hk w. induction w as [|x run IH]; intros rest b cs Hrun; simpl; [reflexivity|].
  simpl in Hrun. apply andb_true_iff in Hrun. destruct Hrun as [Hx Hrun].
  change (adv [x] (mkCursor b (x :: run ++ rest) cs))
    with (mkCursor (x :: b) (run ++ rest) cs).
  rewrite IH by exact Hrun. rewrite <- app_assoc. simpl.
  destruct (k (mkCursor (rev run ++ x :: b) rest cs)); [reflexivity|].
  apply Hk, Hx.
Qed.

Lemma rmatch_plus_cls {A} p (k : cursor -> option A) x run rest b cs :
  p x = true -> forallb p run = true ->
  match rest with [] => True | y :: _ => p y = false end ->
  rmatch (Plus (Cls p)) (mkCursor b (x :: run ++ rest) cs) k
  = tries k (mkCursor (x :: b) (run ++ rest) cs) run.
Proof.
  intros Hx Hrun Hrest.
  rewrite <- (rmatch_star_cls p k run rest (x :: b) cs Hrun Hrest).
  unfold Plus. cbn [rmatch after]. rewrite Hx. reflexivity.
Qed.

(** No match can start here: the next code unit is not one the regex
    can begin with. *)
Lemma head_fail {A} r : forall c (k : cursor -> option A),
  head_ok r (hd_error (after c)) = false -> rmatch r c k = None.
Proof.
  induction r as [|p|r1 IH1 r2 IH2|r1 IH1 r2 IH2|g r1 IH1|n r1 IH1|ml|ml|p|p];
    intros c k H; simpl in H; try discriminate.
  - simpl. destruct (after c) as [|x a]; [reflexivity|]. simpl in H.
    rewrite H. reflexivity.
  - cbn [rmatch]. destruct r1; simpl in H;
      try (apply IH1; exact H); simpl.
    + destruct (at_bol multiline c); [apply IH2; exact H | reflexivity].
    + destruct (at_eol multiline c); [apply IH2; exact H | reflexivity].
    + destruct (before c) as [|x ?]; [apply IH2; exact H|].
      destruct (p x); [reflexivity | apply IH2; exact H].
    + destruct (after c) as [|x ?] eqn:E; [apply IH2; rewrite E; exact H|].
      destruct (p x); [reflexivity | apply IH2; rewrite E; exact H].
  - apply orb_false_iff in H. destruct H as [H1 H2].
    cbn [rmatch]. rewrite IH1 by exact H1. apply IH2, H2.
  - cbn [rmatch]. apply IH1, H.
Qed.

Lemma match_at_head_fail r bef aft :
  head_ok r (hd_error aft) = false -> match_at r bef aft = None.
Proof. intros H. unfold match_at. apply head_fail. exact H. Qed.

(** A regex anchored at the start of a line matches nowhere else. *)
Lemma match_at_bol_fail ml r bef aft x :
  ml && isLineTerminator x = false ->
  match_at (Cat (Bol ml) r) (x :: bef) aft = None.
Proof. intros H. unfold match_at. cbn [rmatch at_bol before]. rewrite H. reflexivity. Qed.

(** ** Scanning strings that are only partly known *)

Lemma scan_gaps r s : forall bef,
  (forall pre suf, s = pre ++ suf -> match_at r (rev pre ++ bef) suf = None) ->
  scan r bef s 0 = map Gap s.
Proof.
  induction s as [|x s IH]; intros bef H; simpl.
  - pose proof (H [] [] eq_refl) as H0. simpl in H0. rewrite H0. reflexivity.
  - pose proof (H [] (x :: s) eq_refl) as H0. simpl in H0. rewrite H0.
    f_equal. apply IH.
    intros pre suf E. specialize (H (x :: pre) suf). simpl in H.
    rewrite <- app_assoc in H. apply H. rewrite E. reflexivity.
Qed.

Lemma flat_map_gaps (f : hit -> str) s :
  flat_map (fun g => match g with Gap c => [c] | Hit h => f h end) (map Gap s) = s.
Proof. induction s as [|x s IH]; simpl; [reflexivity | rewrite IH; reflexivity]. Qed.

Lemma replace_id r f s :
  (forall pre suf, s = pre ++ suf -> match_at r (rev pre) suf = None) ->
  replace r f s = s.
Proof.
  intros H. unfold replace, segments. rewrite scan_gaps.
  - apply flat_map_gaps.
  - intros pre suf E. rewrite app_nil_r. apply H, E.
Qed.

Lemma scan_skip r w : forall bef rest,
  scan r bef (w ++ rest) (length w) = scan r (rev w ++ bef) rest 0.
Proof.
  induction w as [|x w IH]; intros bef rest; [reflexivity|].
  destruct rest as [|y rest'] eqn:E.
  - simpl. rewrite IH. rewrite <- app_assoc. reflexivity.
  - simpl. rewrite IH. rewrite <- app_assoc. reflexivity.
Qed.

(** A match found at the current position, of known text. *)
Lemma scan_hit r bef x w rest h :
  match_at r bef (x :: w ++ rest) = Some h -> whole h = x :: w ->
  scan r bef (x :: w ++ rest) 0 = Hit h :: scan r (rev w ++ x :: bef) rest 0.
Proof.
  intros H W. cbn [scan]. rewrite H, W. cbn [length]. rewrite scan_skip. reflexivity.
Qed.

Lemma scan_gap r bef x rest :
  match_at r bef (x :: rest) = None ->
  scan r bef (x :: rest) 0 = Gap x :: scan r (x :: bef) rest 0.
Proof. intros H. cbn [scan]. rewrite H. reflexivity. Qed.

(** ** The Markdown passes on inert text *)

Lemma hits_gaps s : hits (map Gap s) = [].
Proof. induction s as [|x s IH]; [reflexivity | exact IH]. Qed.

Lemma replace_with_gaps {S : Type} (f : S -> hit -> S * str) st s :
  replace_with f st (map Gap s) = (st, s).
Proof.
  induction s as [|x s IH]; simpl; [reflexivity|]. rewrite IH. reflexivity.
Qed.

Lemma split_segs_gaps s : forall cur, split_segs cur (map Gap s) = [rev cur ++ s].
Proof.
  induction s as [|x s IH]; intros cur; simpl.
  - rewrite app_nil_r. reflexivity.
  - rewrite IH. simpl. rewrite <- app_assoc. reflexivity.
Qed.

Lemma split_char_none sep s : forall cur,
  (forall y, In y s -> (y =? sep) = false) ->
  split_char sep cur s = [rev cur ++ s].
Proof.
  induction s as [|x s IH]; intros cur H; simpl.
  - rewrite app_nil_r. reflexivity.
  - rewrite (H x (or_introl eq_refl)), IH by (intros y Hy; apply H; right; exact Hy).
    simpl. rewrite <- app_assoc. reflexivity.
Qed.

(** No match starts where the regex cannot begin. *)
Lemma segments_headless r s :
  head_ok r None = false ->
  (forall y, In y s -> head_ok r (Some y) = false) ->
  segments r s = map Gap s.
Proof.
  intros H0 H. apply scan_gaps. intros pre suf E.
  apply match_at_head_fail. destruct suf as [|y suf]; [exact H0|].
  apply H. rewrite E. apply in_or_app. right. left. reflexivity.
Qed.

(** A regex anchored at the start of a line, on text where only the
    very start is the start of a line. *)
Lemma segments_anchored ml r s :
  (forall y, In y s -> ml && isLineTerminator y = false) ->
  match_at (Cat (Bol ml) r) [] s = None ->
  segments (Cat (Bol ml) r) s = map Gap s.
Proof.
  intros H H0. apply scan_gaps. intros pre suf E. rewrite app_nil_r.
  destruct (rev pre) as [|x bef] eqn:R.
  - assert (pre = []) by (rewrite <- (rev_involutive pre), R; reflexivity).
    subst. simpl in *. exact H0.
  - apply match_at_bol_fail. apply H. rewrite E. apply in_or_app. left.
    apply in_rev. rewrite R. left. reflexivity.
Qed.

Lemma replace_gaps r f s : segments r s = map Gap s -> replace r f s = s.
Proof. intros H. unfold replace. rewrite H. apply flat_map_gaps. Qed.

Lemma convertLists_gaps re tag s :
  (forall y, In y s -> (y =? LF) = false) ->
  segments re s = map Gap s ->
  convertLists re tag s = s.
Proof.
  intros Hlf H. unfold convertLists. rewrite split_char_none by exact Hlf.
  simpl. unfold listLine, match_first. rewrite H, hits_gaps. reflexivity.
Qed.

Lemma inert_facts y : inertChar y = true ->
  isLineTerminator y = false /\ eqc "`" y = false /\ eqc "*" y = false /\
  eqc "_" y = false /\ eqc "[" y = false /\ (y =? LF) = false.
Proof.
  unfold inertChar, isDot. intros H. apply andb_true_iff in H. destruct H as [H1 H2].
  apply negb_true_iff in H1, H2.
  apply orb_false_iff in H2. destruct H2 as [H2 H3].
  apply orb_false_iff in H2. destruct H2 as [H2 H4].
  apply orb_false_iff in H2. destruct H2 as [H2 H5].
  repeat split; auto.
  unfold isLineTerminator in H1. apply orb_false_iff in H1. destruct H1 as [H1 _].
  apply orb_false_iff in H1. destruct H1 as [H1 _].
  apply orb_false_iff in H1. destruct H1 as [H1 _]. exact H1.
Qed.

Lemma match_image_fail bef suf :
  (forall y, In y suf -> eqc "[" y = false) -> match_at imageRegex bef suf = None.
Proof.
  intros H. unfold match_at, imageRegex.
  destruct suf as [|x [|y rest]]; cbn [rmatch Str Lit list_ascii_of_string Chr after].
  - reflexivity.
  - destruct (eqc "!" x); reflexivity.
  - destruct (eqc "!" x); [|reflexivity]. unfold advance. cbn [after].
    rewrite (H y); [reflexivity|]. right. left. reflexivity.
Qed.

Section Inert.
Variable s' : str.
Let s := code "<" :: s'.
Hypothesis Hs : inert s.

Lemma inert_not_lt ml y : In y s -> ml && isLineTerminator y = false.
Proof.
  intros Hy. apply Hs, inert_facts in Hy. destruct Hy as [-> _]. apply andb_false_r.
Qed.

Lemma inert_anchored ml r :
  head_ok r None = false -> head_ok r (Some (code "<")) = false ->
  segments (Cat (Bol ml) r) s = map Gap s.
Proof.
  intros H0 H1. apply segments_anchored.
  - intros y. apply inert_not_lt.
  - apply match_at_head_fail. exact H1.
Qed.

Lemma convertHeaders_inert : convertHeaders s = s.
Proof.
  unfold convertHeaders.
  rewrite (replace_gaps (lineRegex "####") _ s) by (apply inert_anchored; reflexivity).
  rewrite (replace_gaps (lineRegex "###") _ s) by (apply inert_anchored; reflexivity).
  rewrite (replace_gaps (lineRegex "##") _ s) by (apply inert_anchored; reflexivity).
  apply replace_gaps, inert_anchored; reflexivity.
Qed.

Lemma convertSpans_inert : convertSpans s = s.
Proof.
  unfold convertSpans.
  rewrite (replace_gaps ruleRegex _ s) by (apply inert_anchored; reflexivity).
  rewrite (replace_gaps imageRegex _ s).
  2:{ apply scan_gaps. intros pre suf E. apply match_image_fail.
      intros y Hy. apply (inert_facts y). apply Hs. rewrite E.
      apply in_or_app. right. exact Hy. }
  rewrite (replace_gaps linkRegex _ s) by (apply segments_headless;
    [reflexivity | intros y Hy; cbn; apply Hs, inert_facts in Hy; tauto]).
  rewrite (replace_gaps (boldRegex "*") _ s) by (apply segments_headless;
    [reflexivity | intros y Hy; cbn; apply Hs, inert_facts in Hy; tauto]).
  rewrite (replace_gaps (boldRegex "_") _ s) by (apply segments_headless;
    [reflexivity | intros y Hy; cbn; apply Hs, inert_facts in Hy; tauto]).
  rewrite (replace_gaps (italicRegex "*") _ s) by (apply segments_headless;
    [reflexivity | intros y Hy; cbn; apply Hs, inert_facts in Hy; tauto]).
  rewrite (replace_gaps (italicRegex "_") _ s) by (apply segments_headless;
    [reflexivity | intros y Hy; cbn; apply Hs, inert_facts in Hy; tauto]).
  apply replace_gaps, inert_anchored; reflexivity.
Qed.

Lemma lists_inert re r tag : re = Cat (Bol false) r ->
  head_ok r None = false -> head_ok r (Some (code "<")) = false ->
  convertLists re tag s = s.
Proof.
  intros -> H0 H1. apply convertLists_gaps.
  - intros y Hy. apply Hs, inert_facts in Hy. tauto.
  - apply inert_anchored; assumption.
Qed.

Lemma restore_inert prefix f : head_ok (placeholderRegex prefix) None = false ->
  (forall y, head_ok (placeholderRegex prefix) (Some y) = eqc "_" y) ->
  replace (placeholderRegex prefix) f s = s.
Proof.
  intros H0 H1. apply replace_gaps, segments_headless; [exact H0|].
  intros y Hy. rewrite H1. apply Hs, inert_facts in Hy. tauto.
Qed.

Lemma wrapParagraphs_element : last s 0 = code ">" -> wrapParagraphs s = s.
Proof.
  intros Hlast. unfold wrapParagraphs.
  assert (G : segments blankRegex s = map Gap s).
  { apply segments_headless; [reflexivity|].
    intros y Hy. change (head_ok blankRegex (Some y)) with (LF =? y).
    apply Hs, inert_facts in Hy.
    destruct Hy as (_ & _ & _ & _ & _ & Hy). rewrite N.eqb_sym. exact Hy. }
  unfold split_re. rewrite G, split_segs_gaps. cbn [rev app map].
  assert (T : trim s = s).
  { unfold trim. assert (E : trimStart s = s) by reflexivity. rewrite E.
    unfold trimEnd. destruct (rev s) as [|z l] eqn:R.
    - apply (f_equal (@rev char)) in R. rewrite rev_involutive in R. discriminate.
    - assert (z = code ">").
      { rewrite <- Hlast. rewrite <- (rev_involutive s), R. simpl.
        rewrite last_last. reflexivity. }
      subst z. cbn [trimStart]. change (isSpace (code ">")) with false. cbn iota.
      rewrite <- R. apply rev_involutive. }
  unfold wrapParagraph. rewrite T.
  assert (E : endsWith (code ">") s = true).
  { unfold endsWith. destruct (rev s) as [|z l] eqn:R.
    - apply (f_equal (@rev char)) in R. rewrite rev_involutive in R. discriminate.
    - assert (z = code ">").
      { rewrite <- Hlast. rewrite <- (rev_involutive s), R. simpl.
        rewrite last_last. reflexivity. }
      subst z. reflexivity. }
  rewrite E. reflexivity.
Qed.
End Inert.

(** ** A heading line through the Markdown passes *)

Lemma rmatch_cat {A} r1 r2 c (k : cursor -> option A) :
  rmatch (Cat r1 r2) c k = rmatch r1 c (fun c' => rmatch r2 c' k).
Proof. reflexivity. Qed.

Lemma rmatch_lit {A} l : forall b a cs (k : cursor -> option A),
  rmatch (Lit l) (mkCursor b (map code l ++ a) cs) k
  = k (mkCursor (rev (map code l) ++ b) a cs).
Proof.
  induction l as [|x l IH]; intros b a cs k; [reflexivity|].
  destruct l as [|y l].
  - cbn [Lit map app rev]. unfold Chr. rewrite rmatch_cls_hit; [reflexivity|].
    unfold eqc. apply N.eqb_refl.
  - change (Lit (x :: y :: l)) with (Cat (Cls (eqc x)) (Lit (y :: l))).
    change (map code (x :: y :: l) ++ a)
      with (code x :: map code (y :: l) ++ a).
    rewrite rmatch_cat, rmatch_cls_hit by (unfold eqc; apply N.eqb_refl).
    rewrite IH. cbn [map rev]. rewrite <- !app_assoc. reflexivity.
Qed.

Lemma rmatch_str {A} marker b a cs (k : cursor -> option A) :
  rmatch (Str marker) (mkCursor b (u marker ++ a) cs) k
  = k (mkCursor (rev (u marker) ++ b) a cs).
Proof. apply rmatch_lit. Qed.

Lemma consumed_mk b a cs w a' cs' :
  consumed (mkCursor b a cs) (mkCursor (rev w ++ b) a' cs') = w.
Proof.
  unfold consumed. cbn [before]. rewrite length_app, length_rev.
  replace (length w + length b - length b)%nat with (length (rev w) + 0)%nat
    by (rewrite length_rev; lia).
  rewrite firstn_app_2. simpl. rewrite app_nil_r. apply rev_involutive.
Qed.

Section Heading.
Variables (w0 : char) (ws' : str) (t0 : char) (title' : str).
Let ws := w0 :: ws'.
Let title := t0 :: title'.
Hypothesis Hws : forallb isSpace ws = true.
Hypothesis Hws_line : forallb isDot ws = true.
Hypothesis Ht0 : isSpace t0 = false.
Hypothesis Htitle : forallb isDot title = true.

(** The heading regex on a line made of its marker, white space and a
    title: one match, the whole line, with the title as group 1. *)
Lemma heading_match marker :
  match_at (lineRegex marker) [] (u marker ++ ws ++ title)
  = Some (mkHit (u marker ++ ws ++ title) [(1%nat, title)]).
Proof.
  unfold match_at, lineRegex. cbn [rmatch at_bol before].
  rewrite rmatch_str. subst ws title.
  pose proof Hws as Hs. cbn [forallb] in Hs. apply andb_true_iff in Hs.
  destruct Hs as [Hw0 Hws'].
  pose proof Htitle as Hd. cbn [forallb] in Hd. apply andb_true_iff in Hd.
  destruct Hd as [Hd0 Hd'].
  change ((w0 :: ws') ++ t0 :: title') with (w0 :: ws' ++ t0 :: title').
  rewrite rmatch_plus_cls by (auto; exact Ht0).
  apply tries_longest. cbn [rmatch].
  rewrite <- (app_nil_r title') at 1.
  rewrite rmatch_plus_cls by auto.
  apply tries_longest. cbn [rmatch at_eol after set_cap before caps].
  f_equal. f_equal.
  - replace (rev title' ++ t0 :: rev ws' ++ w0 :: rev (u marker) ++ [])
      with (rev (u marker ++ w0 :: ws' ++ t0 :: title') ++ []).
    + apply consumed_mk.
    + rewrite !rev_app_distr. cbn [rev]. rewrite !rev_app_distr. cbn [rev app].
      rewrite <- !app_assoc. reflexivity.
  - f_equal. f_equal.
    replace (rev title' ++ t0 :: rev ws' ++ w0 :: rev (u marker) ++ [])
      with (rev (t0 :: title') ++ (rev ws' ++ w0 :: rev (u marker) ++ [])).
    + apply consumed_mk.
    + cbn [rev]. rewrite <- app_assoc. reflexivity.
Qed.
End Heading.

Lemma rmatch_lit_miss {A} l1 x l2 y : forall b a cs (k : cursor -> option A),
  (y =? code x) = false ->
  rmatch (Lit (l1 ++ x :: l2)) (mkCursor b (map code l1 ++ y :: a) cs) k = None.
Proof.
  induction l1 as [|z l1 IH]; intros b a cs k H.
  - cbn [app map]. destruct l2 as [|z l2].
    + cbn [Lit]. apply rmatch_cls_miss. exact H.
    + change (Lit (x :: z :: l2)) with (Cat (Cls (eqc x)) (Lit (z :: l2))).
      rewrite rmatch_cat. apply rmatch_cls_miss. exact H.
  - cbn [app map]. destruct (l1 ++ x :: l2) as [|z' l'] eqn:E.
    + destruct l1; discriminate.
    + change (Lit (z :: z' :: l')) with (Cat (Cls (eqc z)) (Lit (z' :: l'))).
      rewrite rmatch_cat, rmatch_cls_hit by (unfold eqc; apply N.eqb_refl).
      apply IH. exact H.
Qed.

Lemma scan_hit_word r bef w rest h :
  w <> [] -> match_at r bef (w ++ rest) = Some h -> whole h = w ->
  scan r bef (w ++ rest) 0 = Hit h :: scan r (rev w ++ bef) rest 0.
Proof.
  intros Hw H W. destruct w as [|x w]; [congruence|].
  change ((x :: w) ++ rest) with (x :: w ++ rest) in *.
  rewrite (scan_hit r bef x w rest h H W). cbn [rev]. rewrite <- app_assoc. reflexivity.
Qed.

Lemma space_not_hash c : isSpace c = true -> (c =? code "#") = false.
Proof.
  intros H. destruct (c =? code "#") eqn:E; [|reflexivity].
  apply N.eqb_eq in E. subst. discriminate.
Qed.

(** A line that starts with an element tag and has no line terminator
    is out of reach of a regex anchored at the start of a line that
    cannot begin with [<]. *)
Lemma segments_anchored_tagged ml r s' :
  (forall y, In y s' -> isLineTerminator y = false) ->
  head_ok r (Some (code "<")) = false ->
  segments (Cat (Bol ml) r) (code "<" :: s') = map Gap (code "<" :: s').
Proof.
  intros H H1. apply segments_anchored.
  - intros y [<-|Hy]; [apply andb_false_r|]. rewrite (H y Hy). apply andb_false_r.
  - apply match_at_head_fail. exact H1.
Qed.

Section HeadingPasses.
Variables (w0 : char) (ws' : str) (t0 : char) (title' : str).
Let ws := w0 :: ws'.
Let title := t0 :: title'.
Hypothesis Hws : forallb isSpace ws = true.
Hypothesis Hws_line : forallb isDot ws = true.
Hypothesis Ht0 : isSpace t0 = false.
Hypothesis Htitle : forallb isDot title = true.

Lemma heading_line_chars hs :
  forallb (fun c => c =? code "#") hs = true ->
  forall y, In y (hs ++ ws ++ title) -> true && isLineTerminator y = false.
Proof.
  intros Hm y Hy. cbn [andb]. apply in_app_or in Hy. destruct Hy as [Hy|Hy].
  - rewrite forallb_forall in Hm. apply Hm in Hy.
    apply N.eqb_eq in Hy. subst. reflexivity.
  - apply in_app_or in Hy. apply negb_true_iff.
    destruct Hy as [Hy|Hy]; [pose proof Hws_line as F | pose proof Htitle as F];
      rewrite forallb_forall in F; apply F, Hy.
Qed.

(** The pass of a marker on the line of that marker. *)
Lemma heading_hit marker f :
  head_ok (lineRegex marker) None = false ->
  replace (lineRegex marker) f (u marker ++ ws ++ title)
  = f (mkHit (u marker ++ ws ++ title) [(1%nat, title)]).
Proof.
  intros H0. unfold replace, segments.
  rewrite <- (app_nil_r (u marker ++ ws ++ title)) at 1.
  rewrite (scan_hit_word (lineRegex marker) [] (u marker ++ ws ++ title) []
             (mkHit (u marker ++ ws ++ title) [(1%nat, title)])).
  - cbn [scan]. rewrite match_at_head_fail by exact H0. cbn [flat_map].
    apply app_nil_r.
  - subst ws. destruct (u marker); discriminate.
  - rewrite app_nil_r. apply (heading_match w0 ws' t0 title' Hws Ht0 Htitle marker).
  - reflexivity.
Qed.

(** The pass of a longer marker leaves the line alone: where it wants
    one more [#] there is white space. *)
Lemma heading_miss marker hs l1 l2 f :
  list_ascii_of_string marker = l1 ++ "#"%char :: l2 -> hs = map code l1 ->
  forallb (fun c => c =? code "#") hs = true ->
  replace (lineRegex marker) f (hs ++ ws ++ title) = hs ++ ws ++ title.
Proof.
  intros Hm -> Hl1. unfold lineRegex, Str. rewrite Hm.
  apply replace_gaps, segments_anchored.
  - apply heading_line_chars, Hl1.
  - unfold match_at. cbn [rmatch at_bol before]. subst ws.
    change ((w0 :: ws') ++ title) with (w0 :: ws' ++ title).
    apply rmatch_lit_miss. apply space_not_hash.
    pose proof Hws as Hs. cbn [forallb] in Hs. apply andb_true_iff in Hs. tauto.
Qed.

Let h4 : hit -> str := fun m => u "<h4>" ++ grp 1 m ++ u "</h4>".
Let h3 : hit -> str := fun m => u "<h3>" ++ grp 1 m ++ u "</h3>".

Lemma wrapped_line a b y :
  forallb isDot a = true -> forallb isDot b = true ->
  In y (a ++ title ++ b) -> isLineTerminator y = false.
Proof.
  intros Ha Hb Hy. apply negb_true_iff.
  assert (F : forallb isDot (a ++ title ++ b) = true)
    by (rewrite !forallb_app, Ha, Hb, Htitle; reflexivity).
  rewrite forallb_forall in F. apply F, Hy.
Qed.

Lemma h4_line y : In y (u "h4>" ++ title ++ u "</h4>") -> isLineTerminator y = false.
Proof. apply wrapped_line; reflexivity. Qed.

(** The four heading passes on a heading line of each level. *)
Lemma convertHeaders_level1 :
  convertHeaders (u "#" ++ ws ++ title) = u "<h3>" ++ title ++ u "</h3>".
Proof.
  unfold convertHeaders.
  rewrite (heading_miss "####" (u "#") ["#"%char] ["#"; "#"]%char _ eq_refl eq_refl eq_refl).
  rewrite (heading_miss "###" (u "#") ["#"%char] ["#"%char] _ eq_refl eq_refl eq_refl).
  rewrite (heading_miss "##" (u "#") ["#"%char] [] _ eq_refl eq_refl eq_refl).
  apply (heading_hit "#"). reflexivity.
Qed.

Lemma convertHeaders_level2 :
  convertHeaders (u "##" ++ ws ++ title) = u "<h4>" ++ title ++ u "</h4>".
Proof.
  unfold convertHeaders.
  rewrite (heading_miss "####" (u "##") ["#"; "#"]%char ["#"%char] _ eq_refl eq_refl eq_refl).
  rewrite (heading_miss "###" (u "##") ["#"; "#"]%char [] _ eq_refl eq_refl eq_refl).
  rewrite (heading_hit "##") by reflexivity.
  apply replace_gaps, segments_anchored_tagged; [apply h4_line | reflexivity].
Qed.

Lemma convertHeaders_level3 :
  convertHeaders (u "###" ++ ws ++ title) = u "<h4>" ++ title ++ u "</h4>".
Proof.
  unfold convertHeaders.
  rewrite (heading_miss "####" (u "###") ["#"; "#"; "#"]%char [] _ eq_refl eq_refl eq_refl).
  rewrite (heading_hit "###") by reflexivity.
  rewrite (replace_gaps (lineRegex "##"))
    by (apply segments_anchored_tagged; [apply h4_line | reflexivity]).
  apply replace_gaps, segments_anchored_tagged; [apply h4_line | reflexivity].
Qed.

Lemma convertHeaders_level4 :
  convertHeaders (u "####" ++ ws ++ title) = u "<h4>" ++ title ++ u "</h4>".
Proof.
  unfold convertHeaders.
  rewrite (heading_hit "####") by reflexivity.
  rewrite (replace_gaps (lineRegex "###"))
    by (apply segments_anchored_tagged; [apply h4_line | reflexivity]).
  rewrite (replace_gaps (lineRegex "##"))
    by (apply segments_anchored_tagged; [apply h4_line | reflexivity]).
  apply replace_gaps, segments_anchored_tagged; [apply h4_line | reflexivity].
Qed.
End HeadingPasses.

(** ** Markup given as a list of tokens *)

Lemma nameChar_facts y : isNameChar y = true ->
  eqc "/" y = false /\ neqc ">" y = true /\ eqc "<" y = false.
Proof.
  intros H. repeat split.
  - destruct (eqc "/" y) eqn:E; [|reflexivity]. apply N.eqb_eq in E. subst. discriminate.
  - unfold neqc. destruct (y =? code ">") eqn:E; [|reflexivity].
    apply N.eqb_eq in E. subst. discriminate.
  - destruct (eqc "<" y) eqn:E; [|reflexivity]. apply N.eqb_eq in E. subst. discriminate.
Qed.

Lemma consumed_set_cap c n v c' : consumed c (set_cap n v c') = consumed c c'.
Proof. reflexivity. Qed.

Lemma consumed_mk1 b a cs x w a' cs' :
  consumed (mkCursor b a cs) (mkCursor (rev w ++ x :: b) a' cs') = x :: w.
Proof.
  replace (rev w ++ x :: b) with (rev (x :: w) ++ b)
    by (simpl; rewrite <- app_assoc; reflexivity).
  apply consumed_mk.
Qed.

(** The token regex on a text run that ends at the next [<] or at the
    end of the input. *)
Lemma match_text bef text rest :
  text <> [] -> forallb (neqc "<") text = true ->
  match rest with [] => True | y :: _ => neqc "<" y = false end ->
  match_at tagRegex bef (text ++ rest) = Some (mkHit text [(4%nat, text)]).
Proof.
  intros Hne Ht Hrest. destruct text as [|t0 text]; [congruence|].
  cbn [forallb] in Ht. apply andb_true_iff in Ht. destruct Ht as [Ht0 Ht].
  unfold match_at, tagRegex.
  change ((t0 :: text) ++ rest) with (t0 :: text ++ rest).
  cbn [rmatch]. rewrite head_fail.
  2:{ cbn. unfold neqc in Ht0. apply negb_true_iff in Ht0. exact Ht0. }
  rewrite rmatch_plus_cls by auto.
  apply tries_longest. rewrite consumed_set_cap, !consumed_mk1. reflexivity.
Qed.

Lemma rmatch_alt_left {A} r1 r2 c (k : cursor -> option A) a :
  rmatch r1 c k = Some a -> rmatch (Alt r1 r2) c k = Some a.
Proof. intros H. cbn [rmatch]. rewrite H. reflexivity. Qed.

Lemma rmatch_grp {A} n r c (k : cursor -> option A) :
  rmatch (Grp n r) c k = rmatch r c (fun c' => k (set_cap n (consumed c c') c')).
Proof. reflexivity. Qed.

Lemma consumed_same b a cs a' cs' :
  consumed (mkCursor b a cs) (mkCursor b a' cs') = [].
Proof. apply (consumed_mk b a cs [] a' cs'). Qed.

Lemma consumed_rev b a cs w a' cs' bw :
  bw = rev w ++ b ->
  consumed (mkCursor b a cs) (mkCursor bw a' cs') = w.
Proof. intros ->. apply consumed_mk. Qed.

Ltac list_norm :=
  repeat (progress (rewrite ?rev_app_distr, <- ?app_assoc; cbn [rev app])).

(** The token regex on a tag. *)
Lemma match_tag bef closing name attr rest :
  tok_ok (TkTag closing name attr) ->
  match_at tagRegex bef (render_tok (TkTag closing name attr) ++ rest)
  = Some (tok_hit (TkTag closing name attr)).
Proof.
  intros (Hne & Hname & Hattr & Hstart).
  destruct name as [|n0 name]; [congruence|].
  cbn [forallb] in Hname. apply andb_true_iff in Hname. destruct Hname as [Hn0 Hname].
  destruct (nameChar_facts n0 Hn0) as (Hslash & _ & _).
  assert (Hrest : match attr ++ code ">" :: rest with
                  | [] => True | y :: _ => isNameChar y = false end).
  { destruct attr as [|y attr]; [reflexivity | exact Hstart]. }
  unfold match_at, tagRegex. apply rmatch_alt_left.
  cbn [render_tok tok_hit].
  replace ((code "<" :: slash closing ++ (n0 :: name) ++ attr ++ [code ">"]) ++ rest)
    with (code "<" :: slash closing ++ n0 :: name ++ attr ++ code ">" :: rest)
    by (repeat (cbn [app]; rewrite <- ?app_assoc); reflexivity).
  unfold Chr at 1. rewrite rmatch_cat, rmatch_cls_hit by reflexivity.
  rewrite rmatch_cat, rmatch_grp. unfold Opt.
  assert (Hopt : forall k : cursor -> option hit,
    rmatch (Alt (Chr "/") Eps)
      (mkCursor (code "<" :: bef)
         (slash closing ++ n0 :: name ++ attr ++ code ">" :: rest) []) k
    = match k (mkCursor (rev (slash closing) ++ code "<" :: bef)
                 (n0 :: name ++ attr ++ code ">" :: rest) []) with
      | Some a => Some a
      | None => if closing
                then k (mkCursor (code "<" :: bef)
                          (slash closing ++ n0 :: name ++ attr ++ code ">" :: rest) [])
                else None
      end).
  { intros k. destruct closing; cbn [slash app rev rmatch Chr after].
    - change (eqc "/" (code "/")) with true. cbn iota. reflexivity.
    - rewrite Hslash. destruct (k _); reflexivity. }
  rewrite Hopt. clear Hopt.
  match goal with |- match ?X with _ => _ end = _ => assert (HX : X = Some
    (mkHit (code "<" :: slash closing ++ (n0 :: name) ++ attr ++ [code ">"])
       [(3%nat, attr); (2%nat, n0 :: name); (1%nat, slash closing)])) end.
  2:{ rewrite HX. reflexivity. }
  unfold set_cap at 1. cbn [before after caps].
  rewrite rmatch_cat, rmatch_grp, rmatch_plus_cls by auto.
  apply tries_longest. unfold set_cap at 1. cbn [before after caps].
  rewrite rmatch_cat, rmatch_grp, rmatch_star_cls by auto.
  apply tries_longest. unfold set_cap at 1. cbn [before after caps].
  unfold Chr. rewrite rmatch_cls_hit by reflexivity.
  cbn [caps]. f_equal. f_equal.
  - apply consumed_rev. list_norm. reflexivity.
  - f_equal; [|f_equal; [|f_equal]].
    + f_equal. apply consumed_rev. reflexivity.
    + f_equal. apply consumed_rev. list_norm. reflexivity.
    + f_equal. apply consumed_rev. reflexivity.
Qed.

Lemma render_tok_nonempty t : tok_ok t -> render_tok t <> [].
Proof. destruct t as [text|c n a]; simpl; [tauto | discriminate]. Qed.

Lemma match_tok bef t rest :
  tok_ok t ->
  (isText t = true -> match rest with [] => True | y :: _ => neqc "<" y = false end) ->
  match_at tagRegex bef (render_tok t ++ rest) = Some (tok_hit t).
Proof.
  intros Hok Hrest. destruct t as [text|c n a].
  - destruct Hok as [Hne Ht].
    apply match_text; [exact Hne | exact Ht | apply Hrest; reflexivity].
  - apply match_tag. exact Hok.
Qed.

Lemma render_head l :
  match l with t :: _ => isText t = false | [] => True end ->
  match render l with [] => True | y :: _ => neqc "<" y = false end.
Proof.
  destruct l as [|[text|c n a] l]; simpl; auto. discriminate.
Qed.

(** Reading back a rendered token list gives its tokens, one match
    each. *)
Lemma scan_toks l : toks_ok l -> forall bef,
  scan tagRegex bef (render l) 0 = map (fun t => Hit (tok_hit t)) l.
Proof.
  induction l as [|t l IH]; intros Hok bef.
  - reflexivity.
  - destruct Hok as (Ht & Hadj & Hl). change (render (t :: l)) with (render_tok t ++ render l).
    rewrite (scan_hit_word tagRegex bef (render_tok t) (render l) (tok_hit t)).
    + cbn [map]. rewrite IH by exact Hl. reflexivity.
    + apply render_tok_nonempty, Ht.
    + apply match_tok; [exact Ht|]. intros T. apply render_head, Hadj, T.
    + destruct t; reflexivity.
Qed.

Lemma classify_tok t : tok_ok t -> classify (tok_hit t) = tok_event t.
Proof.
  destruct t as [text|c n a]; simpl.
  - intros [Hne _]. destruct text; [congruence | reflexivity].
  - intros (Hne & _). destruct n as [|n0 n]; [congruence|].
    destruct c; reflexivity.
Qed.

Lemma events_render l : toks_ok l -> events (render l) = map tok_event l.
Proof.
  intros Hok. unfold events, segments. rewrite (scan_toks l Hok).
  induction l as [|t l IH]; [reflexivity|].
  destruct Hok as (Ht & _ & Hl). cbn [map hits]. rewrite classify_tok by exact Ht.
  f_equal. apply IH, Hl.
Qed.

(** ** Heading lines, from Markdown to the tree *)

Lemma space_not_backtick c : isSpace c = true -> eqc "`" c = false.
Proof.
  intros H. destruct (eqc "`" c) eqn:E; [|reflexivity].
  apply N.eqb_eq in E. subst. discriminate.
Qed.

Lemma forallb_In {T} (p : T -> bool) l y : forallb p l = true -> In y l -> p y = true.
Proof. intros H. rewrite forallb_forall in H. apply H. Qed.

(** From the heading passes on, the pipeline leaves an inert element
    alone. *)
Lemma markdownToHtml_element markdown s' :
  (forall y, In y markdown -> eqc "`" y = false) ->
  convertHeaders markdown = code "<" :: s' ->
  inert (code "<" :: s') -> last (code "<" :: s') 0 = code ">" ->
  markdownToHtml markdown = code "<" :: s'.
Proof.
  intros Hbt Hh Hin Hlast. unfold markdownToHtml.
  rewrite (segments_headless fenceRegex) by (reflexivity || exact Hbt).
  rewrite replace_with_gaps.
  rewrite (segments_headless inlineCodeRegex) by (reflexivity || exact Hbt).
  rewrite replace_with_gaps. rewrite Hh.
  rewrite convertSpans_inert by exact Hin.
  rewrite (lists_inert s' Hin bulletRegex _ "ul" eq_refl) by reflexivity.
  rewrite (lists_inert s' Hin numberedRegex _ "ol" eq_refl) by reflexivity.
  rewrite !restore_inert by (reflexivity || exact Hin).
  apply wrapParagraphs_element; assumption.
Qed.

Section HeadingLine.
Variables (w0 : char) (ws' : str) (t0 : char) (title' : str).
Let ws := w0 :: ws'.
Let title := t0 :: title'.
Hypothesis Hws : forallb isSpace ws = true.
Hypothesis Hws_line : forallb isDot ws = true.
Hypothesis Ht0 : isSpace t0 = false.
Hypothesis Htitle : forallb inertChar title = true.

Lemma title_dot : forallb isDot title = true.
Proof.
  apply forallb_forall. intros y Hy. apply (forallb_In _ _ _ Htitle) in Hy.
  unfold inertChar in Hy. apply andb_true_iff in Hy. tauto.
Qed.

Lemma heading_no_backtick hs y :
  forallb (fun c => c =? code "#") hs = true ->
  In y (hs ++ ws ++ title) -> eqc "`" y = false.
Proof.
  intros Hh Hy. apply in_app_or in Hy. destruct Hy as [Hy|Hy].
  - apply (forallb_In _ _ _ Hh) in Hy. apply N.eqb_eq in Hy. subst. reflexivity.
  - apply in_app_or in Hy. destruct Hy as [Hy|Hy].
    + apply space_not_backtick, (forallb_In _ _ _ Hws), Hy.
    + apply (forallb_In _ _ _ Htitle), inert_facts in Hy. tauto.
Qed.

Lemma element_inert a b :
  forallb inertChar a = true -> forallb inertChar b = true ->
  inert (a ++ title ++ b).
Proof.
  intros Ha Hb y Hy. apply (forallb_In inertChar (a ++ title ++ b)); [|exact Hy].
  rewrite !forallb_app, Ha, Hb, Htitle. reflexivity.
Qed.

Lemma last_close a b c : last (a ++ title ++ b ++ [c]) 0 = c.
Proof. rewrite !app_assoc. apply last_last. Qed.

(** A heading line through the whole rewriter. *)
Lemma heading_markdown marker tag :
  (marker = "#"%string /\ tag = "h3"%string) \/
  ((marker = "##"%string \/ marker = "###"%string \/ marker = "####"%string)
   /\ tag = "h4"%string) ->
  markdownToHtml (u marker ++ ws ++ title)
  = u "<" ++ u tag ++ u ">" ++ title ++ u "</" ++ u tag ++ u ">".
Proof.
  intros H.
  assert (Hconv : convertHeaders (u marker ++ ws ++ title)
                  = u "<" ++ u tag ++ u ">" ++ title ++ u "</" ++ u tag ++ u ">").
  { destruct H as [[-> ->] | [[-> | [-> | ->]] ->]].
    - apply convertHeaders_level1; auto using title_dot.
    - apply convertHeaders_level2; auto using title_dot.
    - apply convertHeaders_level3; auto using title_dot.
    - apply convertHeaders_level4; auto using title_dot. }
  assert (Hhash : forallb (fun c => c =? code "#") (u marker) = true)
    by (destruct H as [[-> ->] | [[-> | [-> | ->]] ->]]; reflexivity).
  assert (Htag : tag = "h3"%string \/ tag = "h4"%string)
    by (destruct H as [[_ ->] | [_ ->]]; auto).
  apply markdownToHtml_element.
  - intros y Hy. apply (heading_no_backtick _ _ Hhash Hy).
  - rewrite Hconv. destruct Htag as [-> | ->]; reflexivity.
  - destruct Htag as [-> | ->];
      [apply (element_inert (u "<h3>") (u "</h3>")) |
       apply (element_inert (u "<h4>") (u "</h4>"))]; reflexivity.
  - destruct Htag as [-> | ->];
      [apply (last_close (u "<h3>") (u "</h3")) |
       apply (last_close (u "<h4>") (u "</h4"))].
Qed.
End HeadingLine.

Lemma element_tree tag title :
  tag = u "h3" \/ tag = u "h4" ->
  title <> [] -> forallb (neqc "<") title = true ->
  htmlToNodes (u "<" ++ tag ++ u ">" ++ title ++ u "</" ++ tag ++ u ">")
  = Some [NElem tag None (Some [NText title])].
Proof.
  intros Htag Hne Ht. rewrite htmlToNodes_total.
  assert (E : u "<" ++ tag ++ u ">" ++ title ++ u "</" ++ tag ++ u ">"
              = render [TkTag false tag []; TkText title; TkTag true tag []]).
  { destruct Htag as [-> | ->]; cbn; rewrite ?app_nil_r; reflexivity. }
  rewrite E, events_render.
  - destruct title as [|t0 title']; [congruence|].
    destruct Htag as [-> | ->]; reflexivity.
  - cbn. repeat split; auto; try discriminate;
      destruct Htag as [-> | ->]; (discriminate || reflexivity).
Qed.

Lemma heading_levels level :
  (1 <= level <= 4)%nat ->
  exists marker tag,
    hashes level = u marker /\ headingTag level = u tag /\
    ((marker = "#"%string /\ tag = "h3"%string) \/
     ((marker = "##"%string \/ marker = "###"%string \/ marker = "####"%string)
      /\ tag = "h4"%string)).
Proof.
  intros H. destruct level as [|[|[|[|[|n]]]]]; try lia.
  - exists "#"%string, "h3"%string. repeat split. left. split; reflexivity.
  - exists "##"%string, "h4"%string. repeat split. right. split; auto.
  - exists "###"%string, "h4"%string. repeat split. right. split; auto.
  - exists "####"%string, "h4"%string. repeat split. right. split; auto.
Qed.

(** ** Unterminated elements, on the markup itself *)

Lemma toks_ok_closers names :
  Forall validName names -> toks_ok (map closingTag names).
Proof.
  induction 1 as [|n names [Hne Hn] _ IH]; [exact I|].
  cbn [map toks_ok closingTag]. split; [|split; [discriminate | exact IH]].
  repeat split; auto.
Qed.

Lemma toks_ok_app l1 l2 :
  toks_ok l1 -> toks_ok l2 ->
  match l2 with t :: _ => isText t = false | [] => True end ->
  toks_ok (l1 ++ l2).
Proof.
  intros H1 H2 Hhead. induction l1 as [|t l1 IH]; [exact H2|].
  destruct H1 as (Ht & Hadj & Hl1). cbn [app toks_ok].
  split; [exact Ht|]. split; [|apply IH, Hl1].
  intros T. specialize (Hadj T). destruct l1 as [|t' l1]; [|exact Hadj].
  cbn [app]. destruct l2; [exact I | exact Hhead].
Qed.

Lemma render_app l1 l2 : render (l1 ++ l2) = render l1 ++ render l2.
Proof. apply flat_map_app. Qed.

Lemma finish_closed ns : finish (mkState ns []) = ns.
Proof. reflexivity. Qed.

(** Writing the missing closing tags at the end of the markup does not
    change the tree. *)
Lemma implicit_close l names st :
  toks_ok l -> Forall validName names ->
  run step init (map tok_event l) = Some st ->
  length names = length (stack st) ->
  htmlToNodes (render l ++ render (map closingTag names)) = htmlToNodes (render l).
Proof.
  intros Hl Hn Hrun Hlen.
  rewrite <- render_app, !htmlToNodes_total.
  rewrite !events_render.
  - rewrite (run_total step step_total step_is_total) in Hrun.
    inversion Hrun as [Hst]. rewrite map_app, fold_left_app, Hst.
    replace (map tok_event (map closingTag names)) with (map EvClose names)
      by (rewrite map_map; reflexivity).
    rewrite closes_unwind by exact Hlen. reflexivity.
  - exact Hl.
  - apply toks_ok_app; [exact Hl | apply toks_ok_closers, Hn|].
    destruct names; [exact I | reflexivity].
Qed.

(** ** The attribute regex *)

Lemma nameChar_not_eq y : isNameChar y = true -> eqc "=" y = false.
Proof.
  intros H. destruct (eqc "=" y) eqn:E; [|reflexivity].
  apply N.eqb_eq in E. subst. discriminate.
Qed.

(** A string splits into its longest prefix in a class and the rest. *)
Lemma span_spec (p : char -> bool) s :
  exists w rest, s = w ++ rest /\ forallb p w = true /\
    match rest with [] => True | y :: _ => p y = false end.
Proof.
  induction s as [|x s (w & rest & E & Hw & Hr)].
  - exists [], []. repeat split.
  - destruct (p x) eqn:Px.
    + exists (x :: w), rest. subst. repeat split; [simpl; rewrite Px; exact Hw | exact Hr].
    + exists [], (x :: s). repeat split. exact Px.
Qed.

(** The attribute regex on a quoted pair. *)
Lemma match_attr bef k q1 v q2 rest :
  k <> [] -> forallb isNameChar k = true -> forallb notQuote v = true ->
  isQuote q1 = true -> isQuote q2 = true ->
  match_at attrRegex bef (k ++ code "=" :: q1 :: v ++ q2 :: rest)
  = Some (attrHit k q1 v q2).
Proof.
  intros Hne Hk Hv Hq1 Hq2. destruct k as [|k0 k]; [congruence|].
  cbn [forallb] in Hk. apply andb_true_iff in Hk. destruct Hk as [Hk0 Hk].
  unfold match_at, attrRegex, attrHit.
  change ((k0 :: k) ++ code "=" :: q1 :: v ++ q2 :: rest)
    with (k0 :: k ++ code "=" :: q1 :: v ++ q2 :: rest).
  rewrite rmatch_cat, rmatch_grp, rmatch_plus_cls by auto.
  apply tries_longest. unfold set_cap at 1. cbn [before after caps].
  unfold Chr. rewrite rmatch_cat, rmatch_cls_hit by reflexivity.
  rewrite rmatch_cat, rmatch_cls_hit by exact Hq1.
  rewrite rmatch_cat, rmatch_grp, rmatch_star_cls;
    [|exact Hv | unfold notQuote; rewrite Hq2; reflexivity].
  apply tries_longest. unfold set_cap at 1. cbn [before after caps].
  rewrite rmatch_cls_hit by exact Hq2. cbn [caps].
  f_equal. f_equal.
  - apply consumed_rev. list_norm. reflexivity.
  - f_equal; [|f_equal].
    + f_equal. apply consumed_rev. reflexivity.
    + f_equal. apply consumed_rev. list_norm. reflexivity.
Qed.

(** Every match of the attribute regex is a quoted pair. *)
Lemma match_attr_inv bef aft h :
  match_at attrRegex bef aft = Some h ->
  exists k q1 v q2 rest,
    aft = k ++ code "=" :: q1 :: v ++ q2 :: rest /\
    k <> [] /\ forallb isNameChar k = true /\ forallb notQuote v = true /\
    h = attrHit k q1 v q2.
Proof.
  intros H. destruct aft as [|x aft].
  - rewrite match_at_head_fail in H by reflexivity. discriminate.
  - destruct (isNameChar x) eqn:Hx.
    2:{ rewrite match_at_head_fail in H; [discriminate|]. cbn. exact Hx. }
    destruct (span_spec isNameChar aft) as (k & r & -> & Hk & Hr).
    unfold match_at, attrRegex in H.
    rewrite rmatch_cat, rmatch_grp, rmatch_plus_cls in H by auto.
    rewrite (tries_det isNameChar) in H; [|clear H|exact Hk].
    2:{ intros b y a cs Hy. unfold set_cap. cbn [before after caps].
        unfold Chr. rewrite rmatch_cat. apply rmatch_cls_miss, nameChar_not_eq, Hy. }
    unfold set_cap at 1 in H. cbn [before after caps] in H.
    unfold Chr in H. rewrite rmatch_cat in H.
    destruct r as [|e r]; [discriminate|].
    destruct (eqc "=" e) eqn:He; [|rewrite rmatch_cls_miss in H by exact He; discriminate].
    rewrite rmatch_cls_hit in H by exact He. apply N.eqb_eq in He. subst e.
    rewrite rmatch_cat in H.
    destruct r as [|q1 r]; [discriminate|].
    destruct (isQuote q1) eqn:Hq1; [|rewrite rmatch_cls_miss in H by exact Hq1; discriminate].
    rewrite rmatch_cls_hit in H by exact Hq1.
    destruct (span_spec notQuote r) as (v & r' & -> & Hv & Hr').
    rewrite rmatch_cat, rmatch_grp, rmatch_star_cls in H by auto.
    rewrite (tries_det notQuote) in H; [|clear H|exact Hv].
    2:{ intros b y a cs Hy. unfold set_cap. cbn [before after caps].
        apply rmatch_cls_miss. unfold notQuote in Hy. apply negb_true_iff, Hy. }
    unfold set_cap at 1 in H. cbn [before after caps] in H.
    destruct r' as [|q2 r']; [discriminate|].
    destruct (isQuote q2) eqn:Hq2; [|rewrite rmatch_cls_miss in H by exact Hq2; discriminate].
    rewrite rmatch_cls_hit in H by exact Hq2. cbn [caps] in H.
    exists (x :: k), q1, v, q2, r'. split; [reflexivity|].
    split; [discriminate|]. split; [simpl; rewrite Hx; exact Hk|].
    split; [exact Hv|]. inversion H as [Hh]. unfold attrHit. f_equal.
    + apply consumed_rev. list_norm. reflexivity.
    + f_equal; [|f_equal].
      * f_equal. apply consumed_rev. list_norm. reflexivity.
      * f_equal. apply consumed_rev. list_norm. reflexivity.
Qed.

(** ** Objects in enumeration order *)

Lemma str_eqb_eq a b : str_eqb a b = true <-> a = b.
Proof.
  revert b. induction a as [|x a IH]; intros [|y b]; simpl; split; intros H;
    try congruence; try discriminate.
  - apply andb_true_iff in H. destruct H as [H1 H2].
    apply N.eqb_eq in H1. apply IH in H2. congruence.
  - inversion H; subst. rewrite N.eqb_refl. apply IH. reflexivity.
Qed.

Lemma str_eqb_refl a : str_eqb a a = true.
Proof. apply str_eqb_eq. reflexivity. Qed.

Lemma str_eqb_neq a b : str_eqb a b = false <-> a <> b.
Proof.
  split; intros H.
  - intros E. apply str_eqb_eq in E. congruence.
  - destruct (str_eqb a b) eqn:E; [|reflexivity]. apply str_eqb_eq in E. contradiction.
Qed.

Lemma parseDigits_acc s : forall acc,
  parseDigits acc s = acc * 10 ^ N.of_nat (length s) + parseDigits 0 s.
Proof.
  induction s as [|c s IH]; intros acc.
  - simpl. lia.
  - cbn [parseDigits length]. rewrite IH, (IH (10 * 0 + (c - 48))).
    rewrite Nat2N.inj_succ, N.pow_succ_r'. lia.
Qed.

Lemma parseDigits_bound s :
  forallb isDigit s = true -> parseDigits 0 s < 10 ^ N.of_nat (length s).
Proof.
  induction s as [|c s IH]; intros H.
  - simpl. lia.
  - cbn [forallb] in H. apply andb_true_iff in H. destruct H as [Hc Hs].
    cbn [parseDigits length]. rewrite parseDigits_acc.
    rewrite Nat2N.inj_succ, N.pow_succ_r'. specialize (IH Hs).
    unfold isDigit, inRange in Hc. apply andb_true_iff in Hc.
    destruct Hc as [H1 H2]. apply N.leb_le in H1, H2.
    assert ((10 * 0 + (c - 48)) * 10 ^ N.of_nat (length s) <= 9 * 10 ^ N.of_nat (length s))
      by (apply N.mul_le_mono_r; lia). lia.
Qed.

(** Digit strings of one length with one value are equal. *)
Lemma parseDigits_inj s1 : forall s2,
  length s1 = length s2 ->
  forallb isDigit s1 = true -> forallb isDigit s2 = true ->
  parseDigits 0 s1 = parseDigits 0 s2 -> s1 = s2.
Proof.
  induction s1 as [|c1 s1 IH]; intros [|c2 s2] Hl H1 H2 E; try discriminate; [reflexivity|].
  cbn [forallb] in H1, H2. apply andb_true_iff in H1, H2.
  destruct H1 as [Hc1 Hs1], H2 as [Hc2 Hs2]. injection Hl as Hl.
  cbn [parseDigits] in E. rewrite (parseDigits_acc s1), (parseDigits_acc s2) in E.
  pose proof (parseDigits_bound s1 Hs1) as B1.
  pose proof (parseDigits_bound s2 Hs2) as B2. rewrite Hl in *.
  unfold isDigit, inRange in Hc1, Hc2. apply andb_true_iff in Hc1, Hc2.
  destruct Hc1 as [A1 A2], Hc2 as [A3 A4]. apply N.leb_le in A1, A2, A3, A4.
  set (P := 10 ^ N.of_nat (length s2)) in *.
  replace (10 * 0 + (c1 - 48)) with (c1 - 48) in E by lia.
  replace (10 * 0 + (c2 - 48)) with (c2 - 48) in E by lia.
  assert (Ec : c1 - 48 = c2 - 48).
  { destruct (N.lt_trichotomy (c1 - 48) (c2 - 48)) as [L|[L|L]]; [|exact L|].
    - assert ((c1 - 48 + 1) * P <= (c2 - 48) * P) by (apply N.mul_le_mono_r; lia). lia.
    - assert ((c2 - 48 + 1) * P <= (c1 - 48) * P) by (apply N.mul_le_mono_r; lia). lia. }
  rewrite Ec in E. f_equal; [lia|]. apply IH; auto. lia.
Qed.

Lemma parseDigits_lower c s :
  forallb isDigit (c :: s) = true -> (c =? 48) = false ->
  10 ^ N.of_nat (length s) <= parseDigits 0 (c :: s).
Proof.
  intros H Hc. cbn [forallb] in H. apply andb_true_iff in H. destruct H as [Hd _].
  cbn [parseDigits]. rewrite parseDigits_acc. apply N.eqb_neq in Hc.
  unfold isDigit, inRange in Hd. apply andb_true_iff in Hd.
  destruct Hd as [A1 A2]. apply N.leb_le in A1, A2.
  assert (1 * 10 ^ N.of_nat (length s) <= (10 * 0 + (c - 48)) * 10 ^ N.of_nat (length s))
    by (apply N.mul_le_mono_r; lia). lia.
Qed.

Lemma arrayIndex_spec k n : arrayIndex k = Some n ->
  forallb isDigit k = true /\ n = parseDigits 0 k /\
  exists c r, k = c :: r /\ ((c =? 48) = false \/ r = []).
Proof.
  unfold arrayIndex. destruct k as [|c r]; [discriminate|].
  destruct (forallb isDigit (c :: r)) eqn:D; [|discriminate]. cbn [andb].
  destruct (negb (c =? 48) || match r with [] => true | _ :: _ => false end) eqn:C;
    [|discriminate]. cbn [andb].
  destruct (length (c :: r) <=? 10)%nat; [|discriminate].
  destruct (parseDigits 0 (c :: r) <? 4294967295); [|discriminate].
  intros H. inversion H. repeat split. exists c, r. split; [reflexivity|].
  apply orb_true_iff in C. destruct C as [C|C].
  - left. apply negb_true_iff, C.
  - right. destruct r; [reflexivity | discriminate].
Qed.

(** An array index has one spelling. *)
Lemma arrayIndex_inj k1 k2 n :
  arrayIndex k1 = Some n -> arrayIndex k2 = Some n -> k1 = k2.
Proof.
  intros H1 H2. apply arrayIndex_spec in H1, H2.
  destruct H1 as (D1 & E1 & c1 & r1 & -> & C1).
  destruct H2 as (D2 & E2 & c2 & r2 & -> & C2).
  assert (L : length (c1 :: r1) = length (c2 :: r2)).
  { pose proof (parseDigits_bound _ D1) as B1.
    pose proof (parseDigits_bound _ D2) as B2.
    rewrite <- E1 in B1. rewrite <- E2 in B2.
    destruct (Nat.lt_trichotomy (length r1) (length r2)) as [L|[L|L]].
    - exfalso. destruct C2 as [C2| ->]; [|simpl in L; lia].
      pose proof (parseDigits_lower c2 r2 D2 C2) as Lo. rewrite <- E2 in Lo.
      cbn [length] in B1. rewrite Nat2N.inj_succ in B1.
      assert (10 ^ N.succ (N.of_nat (length r1)) <= 10 ^ N.of_nat (length r2))
        by (apply N.pow_le_mono_r; lia). lia.
    - simpl. lia.
    - exfalso. destruct C1 as [C1| ->]; [|simpl in L; lia].
      pose proof (parseDigits_lower c1 r1 D1 C1) as Lo. rewrite <- E1 in Lo.
      cbn [length] in B2. rewrite Nat2N.inj_succ in B2.
      assert (10 ^ N.succ (N.of_nat (length r2)) <= 10 ^ N.of_nat (length r1))
        by (apply N.pow_le_mono_r; lia). lia. }
  apply parseDigits_inj; auto. congruence.
Qed.

Lemma obj_has_false {V} k (o : list (str * V)) :
  obj_has k o = false <-> Forall (fun x => x <> k) (map fst o).
Proof.
  unfold obj_has. induction o as [|[k' v'] o IH]; simpl.
  - split; [constructor | reflexivity].
  - rewrite orb_false_iff, IH, str_eqb_neq. split.
    + intros [H1 H2]. constructor; assumption.
    + intros H. inversion H; subst. split; assumption.
Qed.

Lemma keys_update {V} k (v : V) o : map fst (obj_update k v o) = map fst o.
Proof.
  induction o as [|[k' v'] o IH]; simpl; [reflexivity|].
  destruct (str_eqb k' k); simpl; [reflexivity | rewrite IH; reflexivity].
Qed.

Lemma keys_insert_index {V} n k (v : V) o (P : str -> Prop) :
  P k -> Forall P (map fst o) -> Forall P (map fst (obj_insert_index n k v o)).
Proof.
  intros Hk. induction o as [|[k' v'] o IH]; simpl; intros H.
  - constructor; [exact Hk | constructor].
  - inversion H; subst. destruct (arrayIndex k') as [n'|].
    + destruct (n' <? n); simpl; constructor; auto.
    + simpl. constructor; auto.
Qed.

Lemma keyOrder_index_trans k k' x n n' :
  arrayIndex k = Some n -> arrayIndex k' = Some n' -> n < n' ->
  x <> k -> keyOrder k' x -> keyOrder k x.
Proof.
  intros Hk Hk' Hlt Hx [_ Ho]. split; [congruence|].
  rewrite Hk. rewrite Hk' in Ho. destruct (arrayIndex x); [lia | exact I].
Qed.

Lemma insert_index_wf n k v (o : obj) :
  arrayIndex k = Some n -> k <> protoKey -> obj_has k o = false ->
  wfobj o -> wfobj (obj_insert_index n k v o).
Proof.
  intros Hk Hp. unfold wfobj. induction o as [|[k' v'] o IH]; intros Hhas Hwf.
  - simpl. repeat split; auto.
  - apply obj_has_false in Hhas. cbn [map fst] in Hhas. inversion Hhas as [|? ? Hne Hrest]; subst.
    cbn [map fst wfkeys] in Hwf. destruct Hwf as (Hp' & Hord & Hwf).
    cbn [obj_insert_index]. destruct (arrayIndex k') as [n'|] eqn:Hk'.
    + destruct (n' <? n) eqn:Hlt.
      * apply N.ltb_lt in Hlt. cbn [map fst wfkeys]. split; [exact Hp'|]. split.
        -- apply keys_insert_index; [|exact Hord]. split; [exact Hne|].
           rewrite Hk', Hk. exact Hlt.
        -- apply IH; [apply obj_has_false; exact Hrest | exact Hwf].
      * apply N.ltb_ge in Hlt.
        assert (Hnn : n < n').
        { destruct (N.eq_dec n n') as [->|]; [|lia].
          exfalso. apply Hne. apply (arrayIndex_inj _ _ _ Hk' Hk). }
        cbn [map fst wfkeys]. split; [exact Hp|]. split; [|repeat split; auto].
        constructor.
        -- split; [congruence|]. rewrite Hk, Hk'. exact Hnn.
        -- rewrite Forall_forall in *. intros x Hx.
           apply (keyOrder_index_trans k k' x n n'); auto.
    + cbn [map fst wfkeys]. split; [exact Hp|]. split; [|repeat split; auto].
      constructor.
      * split; [congruence|]. rewrite Hk, Hk'. exact I.
      * rewrite Forall_forall in *. intros x Hx. split.
        -- intros ->. apply Hrest in Hx. congruence.
        -- rewrite Hk. specialize (Hord x Hx). destruct Hord as [_ Ho].
           rewrite Hk' in Ho. destruct (arrayIndex x); [contradiction | exact I].
Qed.

Lemma append_wf k v (o : obj) :
  arrayIndex k = None -> k <> protoKey -> obj_has k o = false ->
  wfobj o -> wfobj (o ++ [(k, v)]).
Proof.
  intros Hk Hp. unfold wfobj. induction o as [|[k' v'] o IH]; intros Hhas Hwf.
  - simpl. repeat split; auto.
  - apply obj_has_false in Hhas. cbn [map fst] in Hhas. inversion Hhas as [|? ? Hne Hrest]; subst.
    cbn [map fst wfkeys app] in *. destruct Hwf as (Hp' & Hord & Hwf).
    split; [exact Hp'|]. split.
    + rewrite map_app. apply Forall_app. split; [exact Hord|].
      constructor; [|constructor]. split; [exact Hne|]. cbn [fst]. rewrite Hk.
      destruct (arrayIndex k'); exact I.
    + apply IH; [apply obj_has_false; exact Hrest | exact Hwf].
Qed.

(** Assignment keeps the enumeration order well formed. *)
Lemma obj_set_wf k v o : wfobj o -> wfobj (obj_set k v o).
Proof.
  intros Hwf. unfold obj_set. destruct (str_eqb k (u "__proto__")) eqn:Hp; [exact Hwf|].
  apply str_eqb_neq in Hp. unfold obj_define.
  destruct (obj_has k o) eqn:Hhas.
  - unfold wfobj. rewrite keys_update. exact Hwf.
  - destruct (arrayIndex k) as [n|] eqn:Hk.
    + apply insert_index_wf; assumption.
    + apply append_wf; assumption.
Qed.

Lemma wfkeys_middle ks1 k ks2 :
  wfkeys (ks1 ++ k :: ks2) -> k <> protoKey /\ Forall (fun x => keyOrder x k) ks1.
Proof.
  induction ks1 as [|x ks1 IH]; simpl.
  - intros (H & _). split; [exact H | constructor].
  - intros (_ & Hord & Hwf). destruct (IH Hwf) as [Hp Hall]. split; [exact Hp|].
    constructor; [|exact Hall]. rewrite Forall_forall in Hord. apply Hord.
    apply in_or_app. right. left. reflexivity.
Qed.

Lemma insert_index_last n k v (o : obj) :
  arrayIndex k = Some n -> Forall (fun x => keyOrder x k) (map fst o) ->
  obj_insert_index n k v o = o ++ [(k, v)].
Proof.
  intros Hk. induction o as [|[k' v'] o IH]; intros H; [reflexivity|].
  cbn [map fst] in H. inversion H as [|? ? [_ Ho] Hrest]; subst.
  cbn [obj_insert_index app]. rewrite Hk in Ho.
  destruct (arrayIndex k') as [n'|]; [|contradiction].
  apply N.ltb_lt in Ho. rewrite Ho, IH by exact Hrest. reflexivity.
Qed.

Lemma obj_set_append o1 k v o2 :
  wfobj (o1 ++ (k, v) :: o2) -> obj_set k v o1 = o1 ++ [(k, v)].
Proof.
  unfold wfobj. rewrite map_app. cbn [map fst]. intros H.
  apply wfkeys_middle in H. destruct H as [Hp Hall].
  unfold obj_set. apply str_eqb_neq in Hp. fold protoKey. rewrite Hp.
  unfold obj_define.
  assert (Hhas : obj_has k o1 = false).
  { apply obj_has_false. rewrite Forall_forall in *. intros x Hx. apply Hall, Hx. }
  rewrite Hhas. destruct (arrayIndex k) as [n|] eqn:Hk; [|reflexivity].
  apply insert_index_last; assumption.
Qed.

(** Assigning the entries of a well-formed object in their order
    rebuilds it. *)
Lemma obj_replay o2 : forall o1,
  wfobj (o1 ++ o2) ->
  fold_left (fun acc kv => obj_set (fst kv) (snd kv) acc) o2 o1 = o1 ++ o2.
Proof.
  induction o2 as [|[k v] o2 IH]; intros o1 H; simpl.
  - rewrite app_nil_r. reflexivity.
  - rewrite (obj_set_append o1 k v o2 H).
    rewrite IH by (rewrite <- app_assoc; exact H).
    rewrite <- app_assoc. reflexivity.
Qed.

(** ** Attribute text and the object read from it *)

Lemma goodEntry_incl raw raw' kv :
  incl raw raw' -> goodEntry raw kv -> goodEntry raw' kv.
Proof.
  intros Hi (H1 & H2 & H3 & H4). repeat split; auto.
  intros c Hc. apply Hi, H4, Hc.
Qed.

Lemma hits_attr aft : forall bef skip,
  Forall (fun h => goodEntry aft (grp 1 h, grp 2 h))
         (hits (scan attrRegex bef aft skip)).
Proof.
  induction aft as [|x aft IH]; intros bef skip.
  - cbn [scan]. destruct skip; [|constructor].
    rewrite match_at_head_fail by reflexivity. constructor.
  - assert (W : forall b s, Forall (fun h => goodEntry (x :: aft) (grp 1 h, grp 2 h))
                              (hits (scan attrRegex b aft s))).
    { intros b s. eapply Forall_impl; [|apply IH].
      intros h. apply goodEntry_incl. intros c Hc. right. exact Hc. }
    destruct skip as [|skip]; [|apply W].
    cbn [scan]. destruct (match_at attrRegex bef (x :: aft)) as [h|] eqn:E.
    + destruct (match_attr_inv _ _ _ E) as (k & q1 & v & q2 & rest & Ea & Hne & Hk & Hv & ->).
      assert (G : goodEntry (x :: aft) (grp 1 (attrHit k q1 v q2), grp 2 (attrHit k q1 v q2))).
      { repeat split; auto. cbn. intros c Hc. rewrite Ea.
        apply in_or_app. right. right. right. apply in_or_app. left. exact Hc. }
      destruct (length (whole (attrHit k q1 v q2))); cbn [hits]; constructor; auto; apply W.
    + cbn [hits]. apply W.
Qed.

Lemma obj_set_Forall (P : str * str -> Prop) k v o :
  P (k, v) -> Forall P o -> Forall P (obj_set k v o).
Proof.
  intros Hkv Ho. unfold obj_set. destruct (str_eqb k (u "__proto__")); [exact Ho|].
  unfold obj_define. destruct (obj_has k o).
  - induction Ho as [|[k' v'] o Hx Ho IH]; simpl; [constructor|].
    destruct (str_eqb k' k) eqn:E.
    + apply str_eqb_eq in E. subst. constructor; assumption.
    + constructor; assumption.
  - destruct (arrayIndex k) as [n|].
    + induction Ho as [|[k' v'] o Hx Ho IH]; simpl.
      * constructor; [exact Hkv | constructor].
      * destruct (arrayIndex k') as [n'|]; [destruct (n' <? n)|];
          repeat (constructor; auto).
    + apply Forall_app. split; [exact Ho | constructor; [exact Hkv | constructor]].
Qed.

Lemma attrsOf_good raw : Forall (goodEntry raw) (attrsOf raw) /\ wfobj (attrsOf raw).
Proof.
  unfold attrsOf, segments.
  pose proof (hits_attr raw [] 0%nat) as H.
  assert (G : Forall (goodEntry raw) ([] : obj) /\ wfobj []) by (split; [constructor | exact I]).
  revert G. generalize ([] : obj).
  induction H as [|h hs Hh _ IH]; intros o G; [exact G|].
  cbn [fold_left]. apply IH. destruct G as [G1 G2]. split.
  - apply obj_set_Forall; assumption.
  - apply obj_set_wf, G2.
Qed.

Lemma join_space x l :
  u " " ++ join (u " ") (x :: l) = flat_map (fun y => code " " :: y) (x :: l).
Proof.
  revert x. induction l as [|y l IH]; intros x.
  - cbn [join flat_map]. rewrite app_nil_r. reflexivity.
  - change (join (u " ") (x :: y :: l)) with (x ++ u " " ++ join (u " ") (y :: l)).
    rewrite IH. reflexivity.
Qed.

Lemma attrsToHtml_text o : o <> [] -> attrsToHtml (Some o) = attrsText o.
Proof.
  intros Hne. unfold attrsToHtml, attrsText. destruct o as [|kv o]; [congruence|].
  change (map (fun kv0 => fst kv0 ++ [code "="; DQ] ++ snd kv0 ++ [DQ])) with (map attrText).
  cbn [map]. rewrite join_space. rewrite <- (map_cons attrText), flat_map_concat_map, map_map.
  rewrite <- flat_map_concat_map. reflexivity.
Qed.

Lemma scan_attrs o : forall raw bef tail,
  Forall (goodEntry raw) o -> tail = [] \/ tail = [code "/"] ->
  hits (scan attrRegex bef (attrsText o ++ tail) 0)
  = map (fun kv => attrHit (fst kv) DQ (snd kv) DQ) o.
Proof.
  induction o as [|[k v] o IH]; intros raw bef tail Ho Ht.
  - destruct Ht as [-> | ->]; reflexivity.
  - inversion Ho as [|? ? (Hne & Hk & Hv & _) Ho']; subst. cbn [fst snd] in *.
    change (attrsText ((k, v) :: o) ++ tail)
      with (((code " " :: attrText (k, v)) ++ attrsText o) ++ tail).
    replace (((code " " :: attrText (k, v)) ++ attrsText o) ++ tail)
      with (code " " :: (k ++ [code "="; DQ] ++ v ++ [DQ]) ++ attrsText o ++ tail)
      by (unfold attrText; cbn [fst snd]; list_norm; reflexivity).
    rewrite scan_gap by (apply match_at_head_fail; reflexivity).
    cbn [hits].
    rewrite (scan_hit_word attrRegex _ (k ++ [code "="; DQ] ++ v ++ [DQ]) _
               (attrHit k DQ v DQ)).
    + cbn [hits map fst snd]. f_equal. apply (IH raw); assumption.
    + destruct k; discriminate.
    + replace ((k ++ [code "="; DQ] ++ v ++ [DQ]) ++ attrsText o ++ tail)
        with (k ++ code "=" :: DQ :: v ++ DQ :: attrsText o ++ tail)
        by (list_norm; reflexivity).
      apply match_attr; auto.
    + unfold attrHit. cbn [whole]. list_norm. reflexivity.
Qed.

(** Reading back the attribute text written for an object gives the
    object. *)
Lemma attrsOf_text raw o tail :
  Forall (goodEntry raw) o -> wfobj o -> tail = [] \/ tail = [code "/"] ->
  attrsOf (attrsText o ++ tail) = o.
Proof.
  intros Ho Hwf Ht. unfold attrsOf, segments. rewrite (scan_attrs o raw) by assumption.
  rewrite <- (obj_replay o []) at 2 by exact Hwf.
  generalize ([] : obj). induction o as [|[k v] o IH]; intros acc; [reflexivity|].
  cbn [map fold_left]. inversion Ho; subst. unfold wfobj in Hwf. cbn [map wfkeys] in Hwf.
  apply IH; tauto.
Qed.

(** ** Well-formed markup *)

Lemma wf_children l :
  (fix all (l : list markup) : Prop :=
     match l with [] => True | c :: r => wf c /\ all r end) l <-> Forall wf l.
Proof.
  induction l as [|c l IH]; simpl.
  - split; [constructor | exact (fun _ => I)].
  - rewrite IH. split; [intros [H1 H2]; constructor; assumption|].
    intros H. inversion H; subst. split; assumption.
Qed.

Lemma markup_induction (P : markup -> Prop) :
  (forall text, P (MText text)) ->
  (forall name attr, P (MSelf name attr)) ->
  (forall name attr children, Forall P children -> P (MElem name attr children)) ->
  forall m, P m.
Proof.
  intros Ht Hs He. fix IH 1. intros [text|name attr|name attr children].
  - apply Ht.
  - apply Hs.
  - apply He. induction children as [|c l IHl]; constructor; [apply IH | exact IHl].
Qed.

Lemma pushes_frame ns : forall N t a c S,
  pushes ns (mkState N (mkFrame t a c :: S)) = mkState N (mkFrame t a (c ++ ns) :: S).
Proof.
  induction ns as [|n ns IH]; intros N t a c S; simpl.
  - rewrite app_nil_r. reflexivity.
  - unfold push_current at 1. simpl. unfold pushes in IH. rewrite IH.
    rewrite <- app_assoc. reflexivity.
Qed.

Lemma pushes_root ns : forall N, pushes ns (mkState N []) = mkState (N ++ ns) [].
Proof.
  induction ns as [|n ns IH]; intros N; simpl.
  - rewrite app_nil_r. reflexivity.
  - unfold push_current at 1. simpl. unfold pushes in IH. rewrite IH.
    rewrite <- app_assoc. reflexivity.
Qed.

Lemma markupEvents_cons m ms :
  markupEvents (m :: ms) = map tok_event (tokens m) ++ markupEvents ms.
Proof. unfold markupEvents. cbn [flat_map]. apply map_app. Qed.

(** The builder on the events of well-formed markup pushes its tree. *)
Lemma run_markup m : wf m -> forall st,
  fold_left step_total (map tok_event (tokens m)) st = push_current (tree m) st.
Proof.
  induction m as [text|name attr|name attr children IH] using markup_induction;
    intros Hwf st.
  - destruct Hwf as [Hne _]. destruct text; [congruence | reflexivity].
  - destruct Hwf as (_ & Hsc & _). cbn [tokens map tok_event fold_left step_total].
    unfold open_tag. rewrite Hsc. reflexivity.
  - destruct Hwf as (_ & Hsc & Hch & _). apply wf_children in Hch.
    cbn [tokens map tok_event fold_left step_total].
    unfold open_tag at 1. rewrite Hsc. rewrite map_app, fold_left_app.
    assert (Hrun : forall st0,
      fold_left step_total (map tok_event (flat_map tokens children)) st0
      = pushes (map tree children) st0).
    { clear Hsc. induction children as [|c l IHl]; intros st0; [reflexivity|].
      inversion IH; subst. inversion Hch; subst.
      cbn [flat_map]. rewrite map_app, fold_left_app, H1 by assumption.
      rewrite IHl by assumption. reflexivity. }
    rewrite Hrun, pushes_frame. cbn [map tok_event fold_left step_total app].
    unfold close_top. cbn [stack nodes]. unfold finalize. cbn [ftag fattrs fchildren].
    destruct st as [N S]. reflexivity.
Qed.

Lemma run_markups ms : Forall wf ms -> forall st,
  fold_left step_total (markupEvents ms) st = pushes (map tree ms) st.
Proof.
  induction 1 as [|m ms Hm _ IH]; intros st; [reflexivity|].
  rewrite markupEvents_cons, fold_left_app, run_markup by exact Hm.
  rewrite IH. reflexivity.
Qed.

Lemma endsText_cons t l : l <> [] -> endsText (t :: l) = endsText l.
Proof.
  intros H. unfold endsText. cbn [rev].
  destruct (rev l) eqn:E; [|reflexivity].
  apply (f_equal (@rev tok)) in E. rewrite rev_involutive in E. contradiction.
Qed.

Lemma toks_ok_join l1 l2 :
  toks_ok l1 -> toks_ok l2 ->
  (endsText l1 = true -> startsText l2 = false) ->
  toks_ok (l1 ++ l2).
Proof.
  intros H1 H2. induction l1 as [|t l1 IH]; intros Hj; [exact H2|].
  destruct H1 as (Ht & Hadj & Hl1). cbn [app toks_ok].
  split; [exact Ht|]. destruct l1 as [|t' l1].
  - split; [|exact H2]. intros T. cbn [app]. specialize (Hj T).
    destruct l2; [exact I | exact Hj].
  - split; [exact Hadj|]. apply IH; [exact Hl1|].
    intros E. apply Hj. rewrite endsText_cons by discriminate. exact E.
Qed.

Lemma tokens_ends m : tokens m <> [] /\ startsText (tokens m) = isMText m
                      /\ endsText (tokens m) = isMText m.
Proof.
  destruct m as [text|name attr|name attr children]; repeat split; try discriminate.
  unfold endsText. cbn [tokens rev isMText]. rewrite rev_app_distr. reflexivity.
Qed.

Lemma tokens_list_starts ms :
  startsText (flat_map tokens ms)
  = match ms with m :: _ => isMText m | [] => false end.
Proof.
  destruct ms as [|m ms]; [reflexivity|]. cbn [flat_map].
  destruct (tokens_ends m) as (Hne & Hs & _).
  destruct (tokens m) as [|t l]; [congruence|]. exact Hs.
Qed.

Lemma toks_ok_list ms :
  Forall (fun m => toks_ok (tokens m)) ms -> noAdjacentText ms ->
  toks_ok (flat_map tokens ms).
Proof.
  induction 1 as [|m ms Hm _ IH]; intros Hadj; [exact I|].
  destruct Hadj as [Hfirst Hrest]. cbn [flat_map].
  apply toks_ok_join; [exact Hm | apply IH, Hrest|].
  intros E. rewrite (proj2 (proj2 (tokens_ends m))) in E.
  rewrite tokens_list_starts. specialize (Hfirst E).
  destruct ms; [reflexivity | exact Hfirst].
Qed.

Lemma wf_toks_ok m : wf m -> toks_ok (tokens m).
Proof.
  induction m as [text|name attr|name attr children IH] using markup_induction;
    intros Hwf.
  - cbn. repeat split; apply Hwf.
  - cbn. destruct Hwf as (Hok & _). repeat split; try apply Hok; try discriminate.
  - destruct Hwf as (Hok & _ & Hch & Hadj). apply wf_children in Hch.
    change (tokens (MElem name attr children))
      with ([TkTag false name attr] ++ flat_map tokens children ++ [TkTag true name []]).
    apply toks_ok_join.
    + cbn. repeat split; try apply Hok; try discriminate.
    + apply toks_ok_join.
      * apply toks_ok_list; [|exact Hadj].
        rewrite Forall_forall in *. intros c Hc. apply IH; [exact Hc | apply Hch, Hc].
      * cbn. repeat split; try apply Hok; try discriminate.
      * reflexivity.
    + discriminate.
Qed.

(** Reading well-formed markup gives its tree. *)
Lemma parse_markup ms : wfs ms -> htmlToNodes (markupText ms) = Some (map tree ms).
Proof.
  intros [Hwf Hadj]. rewrite htmlToNodes_total. unfold markupText.
  rewrite events_render.
  - fold (markupEvents ms). rewrite run_markups by exact Hwf.
    unfold init. rewrite pushes_root. reflexivity.
  - apply toks_ok_list; [|exact Hadj].
    eapply Forall_impl; [|exact Hwf]. apply wf_toks_ok.
Qed.

(** ** Serializing and reading back *)

Ltac bool_arith :=
  repeat match goal with
         | H : _ && _ = true |- _ => apply andb_true_iff in H; destruct H
         | H : _ || _ = true |- _ => apply orb_true_iff in H; destruct H
         | H : (_ <=? _) = true |- _ => apply N.leb_le in H
         | H : (_ =? _) = true |- _ => apply N.eqb_eq in H
         end.

Lemma lowerChar_name c : isNameChar c = true -> isNameChar (lowerChar c) = true.
Proof.
  intros H. unfold lowerChar. destruct (isUpper c) eqn:U; [|exact H].
  unfold isUpper, inRange in U. bool_arith.
  unfold isNameChar, isWord, isLower, inRange.
  replace (97 <=? c + 32) with true by (symmetry; apply N.leb_le; lia).
  replace (c + 32 <=? 122) with true by (symmetry; apply N.leb_le; lia).
  cbn [andb]. rewrite !orb_true_r. reflexivity.
Qed.

Lemma toLowerCase_name s :
  s <> [] /\ forallb isNameChar s = true ->
  toLowerCase s <> [] /\ forallb isNameChar (toLowerCase s) = true.
Proof.
  intros [Hne H]. split; [destruct s; [congruence | discriminate]|].
  induction s as [|c s IH]; [reflexivity|].
  cbn [forallb] in H. apply andb_true_iff in H. destruct H as [Hc Hs].
  cbn [toLowerCase map forallb]. rewrite lowerChar_name by exact Hc.
  destruct s as [|c' s]; [reflexivity|]. apply IH; [discriminate | exact Hs].
Qed.

Lemma toLowerCase_idem s : toLowerCase (toLowerCase s) = toLowerCase s.
Proof.
  unfold toLowerCase. rewrite map_map. apply map_ext. intros c.
  unfold lowerChar at 1. rewrite lowerChar_not_upper. reflexivity.
Qed.

Lemma includes_false c s : includes c s = false <-> ~ In c s.
Proof.
  unfold includes. split.
  - intros H Hin. assert (E : existsb (N.eqb c) s = true)
      by (apply existsb_exists; exists c; split; [exact Hin | apply N.eqb_refl]).
    congruence.
  - intros H. destruct (existsb (N.eqb c) s) eqn:E; [|reflexivity].
    apply existsb_exists in E. destruct E as (x & Hx & E).
    apply N.eqb_eq in E. subst. contradiction.
Qed.

Lemma forallb_neqc a s : forallb (neqc a) s = true <-> ~ In (code a) s.
Proof.
  rewrite forallb_forall. unfold neqc. split.
  - intros H Hin. apply H in Hin. rewrite N.eqb_refl in Hin. discriminate.
  - intros H x Hx. apply negb_true_iff, N.eqb_neq. intros ->. contradiction.
Qed.

Lemma attrsText_in o c :
  In c (attrsText o) ->
  c = code " " \/ c = code "=" \/ c = DQ \/
  exists kv, In kv o /\ (In c (fst kv) \/ In c (snd kv)).
Proof.
  unfold attrsText. intros H. apply in_flat_map in H. destruct H as (kv & Hkv & Hc).
  destruct Hc as [<-|Hc]; [auto|]. unfold attrText in Hc.
  rewrite !in_app_iff in Hc. cbn [In] in Hc.
  destruct Hc as [Hc|[[<-|[<-|[]]]|[Hc|[<-|[]]]]]; auto;
    right; right; right; exists kv; auto.
Qed.

Lemma nameChar_in k c : forallb isNameChar k = true -> In c k -> isNameChar c = true.
Proof. intros H. rewrite forallb_forall in H. apply H. Qed.

Section CanonAttr.
Variable raw : str.
Hypothesis Hraw : forallb (neqc ">") raw = true.

Let o := attrsOf raw.

Lemma canonAttr_cases :
  (o = [] /\ canonAttr raw = []) \/ (o <> [] /\ canonAttr raw = attrsText o).
Proof.
  unfold canonAttr, attrsField. fold o. destruct o as [|kv o'] eqn:E.
  - left. split; reflexivity.
  - right. split; [discriminate|]. apply attrsToHtml_text. discriminate.
Qed.

Lemma attrsText_no_gt : forallb (neqc ">") (attrsText o) = true.
Proof.
  apply forallb_neqc. intros H. apply attrsText_in in H.
  destruct H as [H|[H|[H|(kv & Hkv & [H|H])]]]; try discriminate.
  - pose proof (proj1 (attrsOf_good raw)) as G. rewrite Forall_forall in G.
    destruct (G kv Hkv) as (_ & Hk & _). apply (nameChar_in _ _ Hk) in H. discriminate.
  - pose proof (proj1 (attrsOf_good raw)) as G. rewrite Forall_forall in G.
    destruct (G kv Hkv) as (_ & _ & _ & Hi). apply Hi in H.
    apply forallb_neqc in Hraw. contradiction.
Qed.

Lemma canonAttr_no_gt tail :
  tail = [] \/ tail = [code "/"] -> forallb (neqc ">") (canonAttr raw ++ tail) = true.
Proof.
  intros Ht. rewrite forallb_app. apply andb_true_iff. split.
  - destruct canonAttr_cases as [[_ ->]|[_ ->]]; [reflexivity | apply attrsText_no_gt].
  - destruct Ht as [-> | ->]; reflexivity.
Qed.

Lemma canonAttr_start tail :
  tail = [] \/ tail = [code "/"] -> startsName (canonAttr raw ++ tail) = false.
Proof.
  intros Ht. destruct canonAttr_cases as [[_ ->]|[Hne ->]].
  - destruct Ht as [-> | ->]; reflexivity.
  - unfold attrsText. destruct o as [|kv o']; [congruence | reflexivity].
Qed.

Lemma canonAttr_read tail :
  tail = [] \/ tail = [code "/"] -> attrsOf (canonAttr raw ++ tail) = o.
Proof.
  intros Ht. destruct canonAttr_cases as [[E ->]|[_ ->]].
  - rewrite E. destruct Ht as [-> | ->]; reflexivity.
  - destruct (attrsOf_good raw) as [G W]. apply (attrsOf_text raw); assumption.
Qed.

Lemma canonAttr_no_slash : slashFree o -> includes (code "/") (canonAttr raw) = false.
Proof.
  intros Hs. apply includes_false. destruct canonAttr_cases as [[_ ->]|[_ ->]]; [tauto|].
  intros H. apply attrsText_in in H.
  destruct H as [H|[H|[H|(kv & Hkv & [H|H])]]]; try discriminate.
  - pose proof (proj1 (attrsOf_good raw)) as G. rewrite Forall_forall in G.
    destruct (G kv Hkv) as (_ & Hk & _). apply (nameChar_in _ _ Hk) in H. discriminate.
  - unfold slashFree in Hs. rewrite Forall_forall in Hs. specialize (Hs kv Hkv).
    apply includes_false in Hs. contradiction.
Qed.
End CanonAttr.

Lemma slashFree_of_text raw : includes (code "/") raw = false -> slashFree (attrsOf raw).
Proof.
  intros H. apply includes_false in H. unfold slashFree.
  pose proof (proj1 (attrsOf_good raw)) as G. rewrite Forall_forall in *.
  intros kv Hkv. apply includes_false. intros Hin.
  destruct (G kv Hkv) as (_ & _ & _ & Hi). apply H, Hi, Hin.
Qed.

Lemma isSelfClosing_void tag attr :
  isSelfClosing tag attr = isVoid tag || includes (code "/") attr.
Proof. reflexivity. Qed.

Lemma map_tree_canon children :
  Forall (fun m => wf m -> wf (canon m) /\ tree (canon m) = tree m) children ->
  Forall wf children ->
  Forall wf (map canon children) /\ map tree (map canon children) = map tree children.
Proof.
  intros IH Hwf. induction children as [|c l IHl]; [split; [constructor | reflexivity]|].
  inversion IH; subst. inversion Hwf; subst.
  destruct (H1 H3) as [W T]. destruct (IHl H2 H4) as [Wl Tl].
  cbn [map]. split; [constructor; assumption | rewrite T, Tl; reflexivity].
Qed.

Lemma canon_isMText m : isMText (canon m) = isMText m.
Proof.
  destruct m as [text|name attr|name attr children]; try reflexivity.
  cbn [canon]. destruct (isVoid (toLowerCase name)); reflexivity.
Qed.

Lemma canon_adjacent ms : noAdjacentText ms -> noAdjacentText (map canon ms).
Proof.
  induction ms as [|m ms IH]; [exact (fun H => H)|].
  intros [H1 H2]. cbn [map noAdjacentText]. split; [|apply IH, H2].
  rewrite canon_isMText. intros E. specialize (H1 E).
  destruct ms as [|m' ms]; [exact I|]. cbn [map]. rewrite canon_isMText. exact H1.
Qed.

(** The markup written for a tree is well formed and stands for the
    same tree. *)
Lemma wf_canon m : wf m -> wf (canon m) /\ tree (canon m) = tree m.
Proof.
  induction m as [text|name attr|name attr children IH] using markup_induction;
    intros Hwf.
  - split; [exact Hwf | reflexivity].
  - destruct Hwf as ((Hne & Hname & Hattr & Hstart) & Hsc & Hslash).
    destruct (toLowerCase_name name (conj Hne Hname)) as [Lne Lname].
    cbn [canon]. destruct (isVoid (toLowerCase name)) eqn:V.
    + cbn [wf tree]. rewrite toLowerCase_idem, V.
      rewrite canonAttr_read by auto. split; [|reflexivity].
      split; [|split; [|discriminate]].
      * repeat split; auto; [apply canonAttr_no_gt | apply canonAttr_start]; auto.
      * rewrite isSelfClosing_void, V. reflexivity.
    + specialize (Hslash eq_refl). cbn [wf tree map]. rewrite toLowerCase_idem.
      rewrite <- (app_nil_r (canonAttr attr)) at 3.
      rewrite canonAttr_read by auto. split; [|reflexivity].
      split; [|split; [|split; exact I]].
      * repeat split; auto.
        -- rewrite <- (app_nil_r (canonAttr attr)). apply canonAttr_no_gt; auto.
        -- rewrite <- (app_nil_r (canonAttr attr)). apply canonAttr_start; auto.
      * rewrite isSelfClosing_void, V. cbn [orb]. apply canonAttr_no_slash; auto.
  - destruct Hwf as ((Hne & Hname & Hattr & Hstart) & Hsc & Hch & Hadj).
    apply wf_children in Hch.
    destruct (toLowerCase_name name (conj Hne Hname)) as [Lne Lname].
    rewrite isSelfClosing_void in Hsc. apply orb_false_iff in Hsc.
    destruct Hsc as [V Hs].
    destruct (map_tree_canon children IH Hch) as [Wl Tl].
    cbn [canon wf tree]. rewrite toLowerCase_idem, Tl.
    rewrite <- (app_nil_r (canonAttr attr)) at 3.
    rewrite canonAttr_read by auto. split; [|reflexivity].
    split; [|split; [|split]].
    + repeat split; auto.
      * rewrite <- (app_nil_r (canonAttr attr)). apply canonAttr_no_gt; auto.
      * rewrite <- (app_nil_r (canonAttr attr)). apply canonAttr_start; auto.
    + rewrite isSelfClosing_void, V. cbn [orb].
      apply canonAttr_no_slash, slashFree_of_text, Hs.
    + apply wf_children, Wl.
    + apply canon_adjacent, Hadj.
Qed.

Lemma nodesToHtml_cons n l : nodesToHtml (n :: l) = nodeToHtml n ++ nodesToHtml l.
Proof. reflexivity. Qed.

(** The serializer writes the canonical markup of the tree. *)
Lemma serialize_canon m : wf m -> nodeToHtml (tree m) = render (tokens (canon m)).
Proof.
  induction m as [text|name attr|name attr children IH] using markup_induction;
    intros Hwf.
  - cbn. rewrite app_nil_r. reflexivity.
  - cbn [tree nodeToHtml canon]. unfold htmlOfElement. fold (isVoid (toLowerCase name)).
    fold (canonAttr attr).
    destruct (isVoid (toLowerCase name)); cbn [tokens render flat_map render_tok slash app];
      list_norm; reflexivity.
  - destruct Hwf as (_ & Hsc & Hch & _). apply wf_children in Hch.
    rewrite isSelfClosing_void in Hsc. apply orb_false_iff in Hsc. destruct Hsc as [V _].
    cbn [tree nodeToHtml canon]. unfold htmlOfElement. fold (isVoid (toLowerCase name)).
    fold (canonAttr attr). rewrite V.
    assert (Hkids :
      match match map tree children with [] => None | n :: l => Some (n :: l) end with
      | Some l => flat_map nodeToHtml l
      | None => []
      end = render (flat_map tokens (map canon children))).
    { assert (E : flat_map nodeToHtml (map tree children)
                  = render (flat_map tokens (map canon children))).
      { clear V. induction children as [|c l IHl]; [reflexivity|].
        inversion IH; subst. inversion Hch; subst.
        cbn [map flat_map]. rewrite H1, IHl by assumption.
        unfold render. rewrite flat_map_app. reflexivity. }
      rewrite <- E. destruct (map tree children); reflexivity. }
    transitivity (u "<" ++ toLowerCase name ++ canonAttr attr ++ u ">" ++
                  render (flat_map tokens (map canon children)) ++
                  u "</" ++ toLowerCase name ++ u ">").
    { do 4 (apply (f_equal2 (@app char)); [reflexivity|]).
      apply (f_equal2 (@app char)); [exact Hkids | reflexivity]. }
    cbn [tokens]. unfold render. cbn [flat_map render_tok slash].
    rewrite flat_map_app. cbn [flat_map render_tok slash]. list_norm. reflexivity.
Qed.

Lemma serialize_markup ms :
  Forall wf ms -> nodesToHtml (map tree ms) = markupText (map canon ms).
Proof.
  induction 1 as [|m ms Hm _ IH]; [reflexivity|].
  cbn [map]. rewrite nodesToHtml_cons, serialize_canon, IH by exact Hm.
  unfold markupText, render. cbn [flat_map]. rewrite flat_map_app. reflexivity.
Qed.

(** On well-formed markup the tree survives serialization and
    re-reading.  Well-formed ([wfs]): the tokenizer reads every text run
    and tag as written; a tag that stands alone is [br], [hr] or [img],
    or has a [/] in its attribute text and in none of its attribute
    values; an element with a closing tag is none of [br], [hr] and
    [img] and has no [/] in its attribute text; no two text runs are
    adjacent. *)
Theorem round_trip_well_formed ms :
  wfs ms ->
  htmlToNodes (markupText ms) = Some (map tree ms) /\
  htmlToNodes (nodesToHtml (map tree ms)) = Some (map tree ms).
Proof.
  intros Hwfs. split; [apply parse_markup, Hwfs|].
  destruct Hwfs as [Hwf Hadj]. rewrite serialize_markup by exact Hwf.
  assert (C : Forall wf (map canon ms) /\ map tree (map canon ms) = map tree ms).
  { apply map_tree_canon; [|exact Hwf]. apply Forall_forall. intros m _. apply wf_canon. }
  destruct C as [Wc Tc]. rewrite <- Tc. apply parse_markup.
  split; [exact Wc | apply canon_adjacent, Hadj].
Qed.

Lemma round_trip_well_formed_witness :
  let ms := [MElem (u "p") [] [MText (u "Hello ");
                              MElem (u "b") [] [MText (u "world")];
                              MText (u "!")]] in
  markupText ms = u "<p>Hello <b>world</b>!</p>" /\
  htmlToNodes (nodesToHtml (map tree ms)) = Some (map tree ms).
Proof.
  intros ms. split; [reflexivity|]. apply round_trip_well_formed.
  split; [|cbn; tauto]. repeat constructor; cbn; try tauto; try discriminate.
Defined.

(** * Further properties *)

Lemma Node_induction (P : Node -> Prop) :
  (forall s, P (NText s)) ->
  (forall tag attrs, P (NElem tag attrs None)) ->
  (forall tag attrs l, Forall P l -> P (NElem tag attrs (Some l))) ->
  forall n, P n.
Proof.
  intros Ht Hn He. fix IH 1. intros [s|tag attrs [l|]].
  - apply Ht.
  - apply He. induction l as [|c l IHl]; constructor; [apply IH | exact IHl].
  - apply Hn.
Qed.

Lemma map_fixed {T} (f : T -> T) l : Forall (fun x => f x = x) l -> map f l = l.
Proof. induction 1 as [|x l Hx _ IH]; [reflexivity|]. simpl. rewrite Hx, IH. reflexivity. Qed.

Lemma flat_map_ext_Forall {T U} (f g : T -> list U) l :
  Forall (fun x => f x = g x) l -> flat_map f l = flat_map g l.
Proof. induction 1 as [|x l Hx _ IH]; [reflexivity|]. simpl. rewrite Hx, IH. reflexivity. Qed.

Lemma nodeToJson_idem n : nodeToJson (nodeToJson n) = nodeToJson n.
Proof.
  induction n as [s|tag attrs|tag attrs l IH] using Node_induction.
  - reflexivity.
  - cbn. f_equal. destruct attrs as [[|kv o]|]; reflexivity.
  - destruct l as [|c l]; cbn [nodeToJson].
    + f_equal. destruct attrs as [[|kv o]|]; reflexivity.
    + cbn [map]. f_equal; [destruct attrs as [[|kv o]|]; reflexivity|].
      f_equal. inversion IH as [|? ? Hc Hl]; subst. cbn [map]. f_equal; [exact Hc|].
      rewrite map_map. apply map_ext_Forall. exact Hl.
Qed.

Lemma push_fixed n st :
  jsonFixed n -> jsonFixedState st -> jsonFixedState (push_current n st).
Proof.
  intros Hn [Hns Hst]. unfold push_current.
  destruct (stack st) as [|f rest] eqn:E; split; simpl.
  - apply Forall_app. split; [exact Hns | constructor; [exact Hn | constructor]].
  - constructor.
  - exact Hns.
  - inversion Hst as [|? ? Hf Hrest]; subst. constructor; [|exact Hrest].
    simpl. apply Forall_app. split; [exact Hf | constructor; [exact Hn | constructor]].
Qed.

Lemma finalize_fixed f : Forall jsonFixed (fchildren f) -> jsonFixed (finalize f).
Proof.
  intros H. unfold jsonFixed, finalize. cbn [nodeToJson]. f_equal.
  - destruct (fattrs f) as [|kv o]; reflexivity.
  - destruct (fchildren f) as [|c l]; [reflexivity|].
    f_equal. apply (map_fixed nodeToJson). exact H.
Qed.

Lemma close_fixed st : jsonFixedState st -> jsonFixedState (close_top st).
Proof.
  intros [Hns Hst]. unfold close_top.
  destruct (stack st) as [|f rest] eqn:E; [split; [exact Hns | rewrite E; exact Hst]|].
  inversion Hst as [|? ? Hf Hrest]; subst.
  apply push_fixed; [apply finalize_fixed; exact Hf | split; assumption].
Qed.

Lemma step_fixed st e : jsonFixedState st -> jsonFixedState (step_total st e).
Proof.
  intros H. destruct e as [text|tagName|tagName attrString|]; cbn [step_total].
  - destruct (truthy text); [apply push_fixed; [reflexivity | exact H] | exact H].
  - apply close_fixed. exact H.
  - unfold open_tag. destruct (isSelfClosing _ _).
    + apply push_fixed; [|exact H]. unfold jsonFixed. cbn [nodeToJson].
      destruct (attrsOf attrString) as [|kv o]; reflexivity.
    + destruct H as [Hns Hst]. split; [exact Hns|]. simpl. constructor; [constructor | exact Hst].
  - exact H.
Qed.

Lemma run_fixed es : forall st,
  jsonFixedState st -> jsonFixedState (fold_left step_total es st).
Proof.
  induction es as [|e es IH]; intros st H; [exact H|]. simpl. apply IH, step_fixed, H.
Qed.

Lemma unwind_fixed n : forall st, jsonFixedState st -> jsonFixedState (unwind n st).
Proof.
  induction n as [|n IH]; intros st H; [exact H|]. simpl.
  destruct (stack st) eqn:E; [exact H|]. apply IH, close_fixed, H.
Qed.

Lemma finish_fixed es : nodesToJson (finish (fold_left step_total es init)) =
  finish (fold_left step_total es init).
Proof.
  apply (map_fixed nodeToJson). unfold finish.
  apply unwind_fixed, run_fixed. split; constructor.
Qed.

(** [nodesToJson] changes nothing when applied twice. *)
Theorem nodesToJson_idempotent t : nodesToJson (nodesToJson t) = nodesToJson t.
Proof.
  unfold nodesToJson. rewrite map_map. apply map_ext. intros n. apply nodeToJson_idem.
Qed.

(** The trees both builders return are already in the form
    [nodesToJson] produces: no element has an [attrs] object without
    keys or an empty [children] array. *)
Theorem builders_return_json_form html :
  option_map nodesToJson (htmlToNodes html) = htmlToNodes html /\
  option_map nodesToJson (parseHtmlToNodes html) = parseHtmlToNodes html.
Proof.
  rewrite htmlToNodes_total, parseHtmlToNodes_total. simpl.
  rewrite !finish_fixed. split; reflexivity.
Qed.

Lemma attrOr_compact key attrs :
  attrOr key (match attrs with
              | Some o => if keys_nonempty o then Some o else None
              | None => None
              end) = attrOr key attrs.
Proof. destruct attrs as [[|kv o]|]; reflexivity. Qed.

Lemma markdownOfElement_compact tag attrs md :
  markdownOfElement tag
    (match attrs with
     | Some o => if keys_nonempty o then Some o else None
     | None => None
     end) md = markdownOfElement tag attrs md.
Proof. unfold markdownOfElement. rewrite !attrOr_compact. reflexivity. Qed.

Lemma nodeToMarkdown_json n : nodeToMarkdown (nodeToJson n) = nodeToMarkdown n.
Proof.
  induction n as [s|tag attrs|tag attrs l IH] using Node_induction.
  - reflexivity.
  - cbn [nodeToJson nodeToMarkdown]. apply markdownOfElement_compact.
  - destruct l as [|c l]; cbn [nodeToJson nodeToMarkdown].
    + apply markdownOfElement_compact.
    + rewrite markdownOfElement_compact. f_equal.
      rewrite flat_map_concat_map, map_map, <- flat_map_concat_map.
      apply flat_map_ext_Forall. exact IH.
Qed.

Lemma noEmptyAttrs_children l :
  (fix all (l : list Node) : Prop :=
     match l with [] => True | c :: r => noEmptyAttrs c /\ all r end) l
  <-> Forall noEmptyAttrs l.
Proof.
  induction l as [|c r IH]; split; intros H.
  - constructor.
  - exact I.
  - destruct H as [H1 H2]. constructor; [exact H1 | apply IH, H2].
  - inversion H; subst. split; [assumption | apply IH; assumption].
Qed.

Lemma nodeToHtml_json n : noEmptyAttrs n -> nodeToHtml (nodeToJson n) = nodeToHtml n.
Proof.
  induction n as [s|tag attrs|tag attrs l IH] using Node_induction; intros H.
  - reflexivity.
  - destruct H as [Ha _]. cbn [nodeToJson nodeToHtml].
    destruct attrs as [[|kv o]|]; [exfalso; apply Ha; reflexivity | reflexivity | reflexivity].
  - destruct H as [Ha Hl]. apply noEmptyAttrs_children in Hl.
    assert (Hattrs : match attrs with
                     | Some o => if keys_nonempty o then Some o else None
                     | None => None
                     end = attrs)
      by (destruct attrs as [[|kv o]|]; [exfalso; apply Ha; reflexivity | reflexivity | reflexivity]).
    destruct l as [|c l]; cbn [nodeToJson nodeToHtml]; rewrite Hattrs; [reflexivity|].
    f_equal. rewrite flat_map_concat_map, map_map, <- flat_map_concat_map.
    apply flat_map_ext_Forall.
    rewrite Forall_forall in *. intros x Hx. apply IH; [exact Hx | apply Hl, Hx].
Qed.

(** Converting with [nodesToJson] first never changes the Markdown, and
    does not change the markup either when no element has an [attrs]
    object without keys. *)
Theorem nodesToJson_serializations t :
  nodesToMarkdown (nodesToJson t) = nodesToMarkdown t /\
  (Forall noEmptyAttrs t -> nodesToHtml (nodesToJson t) = nodesToHtml t).
Proof.
  unfold nodesToMarkdown, nodesToHtml, nodesToJson. split.
  - rewrite flat_map_concat_map, map_map, <- flat_map_concat_map.
    apply flat_map_ext. intros n. apply nodeToMarkdown_json.
  - intros H. rewrite flat_map_concat_map, map_map, <- flat_map_concat_map.
    apply flat_map_ext_Forall. rewrite Forall_forall in *.
    intros n Hn. apply nodeToHtml_json, H, Hn.
Qed.

Lemma nodesToJson_serializations_witness :
  let t := [NElem (u "p") (Some [(u "id", u "x")]) (Some []); NText (u "a")] in
  nodesToHtml (nodesToJson t) = nodesToHtml t.
Proof.
  intros t. apply (proj2 (nodesToJson_serializations t)).
  repeat constructor; discriminate.
Defined.

Lemma trimNodes_app a b : trimNodes (a ++ b) = trimNodes a ++ trimNodes b.
Proof. apply flat_map_app. Qed.

Lemma pushes_app a b st : pushes (a ++ b) st = pushes b (pushes a st).
Proof. apply fold_left_app. Qed.

Lemma trim_push n st :
  trimState (push_current n st) = pushes (trimNode n) (trimState st).
Proof.
  destruct st as [ns [|[t a c] S]]; unfold trimState, push_current; cbn [stack nodes map].
  - rewrite pushes_root, trimNodes_app. unfold trimNodes at 2. simpl.
    rewrite app_nil_r. reflexivity.
  - unfold trimFrame at 1. cbn [ftag fattrs fchildren].
    unfold trimFrame at 2. cbn [ftag fattrs fchildren].
    rewrite pushes_frame, trimNodes_app. unfold trimNodes at 3. simpl.
    rewrite app_nil_r. reflexivity.
Qed.

Lemma trim_finalize f : trimNode (finalize f) = [finalize (trimFrame f)].
Proof.
  unfold finalize, trimFrame. cbn [trimNode ftag fattrs fchildren].
  destruct (fchildren f) as [|c l]; reflexivity.
Qed.

Lemma pushes_one n st : pushes [n] st = push_current n st.
Proof. reflexivity. Qed.

Lemma trim_close st : trimState (close_top st) = close_top (trimState st).
Proof.
  destruct st as [ns [|f S]]; [reflexivity|].
  unfold close_top. cbn [stack nodes]. rewrite trim_push, trim_finalize, pushes_one.
  unfold trimState at 2. cbn [stack nodes map]. reflexivity.
Qed.

Lemma trim_step st e :
  trimState (step_total st e) = fold_left step_total (trimEvent e) (trimState st).
Proof.
  destruct e as [text|tagName|tagName attrString|]; cbn [step_total trimEvent].
  - destruct (truthy text) eqn:T.
    + rewrite trim_push. cbn [trimNode].
      destruct (truthy (trim text)) eqn:T'; [|reflexivity].
      cbn [fold_left step_total]. rewrite T'. reflexivity.
    + destruct text; [reflexivity | discriminate].
  - cbn [fold_left step_total]. apply trim_close.
  - cbn [fold_left step_total]. unfold open_tag.
    destruct (isSelfClosing _ _); [rewrite trim_push; reflexivity | reflexivity].
  - reflexivity.
Qed.

Lemma trim_run es : forall st,
  trimState (fold_left step_total es st)
  = fold_left step_total (flat_map trimEvent es) (trimState st).
Proof.
  induction es as [|e es IH]; intros st; [reflexivity|].
  cbn [fold_left flat_map]. rewrite fold_left_app, IH, trim_step. reflexivity.
Qed.

Lemma trim_unwind n : forall st, trimState (unwind n st) = unwind n (trimState st).
Proof.
  induction n as [|n IH]; intros st; [reflexivity|]. simpl.
  destruct (stack st) as [|f S] eqn:E; [reflexivity|].
  simpl. rewrite IH, trim_close. reflexivity.
Qed.

Lemma trim_finish st : trimNodes (finish st) = finish (trimState st).
Proof.
  unfold finish. change (trimNodes (nodes (unwind (length (stack st)) st)))
    with (nodes (trimState (unwind (length (stack st)) st))).
  rewrite trim_unwind. unfold trimState at 2. cbn [stack]. rewrite length_map. reflexivity.
Qed.

Lemma parseHtmlToNodes_is_trimmed_tree_aux html :
  parseHtmlToNodes html
  = Some (trimNodes (finish (fold_left step_total (events html) init))).
Proof. rewrite parseHtmlToNodes_total, trim_finish, trim_run. reflexivity. Qed.

(** On every input, [parseHtmlToNodes] returns the tree of [htmlToNodes]
    with every text leaf trimmed, the leaves left empty removed, and the
    [children] field removed from the elements left without children. *)
Theorem parseHtmlToNodes_is_trimmed_tree html :
  parseHtmlToNodes html = option_map trimNodes (htmlToNodes html).
Proof.
  rewrite parseHtmlToNodes_is_trimmed_tree_aux, htmlToNodes_total. reflexivity.
Qed.

Lemma trimStart_idem s : trimStart (trimStart s) = trimStart s.
Proof.
  induction s as [|c r IH]; [reflexivity|]. simpl.
  destruct (isSpace c) eqn:E; [exact IH|]. simpl. rewrite E. reflexivity.
Qed.

Lemma trimStart_snoc l c : isSpace c = false -> trimStart (l ++ [c]) = trimStart l ++ [c].
Proof.
  intros Hc. induction l as [|x l IH]; simpl; [rewrite Hc; reflexivity|].
  destruct (isSpace x); [exact IH | reflexivity].
Qed.

Lemma trimEnd_idem s : trimEnd (trimEnd s) = trimEnd s.
Proof. unfold trimEnd. rewrite rev_involutive, trimStart_idem. reflexivity. Qed.

Lemma trimStart_trimEnd s : trimStart (trimEnd (trimStart s)) = trimEnd (trimStart s).
Proof.
  assert (H : trimStart s = [] \/ exists c r, trimStart s = c :: r /\ isSpace c = false).
  { induction s as [|c r IH]; [left; reflexivity|]. simpl.
    destruct (isSpace c) eqn:E; [exact IH | right; eauto]. }
  destruct H as [->|(c & r & -> & Hc)]; [reflexivity|].
  unfold trimEnd. cbn [rev]. rewrite trimStart_snoc by exact Hc.
  rewrite rev_app_distr. simpl. rewrite Hc. reflexivity.
Qed.

Lemma trim_idem s : trim (trim s) = trim s.
Proof. unfold trim. rewrite trimStart_trimEnd, trimEnd_idem. reflexivity. Qed.

Lemma texts_app a b : texts (a ++ b) = texts a ++ texts b.
Proof.
  induction a as [|[s|tag attrs h] a IH]; simpl; [reflexivity | f_equal; exact IH | exact IH].
Qed.

Lemma texts_flat {T} (f : T -> list item) (P : str -> Prop) l :
  Forall (fun x => Forall P (texts (f x))) l -> Forall P (texts (flat_map f l)).
Proof.
  induction 1 as [|x l Hx _ IH]; simpl; [constructor|].
  rewrite texts_app. apply Forall_app. split; assumption.
Qed.

Lemma flat_map_flat_map {T U V} (f : T -> list U) (g : U -> list V) l :
  flat_map g (flat_map f l) = flat_map (fun x => flat_map g (f x)) l.
Proof.
  induction l as [|x l IH]; [reflexivity|]. simpl. rewrite flat_map_app, IH. reflexivity.
Qed.

Lemma outlines_trimNode n :
  Forall (fun s => s <> [] /\ trim s = s) (texts (outlines (trimNode n))).
Proof.
  induction n as [s|tag attrs|tag attrs l IH] using Node_induction.
  - cbn [trimNode]. destruct (truthy (trim s)) eqn:T; [|constructor].
    simpl. constructor; [|constructor]. split; [|apply trim_idem].
    destruct (trim s); [discriminate | discriminate].
  - simpl. constructor.
  - cbn [trimNode]. unfold outlines. cbn [flat_map outline]. rewrite app_nil_r.
    cbn [texts].
    assert (H : Forall (fun s => s <> [] /\ trim s = s)
                  (texts (flat_map outline (flat_map trimNode l)))).
    { rewrite flat_map_flat_map. apply texts_flat. exact IH. }
    destruct (flat_map trimNode l) as [|c l'] eqn:E; [constructor | exact H].
Qed.

(** No text leaf of a tree built by [parseHtmlToNodes] is empty or has
    white space at either end. *)
Theorem parseHtmlToNodes_texts_trimmed html :
  exists t, parseHtmlToNodes html = Some t /\
    Forall (fun s => s <> [] /\ trim s = s) (texts (outlines t)).
Proof.
  rewrite parseHtmlToNodes_is_trimmed_tree_aux. eexists. split; [reflexivity|].
  unfold outlines, trimNodes. rewrite flat_map_flat_map.
  apply texts_flat. apply Forall_forall. intros n _. apply outlines_trimNode.
Qed.

Section Language.
Variable A : Type.

Lemma star_loop_lang body g r :
  @lang_matcher A (lang r) body ->
  forall n, @lang_matcher A (lang (Star g r)) (fun c k => star_loop body g k n c).
Proof.
  intros Hb n. induction n as [|n IH]; intros c k a H.
  - exists c, []. repeat split; [apply H | constructor].
  - simpl in H.
    assert (Hagain : forall x,
      body c (fun c' => if (length (after c') <? length (after c))%nat
                        then star_loop body g k n c' else None) = Some x ->
      exists c' w, reach c c' w /\ k c' = Some x /\ lang (Star g r) w).
    { intros x Hx. apply Hb in Hx. destruct Hx as (c1 & w1 & R1 & K1 & L1).
      destruct (length (after c1) <? length (after c))%nat; [|discriminate].
      apply IH in K1. destruct K1 as (c2 & w2 & R2 & K2 & L2).
      exists c2, (w1 ++ w2). split; [exact (reach_trans _ _ _ _ _ R1 R2)|].
      split; [exact K2 | constructor; assumption]. }
    specialize (Hagain a). destruct g.
    + revert Hagain. destruct (body c _) as [x|].
      * intros Hagain. apply Hagain. exact H.
      * intros _. exists c, []. repeat split; [exact H | constructor].
    + destruct (k c) eqn:E.
      * inversion H; subst. exists c, []. repeat split; [exact E | constructor].
      * apply Hagain. exact H.
Qed.

Lemma rmatch_lang r : @lang_matcher A (lang r) (rmatch r).
Proof.
  induction r as [|p|r1 IH1 r2 IH2|r1 IH1 r2 IH2|g r1 IH1|n r1 IH1|ml|ml|p|p];
    intros c k a H; simpl in H.
  - exists c, []. repeat split; [exact H | constructor].
  - destruct (after c) as [|x rest] eqn:E; [discriminate|].
    destruct (p x) eqn:Px; [|discriminate].
    exists (advance x rest c), [x]. repeat split; simpl; auto. constructor. exact Px.
  - apply IH1 in H. destruct H as (c1 & w1 & R1 & K1 & L1).
    apply IH2 in K1. destruct K1 as (c2 & w2 & R2 & K2 & L2).
    exists c2, (w1 ++ w2). split; [exact (reach_trans _ _ _ _ _ R1 R2)|].
    split; [exact K2 | constructor; assumption].
  - destruct (rmatch r1 c k) eqn:E.
    + inversion H; subst. apply IH1 in E. destruct E as (c1 & w1 & R1 & K1 & L1).
      exists c1, w1. split; [exact R1|]. split; [exact K1 | apply LAltL; exact L1].
    + apply IH2 in H. destruct H as (c1 & w1 & R1 & K1 & L1).
      exists c1, w1. split; [exact R1|]. split; [exact K1 | apply LAltR; exact L1].
  - apply (star_loop_lang (rmatch r1) g r1) in H; [exact H | exact IH1].
  - apply IH1 in H. destruct H as (c1 & w1 & R1 & K1 & L1).
    exists (set_cap n (consumed c c1) c1), w1.
    split; [apply reach_set_cap; exact R1|]. split; [exact K1 | constructor; exact L1].
  - destruct (at_bol ml c); [|discriminate].
    exists c, []. repeat split; [exact H | constructor].
  - destruct (at_eol ml c); [|discriminate].
    exists c, []. repeat split; [exact H | constructor].
  - exists c, []. split; [apply reach_refl|]. split; [|constructor].
    destruct (before c) as [|x ?]; [exact H|]. destruct (p x); [discriminate | exact H].
  - exists c, []. split; [apply reach_refl|]. split; [|constructor].
    destruct (after c) as [|x ?]; [exact H|]. destruct (p x); [discriminate | exact H].
Qed.
End Language.

(** What a match covers is a string the regex can consume. *)
Lemma match_at_lang r bef aft h :
  match_at r bef aft = Some h ->
  lang r (whole h) /\ exists rest, aft = whole h ++ rest.
Proof.
  unfold match_at. intros H. apply rmatch_lang in H.
  destruct H as (c' & w & R & K & L). inversion K; subst. simpl.
  rewrite (reach_consumed _ _ _ R). split; [exact L|]. exists (after c'). apply R.
Qed.

Lemma lang_star_cls g p w : lang (Star g (Cls p)) w -> forallb p w = true.
Proof.
  intros H. remember (Star g (Cls p)) as r eqn:E.
  induction H as [| | | | | |g' r' w1 w2 H1 _ H2 IH| | | | |]; try discriminate.
  - reflexivity.
  - inversion E; subst. inversion H1; subst. simpl.
    rewrite IH by reflexivity. rewrite H0. reflexivity.
Qed.

Lemma lang_plus_cls p w :
  lang (Plus (Cls p)) w -> w <> [] /\ forallb p w = true.
Proof.
  intros H. inversion H as [| |r1 r2 w1 w2 H1 H2| | | | | | | | |]; subst.
  inversion H1; subst. apply lang_star_cls in H2.
  split; [discriminate|]. simpl. rewrite H2. rewrite H3. reflexivity.
Qed.

Lemma forallb_app_inv {T} (p : T -> bool) a b :
  forallb p (a ++ b) = true -> forallb p a = true /\ forallb p b = true.
Proof. rewrite forallb_app. apply andb_true_iff. Qed.

(** Every match of the token regex is a token: a maximal run without
    [<], or a tag with the longest possible name. *)
Lemma match_tagRegex_inv bef aft h :
  match_at tagRegex bef aft = Some h ->
  exists t rest, tok_ok t /\ aft = render_tok t ++ rest /\ h = tok_hit t /\
    (isText t = true -> match rest with [] => True | y :: _ => neqc "<" y = false end).
Proof.
  intros H. destruct aft as [|x aft'].
  { rewrite match_at_head_fail in H by reflexivity. discriminate. }
  destruct (neqc "<" x) eqn:Hx.
  - destruct (span_spec (neqc "<") aft') as (w & rest & -> & Hw & Hr).
    assert (Ht : forallb (neqc "<") (x :: w) = true) by (simpl; rewrite Hx; exact Hw).
    change (x :: w ++ rest) with ((x :: w) ++ rest) in H.
    rewrite match_text in H; [|discriminate|exact Ht|].
    2:{ destruct rest as [|y rest]; [exact I|]. exact Hr. }
    inversion H; subst. exists (TkText (x :: w)), rest.
    split; [split; [discriminate | exact Ht]|]. split; [reflexivity|].
    split; [reflexivity|]. intros _. destruct rest as [|y rest]; [exact I | exact Hr].
  - pose proof (match_at_lang _ _ _ _ H) as (L & rest & E).
    remember (whole h) as W eqn:EW. clear EW.
    unfold tagRegex in L.
    inversion L as [| | |r1 r2 w0 L1|r1 r2 w0 L2| | | | | | |]; subst.
    2:{ inversion L2 as [| | | | | | |n r w0 L3| | | |]; subst.
        apply lang_plus_cls in L3. destruct L3 as [Hne Hall].
        destruct W as [|y w]; [congruence|].
        simpl in E. inversion E; subst y. simpl in Hall. rewrite Hx in Hall. discriminate. }
    inversion L1 as [| |ra rb wa wb La Lb| | | | | | | | |]; subst.
    inversion La as [|p0 x0 Hx0| | | | | | | | | |]; subst.
    inversion Lb as [| |rc rd wc wd Lc Ld| | | | | | | | |]; subst.
    inversion Lc as [| | | | | | |n1 r1 w1 Lc'| | | |]; subst.
    inversion Ld as [| |re rf we wf Le Lf| | | | | | | | |]; subst.
    inversion Le as [| | | | | | |n2 r2 w2 Le'| | | |]; subst.
    apply lang_plus_cls in Le'. destruct Le' as [Hname_ne Hname].
    inversion Lf as [| |rg rh wg wh Lg Lh| | | | | | | | |]; subst.
    inversion Lg as [| | | | | | |n3 r3 w3 Lg'| | | |]; subst.
    apply lang_star_cls in Lg'.
    inversion Lh as [|p1 x1 Hx1| | | | | | | | | |]; subst.
    apply N.eqb_eq in Hx0, Hx1. subst x0 x1.
    assert (Hsl : wc = slash (match wc with [] => false | _ => true end)).
    { inversion Lc' as [| | |r1 r2 w0 Lx|r1 r2 w0 Lx| | | | | | |]; subst.
      - inversion Lx as [|p2 x2 Hx2| | | | | | | | | |]; subst.
        apply N.eqb_eq in Hx2. subst. reflexivity.
      - inversion Lx. reflexivity. }
    destruct (span_spec isNameChar (we ++ wg)) as (name & attr & Es & Hn & Ha).
    assert (Hne : name <> []).
    { intros ->. simpl in Es. destruct we as [|n0 we]; [congruence|].
      simpl in Es. subst attr. simpl in Hname.
      apply andb_true_iff in Hname. destruct Hname as [Hn0 _]. congruence. }
    assert (Hall : forallb (neqc ">") (we ++ wg) = true).
    { rewrite forallb_app, Lg', andb_true_r. apply forallb_forall. intros y Hy.
      apply (forallb_In _ _ _ Hname) in Hy. apply nameChar_facts in Hy. tauto. }
    rewrite Es in Hall. apply forallb_app_inv in Hall. destruct Hall as [_ Hattr].
    assert (Hok : tok_ok (TkTag (match wc with [] => false | _ => true end) name attr)).
    { split; [exact Hne|]. split; [exact Hn|]. split; [exact Hattr|].
      destruct attr; [reflexivity | exact Ha]. }
    assert (Eaft : x :: aft' =
      render_tok (TkTag (match wc with [] => false | _ => true end) name attr) ++ rest).
    { rewrite E. cbn [render_tok]. rewrite <- Hsl.
      rewrite <- !app_assoc. cbn [app].
      rewrite (app_assoc we wg), Es, <- !app_assoc. reflexivity. }
    rewrite Eaft in H. rewrite match_tag in H by exact Hok. inversion H; subst h.
    eexists. exists rest. split; [exact Hok|]. split; [exact Eaft|].
    split; [reflexivity | discriminate].
Qed.

Lemma whole_tok_hit t : whole (tok_hit t) = render_tok t.
Proof. destruct t; reflexivity. Qed.

Lemma match_at_end bef : match_at tagRegex bef [] = None.
Proof. apply match_at_head_fail. reflexivity. Qed.

Lemma scan_end bef : scan tagRegex bef [] 0 = [].
Proof. cbn [scan]. rewrite match_at_end. reflexivity. Qed.

Lemma scan_pieces n : forall aft bef, (length aft <= n)%nat ->
  exists l, aft = flat_map render_piece l /\
    scan tagRegex bef aft 0 = map piece_seg l /\
    Forall tok_ok (piece_tokens l).
Proof.
  induction n as [|n IH]; intros aft bef Hlen.
  - destruct aft; [|simpl in Hlen; lia]. exists [].
    split; [reflexivity|]. split; [apply scan_end | constructor].
  - destruct aft as [|x rest].
    { exists []. split; [reflexivity|]. split; [apply scan_end | constructor]. }
    destruct (match_at tagRegex bef (x :: rest)) as [h|] eqn:E.
    + destruct (match_tagRegex_inv _ _ _ E) as (t & rest' & Hok & Eaft & Eh & _).
      pose proof (render_tok_nonempty t Hok) as Hne.
      assert (Hl : (length rest' <= n)%nat).
      { apply (f_equal (@length _)) in Eaft. rewrite length_app in Eaft. simpl in Eaft.
        simpl in Hlen. destruct (render_tok t); [congruence|]. simpl in Eaft. lia. }
      destruct (IH rest' (rev (render_tok t) ++ bef) Hl) as (l & El & Es & Hl').
      exists (Token t :: l). rewrite Eaft. split; [simpl; rewrite <- El; reflexivity|].
      split; [|simpl; constructor; assumption].
      rewrite Eaft in E.
      rewrite (scan_hit_word tagRegex bef (render_tok t) rest' h Hne E);
        [|subst h; apply whole_tok_hit].
      cbn [map piece_seg]. rewrite Es. subst h. reflexivity.
    + assert (Hx : x = code "<").
      { destruct (neqc "<" x) eqn:Hx.
        - destruct (span_spec (neqc "<") rest) as (w & r & -> & Hw & Hr).
          change (x :: w ++ r) with ((x :: w) ++ r) in E.
          rewrite match_text in E; [discriminate | discriminate | simpl; rewrite Hx; exact Hw|].
          destruct r; [exact I | exact Hr].
        - unfold neqc in Hx. apply negb_false_iff, N.eqb_eq in Hx. exact Hx. }
      destruct (IH rest (x :: bef)) as (l & El & Es & Hl'); [simpl in Hlen; lia|].
      exists (Stray :: l). subst x. split; [simpl; rewrite <- El; reflexivity|].
      split; [|exact Hl']. rewrite scan_gap by exact E. cbn [map piece_seg].
      rewrite Es. reflexivity.
Qed.

Lemma hits_pieces l : hits (map piece_seg l) = map tok_hit (piece_tokens l).
Proof.
  induction l as [|[t|] l IH]; simpl; [reflexivity | f_equal; exact IH | exact IH].
Qed.

Lemma events_pieces html :
  exists l, html = flat_map render_piece l /\ Forall tok_ok (piece_tokens l) /\
    events html = map tok_event (piece_tokens l).
Proof.
  destruct (scan_pieces (length html) html [] (le_n _)) as (l & E & Es & Hok).
  exists l. split; [exact E|]. split; [exact Hok|].
  unfold events, segments. rewrite Es, hits_pieces, map_map.
  apply map_ext_Forall. revert Hok. apply Forall_impl. intros t. apply classify_tok.
Qed.

(** The main loop loses nothing of its input but [<] characters that
    start no tag: the input is the concatenation of the tokens the loop
    handles, in order, and of such characters. *)
Theorem tokenizer_conserves html :
  exists l, html = flat_map render_piece l /\ Forall tok_ok (piece_tokens l) /\
    tokenize html = Some (map tok_event (piece_tokens l)).
Proof.
  destruct (events_pieces html) as (l & E & Hok & Ev).
  exists l. rewrite tokenize_total, Ev. repeat split; assumption.
Qed.

Lemma tok_event_clean t : tok_ok t -> cleanEvent (tok_event t).
Proof.
  destruct t as [text|[|] name attr]; simpl; [tauto | tauto |].
  intros (H1 & H2 & H3 & _). repeat split; assumption.
Qed.

Lemma events_clean html : Forall cleanEvent (events html).
Proof.
  destruct (events_pieces html) as (l & _ & Hok & ->).
  apply Forall_map. revert Hok. apply Forall_impl. exact tok_event_clean.
Qed.

Lemma forallb_trimStart (p : char -> bool) s :
  forallb p s = true -> forallb p (trimStart s) = true.
Proof.
  induction s as [|c r IH]; [reflexivity|]. intros H. simpl.
  destruct (isSpace c); [|exact H]. simpl in H. apply andb_true_iff in H. apply IH, H.
Qed.

Lemma forallb_rev (p : char -> bool) s : forallb p s = true -> forallb p (rev s) = true.
Proof.
  rewrite !forallb_forall. intros H y Hy. apply H, in_rev, Hy.
Qed.

Lemma forallb_trim (p : char -> bool) s : forallb p s = true -> forallb p (trim s) = true.
Proof.
  intros H. unfold trim, trimEnd.
  apply forallb_rev, forallb_trimStart, forallb_rev, forallb_trimStart, H.
Qed.

Lemma trimEvent_clean es : Forall cleanEvent es -> Forall cleanEvent (flat_map trimEvent es).
Proof.
  induction 1 as [|e es He _ IH]; [constructor|]. simpl. apply Forall_app. split; [|exact IH].
  destruct e as [text| | |]; simpl; try (constructor; [exact He | constructor]).
  destruct (truthy (trim text)) eqn:T; [|constructor].
  constructor; [|constructor]. split; [destruct (trim text); discriminate|].
  apply forallb_trim, He.
Qed.

Lemma wfkeys_facts ks : wfkeys ks -> NoDup ks /\ Forall (fun k => k <> protoKey) ks.
Proof.
  induction ks as [|k r IH]; [split; constructor|].
  intros (Hk & Hr & Hw). destruct (IH Hw) as [Hnd Hp].
  split; [|constructor; assumption]. constructor; [|exact Hnd].
  intros Hin. rewrite Forall_forall in Hr. destruct (Hr _ Hin) as [Hneq _]. congruence.
Qed.

Lemma attrsOf_clean raw :
  forallb (neqc ">") raw = true ->
  match attrsField (attrsOf raw) with Some o => cleanAttrs o | None => True end.
Proof.
  intros Hraw. destruct (attrsOf_good raw) as [Hgood Hwf].
  unfold attrsField. destruct (attrsOf raw) as [|kv o] eqn:E; [exact I|].
  cbn [keys_nonempty]. split; [discriminate|].
  apply wfkeys_facts in Hwf. destruct Hwf as [Hnd Hp].
  split; [exact Hnd|]. rewrite Forall_forall in *. intros x Hx.
  destruct (Hgood x Hx) as (H1 & H2 & H3 & H4).
  repeat split; try assumption.
  - apply Hp, in_map, Hx.
  - apply forallb_forall. intros y Hy. apply (forallb_In _ _ _ Hraw), H4, Hy.
Qed.

Lemma corr_clean vs items :
  Forall cleanEvent vs -> Forall2 corr vs items -> Forall cleanItem items.
Proof.
  intros Hvs H. induction H as [|e i vs items Hc _ IH]; [constructor|].
  inversion Hvs as [|? ? He Hvs']; subst. constructor; [|apply IH, Hvs'].
  destruct e as [text|n|n a|], i as [s|tag attrs b]; simpl in Hc; try contradiction.
  - subst. exact He.
  - destruct Hc as (-> & -> & _). destruct He as [Hn Ha].
    apply toLowerCase_name in Hn. destruct Hn as [Hn1 Hn2].
    split; [exact Hn1|]. split; [exact Hn2|]. apply attrsOf_clean, Ha.
Qed.

Lemma visible_clean es : Forall cleanEvent es -> Forall cleanEvent (visible es).
Proof.
  unfold visible. rewrite !Forall_forall. intros H e He.
  apply filter_In in He. apply H, He.
Qed.

(** Whatever the input, a tree built by either builder holds only:
    text leaves that are not empty and have no [<]; elements whose tag
    is a non-empty run of letters, digits, underscores and hyphens; and
    attribute objects with at least one key, no key twice, every key
    such a run other than [__proto__], and no quote or [>] in a value. *)
Theorem trees_hold_clean_nodes html :
  exists t1 t2,
    htmlToNodes html = Some t1 /\ parseHtmlToNodes html = Some t2 /\
    Forall cleanItem (outlines t1) /\ Forall cleanItem (outlines t2).
Proof.
  eexists. eexists. split; [apply htmlToNodes_total|].
  split; [apply parseHtmlToNodes_total|].
  pose proof (events_clean html) as H. split.
  - apply (corr_clean (visible (events html))); [apply visible_clean, H | apply outline_finish].
  - apply (corr_clean (visible (flat_map trimEvent (events html))));
      [apply visible_clean, trimEvent_clean, H | apply outline_finish].
Qed.

(** Whatever the raw attribute text of a tag, the attribute text the
    serializer writes for the object read from it is read back as the
    same object, keys in the same order. *)
Theorem attributes_read_back attrString :
  exists attrs,
    parseAttrs attrString = Some attrs /\
    parseAttrs (attrsToHtml (if keys_nonempty attrs then Some attrs else None))
    = Some attrs.
Proof.
  exists (attrsOf attrString). split; [apply parseAttrs_total|].
  rewrite parseAttrs_total. f_equal.
  destruct (attrsOf_good attrString) as [Hgood Hwf].
  destruct (attrsOf attrString) as [|kv o] eqn:E; [reflexivity|].
  cbn [keys_nonempty]. rewrite attrsToHtml_text by discriminate.
  rewrite <- (app_nil_r (attrsText (kv :: o))).
  apply (attrsOf_text attrString); [exact Hgood | exact Hwf | left; reflexivity].
Qed.

Lemma obj_get_app {V} k (a b : list (str * V)) :
  obj_get k (a ++ b) = match obj_get k a with Some v => Some v | None => obj_get k b end.
Proof.
  induction a as [|[k' v'] a IH]; [reflexivity|]. simpl.
  destruct (str_eqb k' k); [reflexivity | exact IH].
Qed.

Lemma obj_get_has {V} k (o : list (str * V)) :
  obj_has k o = false -> obj_get k o = None.
Proof.
  induction o as [|[k' v'] o IH]; [reflexivity|]. unfold obj_has. simpl.
  destruct (str_eqb k' k); [discriminate | exact IH].
Qed.

Lemma get_update {V} k (v : V) k' o :
  obj_has k o = true ->
  obj_get k' (obj_update k v o) = if str_eqb k k' then Some v else obj_get k' o.
Proof.
  induction o as [|[k0 v0] o IH]; [discriminate|]. unfold obj_has. simpl.
  destruct (str_eqb k0 k) eqn:E0.
  - intros _. apply str_eqb_eq in E0. subst k0. simpl.
    destruct (str_eqb k k'); reflexivity.
  - intros H. simpl. destruct (str_eqb k0 k') eqn:E1.
    + apply str_eqb_eq in E1. subst k0.
      destruct (str_eqb k k') eqn:E2; [|reflexivity].
      apply str_eqb_eq in E2. subst. rewrite str_eqb_refl in E0. discriminate.
    + apply IH, H.
Qed.

Lemma get_insert_index {V} n k (v : V) k' o :
  obj_has k o = false ->
  obj_get k' (obj_insert_index n k v o) = if str_eqb k k' then Some v else obj_get k' o.
Proof.
  induction o as [|[k0 v0] o IH]; intros H.
  - simpl. destruct (str_eqb k k'); reflexivity.
  - unfold obj_has in H. simpl in H. apply orb_false_iff in H. destruct H as [E0 H].
    cbn [obj_insert_index].
    assert (Hhead : obj_get k' ((k, v) :: (k0, v0) :: o)
                    = if str_eqb k k' then Some v else obj_get k' ((k0, v0) :: o))
      by reflexivity.
    destruct (arrayIndex k0) as [n'|]; [|exact Hhead].
    destruct (n' <? n); [|exact Hhead].
    simpl. destruct (str_eqb k0 k') eqn:E1.
    + apply str_eqb_eq in E1. subst k0.
      destruct (str_eqb k k') eqn:E2; [|reflexivity].
      apply str_eqb_eq in E2. subst. rewrite str_eqb_refl in E0. discriminate.
    + apply IH, H.
Qed.

Lemma get_define {V} k (v : V) k' o :
  obj_get k' (obj_define k v o) = if str_eqb k k' then Some v else obj_get k' o.
Proof.
  unfold obj_define. destruct (obj_has k o) eqn:H; [apply get_update, H|].
  destruct (arrayIndex k) as [n|]; [apply get_insert_index, H|].
  rewrite obj_get_app. simpl. destruct (str_eqb k k') eqn:E.
  - apply str_eqb_eq in E. subst. rewrite (obj_get_has _ _ H). reflexivity.
  - destruct (obj_get k' o); reflexivity.
Qed.

Lemma get_set k v k' o :
  obj_get k' (obj_set k v o)
  = if str_eqb k (u "__proto__") then obj_get k' o
    else if str_eqb k k' then Some v else obj_get k' o.
Proof.
  unfold obj_set. destruct (str_eqb k (u "__proto__")); [reflexivity | apply get_define].
Qed.

Lemma get_replay k' pairs : forall o,
  obj_get k' o = None \/ k' <> u "__proto__" ->
  obj_get k' (fold_left (fun acc kv => obj_set (fst kv) (snd kv) acc) pairs o)
  = if str_eqb k' (u "__proto__") then obj_get k' o
    else match obj_get k' (rev pairs) with
         | Some v => Some v
         | None => obj_get k' o
         end.
Proof.
  induction pairs as [|[k v] pairs IH]; intros o Ho.
  - simpl. destruct (str_eqb k' (u "__proto__")); reflexivity.
  - cbn [fold_left fst snd rev]. rewrite IH.
    + rewrite obj_get_app, get_set. cbn [obj_get].
      destruct (str_eqb k' (u "__proto__")) eqn:P.
      * apply str_eqb_eq in P. subst k'.
        destruct (str_eqb k (u "__proto__")); [reflexivity|].
        destruct (str_eqb k (u "__proto__")) eqn:Q; reflexivity.
      * destruct (obj_get k' (rev pairs)); [reflexivity|].
        destruct (str_eqb k k') eqn:E.
        -- apply str_eqb_eq in E. subst k'. rewrite P. reflexivity.
        -- destruct (str_eqb k (u "__proto__")); reflexivity.
    + rewrite get_set. destruct Ho as [Ho|Ho]; [|right; exact Ho].
      destruct (str_eqb k (u "__proto__")) eqn:Q; [left; exact Ho|].
      destruct (str_eqb k k') eqn:E; [|left; exact Ho].
      right. apply str_eqb_eq in E. subst k'. apply str_eqb_neq. exact Q.
Qed.

Lemma fold_left_mapped {T U V} (f : V -> U -> V) (g : T -> U) l : forall a,
  fold_left f (map g l) a = fold_left (fun a x => f a (g x)) l a.
Proof. induction l as [|x l IH]; intros a; [reflexivity|]. simpl. apply IH. Qed.

Lemma scan_pairs pairs :
  Forall (fun kv => validName (fst kv) /\ forallb notQuote (snd kv) = true) pairs ->
  hits (segments attrRegex (attrsText pairs))
  = map (fun kv => attrHit (fst kv) DQ (snd kv) DQ) pairs.
Proof.
  intros H. unfold segments. rewrite <- (app_nil_r (attrsText pairs)).
  apply (scan_attrs pairs (concat (map snd pairs))); [|left; reflexivity].
  rewrite Forall_forall in *. intros kv Hkv. destruct (H kv Hkv) as [[H1 H2] H3].
  repeat split; try assumption.
  intros y Hy. apply in_concat. exists (snd kv). split; [apply in_map, Hkv | exact Hy].
Qed.

(** When a tag gives the same attribute more than once, the value read
    for it is the last one given; and [__proto__] is never stored. *)
Theorem repeated_attribute_last_wins pairs :
  Forall (fun kv => validName (fst kv) /\ forallb notQuote (snd kv) = true) pairs ->
  exists attrs,
    parseAttrs (attrsText pairs) = Some attrs /\
    forall k, obj_get k attrs
              = if str_eqb k (u "__proto__") then None else obj_get k (rev pairs).
Proof.
  intros H. eexists. split; [apply parseAttrs_total|]. intros k.
  unfold attrsOf. rewrite (scan_pairs pairs H), fold_left_mapped.
  change (fold_left (fun o kv => obj_set (grp 1 (attrHit (fst kv) DQ (snd kv) DQ))
                                         (grp 2 (attrHit (fst kv) DQ (snd kv) DQ)) o) pairs [])
    with (fold_left (fun acc kv => obj_set (fst kv) (snd kv) acc) pairs []).
  rewrite get_replay by (left; reflexivity).
  destruct (str_eqb k (u "__proto__")); [reflexivity|].
  exact ((fun x : option str =>
            match x as y return match y with Some v => Some v | None => None end = y with
            | Some _ => eq_refl
            | None => eq_refl
            end) (obj_get k (rev pairs))).
Qed.

Lemma repeated_attribute_last_wins_witness :
  exists attrs,
    parseAttrs (u " id=" ++ [DQ] ++ u "a" ++ [DQ] ++ u " class=" ++ [DQ] ++ u "b" ++ [DQ]
                ++ u " id=" ++ [DQ] ++ u "c" ++ [DQ]) = Some attrs /\
    obj_get (u "id") attrs = Some (u "c").
Proof.
  destruct (repeated_attribute_last_wins
              [(u "id", u "a"); (u "class", u "b"); (u "id", u "c")]) as (attrs & H1 & H2).
  - repeat constructor; discriminate.
  - exists attrs. split; [exact H1|]. rewrite H2. reflexivity.
Defined.

Lemma obj_get_filter (p : str -> bool) k (o : obj) :
  p k = true -> obj_get k (filter (fun kv => p (fst kv)) o) = obj_get k o.
Proof.
  intros Hk. induction o as [|[k' v] o IH]; [reflexivity|]. simpl.
  destruct (p k') eqn:P; simpl.
  - destruct (str_eqb k' k); [reflexivity | exact IH].
  - destruct (str_eqb k' k) eqn:E; [|exact IH].
    apply str_eqb_eq in E. subst. congruence.
Qed.

Lemma attrOr_keep key attrs :
  isLinkKey (u key) = true -> attrOr key (keepLinkAttrs attrs) = attrOr key attrs.
Proof.
  intros H. destruct attrs as [o|]; [|reflexivity]. unfold attrOr, keepLinkAttrs.
  simpl. rewrite (obj_get_filter isLinkKey) by exact H. reflexivity.
Qed.

Lemma markdownOfElement_keep tag attrs md :
  markdownOfElement tag (keepLinkAttrs attrs) md = markdownOfElement tag attrs md.
Proof.
  unfold markdownOfElement. rewrite !attrOr_keep by reflexivity. reflexivity.
Qed.

Lemma nodeToMarkdown_keep n : nodeToMarkdown (keepLinks n) = nodeToMarkdown n.
Proof.
  induction n as [s|tag attrs|tag attrs l IH] using Node_induction.
  - reflexivity.
  - cbn [keepLinks nodeToMarkdown]. apply markdownOfElement_keep.
  - cbn [keepLinks nodeToMarkdown option_map]. rewrite markdownOfElement_keep. f_equal.
    rewrite flat_map_concat_map, map_map, <- flat_map_concat_map.
    apply flat_map_ext_Forall. exact IH.
Qed.

(** The Markdown of a tree depends on no attribute but [href] and
    [src]: removing every other attribute from every element leaves it
    unchanged. *)
Theorem markdown_reads_links_only t :
  nodesToMarkdown (map keepLinks t) = nodesToMarkdown t.
Proof.
  unfold nodesToMarkdown. rewrite flat_map_concat_map, map_map, <- flat_map_concat_map.
  apply flat_map_ext. exact nodeToMarkdown_keep.
Qed.

Lemma markdown_h3 attrs md :
  markdownOfElement (u "h3") attrs md = [LF] ++ u "# " ++ md ++ [LF].
Proof. reflexivity. Qed.

Lemma markdown_h4 attrs md :
  markdownOfElement (u "h4") attrs md = [LF] ++ u "## " ++ md ++ [LF].
Proof. reflexivity. Qed.

(** A heading line goes through [markdownToHtml], [htmlToNodes] and
    [nodesToMarkdown] to a heading line on a line of its own, with one
    space after the marker: level 1 comes back as level 1, levels 2, 3
    and 4 come back as level 2. *)
Theorem heading_back_to_markdown (level : nat) (ws title : str) :
  (1 <= level <= 4)%nat -> headingLine ws title -> plainTitle title ->
  option_map nodesToMarkdown
    (htmlToNodes (markdownToHtml (hashes level ++ ws ++ title)))
  = Some ([LF] ++ hashes (if (level =? 1)%nat then 1 else 2) ++ u " " ++ title ++ [LF]).
Proof.
  intros Hlevel (Hws_ne & Hws & Hws_line & Ht_ne & Ht0 & Hdot) (Hinert & Hlt).
  destruct (heading_levels level Hlevel) as (marker & tag & Hm & Htag & Hcase).
  assert (Hmd : markdownToHtml (hashes level ++ ws ++ title)
                = u "<" ++ u tag ++ u ">" ++ title ++ u "</" ++ u tag ++ u ">").
  { rewrite Hm. destruct ws as [|w0 ws']; [congruence|].
    destruct title as [|t0 title']; [congruence|]. simpl in Ht0.
    apply (heading_markdown w0 ws' t0 title'); assumption. }
  rewrite Hmd, element_tree; [|destruct Hcase as [[_ ->]|[_ ->]]; auto|assumption|assumption].
  cbn [option_map]. f_equal. unfold nodesToMarkdown. cbn [flat_map nodeToMarkdown].
  rewrite !app_nil_r.
  destruct Hcase as [[-> ->]|[Hmk ->]].
  - assert (level = 1%nat) by (destruct level as [|[|[|[|[|n]]]]]; try lia; try discriminate; reflexivity).
    subst level. rewrite markdown_h3. reflexivity.
  - assert ((level =? 1)%nat = false).
    { destruct level as [|[|[|[|[|n]]]]]; try lia; try reflexivity.
      destruct Hmk as [->|[->| ->]]; discriminate. }
    rewrite H, markdown_h4. reflexivity.
Qed.

Lemma heading_back_to_markdown_witness :
  option_map nodesToMarkdown (htmlToNodes (markdownToHtml (u "###   Deep dive")))
  = Some ([LF] ++ u "## Deep dive" ++ [LF]).
Proof.
  assert (L : (1 <= 3 <= 4)%nat) by lia.
  assert (H : headingLine (u "   ") (u "Deep dive"))
    by (repeat split; (discriminate || reflexivity)).
  assert (P : plainTitle (u "Deep dive")) by (split; reflexivity).
  exact (heading_back_to_markdown 3 (u "   ") (u "Deep dive") L H P).
Defined.

Lemma parse_markup_trimmed ms :
  wfs ms -> parseHtmlToNodes (markupText ms) = Some (trimNodes (map tree ms)).
Proof.
  intros H. rewrite parseHtmlToNodes_is_trimmed_tree_aux. f_equal. f_equal.
  pose proof (parse_markup ms H) as P. rewrite htmlToNodes_total in P.
  inversion P. reflexivity.
Qed.

Lemma markupText_app a b : markupText (a ++ b) = markupText a ++ markupText b.
Proof. unfold markupText. rewrite flat_map_app. apply render_app. Qed.

Lemma markupText_cons m ms : markupText (m :: ms) = render (tokens m) ++ markupText ms.
Proof.
  unfold markupText. cbn [flat_map]. apply render_app.
Qed.

Lemma render_text s : render (flat_map tokens (textM s)) = s.
Proof. destruct s; [reflexivity|]. simpl. rewrite app_nil_r. reflexivity. Qed.

Lemma render_el tag children :
  render (tokens (el tag children))
  = u "<" ++ u tag ++ u ">" ++ markupText children ++ u "</" ++ u tag ++ u ">".
Proof.
  unfold el. cbn [tokens]. unfold markupText.
  change (TkTag false (u tag) [] :: flat_map tokens children ++ [TkTag true (u tag) []])
    with ([TkTag false (u tag) []] ++ flat_map tokens children ++ [TkTag true (u tag) []]).
  rewrite !render_app. unfold render. cbn [flat_map render_tok slash].
  rewrite !app_nil_r. cbn [app]. rewrite <- !app_assoc. reflexivity.
Qed.

Lemma markupText_nl : render (tokens nl) = [LF].
Proof. reflexivity. Qed.

Lemma addLine_markup html tag text :
  addLine html tag text = html ++ markupText (lines [el tag (textM text)]).
Proof.
  unfold addLine, lines. cbn [flat_map app]. rewrite !markupText_cons, render_el.
  unfold markupText. rewrite render_text. cbn [flat_map render]. rewrite markupText_nl.
  rewrite <- !app_assoc. reflexivity.
Qed.

Lemma lines_app a b : lines (a ++ b) = lines a ++ lines b.
Proof. apply flat_map_app. Qed.

Lemma fold_lines {T} (f : T -> list markup) l : forall html,
  fold_left (fun html x => html ++ markupText (lines (f x))) l html
  = html ++ markupText (lines (flat_map f l)).
Proof.
  induction l as [|x l IH]; intros html; simpl; [rewrite app_nil_r; reflexivity|].
  rewrite IH, lines_app, markupText_app, <- app_assoc. reflexivity.
Qed.

Lemma trimNode_nl : trimNode (tree nl) = [].
Proof. reflexivity. Qed.

Lemma trim_lines es :
  trimNodes (map tree (lines es)) = flat_map (fun e => trimNode (tree e)) es.
Proof.
  induction es as [|e es IH]; [reflexivity|]. unfold lines in *. cbn [flat_map app map].
  unfold trimNodes in *. cbn [flat_map]. rewrite IH. reflexivity.
Qed.

Lemma trimNode_el tag children :
  plainTag tag ->
  trimNode (tree (el tag children))
  = [parent tag (trimNodes (map tree children))].
Proof.
  intros (_ & _ & Hlow). unfold el, parent. cbn [tree]. rewrite Hlow.
  change (attrsField (attrsOf [])) with (@None obj). cbn [trimNode].
  destruct (map tree children) as [|c l] eqn:E; [reflexivity|].
  unfold trimNodes. destruct (flat_map trimNode (c :: l)); reflexivity.
Qed.

Lemma trimNode_text tag text :
  plainTag tag -> trimNode (tree (el tag (textM text))) = [textElement tag text].
Proof.
  intros H. rewrite trimNode_el by exact H. unfold parent, textElement. f_equal. f_equal.
  destruct text as [|c r]; [reflexivity|]. cbn [textM map tree]. unfold trimNodes.
  cbn [flat_map trimNode]. rewrite app_nil_r.
  destruct (truthy (trim (c :: r))); reflexivity.
Qed.

Lemma wf_text s : noLt s -> Forall wf (textM s) /\ noAdjacentText (textM s).
Proof.
  intros H. destruct s as [|c r]; [split; [constructor | exact I]|].
  split; [|simpl; tauto]. constructor; [|constructor]. split; [discriminate | exact H].
Qed.

Lemma wf_el tag children :
  plainTag tag -> Forall wf children -> noAdjacentText children ->
  wf (el tag children).
Proof.
  intros (Hok & Hsc & _) Hch Hadj. unfold el. cbn [wf].
  split; [exact Hok|]. split; [exact Hsc|]. split; [apply wf_children; exact Hch | exact Hadj].
Qed.

Lemma noAdjacent_lines es :
  Forall (fun e => isMText e = false) es -> noAdjacentText (lines es).
Proof.
  induction 1 as [|e es He Hes IH]; [exact I|]. unfold lines in *. cbn [flat_map app].
  cbn [noAdjacentText]. split; [intros; congruence|].
  split; [|exact IH]. intros _. destruct es as [|e' es']; [exact I|].
  cbn [flat_map app]. inversion Hes; subst. assumption.
Qed.

Lemma wf_nl : wf nl.
Proof. split; [discriminate | reflexivity]. Qed.

Lemma wfs_lines es :
  Forall wf es -> Forall (fun e => isMText e = false) es -> wfs (lines es).
Proof.
  intros Hwf Hel. split; [|apply noAdjacent_lines, Hel].
  unfold lines. induction Hwf as [|e es He _ IH]; [constructor|].
  inversion Hel; subst. cbn [flat_map app].
  constructor; [exact He|]. constructor; [exact wf_nl | apply IH; assumption].
Qed.

Lemma createFromTemplate_returns templateName template d ms :
  getTemplate templateName = Own template ->
  firstMissing (fields template) d = None ->
  generate template d = Returns (markupText ms) ->
  wfs ms ->
  createFromTemplate templateName d = Returns (trimNodes (map tree ms)).
Proof.
  intros Hg Hm Hgen Hwf. unfold createFromTemplate. rewrite Hg, Hm, Hgen.
  cbn [andThen]. rewrite parse_markup_trimmed by exact Hwf. reflexivity.
Qed.

Lemma plainTag_h3 : plainTag "h3".
Proof. repeat split; (discriminate || reflexivity). Qed.
Lemma plainTag_h4 : plainTag "h4".
Proof. repeat split; (discriminate || reflexivity). Qed.
Lemma plainTag_p : plainTag "p".
Proof. repeat split; (discriminate || reflexivity). Qed.
Lemma plainTag_pre : plainTag "pre".
Proof. repeat split; (discriminate || reflexivity). Qed.
Lemma plainTag_ul : plainTag "ul".
Proof. repeat split; (discriminate || reflexivity). Qed.
Lemma plainTag_li : plainTag "li".
Proof. repeat split; (discriminate || reflexivity). Qed.
Lemma plainTag_strong : plainTag "strong".
Proof. repeat split; (discriminate || reflexivity). Qed.

Lemma wf_line tag text : plainTag tag -> noLt text -> wf (el tag (textM text)).
Proof.
  intros Ht Hs. destruct (wf_text text Hs) as [H1 H2]. apply wf_el; assumption.
Qed.

Lemma forEach_cons {T} (x : T) l html body :
  forEach (x :: l) html body = andThen (body html x) (fun html => forEach l html body).
Proof.
  unfold forEach. cbn [fold_left andThen].
  destruct (body html x) as [h|e|]; [reflexivity| |].
  - induction l as [|y l IH]; [reflexivity | exact IH].
  - induction l as [|y l IH]; [reflexivity | exact IH].
Qed.

Lemma forEach_returns {T} (body : str -> T -> outcome str) (g : str -> T -> str) l :
  (forall a x, In x l -> body a x = Returns (g a x)) ->
  forall html, forEach l html body = Returns (fold_left g l html).
Proof.
  induction l as [|x l IH]; intros H html; [reflexivity|].
  rewrite forEach_cons, H by (left; reflexivity). cbn [andThen fold_left].
  apply IH. intros a y Hy. apply H. right. exact Hy.
Qed.

Lemma fold_addLine {T} tag (f : T -> str) l : forall html,
  fold_left (fun html x => addLine html tag (f x)) l html
  = html ++ markupText (lines (map (fun x => el tag (textM (f x))) l)).
Proof.
  induction l as [|x l IH]; intros html; simpl; [rewrite app_nil_r; reflexivity|].
  rewrite IH, addLine_markup, <- app_assoc.
  change (el tag (textM (f x)) :: nl :: lines (map (fun x0 => el tag (textM (f x0))) l))
    with (lines [el tag (textM (f x))] ++ lines (map (fun x0 => el tag (textM (f x0))) l)).
  rewrite markupText_app. reflexivity.
Qed.

Lemma forEach_strings tag items html :
  forEach (map EStr items) html
    (fun html x => andThen (showElement x) (fun text => Returns (addLine html tag text)))
  = Returns (html ++ markupText (lines (map (fun i => el tag (textM i)) items))).
Proof.
  rewrite (forEach_returns _
             (fun html x => addLine html tag
                (match x with EStr s => s | EObj _ => [] end))).
  - rewrite fold_left_mapped. f_equal. apply (fold_addLine tag (fun i => i)).
  - intros a x Hx. apply in_map_iff in Hx. destruct Hx as (i & <- & _). reflexivity.
Qed.

Lemma trim_text_lines {T} tag (f : T -> str) l :
  plainTag tag ->
  flat_map (fun e => trimNode (tree e)) (map (fun x => el tag (textM (f x))) l)
  = map (fun x => textElement tag (f x)) l.
Proof.
  intros H. induction l as [|x l IH]; [reflexivity|]. cbn [map flat_map].
  rewrite trimNode_text by exact H. rewrite IH. reflexivity.
Qed.

Lemma wf_text_lines {T} tag (f : T -> str) l :
  plainTag tag -> Forall (fun x => noLt (f x)) l ->
  Forall wf (map (fun x => el tag (textM (f x))) l) /\
  Forall (fun e => isMText e = false) (map (fun x => el tag (textM (f x))) l).
Proof.
  intros Ht H. induction H as [|x l Hx _ [IH1 IH2]]; [split; constructor|].
  split; constructor; try assumption; [apply wf_line; assumption | reflexivity].
Qed.

Lemma addLine_nil tag text : addLine [] tag text = markupText (lines [el tag (textM text)]).
Proof. apply (addLine_markup [] tag text). Qed.

Lemma markupText_lines_app html a b :
  html = markupText (lines a) -> html ++ markupText (lines b) = markupText (lines (a ++ b)).
Proof. intros ->. rewrite lines_app, markupText_app. reflexivity. Qed.

(** [createFromTemplate] with the article template: one [h3] element
    for the title, one [h4] element for a subtitle that is not empty,
    and one [p] element per body paragraph, in this order, each holding
    its text trimmed. *)
Theorem article_template_tree (d : data) (title : str) (subtitle : option str)
  (body : list str) :
  field "title" d = Some (VStr title) ->
  field "subtitle" d = option_map VStr subtitle ->
  field "body" d = Some (VArr (map EStr body)) ->
  noLt title -> (forall s, subtitle = Some s -> noLt s) -> Forall noLt body ->
  createFromTemplate (u "article") d
  = Returns (textElement "h3" title
             :: whenText subtitle (fun s => [textElement "h4" s])
             ++ map (textElement "p") body).
Proof.
  intros Ht Hs Hb Lt Ls Lb.
  set (sub := match subtitle with
              | Some s => if truthy s then [s] else []
              | None => []
              end).
  set (es := el "h3" (textM title) :: map (fun s => el "h4" (textM s)) sub
             ++ map (fun p => el "p" (textM p)) body).
  assert (Hsub : Forall noLt sub).
  { subst sub. destruct subtitle as [s|]; [|constructor].
    destruct (truthy s); [|constructor]. constructor; [apply Ls; reflexivity | constructor]. }
  assert (R : createFromTemplate (u "article") d = Returns (trimNodes (map tree (lines es)))).
  { apply (createFromTemplate_returns _ articleTemplate); [reflexivity| | |].
    - unfold field in Ht, Hb. cbn [fields articleTemplate firstMissing stringField arrayField
        fieldName required andb]. rewrite Ht, Hb. reflexivity.
    - cbn [generate articleTemplate]. unfold articleGenerate. rewrite Ht, Hs, Hb.
      cbn [iterate show andThen].
      assert (S : (if truthyValue (option_map VStr subtitle)
                   then andThen (show (option_map VStr subtitle))
                          (fun subtitle0 =>
                             Returns (addLine (addLine [] "h3" title) "h4" subtitle0))
                   else Returns (addLine [] "h3" title))
                  = Returns (markupText (lines ([el "h3" (textM title)]
                               ++ map (fun s => el "h4" (textM s)) sub)))).
      { subst sub. destruct subtitle as [s|]; cbn [option_map truthyValue show];
          [destruct (truthy s)|]; cbn [andThen map app]; rewrite !addLine_markup;
          cbn [app]; rewrite <- ?markupText_app, <- ?lines_app; reflexivity. }
      rewrite S. cbn [andThen]. rewrite forEach_strings. f_equal.
      subst es. rewrite <- markupText_app, <- lines_app, <- app_assoc. reflexivity.
    - subst es. apply wfs_lines.
      + constructor; [apply wf_line; [exact plainTag_h3 | exact Lt]|].
        apply Forall_app. split.
        * apply (wf_text_lines "h4" (fun s => s)); [exact plainTag_h4 | exact Hsub].
        * apply (wf_text_lines "p" (fun s => s)); [exact plainTag_p | exact Lb].
      + constructor; [reflexivity|]. apply Forall_app. split.
        * apply (wf_text_lines "h4" (fun s => s)); [exact plainTag_h4 | exact Hsub].
        * apply (wf_text_lines "p" (fun s => s)); [exact plainTag_p | exact Lb]. }
  rewrite R. f_equal. rewrite trim_lines. subst es. cbn [flat_map].
  rewrite trimNode_text by exact plainTag_h3. cbn [app]. f_equal.
  rewrite flat_map_app.
  rewrite (trim_text_lines "h4" (fun s => s)) by exact plainTag_h4.
  rewrite (trim_text_lines "p" (fun s => s)) by exact plainTag_p.
  f_equal. subst sub. unfold whenText.
  destruct subtitle as [s|]; [destruct (truthy s)|]; reflexivity.
Qed.

Lemma article_template_tree_witness :
  createFromTemplate (u "article")
    [(u "title", VStr (u "News")); (u "subtitle", VStr (u " Today "));
     (u "body", VArr [EStr (u "First. "); EStr (u "Second.")])]
  = Returns [NElem (u "h3") None (Some [NText (u "News")]);
             NElem (u "h4") None (Some [NText (u "Today")]);
             NElem (u "p") None (Some [NText (u "First.")]);
             NElem (u "p") None (Some [NText (u "Second.")])].
Proof.
  apply (article_template_tree _ (u "News") (Some (u " Today "))
           [u "First. "; u "Second."]); try reflexivity.
  - intros s H. inversion H. reflexivity.
  - repeat constructor.
Defined.

Lemma fold_left_eq {T U} (f g : U -> T -> U) l :
  (forall a x, f a x = g a x) -> forall a, fold_left f l a = fold_left g l a.
Proof.
  intros H. induction l as [|x l IH]; intros a; [reflexivity|]. simpl. rewrite H. apply IH.
Qed.

Lemma createFromTemplate_lines templateName template d es :
  getTemplate templateName = Own template ->
  firstMissing (fields template) d = None ->
  generate template d = Returns (markupText (lines es)) ->
  Forall wf es -> Forall (fun e => isMText e = false) es ->
  createFromTemplate templateName d
  = Returns (flat_map (fun e => trimNode (tree e)) es).
Proof.
  intros Hg Hm Hgen Hwf Hel. rewrite <- trim_lines.
  apply (createFromTemplate_returns _ template); try assumption.
  apply wfs_lines; assumption.
Qed.

Lemma addLine_lines a tag text :
  addLine (markupText (lines a)) tag text = markupText (lines (a ++ [el tag (textM text)])).
Proof. rewrite addLine_markup. apply markupText_lines_app. reflexivity. Qed.

Lemma addLine_first tag text : addLine [] tag text = markupText (lines ([] ++ [el tag (textM text)])).
Proof. apply (addLine_lines [] tag text). Qed.

Lemma wf_optText tag v :
  plainTag tag -> (forall s, v = Some s -> noLt s) ->
  Forall wf (map (fun s => el tag (textM s)) (optText v)) /\
  Forall (fun e => isMText e = false) (map (fun s => el tag (textM s)) (optText v)).
Proof.
  intros Ht H. apply (wf_text_lines tag (fun s => s)); [exact Ht|].
  destruct v as [s|]; [|constructor]. simpl. destruct (truthy s); [|constructor].
  constructor; [apply H; reflexivity | constructor].
Qed.

Lemma sections_lines sections : forall html,
  forEach (map (pairObject "heading" "content") sections) html
    (fun html section =>
       andThen (show (prop "heading" section)) (fun heading =>
       andThen (show (prop "content" section)) (fun content =>
       Returns (addLine (addLine html "h4" heading) "p" content))))
  = Returns (html ++ markupText (lines
       (flat_map (fun s => [el "h4" (textM (fst s)); el "p" (textM (snd s))]) sections))).
Proof.
  induction sections as [|s sections IH]; intros html.
  - cbn. rewrite app_nil_r. reflexivity.
  - cbn [map]. rewrite forEach_cons.
    change (show (prop "heading" (pairObject "heading" "content" s))) with (Returns (fst s)).
    change (show (prop "content" (pairObject "heading" "content" s))) with (Returns (snd s)).
    cbn [andThen]. rewrite IH. f_equal. cbn [flat_map].
    rewrite !addLine_markup, <- !app_assoc. f_equal.
    rewrite <- !markupText_app, <- !lines_app. reflexivity.
Qed.

(** [createFromTemplate] with the blog post template: an [h3] element
    for the title, a [p] element for the introduction, an [h4] and a [p]
    element per section, and, when the conclusion is not empty, an [h4]
    element reading Conclusion and a [p] element; every text trimmed. *)
Theorem blog_post_template_tree (d : data) (title intro : str)
  (sections : list (str * str)) (conclusion : option str) :
  field "title" d = Some (VStr title) ->
  field "intro" d = Some (VStr intro) ->
  field "sections" d = Some (VArr (map (pairObject "heading" "content") sections)) ->
  field "conclusion" d = option_map VStr conclusion ->
  noLt title -> noLt intro ->
  Forall (fun s => noLt (fst s) /\ noLt (snd s)) sections ->
  (forall s, conclusion = Some s -> noLt s) ->
  createFromTemplate (u "blog_post") d
  = Returns (textElement "h3" title :: textElement "p" intro
             :: flat_map (fun s => [textElement "h4" (fst s); textElement "p" (snd s)])
                         sections
             ++ whenText conclusion
                  (fun s => [textElement "h4" (u "Conclusion"); textElement "p" s])).
Proof.
  intros Ht Hi Hs Hc Lt Li Ls Lc.
  set (es := [el "h3" (textM title); el "p" (textM intro)]
             ++ flat_map (fun s => [el "h4" (textM (fst s)); el "p" (textM (snd s))]) sections
             ++ flat_map (fun s => [el "h4" (textM (u "Conclusion")); el "p" (textM s)])
                         (optText conclusion)).
  rewrite (createFromTemplate_lines _ blogPostTemplate d es); [|reflexivity| | | |].
  - f_equal. subst es. rewrite !flat_map_app. cbn [flat_map app].
    rewrite (trimNode_text "h3" title plainTag_h3), (trimNode_text "p" intro plainTag_p).
    cbn [app]. do 2 f_equal. f_equal.
    + rewrite flat_map_flat_map. apply flat_map_ext. intros s. cbn [flat_map].
      rewrite (trimNode_text "h4" _ plainTag_h4), (trimNode_text "p" _ plainTag_p).
      reflexivity.
    + destruct conclusion as [s|]; [|reflexivity]. unfold optText, whenText.
      destruct (truthy s); [|reflexivity]. cbn [flat_map app].
      rewrite (trimNode_text "h4" _ plainTag_h4), (trimNode_text "p" _ plainTag_p).
      reflexivity.
  - unfold field in *. cbn [fields blogPostTemplate firstMissing stringField arrayField
      fieldName required andb]. rewrite Ht, Hi, Hs. reflexivity.
  - cbn [generate blogPostTemplate]. unfold blogPostGenerate. rewrite Ht, Hi, Hs, Hc.
    cbn [iterate show andThen]. rewrite sections_lines. cbn [andThen].
    rewrite addLine_first, addLine_lines. cbn [app].
    rewrite (markupText_lines_app _ [el "h3" (textM title); el "p" (textM intro)] _ eq_refl).
    subst es. unfold addOptional.
    destruct conclusion as [s|]; cbn [option_map truthyValue optText show].
    + destruct (truthy s) eqn:T.
      * cbn [andThen]. rewrite !addLine_lines. cbn [flat_map].
        rewrite <- !app_assoc. reflexivity.
      * cbn [flat_map]. rewrite app_nil_r. reflexivity.
    + cbn [flat_map]. rewrite app_nil_r. reflexivity.
  - subst es. apply Forall_app. split.
    + constructor; [apply wf_line; [exact plainTag_h3 | exact Lt]|].
      constructor; [apply wf_line; [exact plainTag_p | exact Li] | constructor].
    + apply Forall_app. split.
      * apply Forall_flat_map. revert Ls. apply Forall_impl. intros s [H1 H2].
        constructor; [apply wf_line; [exact plainTag_h4 | exact H1]|].
        constructor; [apply wf_line; [exact plainTag_p | exact H2] | constructor].
      * apply Forall_flat_map. destruct conclusion as [s|]; [|constructor]. unfold optText.
        destruct (truthy s); [|constructor]. constructor; [|constructor].
        constructor; [apply wf_line; [exact plainTag_h4 | reflexivity]|].
        constructor; [apply wf_line; [exact plainTag_p | apply Lc; reflexivity] | constructor].
  - subst es. apply Forall_app. split; [repeat constructor|].
    apply Forall_app. split; apply Forall_flat_map, Forall_forall; intros; repeat constructor.
Qed.

Lemma blog_post_template_tree_witness :
  createFromTemplate (u "blog_post")
    [(u "title", VStr (u "Post")); (u "intro", VStr (u "Hello"));
     (u "sections", VArr [pairObject "heading" "content" (u "One", u "Text one")]);
     (u "conclusion", VStr (u "Bye"))]
  = Returns [NElem (u "h3") None (Some [NText (u "Post")]);
             NElem (u "p") None (Some [NText (u "Hello")]);
             NElem (u "h4") None (Some [NText (u "One")]);
             NElem (u "p") None (Some [NText (u "Text one")]);
             NElem (u "h4") None (Some [NText (u "Conclusion")]);
             NElem (u "p") None (Some [NText (u "Bye")])].
Proof.
  apply (blog_post_template_tree _ (u "Post") (u "Hello") [(u "One", u "Text one")]
           (Some (u "Bye"))); try reflexivity.
  - repeat constructor.
  - intros s H. inversion H. reflexivity.
Defined.

Lemma text_stage a t1 label t2 v :
  addOptional (markupText (lines a)) t1 label t2 (option_map VStr v)
  = Returns (markupText (lines (a ++ textStage t1 label t2 v))).
Proof.
  unfold addOptional, textStage, optText.
  destruct v as [s|]; cbn [option_map truthyValue show].
  - destruct (truthy s); cbn [flat_map app andThen].
    + rewrite !addLine_lines, <- app_assoc. reflexivity.
    + rewrite app_nil_r. reflexivity.
  - cbn [flat_map]. rewrite app_nil_r. reflexivity.
Qed.

Lemma text_stage_wf t1 label t2 v :
  plainTag t1 -> plainTag t2 -> noLt label -> (forall s, v = Some s -> noLt s) ->
  Forall wf (textStage t1 label t2 v) /\
  Forall (fun e => isMText e = false) (textStage t1 label t2 v).
Proof.
  intros H1 H2 Hl Hv. unfold textStage, optText. destruct v as [s|]; [|split; constructor].
  destruct (truthy s); [|split; constructor]. cbn [flat_map app]. split.
  - constructor; [apply wf_line; assumption|].
    constructor; [apply wf_line; [exact H2 | apply Hv; reflexivity] | constructor].
  - repeat constructor.
Qed.

Lemma text_stage_tree t1 label t2 v :
  plainTag t1 -> plainTag t2 ->
  flat_map (fun e => trimNode (tree e)) (textStage t1 label t2 v)
  = whenText v (fun s => [textElement t1 label; textElement t2 s]).
Proof.
  intros H1 H2. unfold textStage, optText, whenText. destruct v as [s|]; [|reflexivity].
  destruct (truthy s); [|reflexivity]. cbn [flat_map app].
  rewrite (trimNode_text t1 label H1), (trimNode_text t2 s H2). reflexivity.
Qed.

Lemma addItems_lines html items :
  addItems html (map EStr items)
  = Returns (html ++ markupText (lines (map (fun i => el "li" (textM i)) items))).
Proof. apply forEach_strings. Qed.

Lemma ul_block a items :
  markupText (lines a) ++ u "<ul>" ++ [LF]
    ++ markupText (lines (map (fun i => el "li" (textM i)) items)) ++ u "</ul>" ++ [LF]
  = markupText (lines (a ++ [ulOf items])).
Proof.
  rewrite lines_app, markupText_app. f_equal. unfold lines at 2. cbn [flat_map app].
  rewrite !markupText_cons. unfold ulOf. rewrite render_el, markupText_cons, markupText_nl.
  unfold markupText at 3. cbn [flat_map render]. rewrite app_nil_r.
  rewrite <- !app_assoc. reflexivity.
Qed.

Lemma ul_wf items : Forall noLt items -> wf (ulOf items).
Proof.
  intros H. unfold ulOf.
  destruct (wf_text_lines "li" (fun s => s) items plainTag_li H) as [H1 H2].
  apply wf_el; [exact plainTag_ul | |].
  - constructor; [exact wf_nl|]. apply (wfs_lines _ H1 H2).
  - cbn [noAdjacentText]. split; [|apply noAdjacent_lines, H2].
    intros _. destruct items as [|i l]; [exact I | reflexivity].
Qed.

Lemma ul_tree items : trimNode (tree (ulOf items)) = [ulNode items].
Proof.
  unfold ulOf, ulNode. rewrite trimNode_el by exact plainTag_ul. f_equal. f_equal.
  cbn [map]. unfold trimNodes. cbn [flat_map]. rewrite trimNode_nl. cbn [app].
  fold (trimNodes (map tree (lines (map (fun i => el "li" (textM i)) items)))).
  rewrite trim_lines. apply (trim_text_lines "li" (fun s => s)). exact plainTag_li.
Qed.

Lemma bold_text label :
  u "<p><strong>" ++ label ++ u "</strong></p>" ++ [LF] = markupText (lines [boldOf label]).
Proof.
  unfold lines, boldOf. cbn [flat_map app]. rewrite !markupText_cons, render_el.
  rewrite markupText_cons, render_el. unfold markupText. rewrite render_text.
  cbn [flat_map render]. rewrite markupText_nl, !app_nil_r. rewrite <- !app_assoc. reflexivity.
Qed.

Lemma bold_wf label : noLt label -> wf (boldOf label).
Proof.
  intros H. unfold boldOf. apply wf_el; [exact plainTag_p | | simpl; tauto].
  constructor; [apply wf_line; [exact plainTag_strong | exact H] | constructor].
Qed.

Lemma bold_tree label : trimNode (tree (boldOf label)) = [boldNode label].
Proof.
  unfold boldOf, boldNode. rewrite trimNode_el by exact plainTag_p. f_equal. f_equal.
  cbn [map]. unfold trimNodes. cbn [flat_map].
  rewrite (trimNode_text "strong" label plainTag_strong). reflexivity.
Qed.

Lemma items_stage a label v :
  addList (markupText (lines a)) (u "<h4>" ++ label ++ u "</h4>" ++ [LF])
          (option_map (fun l => VArr (map EStr l)) v)
  = Returns (markupText (lines (a ++ flat_map (fun l => [el "h4" (textM label); ulOf l])
                                               (optItems v)))).
Proof.
  unfold addList.
  destruct v as [[|i l]|]; cbn [option_map nonEmpty map optItems flat_map];
    try (rewrite app_nil_r; reflexivity).
  cbn [iterate]. change (EStr i :: map EStr l) with (map EStr (i :: l)).
  rewrite addItems_lines. cbn [andThen]. f_equal.
  replace (markupText (lines a) ++ (u "<h4>" ++ label ++ u "</h4>" ++ [LF]) ++ u "<ul>" ++ [LF])
    with (markupText (lines (a ++ [el "h4" (textM label)])) ++ u "<ul>" ++ [LF]).
  - rewrite <- !app_assoc. rewrite ul_block. cbn [app]. rewrite <- app_assoc. reflexivity.
  - rewrite <- addLine_lines. unfold addLine. rewrite <- !app_assoc. reflexivity.
Qed.

Lemma items_stage_wf label v :
  noLt label -> (forall l, v = Some l -> Forall noLt l) ->
  Forall wf (flat_map (fun l => [el "h4" (textM label); ulOf l]) (optItems v)) /\
  Forall (fun e => isMText e = false)
         (flat_map (fun l => [el "h4" (textM label); ulOf l]) (optItems v)).
Proof.
  intros Hl Hv. destruct v as [[|i l]|]; cbn [optItems flat_map app]; try (split; constructor).
  - apply wf_line; [exact plainTag_h4 | exact Hl].
  - constructor; [apply ul_wf, Hv; reflexivity | constructor].
  - reflexivity.
  - repeat constructor.
Qed.

Lemma items_stage_tree label v :
  flat_map (fun e => trimNode (tree e))
           (flat_map (fun l => [el "h4" (textM label); ulOf l]) (optItems v))
  = whenItems v (fun l => [textElement "h4" label; ulNode l]).
Proof.
  destruct v as [[|i l]|]; try reflexivity. cbn [optItems flat_map app whenItems].
  rewrite (trimNode_text "h4" label plainTag_h4), ul_tree. reflexivity.
Qed.

Lemma three_lines t1 s1 t2 s2 t3 s3 :
  addLine (addLine (addLine [] t1 s1) t2 s2) t3 s3
  = markupText (lines [el t1 (textM s1); el t2 (textM s2); el t3 (textM s3)]).
Proof. rewrite addLine_first, !addLine_lines. reflexivity. Qed.

Lemma two_lines t1 s1 t2 s2 :
  addLine (addLine [] t1 s1) t2 s2
  = markupText (lines [el t1 (textM s1); el t2 (textM s2)]).
Proof. rewrite addLine_first, !addLine_lines. reflexivity. Qed.

(** [createFromTemplate] with the documentation template: the title,
    the Overview heading and its paragraph, then, for each of the
    installation text, the usage text and the list of API items that is
    given and not empty, its heading followed by a [pre] element, a [p]
    element or a [ul] element of [li] elements. *)
Theorem documentation_template_tree (d : data) (title overview : str)
  (installation usage : option str) (apiReference : option (list str)) :
  field "title" d = Some (VStr title) ->
  field "overview" d = Some (VStr overview) ->
  field "installation" d = option_map VStr installation ->
  field "usage" d = option_map VStr usage ->
  field "api_reference" d = option_map (fun l => VArr (map EStr l)) apiReference ->
  noLt title -> noLt overview ->
  (forall s, installation = Some s -> noLt s) ->
  (forall s, usage = Some s -> noLt s) ->
  (forall l, apiReference = Some l -> Forall noLt l) ->
  createFromTemplate (u "documentation") d
  = Returns ([textElement "h3" title; textElement "h4" (u "Overview");
              textElement "p" overview]
             ++ whenText installation
                  (fun s => [textElement "h4" (u "Installation"); textElement "pre" s])
             ++ whenText usage
                  (fun s => [textElement "h4" (u "Usage"); textElement "p" s])
             ++ whenItems apiReference
                  (fun l => [textElement "h4" (u "API Reference"); ulNode l])).
Proof.
  intros Ht Ho Hi Hu Ha Lt Lo Li Lu La.
  set (e0 := [el "h3" (textM title); el "h4" (textM (u "Overview")); el "p" (textM overview)]).
  set (e1 := textStage "h4" (u "Installation") "pre" installation).
  set (e2 := textStage "h4" (u "Usage") "p" usage).
  set (e3 := flat_map (fun l => [el "h4" (textM (u "API Reference")); ulOf l])
                      (optItems apiReference)).
  destruct (text_stage_wf "h4" (u "Installation") "pre" installation
              plainTag_h4 plainTag_pre eq_refl Li) as [W1 N1].
  destruct (text_stage_wf "h4" (u "Usage") "p" usage
              plainTag_h4 plainTag_p eq_refl Lu) as [W2 N2].
  destruct (items_stage_wf (u "API Reference") apiReference eq_refl La) as [W3 N3].
  rewrite (createFromTemplate_lines _ documentationTemplate d (((e0 ++ e1) ++ e2) ++ e3));
    [|reflexivity| | | |].
  - f_equal. rewrite !flat_map_app. subst e0 e1 e2 e3.
    rewrite !text_stage_tree by (exact plainTag_h4 || exact plainTag_pre || exact plainTag_p).
    rewrite items_stage_tree. cbn [flat_map].
    rewrite (trimNode_text "h3" title plainTag_h3),
            (trimNode_text "h4" (u "Overview") plainTag_h4),
            (trimNode_text "p" overview plainTag_p).
    rewrite <- !app_assoc. reflexivity.
  - unfold field in *. cbn [fields documentationTemplate firstMissing stringField arrayField
      fieldName required andb]. rewrite Ht, Ho. reflexivity.
  - cbn [generate documentationTemplate]. unfold documentationGenerate.
    rewrite Ht, Ho, Hi, Hu, Ha. cbn [show andThen].
    rewrite three_lines. fold e0.
    rewrite (text_stage e0). fold e1. cbn [andThen].
    rewrite (text_stage (e0 ++ e1)). fold e2. cbn [andThen].
    apply (items_stage ((e0 ++ e1) ++ e2) (u "API Reference")).
  - repeat (apply Forall_app; split); try assumption. subst e0.
    constructor; [apply wf_line; [exact plainTag_h3 | exact Lt]|].
    constructor; [apply wf_line; [exact plainTag_h4 | reflexivity]|].
    constructor; [apply wf_line; [exact plainTag_p | exact Lo] | constructor].
  - repeat (apply Forall_app; split); try assumption. subst e0. repeat constructor.
Qed.

Lemma documentation_template_tree_witness :
  createFromTemplate (u "documentation")
    [(u "title", VStr (u "Lib")); (u "overview", VStr (u "What it is"));
     (u "installation", VStr (u "npm i lib"));
     (u "api_reference", VArr [EStr (u "f()"); EStr (u "g()")])]
  = Returns [NElem (u "h3") None (Some [NText (u "Lib")]);
             NElem (u "h4") None (Some [NText (u "Overview")]);
             NElem (u "p") None (Some [NText (u "What it is")]);
             NElem (u "h4") None (Some [NText (u "Installation")]);
             NElem (u "pre") None (Some [NText (u "npm i lib")]);
             NElem (u "h4") None (Some [NText (u "API Reference")]);
             NElem (u "ul") None
               (Some [NElem (u "li") None (Some [NText (u "f()")]);
                      NElem (u "li") None (Some [NText (u "g()")])])].
Proof.
  apply (documentation_template_tree _ (u "Lib") (u "What it is") (Some (u "npm i lib"))
           None (Some [u "f()"; u "g()"])); try reflexivity.
  - intros s H. inversion H. reflexivity.
  - intros s H. discriminate.
  - intros l H. inversion H. repeat constructor.
Defined.

Lemma changes_stage a label v :
  addChanges label (option_map (fun l => VArr (map EStr l)) v) (markupText (lines a))
  = Returns (markupText (lines (a ++ flat_map (fun l => [boldOf (u label); ulOf l])
                                               (optItems v)))).
Proof.
  unfold addChanges, addList.
  destruct v as [[|i l]|]; cbn [option_map nonEmpty map optItems flat_map];
    try (rewrite app_nil_r; reflexivity).
  cbn [iterate]. change (EStr i :: map EStr l) with (map EStr (i :: l)).
  rewrite addItems_lines. cbn [andThen]. f_equal.
  replace (markupText (lines a) ++ (u "<p><strong>" ++ u label ++ u "</strong></p>" ++ [LF])
             ++ u "<ul>" ++ [LF])
    with (markupText (lines (a ++ [boldOf (u label)])) ++ u "<ul>" ++ [LF]).
  - rewrite <- !app_assoc. rewrite ul_block. cbn [app]. rewrite <- app_assoc. reflexivity.
  - rewrite lines_app, markupText_app, <- bold_text, <- !app_assoc. reflexivity.
Qed.

Lemma changes_stage_wf label v :
  noLt (u label) -> (forall l, v = Some l -> Forall noLt l) ->
  Forall wf (flat_map (fun l => [boldOf (u label); ulOf l]) (optItems v)) /\
  Forall (fun e => isMText e = false)
         (flat_map (fun l => [boldOf (u label); ulOf l]) (optItems v)).
Proof.
  intros Hl Hv. destruct v as [[|i l]|]; cbn [optItems flat_map app]; try (split; constructor).
  - apply bold_wf, Hl.
  - constructor; [apply ul_wf, Hv; reflexivity | constructor].
  - reflexivity.
  - repeat constructor.
Qed.

Lemma changes_stage_tree label v :
  flat_map (fun e => trimNode (tree e))
           (flat_map (fun l => [boldOf (u label); ulOf l]) (optItems v))
  = whenItems v (fun l => [boldNode (u label); ulNode l]).
Proof.
  destruct v as [[|i l]|]; try reflexivity. cbn [optItems flat_map app whenItems].
  rewrite bold_tree, ul_tree. reflexivity.
Qed.

Lemma noLt_app a b : noLt a -> noLt b -> noLt (a ++ b).
Proof. unfold noLt. intros Ha Hb. rewrite forallb_app, Ha, Hb. reflexivity. Qed.

(** [createFromTemplate] with the changelog template: the title, a
    heading with the version and the date, then, for each of the three
    lists that is given and not empty, a paragraph with its label in
    bold and a [ul] element of [li] elements. *)
Theorem changelog_template_tree (d : data) (title version date : str)
  (added changed fixed : option (list str)) :
  field "title" d = Some (VStr title) ->
  field "version" d = Some (VStr version) ->
  field "date" d = Some (VStr date) ->
  field "added" d = option_map (fun l => VArr (map EStr l)) added ->
  field "changed" d = option_map (fun l => VArr (map EStr l)) changed ->
  field "fixed" d = option_map (fun l => VArr (map EStr l)) fixed ->
  noLt title -> noLt version -> noLt date ->
  (forall l, added = Some l -> Forall noLt l) ->
  (forall l, changed = Some l -> Forall noLt l) ->
  (forall l, fixed = Some l -> Forall noLt l) ->
  createFromTemplate (u "changelog") d
  = Returns ([textElement "h3" title;
              textElement "h4" (u "Version " ++ version ++ u " - " ++ date)]
             ++ whenItems added (fun l => [boldNode (u "Added:"); ulNode l])
             ++ whenItems changed (fun l => [boldNode (u "Changed:"); ulNode l])
             ++ whenItems fixed (fun l => [boldNode (u "Fixed:"); ulNode l])).
Proof.
  intros Ht Hv Hd Ha Hc Hf Lt Lv Ld La Lc Lf.
  set (heading := u "Version " ++ version ++ u " - " ++ date).
  set (e0 := [el "h3" (textM title); el "h4" (textM heading)]).
  set (e1 := flat_map (fun l => [boldOf (u "Added:"); ulOf l]) (optItems added)).
  set (e2 := flat_map (fun l => [boldOf (u "Changed:"); ulOf l]) (optItems changed)).
  set (e3 := flat_map (fun l => [boldOf (u "Fixed:"); ulOf l]) (optItems fixed)).
  destruct (changes_stage_wf "Added:" added eq_refl La) as [W1 N1].
  destruct (changes_stage_wf "Changed:" changed eq_refl Lc) as [W2 N2].
  destruct (changes_stage_wf "Fixed:" fixed eq_refl Lf) as [W3 N3].
  rewrite (createFromTemplate_lines _ changelogTemplate d (((e0 ++ e1) ++ e2) ++ e3));
    [|reflexivity| | | |].
  - f_equal. rewrite !flat_map_app. subst e0 e1 e2 e3.
    rewrite !changes_stage_tree. cbn [flat_map].
    rewrite (trimNode_text "h3" title plainTag_h3), (trimNode_text "h4" heading plainTag_h4).
    rewrite <- !app_assoc. reflexivity.
  - unfold field in *. cbn [fields changelogTemplate firstMissing stringField arrayField
      fieldName required andb]. rewrite Ht, Hv, Hd. reflexivity.
  - cbn [generate changelogTemplate]. unfold changelogGenerate.
    rewrite Ht, Hv, Hd, Ha, Hc, Hf. cbn [show andThen]. fold heading.
    rewrite two_lines. fold e0.
    rewrite (changes_stage e0). fold e1. cbn [andThen].
    rewrite (changes_stage (e0 ++ e1)). fold e2. cbn [andThen].
    apply (changes_stage ((e0 ++ e1) ++ e2)).
  - repeat (apply Forall_app; split); try assumption. subst e0.
    constructor; [apply wf_line; [exact plainTag_h3 | exact Lt]|].
    constructor; [|constructor]. apply wf_line; [exact plainTag_h4|].
    subst heading. repeat apply noLt_app; (assumption || reflexivity).
  - repeat (apply Forall_app; split); try assumption. subst e0. repeat constructor.
Qed.

Lemma changelog_template_tree_witness :
  createFromTemplate (u "changelog")
    [(u "title", VStr (u "Changes")); (u "version", VStr (u "1.1"));
     (u "date", VStr (u "2025-12-07")); (u "fixed", VArr [EStr (u "a bug")])]
  = Returns [NElem (u "h3") None (Some [NText (u "Changes")]);
             NElem (u "h4") None (Some [NText (u "Version 1.1 - 2025-12-07")]);
             NElem (u "p") None
               (Some [NElem (u "strong") None (Some [NText (u "Fixed:")])]);
             NElem (u "ul") None
               (Some [NElem (u "li") None (Some [NText (u "a bug")])])].
Proof.
  apply (changelog_template_tree _ (u "Changes") (u "1.1") (u "2025-12-07")
           None None (Some [u "a bug"])); try reflexivity.
  - intros l H. discriminate.
  - intros l H. discriminate.
  - intros l H. inversion H. repeat constructor.
Defined.

Lemma uint_noLt d : noLt (u (NilEmpty.string_of_uint d)).
Proof. unfold noLt. induction d; simpl; try exact IHd; reflexivity. Qed.

Lemma decimal_noLt n : noLt (decimal n).
Proof.
  unfold decimal, NilZero.string_of_uint.
  destruct (Nat.to_uint n); try apply uint_noLt. reflexivity.
Qed.

Lemma stepLabel_noLt i s : noLt (fst s) -> noLt (stepLabel i s).
Proof.
  intros H. unfold stepLabel. repeat apply noLt_app; try reflexivity; try exact H.
  apply decimal_noLt.
Qed.

Lemma addSteps_lines steps : forall i a,
  addSteps i (map (pairObject "title" "content") steps) (markupText (lines a))
  = Returns (markupText (lines (a ++ stepLines i steps))).
Proof.
  induction steps as [|s steps IH]; intros i a.
  - simpl. rewrite app_nil_r. reflexivity.
  - cbn [map addSteps stepLines].
    change (show (prop "title" (pairObject "title" "content" s))) with (Returns (fst s)).
    change (show (prop "content" (pairObject "title" "content" s))) with (Returns (snd s)).
    cbn [andThen].
    replace (markupText (lines a) ++ u "<p><strong>Step " ++ decimal (i + 1) ++ u ": "
               ++ fst s ++ u "</strong></p>" ++ [LF] ++ u "<p>" ++ snd s ++ u "</p>" ++ [LF])
      with (markupText (lines (a ++ [boldOf (stepLabel i s); el "p" (textM (snd s))]))).
    + rewrite IH, <- app_assoc. reflexivity.
    + change [boldOf (stepLabel i s); el "p" (textM (snd s))]
        with ([boldOf (stepLabel i s)] ++ [el "p" (textM (snd s))]).
      rewrite app_assoc, <- addLine_lines, lines_app, markupText_app, <- bold_text.
      unfold addLine, stepLabel.
      change (u "<p><strong>Step ") with (u "<p><strong>" ++ u "Step ").
      rewrite <- !app_assoc. reflexivity.
Qed.

Lemma stepLines_wf steps : forall i,
  Forall (fun s => noLt (fst s) /\ noLt (snd s)) steps ->
  Forall wf (stepLines i steps) /\ Forall (fun e => isMText e = false) (stepLines i steps).
Proof.
  induction steps as [|s steps IH]; intros i H; [split; constructor|].
  inversion H as [|? ? [H1 H2] H3]; subst. destruct (IH (S i) H3) as [W N].
  cbn [stepLines]. split.
  - constructor; [apply bold_wf, stepLabel_noLt, H1|].
    constructor; [apply wf_line; [exact plainTag_p | exact H2] | exact W].
  - constructor; [reflexivity|]. constructor; [reflexivity | exact N].
Qed.

Lemma stepLines_tree steps : forall i,
  flat_map (fun e => trimNode (tree e)) (stepLines i steps) = stepNodes i steps.
Proof.
  induction steps as [|s steps IH]; intros i; [reflexivity|].
  cbn [stepLines stepNodes flat_map].
  rewrite bold_tree, (trimNode_text "p" (snd s) plainTag_p), IH. reflexivity.
Qed.

(** [createFromTemplate] with the tutorial template: the title and the
    description, the prerequisites as a heading and a list when there
    are any, the Steps heading, for each step a paragraph with its
    number and title in bold and a paragraph with its content, the
    steps numbered from 1, and the conclusion when it is not empty. *)
Theorem tutorial_template_tree (d : data) (title description : str)
  (prerequisites : option (list str)) (steps : list (str * str))
  (conclusion : option str) :
  field "title" d = Some (VStr title) ->
  field "description" d = Some (VStr description) ->
  field "prerequisites" d = option_map (fun l => VArr (map EStr l)) prerequisites ->
  field "steps" d = Some (VArr (map (pairObject "title" "content") steps)) ->
  field "conclusion" d = option_map VStr conclusion ->
  noLt title -> noLt description ->
  (forall l, prerequisites = Some l -> Forall noLt l) ->
  Forall (fun s => noLt (fst s) /\ noLt (snd s)) steps ->
  (forall s, conclusion = Some s -> noLt s) ->
  createFromTemplate (u "tutorial") d
  = Returns ([textElement "h3" title; textElement "p" description]
             ++ whenItems prerequisites
                  (fun l => [textElement "h4" (u "Prerequisites"); ulNode l])
             ++ [textElement "h4" (u "Steps")]
             ++ stepNodes 0 steps
             ++ whenText conclusion
                  (fun s => [textElement "h4" (u "Conclusion"); textElement "p" s])).
Proof.
  intros Ht Hd Hp Hs Hc Lt Ld Lp Ls Lc.
  set (e0 := [el "h3" (textM title); el "p" (textM description)]).
  set (e1 := flat_map (fun l => [el "h4" (textM (u "Prerequisites")); ulOf l])
                      (optItems prerequisites)).
  set (e2 := [el "h4" (textM (u "Steps"))]).
  set (e3 := stepLines 0 steps).
  set (e4 := textStage "h4" (u "Conclusion") "p" conclusion).
  destruct (items_stage_wf (u "Prerequisites") prerequisites eq_refl Lp) as [W1 N1].
  destruct (stepLines_wf steps 0 Ls) as [W3 N3].
  destruct (text_stage_wf "h4" (u "Conclusion") "p" conclusion
              plainTag_h4 plainTag_p eq_refl Lc) as [W4 N4].
  rewrite (createFromTemplate_lines _ tutorialTemplate d
             ((((e0 ++ e1) ++ e2) ++ e3) ++ e4)); [|reflexivity| | | |].
  - f_equal. rewrite !flat_map_app. subst e0 e1 e2 e3 e4.
    rewrite items_stage_tree, stepLines_tree.
    rewrite text_stage_tree by (exact plainTag_h4 || exact plainTag_p).
    cbn [flat_map].
    rewrite (trimNode_text "h3" title plainTag_h3),
            (trimNode_text "p" description plainTag_p),
            (trimNode_text "h4" (u "Steps") plainTag_h4).
    rewrite <- !app_assoc. reflexivity.
  - unfold field in *. cbn [fields tutorialTemplate firstMissing stringField arrayField
      fieldName required andb]. rewrite Ht, Hd, Hs. reflexivity.
  - cbn [generate tutorialTemplate]. unfold tutorialGenerate.
    rewrite Ht, Hd, Hp, Hs, Hc. cbn [show andThen].
    rewrite two_lines. fold e0.
    rewrite (items_stage e0 (u "Prerequisites")). fold e1. cbn [andThen indexed].
    rewrite addLine_lines. fold e2.
    rewrite addSteps_lines. fold e3. cbn [andThen].
    apply (text_stage ((((e0 ++ e1) ++ e2) ++ e3))).
  - repeat (apply Forall_app; split); try assumption.
    + subst e0. constructor; [apply wf_line; [exact plainTag_h3 | exact Lt]|].
      constructor; [apply wf_line; [exact plainTag_p | exact Ld] | constructor].
    + subst e2. constructor; [apply wf_line; [exact plainTag_h4 | reflexivity] | constructor].
  - repeat (apply Forall_app; split); try assumption; subst e0 e2; repeat constructor.
Qed.

Lemma tutorial_template_tree_witness :
  createFromTemplate (u "tutorial")
    [(u "title", VStr (u "How to")); (u "description", VStr (u "Do it"));
     (u "steps", VArr [pairObject "title" "content" (u "Start", u "Open it");
                       pairObject "title" "content" (u "End", u "Close it")])]
  = Returns [NElem (u "h3") None (Some [NText (u "How to")]);
             NElem (u "p") None (Some [NText (u "Do it")]);
             NElem (u "h4") None (Some [NText (u "Steps")]);
             NElem (u "p") None
               (Some [NElem (u "strong") None (Some [NText (u "Step 1: Start")])]);
             NElem (u "p") None (Some [NText (u "Open it")]);
             NElem (u "p") None
               (Some [NElem (u "strong") None (Some [NText (u "Step 2: End")])]);
             NElem (u "p") None (Some [NText (u "Close it")])].
Proof.
  apply (tutorial_template_tree _ (u "How to") (u "Do it") None
           [(u "Start", u "Open it"); (u "End", u "Close it")] None); try reflexivity.
  - intros l H. discriminate.
  - repeat constructor.
  - intros s H. discriminate.
Defined.

Lemma iterate_present v : isNullish v = false -> exists l, iterate v = Some l.
Proof. destruct v as [[|s|l]|]; try discriminate; intros _; eexists; reflexivity. Qed.

Lemma indexed_present v : isNullish v = false -> exists l, indexed v = Some l.
Proof. destruct v as [[|s|l]|]; try discriminate; intros _; eexists; reflexivity. Qed.

Lemma iterate_nonEmpty v : nonEmpty v = true -> exists l, iterate v = Some l.
Proof. destruct v as [[|s|l]|]; try discriminate; intros _; eexists; reflexivity. Qed.

Lemma obj_get_In {V} k (o : list (str * V)) v :
  obj_get k o = Some v -> exists k', In (k', v) o.
Proof.
  induction o as [|[k' v'] o IH]; [discriminate|]. cbn [obj_get].
  destruct (str_eqb k' k).
  - intros H. inversion H; subst. exists k'. left. reflexivity.
  - intros H. destruct (IH H) as [k'' Hk]. exists k''. right. exact Hk.
Qed.

Lemma field_printable d k l :
  printableData d -> obj_get k d = Some (VArr l) -> forallb printable l = true.
Proof.
  intros H G. destruct (obj_get_In _ _ _ G) as [k' Hk].
  unfold printableData in H. rewrite Forall_forall in H. exact (H _ Hk).
Qed.

Lemma showElement_printable x : printable x = true -> exists s, showElement x = Returns s.
Proof.
  destruct x as [s|o]; cbn [printable showElement]; [eexists; reflexivity|].
  intros H. apply negb_true_iff in H. rewrite H. eexists. reflexivity.
Qed.

Lemma showAll_printable l : forallb printable l = true -> exists ss, showAll l = Returns ss.
Proof.
  induction l as [|x l IH]; [eexists; reflexivity|]. cbn [forallb showAll].
  intros H. apply andb_true_iff in H. destruct H as [Hx Hl].
  destruct (showElement_printable x Hx) as [s ->]. destruct (IH Hl) as [ss ->].
  eexists. reflexivity.
Qed.

Lemma show_printable d k : printableData d -> exists s, show (obj_get k d) = Returns s.
Proof.
  intros H. destruct (obj_get k d) as [[|s|l]|] eqn:G; try (eexists; reflexivity).
  cbn [show]. destruct (showAll_printable l (field_printable d k l H G)) as [ss ->].
  eexists. reflexivity.
Qed.

Lemma show_prop key x : exists s, show (prop key x) = Returns s.
Proof.
  destruct x as [s|o]; cbn [prop]; [eexists; reflexivity|].
  destruct (obj_get (u key) o); eexists; reflexivity.
Qed.

Lemma iterate_printable d k l :
  printableData d -> iterate (obj_get k d) = Some l -> forallb printable l = true.
Proof.
  intros H. destruct (obj_get k d) as [[|s|l']|] eqn:G; try discriminate; cbn [iterate].
  - intros E. inversion E. apply forallb_forall. intros x Hx.
    apply in_map_iff in Hx. destruct Hx as (c & <- & _). reflexivity.
  - intros E. inversion E; subst. exact (field_printable d k l H G).
Qed.

Lemma forEach_total {T} (body : str -> T -> outcome str) l :
  (forall a x, In x l -> exists h, body a x = Returns h) ->
  forall html, exists h, forEach l html body = Returns h.
Proof.
  induction l as [|x l IH]; intros H html; [eexists; reflexivity|].
  rewrite forEach_cons. destruct (H html x (or_introl eq_refl)) as [h ->].
  cbn [andThen]. apply IH. intros a y Hy. apply H. right. exact Hy.
Qed.

Lemma items_total tag l html :
  forallb printable l = true ->
  exists h, forEach l html (fun html x =>
              andThen (showElement x) (fun text => Returns (addLine html tag text)))
            = Returns h.
Proof.
  intros H. apply forEach_total. intros a x Hx.
  rewrite forallb_forall in H. destruct (showElement_printable x (H x Hx)) as [s ->].
  eexists. reflexivity.
Qed.

Lemma addList_total d k head html :
  printableData d -> exists h, addList html head (obj_get k d) = Returns h.
Proof.
  intros H. unfold addList. destruct (nonEmpty (obj_get k d)) eqn:E; [|eexists; reflexivity].
  destruct (iterate_nonEmpty _ E) as [l G]. rewrite G.
  destruct (items_total "li" l (html ++ head ++ u "<ul>" ++ [LF])
              (iterate_printable d k l H G)) as [h Hh].
  unfold addItems. rewrite Hh. eexists. reflexivity.
Qed.

Lemma addOptional_total d k html t1 label t2 :
  printableData d -> exists h, addOptional html t1 label t2 (obj_get k d) = Returns h.
Proof.
  intros H. unfold addOptional. destruct (truthyValue (obj_get k d)); [|eexists; reflexivity].
  destruct (show_printable d k H) as [s ->]. eexists. reflexivity.
Qed.

Lemma addSteps_total l : forall i html, exists h, addSteps i l html = Returns h.
Proof.
  induction l as [|x l IH]; intros i html; [eexists; reflexivity|]. cbn [addSteps].
  destruct (show_prop "title" x) as [s1 ->]. destruct (show_prop "content" x) as [s2 ->].
  cbn [andThen]. apply IH.
Qed.

(** Whatever the data, the pieces of a template return or throw a
    [TypeError]. *)
Lemma mild_andThen {A B} (x : outcome A) (f : A -> outcome B) :
  mild x -> (forall a, mild (f a)) -> mild (andThen x f).
Proof. destruct x as [a|[m|]|]; cbn; try tauto. intros _ H. apply H. Qed.

Lemma mild_showElement x : mild (showElement x).
Proof. destruct x as [s|o]; cbn; [exact I|]. destruct (obj_has _ o); exact I. Qed.

Lemma mild_showAll l : mild (showAll l).
Proof.
  induction l as [|x l IH]; [exact I|]. cbn [showAll].
  apply mild_andThen; [apply mild_showElement|]. intros s.
  apply mild_andThen; [exact IH|]. intros ss. exact I.
Qed.

Lemma mild_show v : mild (show v).
Proof.
  destruct v as [[|s|l]|]; try exact I. cbn [show].
  apply mild_andThen; [apply mild_showAll | intros ss; exact I].
Qed.

Lemma mild_forEach {T} (body : str -> T -> outcome str) l :
  (forall a x, mild (body a x)) -> forall html, mild (forEach l html body).
Proof.
  intros H. induction l as [|x l IH]; intros html; [exact I|].
  rewrite forEach_cons. apply mild_andThen; [apply H | exact IH].
Qed.

Lemma mild_addItems html l : mild (addItems html l).
Proof.
  apply mild_forEach. intros a x. apply mild_andThen; [apply mild_showElement|].
  intros s. exact I.
Qed.

Lemma mild_addList html head v : mild (addList html head v).
Proof.
  unfold addList. destruct (nonEmpty v); [|exact I].
  destruct (iterate v) as [l|]; [|exact I].
  apply mild_andThen; [apply mild_addItems | intros h; exact I].
Qed.

Lemma mild_addOptional html t1 label t2 v : mild (addOptional html t1 label t2 v).
Proof.
  unfold addOptional. destruct (truthyValue v); [|exact I].
  apply mild_andThen; [apply mild_show | intros s; exact I].
Qed.

Lemma mild_addSteps l : forall i html, mild (addSteps i l html).
Proof.
  induction l as [|x l IH]; intros i html; [exact I|]. cbn [addSteps].
  apply mild_andThen; [apply mild_show|]. intros s1.
  apply mild_andThen; [apply mild_show|]. intros s2. apply IH.
Qed.

Lemma firstMissing_none fs d :
  firstMissing fs d = None <->
  Forall (fun f => required f = true -> isNullish (obj_get (fieldName f) d) = false) fs.
Proof.
  induction fs as [|f fs IH]; simpl; [split; [constructor | reflexivity]|].
  destruct (required f) eqn:R; simpl.
  - destruct (isNullish (obj_get (fieldName f) d)) eqn:N.
    + split; [discriminate|]. intros H. inversion H as [|? ? H2 H3]; subst.
      specialize (H2 R). congruence.
    + rewrite IH. split; intros H.
      * constructor; [intros _; exact N | exact H].
      * inversion H; assumption.
  - rewrite IH. split; intros H.
    + constructor; [intros R'; congruence | exact H].
    + inversion H; assumption.
Qed.

Lemma firstMissing_some fs d missing :
  firstMissing fs d = Some missing ->
  exists before f after,
    fs = before ++ f :: after /\ fieldName f = missing /\ required f = true /\
    isNullish (obj_get missing d) = true /\
    Forall (fun g => required g = true -> isNullish (obj_get (fieldName g) d) = false) before.
Proof.
  induction fs as [|f fs IH]; [discriminate|]. simpl.
  destruct (required f && isNullish (obj_get (fieldName f) d)) eqn:E.
  - intros H. inversion H; subst. apply andb_true_iff in E. destruct E as [R N].
    exists [], f, fs. repeat split; try assumption. constructor.
  - intros H. destruct (IH H) as (b & g & a & -> & Hn & Hr & Hm & Hb).
    exists (f :: b), g, a. repeat split; try assumption.
    constructor; [|exact Hb]. intros R. rewrite R in E. exact E.
Qed.

Lemma templates_own templateName tpl :
  obj_get templateName templates = Some tpl ->
  tpl = blogPostTemplate \/ tpl = documentationTemplate \/ tpl = articleTemplate \/
  tpl = changelogTemplate \/ tpl = tutorialTemplate.
Proof.
  unfold templates. cbn [obj_get].
  repeat match goal with
         | |- (if ?b then _ else _) = _ -> _ => destruct b
         end; intros H; inversion H; tauto.
Qed.

Lemma generate_returns tpl d :
  tpl = blogPostTemplate \/ tpl = documentationTemplate \/ tpl = articleTemplate \/
  tpl = changelogTemplate \/ tpl = tutorialTemplate ->
  firstMissing (fields tpl) d = None -> printableData d ->
  exists html, generate tpl d = Returns html.
Proof.
  intros H M P. apply firstMissing_none in M.
  destruct H as [->|[->|[->|[->| ->]]]]; cbn [fields generate blogPostTemplate
    documentationTemplate articleTemplate changelogTemplate tutorialTemplate] in *.
  - inversion M as [|? ? _ M1]; subst. inversion M1 as [|? ? _ M2]; subst.
    inversion M2 as [|? ? Hs _]; subst. specialize (Hs eq_refl).
    unfold blogPostGenerate, field.
    destruct (show_printable d (u "title") P) as [s1 ->].
    destruct (show_printable d (u "intro") P) as [s2 ->]. cbn [andThen].
    destruct (iterate_present _ Hs) as [l E].
    cbn [fieldName arrayField] in E. rewrite E.
    match goal with |- exists html, andThen (forEach l ?h ?b) _ = _ =>
      destruct (forEach_total b l) with (html := h) as [h1 ->] end.
    + intros a x _. destruct (show_prop "heading" x) as [t1 ->].
      destruct (show_prop "content" x) as [t2 ->]. eexists. reflexivity.
    + cbn [andThen]. apply addOptional_total, P.
  - unfold documentationGenerate, field.
    destruct (show_printable d (u "title") P) as [s1 ->].
    destruct (show_printable d (u "overview") P) as [s2 ->]. cbn [andThen].
    match goal with |- exists html, andThen (addOptional ?h _ _ _ _) _ = _ =>
      destruct (addOptional_total d (u "installation") h "h4" (u "Installation") "pre" P)
        as [h1 ->] end.
    cbn [andThen].
    destruct (addOptional_total d (u "usage") h1 "h4" (u "Usage") "p" P) as [h2 ->].
    cbn [andThen]. apply addList_total, P.
  - inversion M as [|? ? _ M1]; subst. inversion M1 as [|? ? _ M2]; subst.
    inversion M2 as [|? ? Hs _]; subst. specialize (Hs eq_refl).
    unfold articleGenerate, field.
    destruct (show_printable d (u "title") P) as [s1 ->]. cbn [andThen].
    assert (S : exists h, (if truthyValue (obj_get (u "subtitle") d)
                           then andThen (show (obj_get (u "subtitle") d))
                                  (fun subtitle => Returns (addLine (addLine [] "h3" s1) "h4" subtitle))
                           else Returns (addLine [] "h3" s1)) = Returns h).
    { destruct (truthyValue (obj_get (u "subtitle") d)); [|eexists; reflexivity].
      destruct (show_printable d (u "subtitle") P) as [s2 ->]. eexists. reflexivity. }
    destruct S as [h ->]. cbn [andThen].
    destruct (iterate_present _ Hs) as [l E].
    cbn [fieldName arrayField] in E. rewrite E.
    apply items_total. exact (iterate_printable d _ l P E).
  - unfold changelogGenerate, field, addChanges.
    destruct (show_printable d (u "title") P) as [s1 ->].
    destruct (show_printable d (u "version") P) as [s2 ->].
    destruct (show_printable d (u "date") P) as [s3 ->]. cbn [andThen].
    match goal with |- exists html, andThen (addList ?h ?hd _) _ = _ =>
      destruct (addList_total d (u "added") hd h P) as [h1 ->] end.
    cbn [andThen].
    match goal with |- exists html, andThen (addList ?h ?hd _) _ = _ =>
      destruct (addList_total d (u "changed") hd h P) as [h2 ->] end.
    cbn [andThen]. apply addList_total, P.
  - inversion M as [|? ? _ M1]; subst. inversion M1 as [|? ? _ M2]; subst.
    inversion M2 as [|? ? _ M3]; subst. inversion M3 as [|? ? Hs _]; subst.
    specialize (Hs eq_refl). unfold tutorialGenerate, field.
    destruct (show_printable d (u "title") P) as [s1 ->].
    destruct (show_printable d (u "description") P) as [s2 ->]. cbn [andThen].
    match goal with |- exists html, andThen (addList ?h ?hd _) _ = _ =>
      destruct (addList_total d (u "prerequisites") hd h P) as [h1 ->] end.
    cbn [andThen].
    destruct (indexed_present _ Hs) as [l E]. cbn [fieldName arrayField] in E. rewrite E.
    destruct (addSteps_total l 0 (addLine h1 "h4" (u "Steps"))) as [h2 ->].
    cbn [andThen]. apply addOptional_total, P.
Qed.

Lemma generate_mild tpl d :
  tpl = blogPostTemplate \/ tpl = documentationTemplate \/ tpl = articleTemplate \/
  tpl = changelogTemplate \/ tpl = tutorialTemplate ->
  mild (generate tpl d).
Proof.
  intros H.
  destruct H as [->|[->|[->|[->| ->]]]]; cbn [generate blogPostTemplate
    documentationTemplate articleTemplate changelogTemplate tutorialTemplate].
  - unfold blogPostGenerate.
    apply mild_andThen; [apply mild_show|]. intros s1.
    apply mild_andThen; [apply mild_show|]. intros s2.
    destruct (iterate (field "sections" d)) as [l|]; [|exact I].
    apply mild_andThen; [|intros h; apply mild_addOptional].
    apply mild_forEach. intros a x.
    apply mild_andThen; [apply mild_show|]. intros t1.
    apply mild_andThen; [apply mild_show|]. intros t2. exact I.
  - unfold documentationGenerate.
    apply mild_andThen; [apply mild_show|]. intros s1.
    apply mild_andThen; [apply mild_show|]. intros s2.
    apply mild_andThen; [apply mild_addOptional|]. intros h1.
    apply mild_andThen; [apply mild_addOptional|]. intros h2.
    apply mild_addList.
  - unfold articleGenerate.
    apply mild_andThen; [apply mild_show|]. intros s1.
    apply mild_andThen.
    + destruct (truthyValue (field "subtitle" d)); [|exact I].
      apply mild_andThen; [apply mild_show | intros s; exact I].
    + intros h. destruct (iterate (field "body" d)) as [l|]; [|exact I].
      apply mild_forEach. intros a x.
      apply mild_andThen; [apply mild_showElement | intros s; exact I].
  - unfold changelogGenerate, addChanges.
    apply mild_andThen; [apply mild_show|]. intros s1.
    apply mild_andThen; [apply mild_show|]. intros s2.
    apply mild_andThen; [apply mild_show|]. intros s3.
    apply mild_andThen; [apply mild_addList|]. intros h1.
    apply mild_andThen; [apply mild_addList|]. intros h2.
    apply mild_addList.
  - unfold tutorialGenerate.
    apply mild_andThen; [apply mild_show|]. intros s1.
    apply mild_andThen; [apply mild_show|]. intros s2.
    apply mild_andThen; [apply mild_addList|]. intros h1.
    destruct (indexed (field "steps" d)) as [l|]; [|exact I].
    apply mild_andThen; [apply mild_addSteps|]. intros h2.
    apply mild_addOptional.
Qed.

Lemma templates_not_inherited templateName tpl :
  obj_get templateName templates = Some tpl ->
  existsb (str_eqb templateName) inheritedKeys = false.
Proof.
  intros G. unfold templates in G. cbn [obj_get] in G.
  repeat match type of G with
         | (if ?b then _ else _) = _ =>
             let E := fresh "E" in
             destruct b eqn:E; [apply str_eqb_eq in E; subst templateName; reflexivity|]
         end. discriminate.
Qed.

(** [createFromTemplate] always comes back.  When it returns a tree, the
    name is one of the five templates and the data has a value other
    than [null] for every required field of that template; for a name
    every object inherits, such as [toString], it throws a [TypeError].
    On data whose array elements can all be printed the converses hold:
    it returns a tree whenever the name is a template and the required
    fields are there, and it throws a [TypeError] for the inherited names
    only.  An object with a [toString] property of its own in the body
    of an article makes it throw a [TypeError]. *)
Theorem createFromTemplate_returns_iff templateName d :
  createFromTemplate templateName d <> Loops /\
  ((exists t, createFromTemplate templateName d = Returns t) ->
   exists tpl, obj_get templateName templates = Some tpl /\
     Forall (fun f => required f = true ->
                      isNullish (obj_get (fieldName f) d) = false) (fields tpl)) /\
  (existsb (str_eqb templateName) inheritedKeys = true ->
   createFromTemplate templateName d = Throws TypeError) /\
  (printableData d ->
   ((exists tpl, obj_get templateName templates = Some tpl /\
       Forall (fun f => required f = true ->
                        isNullish (obj_get (fieldName f) d) = false) (fields tpl)) ->
    exists t, createFromTemplate templateName d = Returns t) /\
   (createFromTemplate templateName d = Throws TypeError ->
    existsb (str_eqb templateName) inheritedKeys = true)) /\
  createFromTemplate (u "article")
    [(u "title", VStr (u "T")); (u "body", VArr [EObj [(u "toString", u "x")]])]
  = Throws TypeError.
Proof.
  split; [|split; [|split; [|split; [|reflexivity]]]].
  - unfold createFromTemplate, getTemplate.
    destruct (obj_get templateName templates) as [tpl|] eqn:G.
    + destruct (firstMissing (fields tpl) d); [discriminate|].
      pose proof (generate_mild tpl d (templates_own _ _ G)) as Hm.
      destruct (generate tpl d) as [html|[m|]|]; cbn in Hm; try tauto; cbn [andThen].
      * rewrite parseHtmlToNodes_total. discriminate.
      * discriminate.
    + destruct (existsb (str_eqb templateName) inheritedKeys); discriminate.
  - unfold createFromTemplate, getTemplate.
    destruct (obj_get templateName templates) as [tpl|] eqn:G.
    + destruct (firstMissing (fields tpl) d) as [missing|] eqn:M.
      * intros [t H]. discriminate.
      * intros _. exists tpl. split; [reflexivity | apply firstMissing_none, M].
    + destruct (existsb (str_eqb templateName) inheritedKeys); intros [t H]; discriminate.
  - intros Hin. unfold createFromTemplate, getTemplate.
    destruct (obj_get templateName templates) as [tpl|] eqn:G.
    + rewrite (templates_not_inherited _ _ G) in Hin. discriminate.
    + rewrite Hin. reflexivity.
  - intros P. unfold createFromTemplate, getTemplate.
    destruct (obj_get templateName templates) as [tpl|] eqn:G.
    + pose proof (templates_not_inherited _ _ G) as Hin.
      destruct (firstMissing (fields tpl) d) as [missing|] eqn:M.
      * split; [|discriminate].
        intros (tpl' & E & H). inversion E; subst tpl'.
        apply firstMissing_none in H. congruence.
      * destruct (generate_returns tpl d (templates_own _ _ G) M P) as [html ->].
        cbn [andThen]. rewrite parseHtmlToNodes_total.
        split; [intros _; eexists; reflexivity | discriminate].
    + destruct (existsb (str_eqb templateName) inheritedKeys).
      * split; [intros (tpl & E & _); discriminate | reflexivity].
      * split; [intros (tpl & E & _); discriminate | discriminate].
Qed.

Lemma createFromTemplate_returns_iff_witness :
  exists t, createFromTemplate (u "article")
              [(u "title", VStr (u "T")); (u "body", VArr [EObj [(u "text", u "x")]])]
            = Returns t.
Proof.
  apply (proj1 (proj1 (proj2 (proj2 (proj2 (createFromTemplate_returns_iff (u "article")
           [(u "title", VStr (u "T")); (u "body", VArr [EObj [(u "text", u "x")]])]))))
           ltac:(repeat constructor))).
  exists articleTemplate. split; [reflexivity|].
  repeat constructor; cbn; intros; (discriminate || reflexivity).
Defined.

(** When [createFromTemplate] throws an [Error], either the name is not
    a template and the message says so, or the message names a required
    field of the template that the data lacks or holds as [null], every
    required field declared before it being present. *)
Theorem createFromTemplate_error_names_first_missing templateName d message :
  createFromTemplate templateName d = Throws (Error message) ->
  (obj_get templateName templates = None /\
   message = u "Template " ++ [DQ] ++ templateName ++ [DQ] ++ u " not found") \/
  (exists tpl before f after,
     obj_get templateName templates = Some tpl /\
     fields tpl = before ++ f :: after /\
     message = u "Required field " ++ [DQ] ++ fieldName f ++ [DQ] ++ u " is missing" /\
     required f = true /\ isNullish (obj_get (fieldName f) d) = true /\
     Forall (fun g => required g = true ->
                      isNullish (obj_get (fieldName g) d) = false) before).
Proof.
  unfold createFromTemplate, getTemplate.
  destruct (obj_get templateName templates) as [tpl|] eqn:G.
  - destruct (firstMissing (fields tpl) d) as [missing|] eqn:M.
    + intros H. inversion H; subst. right.
      destruct (firstMissing_some _ _ _ M) as (b & f & a & E & Hn & Hr & Hm & Hb).
      exists tpl, b, f, a. subst missing. repeat split; assumption.
    + pose proof (generate_mild tpl d (templates_own _ _ G)) as Hm.
      destruct (generate tpl d) as [html|[m|]|]; cbn in Hm; try tauto; cbn [andThen].
      * rewrite parseHtmlToNodes_total. discriminate.
      * discriminate.
  - destruct (existsb (str_eqb templateName) inheritedKeys); [discriminate|].
    intros H. inversion H. left. split; reflexivity.
Qed.

Lemma createFromTemplate_error_names_first_missing_witness :
  let d := [(u "title", VStr (u "T")); (u "body", VNull)] in
  exists f, required f = true /\ isNullish (obj_get (fieldName f) d) = true.
Proof.
  intros d.
  destruct (createFromTemplate_error_names_first_missing (u "article") d
              (u "Required field " ++ [DQ] ++ u "body" ++ [DQ] ++ u " is missing") eq_refl)
    as [[H _]|(tpl & b & f & a & _ & _ & _ & Hr & Hn & _)]; [discriminate|].
  exists f. split; assumption.
Defined.

(** ** The Markdown rewriter on text without Markdown *)

Lemma join_cons sep x y l : join sep (x :: y :: l) = x ++ sep ++ join sep (y :: l).
Proof. reflexivity. Qed.

Lemma split_char_nonempty sep s : forall cur, split_char sep cur s <> [].
Proof.
  induction s as [|c r IH]; intros cur; simpl; [discriminate|].
  destruct (c =? sep); [discriminate | apply IH].
Qed.

Lemma join_split sep s : forall cur, join [sep] (split_char sep cur s) = rev cur ++ s.
Proof.
  induction s as [|c r IH]; intros cur; simpl.
  - rewrite app_nil_r. reflexivity.
  - destruct (c =? sep) eqn:E.
    + apply N.eqb_eq in E. subst c.
      pose proof (split_char_nonempty sep r []) as Hne. specialize (IH []).
      destruct (split_char sep [] r) as [|y l]; [congruence|].
      rewrite join_cons, IH. reflexivity.
    + rewrite IH. simpl. rewrite <- app_assoc. reflexivity.
Qed.

Lemma split_char_In sep s : forall cur line y,
  In line (split_char sep cur s) -> In y line -> In y cur \/ In y s.
Proof.
  induction s as [|c r IH]; intros cur line y Hl Hy; simpl in Hl.
  - destruct Hl as [<-|[]]. left. apply in_rev. exact Hy.
  - destruct (c =? sep).
    + destruct Hl as [<-|Hl]; [left; apply in_rev; exact Hy|].
      destruct (IH [] line y Hl Hy) as [[]|H]. right. right. exact H.
    + destruct (IH (c :: cur) line y Hl Hy) as [[<-|H]|H]; [right; left; reflexivity | left; exact H | right; right; exact H].
Qed.

(** No line of the input is a list item: the list loop returns its
    input. *)
Lemma listLines_none re tag lines : forall st,
  Forall (fun line => match_first re line = None) lines -> inList st = false ->
  fold_left (listLine re tag) lines st
  = mkList (items st) false (processedLines st ++ lines).
Proof.
  induction lines as [|line lines IH]; intros st H Hin.
  - simpl. rewrite app_nil_r. destruct st; simpl in *. subst. reflexivity.
  - inversion H as [|? ? Hl Hr]; subst. cbn [fold_left]. unfold listLine at 2.
    rewrite Hl, Hin. rewrite IH by (assumption || reflexivity).
    cbn [items processedLines]. rewrite <- app_assoc. reflexivity.
Qed.

Lemma convertLists_none re tag s :
  Forall (fun line => match_first re line = None) (split_char LF [] s) ->
  convertLists re tag s = s.
Proof.
  intros H. unfold convertLists. rewrite listLines_none by (assumption || reflexivity).
  cbn [inList processedLines app]. apply (join_split LF s []).
Qed.

Lemma match_first_headless r line :
  head_ok r None = false -> (forall y, In y line -> head_ok r (Some y) = false) ->
  match_first r line = None.
Proof.
  intros H0 H. unfold match_first. rewrite segments_headless by assumption.
  rewrite hits_gaps. reflexivity.
Qed.

Lemma convertLists_headless re tag s :
  head_ok re None = false -> (forall y, In y s -> head_ok re (Some y) = false) ->
  convertLists re tag s = s.
Proof.
  intros H0 H. apply convertLists_none. apply Forall_forall. intros line Hl.
  apply match_first_headless; [exact H0|]. intros y Hy.
  destruct (split_char_In LF s [] line y Hl Hy) as [[]|Hs]. apply H, Hs.
Qed.

Lemma scan_chars r s : forall bef skip c, In (Gap c) (scan r bef s skip) -> In c s.
Proof.
  induction s as [|x rest IH]; intros bef skip c H; simpl in H.
  - destruct skip; [|contradiction]. destruct (match_at r bef []); [|contradiction].
    destruct H as [H|[]]. discriminate.
  - destruct skip as [|k]; [|right; apply (IH _ _ _ H)].
    destruct (match_at r bef (x :: rest)) as [h|].
    + destruct (length (whole h)).
      * destruct H as [H|[H|H]]; [discriminate | inversion H; left; reflexivity |
                                   right; apply (IH _ _ _ H)].
      * destruct H as [H|H]; [discriminate | right; apply (IH _ _ _ H)].
    + destruct H as [H|H]; [inversion H; left; reflexivity | right; apply (IH _ _ _ H)].
Qed.

Lemma split_segs_In l : forall cur piece y,
  In piece (split_segs cur l) -> In y piece -> In y cur \/ In (Gap y) l.
Proof.
  induction l as [|[c|h] l IH]; intros cur piece y Hp Hy; simpl in Hp.
  - destruct Hp as [<-|[]]. left. apply in_rev. exact Hy.
  - destruct (IH (c :: cur) piece y Hp Hy) as [[<-|H]|H];
      [right; left; reflexivity | left; exact H | right; right; exact H].
  - destruct Hp as [<-|Hp]; [left; apply in_rev; exact Hy|].
    destruct (IH [] piece y Hp Hy) as [[]|H]. right. right. exact H.
Qed.

Lemma split_re_In r s piece y : In piece (split_re r s) -> In y piece -> In y s.
Proof.
  intros Hp Hy. destruct (split_segs_In _ _ _ _ Hp Hy) as [[]|H].
  apply (scan_chars r s [] 0%nat). exact H.
Qed.

Lemma trimStart_spaces s : forallb isSpace s = true -> trimStart s = [].
Proof.
  induction s as [|c r IH]; [reflexivity|]. simpl. intros H.
  apply andb_true_iff in H. destruct H as [-> H]. apply IH, H.
Qed.

Lemma trim_spaces s : forallb isSpace s = true -> trim s = [].
Proof. intros H. unfold trim. rewrite trimStart_spaces by exact H. reflexivity. Qed.

Lemma space_facts y : isSpace y = true ->
  eqc "`" y = false /\ eqc "#" y = false /\ eqc "-" y = false /\ eqc "!" y = false /\
  eqc "[" y = false /\ eqc "*" y = false /\ eqc "_" y = false /\ eqc ">" y = false /\
  isDigit y = false /\ eqc "<" y = false.
Proof.
  intros H. unfold isSpace, inRange in H.
  repeat match goal with
         | H : _ || _ = true |- _ => apply orb_true_iff in H; destruct H as [H|H]
         | H : _ && _ = true |- _ => apply andb_true_iff in H; destruct H
         | H : (_ <=? _) = true |- _ => apply N.leb_le in H
         | H : (_ =? _) = true |- _ => apply N.eqb_eq in H
         end;
    unfold eqc, isDigit, inRange;
    repeat split;
    try (apply N.eqb_neq; cbn; lia);
    try (apply andb_false_iff; (left; apply N.leb_gt; lia) || (right; apply N.leb_gt; lia)).
Qed.

Lemma convertHeaders_headless s :
  (forall y, In y s -> eqc "#" y = false) -> convertHeaders s = s.
Proof.
  intros H. unfold convertHeaders.
  rewrite (replace_gaps (lineRegex "####") _ s) by (apply segments_headless; [reflexivity | exact H]).
  rewrite (replace_gaps (lineRegex "###") _ s) by (apply segments_headless; [reflexivity | exact H]).
  rewrite (replace_gaps (lineRegex "##") _ s) by (apply segments_headless; [reflexivity | exact H]).
  apply replace_gaps, segments_headless; [reflexivity | exact H].
Qed.

Lemma convertSpans_headless s :
  (forall y, In y s ->
     eqc "-" y = false /\ eqc "!" y = false /\ eqc "[" y = false /\
     eqc "*" y = false /\ eqc "_" y = false /\ eqc ">" y = false) ->
  convertSpans s = s.
Proof.
  intros H. unfold convertSpans.
  rewrite (replace_gaps ruleRegex _ s) by (apply segments_headless;
    [reflexivity | intros y Hy; cbn; apply H in Hy; tauto]).
  rewrite (replace_gaps imageRegex _ s) by (apply segments_headless;
    [reflexivity | intros y Hy; cbn; apply H in Hy; tauto]).
  rewrite (replace_gaps linkRegex _ s) by (apply segments_headless;
    [reflexivity | intros y Hy; cbn; apply H in Hy; tauto]).
  rewrite (replace_gaps (boldRegex "*") _ s) by (apply segments_headless;
    [reflexivity | intros y Hy; cbn; apply H in Hy; tauto]).
  rewrite (replace_gaps (boldRegex "_") _ s) by (apply segments_headless;
    [reflexivity | intros y Hy; cbn; apply H in Hy; tauto]).
  rewrite (replace_gaps (italicRegex "*") _ s) by (apply segments_headless;
    [reflexivity | intros y Hy; cbn; apply H in Hy; tauto]).
  rewrite (replace_gaps (italicRegex "_") _ s) by (apply segments_headless;
    [reflexivity | intros y Hy; cbn; apply H in Hy; tauto]).
  apply replace_gaps, segments_headless; [reflexivity | intros y Hy; cbn; apply H in Hy; tauto].
Qed.

Lemma wrapParagraphs_blank s : forallb isSpace s = true -> wrapParagraphs s = [].
Proof.
  intros H. unfold wrapParagraphs.
  assert (E : map wrapParagraph (split_re blankRegex s)
              = map (fun _ => []) (split_re blankRegex s)).
  { apply map_ext_in. intros piece Hp. unfold wrapParagraph.
    rewrite trim_spaces; [reflexivity|]. apply forallb_forall. intros y Hy.
    apply (forallb_In _ _ _ H). apply (split_re_In blankRegex s piece y Hp Hy). }
  rewrite E. clear E. generalize (split_re blankRegex s). intros l.
  induction l as [|p l IH]; [reflexivity | exact IH].
Qed.

(** Input made of white space only, the empty string included, gives
    the empty string, and no node. *)
Theorem markdownToHtml_blank s :
  forallb isSpace s = true ->
  markdownToHtml s = [] /\ htmlToNodes (markdownToHtml s) = Some [].
Proof.
  intros H.
  assert (F : forall y, In y s -> isSpace y = true) by (intros y; apply forallb_In, H).
  assert (E : markdownToHtml s = []).
  { unfold markdownToHtml.
    rewrite (segments_headless fenceRegex s)
      by (try reflexivity; intros y Hy; cbn; apply F, space_facts in Hy; tauto).
    rewrite replace_with_gaps.
    rewrite (segments_headless inlineCodeRegex s)
      by (try reflexivity; intros y Hy; cbn; apply F, space_facts in Hy; tauto).
    rewrite replace_with_gaps.
    rewrite convertHeaders_headless by (intros y Hy; apply F, space_facts in Hy; tauto).
    rewrite convertSpans_headless by (intros y Hy; apply F, space_facts in Hy; tauto).
    rewrite (convertLists_headless bulletRegex) by
      (try reflexivity; intros y Hy; apply F, space_facts in Hy; cbn;
       apply orb_false_iff; tauto).
    rewrite (convertLists_headless numberedRegex) by
      (try reflexivity; intros y Hy; apply F, space_facts in Hy; cbn; tauto).
    rewrite (replace_gaps (placeholderRegex "__CODEBLOCK_") _ s) by (apply segments_headless;
      [reflexivity | intros y Hy; cbn; apply F, space_facts in Hy; tauto]).
    rewrite (replace_gaps (placeholderRegex "__INLINECODE_") _ s) by (apply segments_headless;
      [reflexivity | intros y Hy; cbn; apply F, space_facts in Hy; tauto]).
    apply wrapParagraphs_blank, H. }
  rewrite E. split; reflexivity.
Qed.

Lemma markdownToHtml_blank_witness :
  markdownToHtml (u "  " ++ [LF; LF] ++ u " " ++ [LF]) = [].
Proof.
  apply (proj1 (markdownToHtml_blank (u "  " ++ [LF; LF] ++ u " " ++ [LF]) eq_refl)).
Defined.

Lemma scan_anchored ml r ok :
  head_ok r None = false ->
  (forall c, ok c = true -> head_ok r (Some c) = false) ->
  forall s bef, lineHeadsOk ok (startsLine bef) s = true ->
  scan (Cat (Bol ml) r) bef s 0 = map Gap s.
Proof.
  intros H0 Hok s. induction s as [|c rest IH]; intros bef H.
  - cbn [scan]. rewrite match_at_head_fail by exact H0. reflexivity.
  - cbn [lineHeadsOk] in H. apply andb_true_iff in H. destruct H as [Hc Hrest].
    rewrite scan_gap.
    + cbn [map]. f_equal. apply IH. exact Hrest.
    + destruct bef as [|x bef]; cbn [startsLine] in Hc.
      * apply match_at_head_fail. cbn. apply Hok, Hc.
      * destruct (isLineTerminator x) eqn:T.
        -- apply match_at_head_fail. cbn. apply Hok, Hc.
        -- apply match_at_bol_fail. rewrite T. apply andb_false_r.
Qed.

Lemma segments_lines ml r ok s :
  head_ok r None = false ->
  (forall c, ok c = true -> head_ok r (Some c) = false) ->
  lineHeadsOk ok true s = true ->
  segments (Cat (Bol ml) r) s = map Gap s.
Proof. intros H0 Hok H. apply (scan_anchored ml r ok H0 Hok s []). exact H. Qed.

Lemma lineHeads_run ok p : forall b rest,
  (forall y, In y p -> isLineTerminator y = false) ->
  lineHeadsOk ok b (p ++ rest)
  = match p with
    | [] => lineHeadsOk ok b rest
    | c :: _ => (if b then ok c else true) && lineHeadsOk ok false rest
    end.
Proof.
  induction p as [|c p IH]; intros b rest H; [reflexivity|].
  cbn [app lineHeadsOk]. rewrite (H c (or_introl eq_refl)). f_equal.
  rewrite IH by (intros y Hy; apply H; right; exact Hy).
  destruct p; reflexivity.
Qed.

Lemma prose_facts p : prose p ->
  (forall y, In y p -> inertChar y = true) /\
  exists c r, p = c :: r /\ opensProse c = true.
Proof.
  intros (H1 & H2 & _). split; [intros y; apply forallb_In, H2|].
  destruct p as [|c r]; [contradiction|]. eauto.
Qed.

Lemma prose_heads ok ps : forall b,
  ok LF = true -> (forall c, opensProse c = true -> ok c = true) ->
  Forall prose ps -> lineHeadsOk ok b (join [LF; LF] ps) = true.
Proof.
  intros b HLF Hopen H. revert b. induction H as [|p ps Hp Hps IH]; intros b; [reflexivity|].
  destruct (prose_facts p Hp) as [Hin (c & r & -> & Hc)].
  assert (Hline : forall y, In y (c :: r) -> isLineTerminator y = false)
    by (intros y Hy; apply Hin, inert_facts in Hy; tauto).
  destruct ps as [|q ps].
  - cbn [join]. rewrite <- (app_nil_r (c :: r)), lineHeads_run by exact Hline.
    rewrite (Hopen c Hc). destruct b; reflexivity.
  - rewrite join_cons, lineHeads_run by exact Hline.
    rewrite (Hopen c Hc). cbn [app lineHeadsOk].
    change (isLineTerminator LF) with true. cbn iota. rewrite HLF, IH.
    destruct b; reflexivity.
Qed.

Lemma opensProse_facts c : opensProse c = true ->
  isSpace c = false /\ eqc "#" c = false /\ eqc ">" c = false /\ eqc "-" c = false /\
  eqc "<" c = false /\ isDigit c = false.
Proof.
  unfold opensProse. intros H. apply negb_true_iff in H.
  do 5 (apply orb_false_iff in H; destruct H as [H ?]). repeat split; assumption.
Qed.

Lemma join_chars sep ps y :
  In y (join sep ps) -> In y sep \/ exists p, In p ps /\ In y p.
Proof.
  induction ps as [|p ps IH]; [intros []|].
  destruct ps as [|q ps].
  - cbn [join]. intros H. right. exists p. split; [left; reflexivity | exact H].
  - rewrite join_cons. intros H. apply in_app_or in H. destruct H as [H|H].
    + right. exists p. split; [left; reflexivity | exact H].
    + apply in_app_or in H. destruct H as [H|H]; [left; exact H|].
      destruct (IH H) as [Hs|(p' & Hp' & Hy)]; [left; exact Hs|].
      right. exists p'. split; [right; exact Hp' | exact Hy].
Qed.

Lemma prose_chars ps y :
  Forall prose ps -> In y (join [LF; LF] ps) -> y = LF \/ inertChar y = true.
Proof.
  intros H Hy. apply join_chars in Hy. destruct Hy as [[<-|[<-|[]]]|(p & Hp & Hy)]; auto.
  right. rewrite Forall_forall in H. apply (proj1 (prose_facts p (H p Hp))), Hy.
Qed.

Lemma match_first_anchored r line :
  head_ok r None = false ->
  match line with c :: _ => head_ok r (Some c) = false | [] => True end ->
  match_first (Cat (Bol false) r) line = None.
Proof.
  intros H0 H. unfold match_first. rewrite segments_anchored.
  - rewrite hits_gaps. reflexivity.
  - intros y _. reflexivity.
  - apply match_at_head_fail. destruct line as [|c l]; [exact H0 | exact H].
Qed.

Lemma split_char_run sep p : forall cur rest,
  (forall y, In y p -> (y =? sep) = false) ->
  split_char sep cur (p ++ rest) = split_char sep (rev p ++ cur) rest.
Proof.
  induction p as [|c p IH]; intros cur rest H; [reflexivity|].
  cbn [app split_char]. rewrite (H c (or_introl eq_refl)).
  rewrite IH by (intros y Hy; apply H; right; exact Hy).
  cbn [rev]. rewrite <- app_assoc. reflexivity.
Qed.

Lemma split_prose ps :
  Forall prose ps -> ps <> [] ->
  split_char LF [] (join [LF; LF] ps) = between [] ps.
Proof.
  intros H. induction H as [|p ps Hp Hps IH]; [congruence|]. intros _.
  assert (Hin : forall y, In y p -> (y =? LF) = false).
  { intros y Hy. apply (proj1 (prose_facts p Hp)), inert_facts in Hy. tauto. }
  destruct ps as [|q ps].
  - cbn [join between]. rewrite <- (app_nil_r p) at 1. rewrite split_char_run by exact Hin.
    cbn [split_char]. rewrite app_nil_r, rev_involutive. reflexivity.
  - rewrite join_cons, split_char_run by exact Hin. cbn [app split_char].
    change (LF =? LF) with true. cbn iota.
    rewrite app_nil_r, rev_involutive, IH by discriminate. reflexivity.
Qed.

Lemma between_In {T} (sep : T) l x : In x (between sep l) -> x = sep \/ In x l.
Proof.
  induction l as [|y l IH]; [intros []|]. destruct l as [|z l].
  - intros [<-|[]]. right. left. reflexivity.
  - intros [<-|[<-|H]]; [right; left; reflexivity | left; reflexivity|].
    destruct (IH H) as [->|H']; [left; reflexivity | right; right; exact H'].
Qed.

Lemma lists_prose r tag ps :
  head_ok r None = false ->
  (forall c, opensProse c = true -> inertChar c = true -> head_ok r (Some c) = false) ->
  Forall prose ps -> ps <> [] ->
  convertLists (Cat (Bol false) r) tag (join [LF; LF] ps) = join [LF; LF] ps.
Proof.
  intros H0 Hh H Hne. apply convertLists_none. rewrite split_prose by assumption.
  apply Forall_forall. intros line Hl. apply match_first_anchored; [exact H0|].
  destruct (between_In _ _ _ Hl) as [->|Hp]; [exact I|].
  rewrite Forall_forall in H.
  destruct (prose_facts line (H line Hp)) as [Hin (c & l & -> & Hc)].
  apply Hh; [exact Hc | apply Hin; left; reflexivity].
Qed.

Lemma prose_lines ps r ml :
  head_ok r None = false ->
  (forall c, opensProse c = true -> head_ok r (Some c) = false) ->
  head_ok r (Some LF) = false ->
  Forall prose ps ->
  segments (Cat (Bol ml) r) (join [LF; LF] ps) = map Gap (join [LF; LF] ps).
Proof.
  intros H0 Hh HLF H.
  apply (segments_lines ml r (fun c => opensProse c || (c =? LF))); [exact H0| |].
  - intros c Hc. apply orb_true_iff in Hc. destruct Hc as [Hc|Hc]; [apply Hh, Hc|].
    apply N.eqb_eq in Hc. subst c. exact HLF.
  - apply prose_heads; [reflexivity | intros c Hc; rewrite Hc; reflexivity | exact H].
Qed.

Lemma prose_headless r ps :
  head_ok r None = false -> head_ok r (Some LF) = false ->
  (forall y, inertChar y = true -> head_ok r (Some y) = false) ->
  Forall prose ps ->
  segments r (join [LF; LF] ps) = map Gap (join [LF; LF] ps).
Proof.
  intros H0 HLF Hh H. apply segments_headless; [exact H0|].
  intros y Hy. destruct (prose_chars ps y H Hy) as [->|Hi]; [exact HLF | apply Hh, Hi].
Qed.

Lemma convertHeaders_prose ps :
  Forall prose ps -> convertHeaders (join [LF; LF] ps) = join [LF; LF] ps.
Proof.
  intros H.
  assert (G : forall marker,
    head_ok (lineRegex marker) None = false ->
    (forall c, head_ok (lineRegex marker) (Some c) = eqc "#" c) ->
    segments (lineRegex marker) (join [LF; LF] ps) = map Gap (join [LF; LF] ps)).
  { intros marker H0 Hh. unfold lineRegex in *.
    apply prose_lines; [exact H0 | | exact (Hh LF) | exact H].
    intros c Hc. apply opensProse_facts in Hc. destruct Hc as (_ & Hc & _).
    rewrite <- Hc. exact (Hh c). }
  unfold convertHeaders.
  rewrite (replace_gaps (lineRegex "####") _ (join [LF; LF] ps))
    by (apply G; [reflexivity | intros c; reflexivity]).
  rewrite (replace_gaps (lineRegex "###") _ (join [LF; LF] ps))
    by (apply G; [reflexivity | intros c; reflexivity]).
  rewrite (replace_gaps (lineRegex "##") _ (join [LF; LF] ps))
    by (apply G; [reflexivity | intros c; reflexivity]).
  apply replace_gaps, G; [reflexivity | intros c; reflexivity].
Qed.

Lemma convertSpans_prose ps :
  Forall prose ps -> convertSpans (join [LF; LF] ps) = join [LF; LF] ps.
Proof.
  intros H. unfold convertSpans, lineRegex, ruleRegex.
  rewrite (replace_gaps _ _ (join [LF; LF] ps)).
  2:{ apply prose_lines; [reflexivity | | reflexivity | exact H].
      intros c Hc. apply opensProse_facts in Hc. cbn. tauto. }
  rewrite (replace_gaps imageRegex _ (join [LF; LF] ps)).
  2:{ apply scan_gaps. intros pre suf E. apply match_image_fail.
      intros y Hy. assert (Hin : In y (join [LF; LF] ps))
        by (rewrite E; apply in_or_app; right; exact Hy).
      destruct (prose_chars ps y H Hin) as [->|Hi]; [reflexivity|].
      apply inert_facts in Hi. tauto. }
  rewrite (replace_gaps linkRegex _ (join [LF; LF] ps)) by (apply prose_headless;
    [reflexivity | reflexivity | intros y Hy; cbn; apply inert_facts in Hy; tauto | exact H]).
  rewrite (replace_gaps (boldRegex "*") _ (join [LF; LF] ps)) by (apply prose_headless;
    [reflexivity | reflexivity | intros y Hy; cbn; apply inert_facts in Hy; tauto | exact H]).
  rewrite (replace_gaps (boldRegex "_") _ (join [LF; LF] ps)) by (apply prose_headless;
    [reflexivity | reflexivity | intros y Hy; cbn; apply inert_facts in Hy; tauto | exact H]).
  rewrite (replace_gaps (italicRegex "*") _ (join [LF; LF] ps)) by (apply prose_headless;
    [reflexivity | reflexivity | intros y Hy; cbn; apply inert_facts in Hy; tauto | exact H]).
  rewrite (replace_gaps (italicRegex "_") _ (join [LF; LF] ps)) by (apply prose_headless;
    [reflexivity | reflexivity | intros y Hy; cbn; apply inert_facts in Hy; tauto | exact H]).
  apply replace_gaps, prose_lines; [reflexivity | | reflexivity | exact H].
  intros c Hc. apply opensProse_facts in Hc. cbn. tauto.
Qed.

Lemma scan_run_gaps r p :
  (forall y, In y p -> head_ok r (Some y) = false) ->
  forall bef rest, scan r bef (p ++ rest) 0 = map Gap p ++ scan r (rev p ++ bef) rest 0.
Proof.
  induction p as [|c p IH]; intros H bef rest; [reflexivity|].
  cbn [app]. rewrite scan_gap by (apply match_at_head_fail; apply H; left; reflexivity).
  rewrite IH by (intros y Hy; apply H; right; exact Hy).
  cbn [map rev app]. rewrite <- app_assoc. reflexivity.
Qed.

Lemma blank_hit bef rest :
  match rest with [] => True | y :: _ => (LF =? y) = false end ->
  match_at blankRegex bef (LF :: LF :: rest) = Some (mkHit [LF; LF] []).
Proof.
  intros H. unfold match_at, blankRegex.
  rewrite rmatch_cat, rmatch_cls_hit by reflexivity.
  rewrite (rmatch_plus_cls (N.eqb LF) _ LF [] rest) by (reflexivity || exact H).
  cbn [tries]. f_equal. f_equal. apply (consumed_rev _ _ _ [LF; LF]). reflexivity.
Qed.

Lemma split_segs_run p : forall cur l,
  split_segs cur (map Gap p ++ l) = split_segs (rev p ++ cur) l.
Proof.
  induction p as [|c p IH]; intros cur l; [reflexivity|].
  cbn [map app split_segs]. rewrite IH. cbn [rev]. rewrite <- app_assoc. reflexivity.
Qed.

Lemma prose_not_LF p y : prose p -> In y p -> (LF =? y) = false.
Proof.
  intros Hp Hy. apply (proj1 (prose_facts p Hp)), inert_facts in Hy.
  rewrite N.eqb_sym. tauto.
Qed.

Lemma split_blank ps :
  Forall prose ps -> ps <> [] ->
  forall bef, split_segs [] (scan blankRegex bef (join [LF; LF] ps) 0) = ps.
Proof.
  intros H. induction H as [|p ps Hp Hps IH]; [congruence|]. intros _ bef.
  assert (Hh : forall y, In y p -> head_ok blankRegex (Some y) = false)
    by (intros y Hy; apply (prose_not_LF p y Hp Hy)).
  destruct ps as [|q ps].
  - cbn [join]. rewrite <- (app_nil_r p) at 1. rewrite scan_run_gaps by exact Hh.
    cbn [scan]. rewrite match_at_head_fail by reflexivity.
    rewrite app_nil_r. rewrite split_segs_gaps. reflexivity.
  - rewrite join_cons, scan_run_gaps by exact Hh. cbn [app].
    assert (Hq : match join [LF; LF] (q :: ps) with
                 | [] => True
                 | y :: _ => (LF =? y) = false
                 end).
    { inversion Hps as [|? ? Hq _]; subst.
      destruct (prose_facts q Hq) as [_ (c & r & -> & Hc)].
      assert (E : (LF =? c) = false) by (apply (prose_not_LF (c :: r) c Hq); left; reflexivity).
      destruct ps; [exact E | rewrite join_cons; exact E]. }
    rewrite (scan_hit blankRegex _ LF [LF] _ _ (blank_hit _ _ Hq) eq_refl).
    rewrite split_segs_run. cbn [split_segs app rev].
    rewrite app_nil_r, rev_involutive. f_equal. apply IH. discriminate.
Qed.

Lemma wrapParagraph_prose p : prose p -> wrapParagraph p = u "<p>" ++ p ++ u "</p>".
Proof.
  intros Hp. destruct (prose_facts p Hp) as [_ (c & r & -> & Hc)].
  destruct Hp as (_ & _ & Ht). unfold wrapParagraph. rewrite Ht.
  apply opensProse_facts in Hc. destruct Hc as (_ & _ & _ & _ & Hc & _).
  unfold startsWith. unfold eqc in Hc. rewrite Hc. reflexivity.
Qed.

Lemma paragraphs_prose ps :
  Forall prose ps -> ps <> [] ->
  wrapParagraphs (join [LF; LF] ps) = join [LF] (map (fun p => u "<p>" ++ p ++ u "</p>") ps).
Proof.
  intros H Hne. unfold wrapParagraphs, split_re, segments.
  rewrite split_blank by assumption. f_equal. clear Hne.
  induction H as [|p ps Hp _ IH]; [reflexivity|]. cbn [map filter].
  rewrite wrapParagraph_prose by exact Hp.
  change (truthy (u "<p>" ++ p ++ u "</p>")) with true. cbn iota.
  f_equal. exact IH.
Qed.

Lemma markdownToHtml_prose ps :
  Forall prose ps -> ps <> [] ->
  markdownToHtml (join [LF; LF] ps)
  = join [LF] (map (fun p => u "<p>" ++ p ++ u "</p>") ps).
Proof.
  intros H Hne. unfold markdownToHtml.
  rewrite (prose_headless fenceRegex ps)
    by (try reflexivity; try exact H; intros y Hy; cbn; apply inert_facts in Hy; tauto).
  rewrite replace_with_gaps.
  rewrite (prose_headless inlineCodeRegex ps)
    by (try reflexivity; try exact H; intros y Hy; cbn; apply inert_facts in Hy; tauto).
  rewrite replace_with_gaps.
  rewrite convertHeaders_prose, convertSpans_prose by exact H.
  unfold bulletRegex, numberedRegex.
  rewrite lists_prose; [|reflexivity| |exact H|exact Hne].
  2:{ intros c Hc Hi. cbn. apply opensProse_facts in Hc. apply inert_facts in Hi.
      apply orb_false_iff. tauto. }
  rewrite lists_prose; [|reflexivity| |exact H|exact Hne].
  2:{ intros c Hc Hi. cbn. apply opensProse_facts in Hc. tauto. }
  rewrite (replace_gaps (placeholderRegex "__CODEBLOCK_") _ (join [LF; LF] ps))
    by (apply prose_headless;
        [reflexivity | reflexivity | intros y Hy; cbn; apply inert_facts in Hy; tauto | exact H]).
  rewrite (replace_gaps (placeholderRegex "__INLINECODE_") _ (join [LF; LF] ps))
    by (apply prose_headless;
        [reflexivity | reflexivity | intros y Hy; cbn; apply inert_facts in Hy; tauto | exact H]).
  apply paragraphs_prose; assumption.
Qed.

Lemma between_markup ps :
  markupText (between nl (map (fun p => el "p" (textM p)) ps))
  = join [LF] (map (fun p => u "<p>" ++ p ++ u "</p>") ps).
Proof.
  induction ps as [|p ps IH]; [reflexivity|].
  assert (E : render (tokens (el "p" (textM p))) = u "<p>" ++ p ++ u "</p>").
  { rewrite render_el. unfold markupText. rewrite render_text. reflexivity. }
  destruct ps as [|q ps].
  - cbn [map between join]. rewrite markupText_cons, E. unfold markupText.
    cbn [flat_map render]. apply app_nil_r.
  - cbn [map between]. rewrite !markupText_cons, E, markupText_nl.
    cbn [map between] in IH. rewrite IH. reflexivity.
Qed.

Lemma between_adjacent es :
  Forall (fun e => isMText e = false) es -> noAdjacentText (between nl es).
Proof.
  induction 1 as [|e es He Hes IH]; [exact I|].
  destruct es as [|e' es]; cbn [between] in *.
  - split; [intros; congruence | exact I].
  - split; [intros; congruence|]. split; [|exact IH].
    intros _. inversion Hes; subst. destruct es; assumption.
Qed.

Lemma between_wfs ps :
  Forall (fun p => p <> [] /\ noLt p) ps ->
  wfs (between nl (map (fun p => el "p" (textM p)) ps)).
Proof.
  intros H. split.
  - induction H as [|p ps [_ Hp] _ IH]; [constructor|].
    destruct ps as [|q ps]; cbn [map between] in *.
    + constructor; [apply wf_line; [exact plainTag_p | exact Hp] | constructor].
    + constructor; [apply wf_line; [exact plainTag_p | exact Hp]|].
      constructor; [exact wf_nl | exact IH].
  - apply between_adjacent. apply Forall_forall. intros e He.
    apply in_map_iff in He. destruct He as (p & <- & _). reflexivity.
Qed.

Lemma between_tree ps :
  Forall (fun p => p <> [] /\ noLt p) ps ->
  map tree (between nl (map (fun p => el "p" (textM p)) ps))
  = between (NText [LF]) (map (fun p => NElem (u "p") None (Some [NText p])) ps).
Proof.
  induction 1 as [|p ps [Hp _] _ IH]; [reflexivity|].
  assert (E : tree (el "p" (textM p)) = NElem (u "p") None (Some [NText p])).
  { destruct p; [congruence | reflexivity]. }
  destruct ps as [|q ps]; cbn [map between] in *.
  - rewrite E. reflexivity.
  - rewrite E, IH. reflexivity.
Qed.

(** Paragraphs of plain prose separated by one blank line: each becomes
    a [p] element, the elements separated by a line feed; and the tree
    built from that markup has a text leaf holding the line feed between
    every two paragraphs. *)
Theorem prose_paragraphs ps :
  Forall prose ps -> ps <> [] ->
  markdownToHtml (join [LF; LF] ps)
  = join [LF] (map (fun p => u "<p>" ++ p ++ u "</p>") ps) /\
  (Forall noLt ps ->
   htmlToNodes (markdownToHtml (join [LF; LF] ps))
   = Some (between (NText [LF])
             (map (fun p => NElem (u "p") None (Some [NText p])) ps))).
Proof.
  intros H Hne. split; [apply markdownToHtml_prose; assumption|].
  intros Hlt. rewrite markdownToHtml_prose by assumption.
  assert (Hok : Forall (fun p => p <> [] /\ noLt p) ps).
  { rewrite Forall_forall in *. intros p Hp. split; [|apply Hlt, Hp].
    destruct (prose_facts p (H p Hp)) as [_ (c & r & -> & _)]. discriminate. }
  rewrite <- between_markup.
  rewrite (parse_markup _ (between_wfs ps Hok)).
  f_equal. apply between_tree, Hok.
Qed.

Lemma prose_paragraphs_witness :
  markdownToHtml (u "Hello, world." ++ [LF; LF] ++ u "Second one (2).")
  = u "<p>Hello, world.</p>" ++ [LF] ++ u "<p>Second one (2).</p>".
Proof.
  apply (proj1 (prose_paragraphs [u "Hello, world."; u "Second one (2)."]
                  ltac:(repeat constructor) ltac:(discriminate))).
Defined.

Lemma match_at_inside ml r l x bef aft :
  (forall y, In y (x :: l) -> isLineTerminator y = false) ->
  match_at (Cat (Bol ml) r) (rev l ++ x :: bef) aft = None.
Proof.
  intros H. destruct (rev l) as [|y t] eqn:E.
  - apply match_at_bol_fail. rewrite (H x) by (left; reflexivity). apply andb_false_r.
  - apply match_at_bol_fail. rewrite (H y); [apply andb_false_r|].
    right. apply in_rev. rewrite E. left. reflexivity.
Qed.

Lemma scan_line_inside ml r l : forall x bef rest,
  (forall y, In y (x :: l) -> isLineTerminator y = false) ->
  scan (Cat (Bol ml) r) (x :: bef) (l ++ rest) 0
  = map Gap l ++ scan (Cat (Bol ml) r) (rev l ++ x :: bef) rest 0.
Proof.
  induction l as [|y l IH]; intros x bef rest H; [reflexivity|].
  cbn [app]. rewrite scan_gap.
  2:{ apply match_at_bol_fail. rewrite (H x) by (left; reflexivity). apply andb_false_r. }
  rewrite IH by (intros z Hz; apply H; right; exact Hz).
  cbn [map rev app]. rewrite <- app_assoc. reflexivity.
Qed.

(** A regex anchored at the start of a line that fails on every line
    finds nothing in the lines joined by line feeds. *)
Lemma scan_lines ml r ls :
  Forall (fun l => (forall y, In y l -> isLineTerminator y = false) /\
                   forall bef rest, lineEnd rest ->
                     match_at (Cat (Bol ml) r) bef (l ++ rest) = None) ls ->
  ls <> [] ->
  forall bef, scan (Cat (Bol ml) r) bef (join [LF] ls) 0 = map Gap (join [LF] ls).
Proof.
  induction 1 as [|l ls (Hl & Hf) Hls IH]; intros Hn bef; [congruence|].
  destruct ls as [|l2 ls].
  - cbn [join]. pose proof (Hf bef [] (or_introl eq_refl)) as H0.
    rewrite app_nil_r in H0. destruct l as [|c l].
    + cbn [scan]. rewrite H0. reflexivity.
    + rewrite scan_gap by exact H0.
      rewrite <- (app_nil_r l) at 1. rewrite scan_line_inside by exact Hl.
      cbn [scan]. rewrite match_at_inside by exact Hl.
      rewrite app_nil_r. reflexivity.
  - rewrite join_cons.
    pose proof (Hf bef ([LF] ++ join [LF] (l2 :: ls))
                  (or_intror (ex_intro _ _ eq_refl))) as H0.
    destruct l as [|c l].
    + cbn [app] in *. rewrite scan_gap by exact H0.
      rewrite IH by discriminate. reflexivity.
    + cbn [app] in *. rewrite scan_gap by exact H0.
      rewrite scan_line_inside by exact Hl.
      rewrite scan_gap by (apply match_at_inside; exact Hl).
      rewrite IH by discriminate.
      cbn [map]. rewrite map_app. reflexivity.
Qed.

Lemma segments_of_lines ml r ls :
  Forall (fun l => (forall y, In y l -> isLineTerminator y = false) /\
                   forall bef rest, lineEnd rest ->
                     match_at (Cat (Bol ml) r) bef (l ++ rest) = None) ls ->
  ls <> [] ->
  segments (Cat (Bol ml) r) (join [LF] ls) = map Gap (join [LF] ls).
Proof. intros H Hn. apply scan_lines; assumption. Qed.

Lemma split_lines ls :
  ls <> [] -> Forall (fun l => forall y, In y l -> (y =? LF) = false) ls ->
  split_char LF [] (join [LF] ls) = ls.
Proof.
  intros Hn H. induction H as [|l ls Hl Hls IH]; [congruence|].
  destruct ls as [|l2 ls].
  - cbn [join]. rewrite <- (app_nil_r l) at 1. rewrite split_char_run by exact Hl.
    cbn [split_char]. rewrite rev_app_distr, rev_involutive. reflexivity.
  - rewrite join_cons. rewrite split_char_run by exact Hl.
    cbn [app split_char]. rewrite N.eqb_refl.
    rewrite rev_app_distr, rev_involutive. cbn [rev app].
    f_equal. apply IH. discriminate.
Qed.

Lemma join_nil l : join [] l = concat l.
Proof.
  induction l as [|x l IH]; [reflexivity|].
  destruct l as [|y l]; [cbn; rewrite app_nil_r; reflexivity|].
  rewrite join_cons. cbn [app concat]. rewrite IH. reflexivity.
Qed.

Lemma listLines_all re tag : forall lines its st,
  Forall2 (fun line i => exists h, match_first re line = Some h /\ grp 1 h = i)
          lines its ->
  lines <> [] ->
  fold_left (listLine re tag) lines st
  = mkList (items st ++ map liText its) true (processedLines st).
Proof.
  intros lines its st H. revert st.
  induction H as [|line i lines its (h & Hm & Hg) Hr IH]; intros st Hn; [congruence|].
  cbn [fold_left]. unfold listLine at 2. rewrite Hm, Hg.
  destruct lines as [|l2 lines].
  - inversion Hr; subst. cbn [fold_left map]. reflexivity.
  - rewrite IH by discriminate. cbn [items processedLines map].
    rewrite <- app_assoc. reflexivity.
Qed.

Lemma convertLists_all re tag lines its :
  lines <> [] -> Forall (fun l => forall y, In y l -> (y =? LF) = false) lines ->
  Forall2 (fun line i => exists h, match_first re line = Some h /\ grp 1 h = i)
          lines its ->
  convertLists re tag (join [LF] lines)
  = u "<" ++ u tag ++ u ">" ++ concat (map liText its) ++ u "</" ++ u tag ++ u ">".
Proof.
  intros Hn Hl H. unfold convertLists. rewrite split_lines by assumption.
  rewrite (listLines_all re tag lines its _ H Hn).
  cbn [inList flushList items processedLines app join]. rewrite join_nil. reflexivity.
Qed.

Lemma match_first_whole r line h :
  line <> [] -> match_at r [] line = Some h -> whole h = line ->
  match_first r line = Some h.
Proof.
  intros Hn Hm Hw. unfold match_first, segments.
  rewrite <- (app_nil_r line). rewrite (scan_hit_word r [] line [] h).
  - reflexivity.
  - exact Hn.
  - rewrite app_nil_r. exact Hm.
  - exact Hw.
Qed.

Lemma listItem_facts i : listItem i ->
  exists c r, i = c :: r /\ isSpace c = false /\ forallb isDot (c :: r) = true /\
              forall y, In y i -> inertChar y = true.
Proof.
  intros (Hn & Hs & Hi). destruct i as [|c r]; [congruence|].
  exists c, r. split; [reflexivity|]. split; [exact Hs|].
  assert (G : forall y, In y (c :: r) -> inertChar y = true)
    by (apply forallb_forall; exact Hi).
  split; [|exact G].
  apply forallb_forall. intros y Hy. specialize (G y Hy).
  unfold inertChar in G. apply andb_true_iff in G. tauto.
Qed.

(** The bullet regex on a hyphen, a space and an item: the whole line,
    the item as group 1. *)
Lemma bullet_match i : listItem i ->
  match_at bulletRegex [] (bulletLine i)
  = Some (mkHit (bulletLine i) [(1%nat, i)]).
Proof.
  intros H. destruct (listItem_facts i H) as (c & r & -> & Hc & Hd & _).
  cbn [forallb] in Hd. apply andb_true_iff in Hd. destruct Hd as [Hd0 Hd].
  unfold match_at, bulletRegex, bulletLine. cbn [rmatch at_bol before].
  change (u "- " ++ c :: r) with (code "-" :: code " " :: [] ++ c :: r).
  cbn [after].
  change (eqc "-" (code "-") || eqc "*" (code "-")) with true. cbn iota.
  unfold advance. cbn [before caps].
  rewrite rmatch_plus_cls by (reflexivity || exact Hc).
  cbn [tries app]. cbn [rmatch].
  rewrite <- (app_nil_r r) at 1.
  rewrite rmatch_plus_cls by auto.
  apply tries_longest. cbn [rmatch at_eol after set_cap before caps].
  f_equal. f_equal.
  - change (rev r ++ [c; code " "; code "-"])
      with (rev r ++ c :: rev [code "-"; code " "] ++ []).
    replace (rev r ++ c :: rev [code "-"; code " "] ++ [])
      with (rev ([code "-"; code " "] ++ c :: r) ++ []).
    + apply consumed_mk.
    + rewrite rev_app_distr. cbn [rev app]. rewrite <- !app_assoc. reflexivity.
  - f_equal. f_equal.
    replace (rev r ++ [c; code " "; code "-"])
      with (rev (c :: r) ++ [code " "; code "-"]).
    + apply consumed_mk.
    + cbn [rev]. rewrite <- app_assoc. reflexivity.
Qed.

(** The numbered regex on digits, a full stop, a space and an item: the
    whole line, the item as group 1. *)
Lemma numbered_match n i :
  n <> [] -> forallb isDigit n = true -> listItem i ->
  match_at numberedRegex [] (numberedLine (n, i))
  = Some (mkHit (numberedLine (n, i)) [(1%nat, i)]).
Proof.
  intros Hn Hdig H. destruct (listItem_facts i H) as (c & r & -> & Hc & Hd & _).
  cbn [forallb] in Hd. apply andb_true_iff in Hd. destruct Hd as [Hd0 Hd].
  destruct n as [|d ds]; [congruence|].
  cbn [forallb] in Hdig. apply andb_true_iff in Hdig. destruct Hdig as [Hg0 Hg].
  unfold match_at, numberedRegex, numberedLine. cbn [rmatch at_bol before fst snd].
  change ((d :: ds) ++ u ". " ++ c :: r)
    with (d :: ds ++ code "." :: code " " :: [] ++ c :: r).
  rewrite rmatch_plus_cls by (reflexivity || assumption).
  apply tries_longest. unfold Chr.
  rewrite rmatch_cls_hit by reflexivity.
  rewrite rmatch_plus_cls by (reflexivity || exact Hc).
  cbn [tries app]. cbn [rmatch].
  rewrite <- (app_nil_r r) at 1.
  rewrite rmatch_plus_cls by auto.
  apply tries_longest. cbn [rmatch at_eol after set_cap before caps].
  f_equal. f_equal.
  - replace (rev r ++ c :: code " " :: code "." :: rev ds ++ [d])
      with (rev (d :: ds ++ code "." :: code " " :: c :: r) ++ []).
    + apply consumed_mk.
    + rewrite app_nil_r. cbn [rev]. rewrite rev_app_distr. cbn [rev].
      rewrite <- !app_assoc. reflexivity.
  - f_equal. f_equal.
    replace (rev r ++ c :: code " " :: code "." :: rev ds ++ [d])
      with (rev (c :: r) ++ (code " " :: code "." :: rev ds ++ [d])).
    + apply consumed_mk.
    + cbn [rev]. rewrite <- app_assoc. reflexivity.
Qed.

Section Lines.
Variable ls : list str.
Hypothesis Hne : ls <> [].
Hypothesis Hin : Forall (fun l => forall y, In y l -> inertChar y = true) ls.

Lemma lines_chars y : In y (join [LF] ls) -> y = LF \/ inertChar y = true.
Proof.
  intros Hy. destruct (join_chars _ _ _ Hy) as [[<-|[]]|(l & Hl & Hyl)].
  - left. reflexivity.
  - right. rewrite Forall_forall in Hin. apply (Hin l Hl). exact Hyl.
Qed.

Lemma lines_headless r :
  head_ok r None = false -> head_ok r (Some LF) = false ->
  (forall y, inertChar y = true -> head_ok r (Some y) = false) ->
  segments r (join [LF] ls) = map Gap (join [LF] ls).
Proof.
  intros H0 HLF Hh. apply segments_headless; [exact H0|].
  intros y Hy. destruct (lines_chars y Hy) as [->|Hi]; [exact HLF | apply Hh, Hi].
Qed.

Lemma lines_failing ml r :
  Forall (fun l => forall bef rest, lineEnd rest ->
            match_at (Cat (Bol ml) r) bef (l ++ rest) = None) ls ->
  segments (Cat (Bol ml) r) (join [LF] ls) = map Gap (join [LF] ls).
Proof.
  intros H. apply segments_of_lines; [|exact Hne].
  rewrite Forall_forall in *. intros l Hl. pose proof (Hin l Hl) as Hi.
  split; [|apply H, Hl].
  intros y Hy. apply Hi, inert_facts in Hy. tauto.
Qed.

Lemma lines_anchored ml r (ok : char -> bool) :
  head_ok r None = false -> head_ok r (Some LF) = false ->
  (forall c, ok c = true -> head_ok r (Some c) = false) ->
  Forall (fun l => match l with c :: _ => ok c = true | [] => True end) ls ->
  segments (Cat (Bol ml) r) (join [LF] ls) = map Gap (join [LF] ls).
Proof.
  intros H0 HLF Hh H. apply lines_failing.
  rewrite Forall_forall in *. intros l Hl bef rest Hr.
  specialize (H l Hl). apply match_at_head_fail.
  destruct l as [|c l].
  - destruct Hr as [->|[t ->]]; [exact H0 | exact HLF].
  - cbn [app hd_error head_ok transparent]. apply Hh, H.
Qed.

Lemma lines_split : split_char LF [] (join [LF] ls) = ls.
Proof.
  apply split_lines; [exact Hne|].
  rewrite Forall_forall in *. intros l Hl y Hy.
  pose proof (Hin l Hl) as Hi. apply Hi, inert_facts in Hy. tauto.
Qed.

Variable ok : char -> bool.
Hypothesis Hok : Forall (fun l => match l with c :: _ => ok c = true | [] => True end) ls.
Hypothesis ok_hash : forall c, ok c = true -> eqc "#" c = false.
Hypothesis ok_quote : forall c, ok c = true -> eqc ">" c = false.
Hypothesis Hrule :
  Forall (fun l => forall bef rest, lineEnd rest ->
            match_at ruleRegex bef (l ++ rest) = None) ls.

Lemma convertHeaders_lines : convertHeaders (join [LF] ls) = join [LF] ls.
Proof.
  assert (G : forall marker,
    head_ok (lineRegex marker) None = false ->
    (forall c, head_ok (lineRegex marker) (Some c) = eqc "#" c) ->
    segments (lineRegex marker) (join [LF] ls) = map Gap (join [LF] ls)).
  { intros marker H0 Hh. unfold lineRegex in *.
    apply (lines_anchored _ _ ok); [exact H0 | exact (Hh LF) | | exact Hok].
    intros c Hc. rewrite <- (ok_hash c Hc). exact (Hh c). }
  unfold convertHeaders.
  rewrite (replace_gaps (lineRegex "####") _ (join [LF] ls))
    by (apply G; [reflexivity | intros c; reflexivity]).
  rewrite (replace_gaps (lineRegex "###") _ (join [LF] ls))
    by (apply G; [reflexivity | intros c; reflexivity]).
  rewrite (replace_gaps (lineRegex "##") _ (join [LF] ls))
    by (apply G; [reflexivity | intros c; reflexivity]).
  apply replace_gaps, G; [reflexivity | intros c; reflexivity].
Qed.

Lemma convertSpans_lines : convertSpans (join [LF] ls) = join [LF] ls.
Proof.
  unfold convertSpans.
  rewrite (replace_gaps ruleRegex _ (join [LF] ls)) by (apply lines_failing, Hrule).
  rewrite (replace_gaps imageRegex _ (join [LF] ls)).
  2:{ apply scan_gaps. intros pre suf E. apply match_image_fail.
      intros y Hy. assert (Hy' : In y (join [LF] ls))
        by (rewrite E; apply in_or_app; right; exact Hy).
      destruct (lines_chars y Hy') as [->|Hi]; [reflexivity|].
      apply inert_facts in Hi. tauto. }
  rewrite (replace_gaps linkRegex _ (join [LF] ls)) by (apply lines_headless;
    [reflexivity | reflexivity | intros y Hy; cbn; apply inert_facts in Hy; tauto]).
  rewrite (replace_gaps (boldRegex "*") _ (join [LF] ls)) by (apply lines_headless;
    [reflexivity | reflexivity | intros y Hy; cbn; apply inert_facts in Hy; tauto]).
  rewrite (replace_gaps (boldRegex "_") _ (join [LF] ls)) by (apply lines_headless;
    [reflexivity | reflexivity | intros y Hy; cbn; apply inert_facts in Hy; tauto]).
  rewrite (replace_gaps (italicRegex "*") _ (join [LF] ls)) by (apply lines_headless;
    [reflexivity | reflexivity | intros y Hy; cbn; apply inert_facts in Hy; tauto]).
  rewrite (replace_gaps (italicRegex "_") _ (join [LF] ls)) by (apply lines_headless;
    [reflexivity | reflexivity | intros y Hy; cbn; apply inert_facts in Hy; tauto]).
  apply replace_gaps. unfold lineRegex.
  apply (lines_anchored _ _ ok); [reflexivity | reflexivity | | exact Hok].
  intros c Hc. cbn. apply ok_quote, Hc.
Qed.

(** The passes before the list loops leave the lines alone. *)
Lemma lines_to_lists :
  markdownToHtml (join [LF] ls)
  = wrapParagraphs
      (replace (placeholderRegex "__INLINECODE_") (restoreCode "code" [])
         (replace (placeholderRegex "__CODEBLOCK_") (restoreCode "pre" [])
            (convertLists numberedRegex "ol"
               (convertLists bulletRegex "ul" (join [LF] ls))))).
Proof.
  unfold markdownToHtml.
  rewrite (lines_headless fenceRegex)
    by (try reflexivity; intros y Hy; cbn; apply inert_facts in Hy; tauto).
  rewrite replace_with_gaps.
  rewrite (lines_headless inlineCodeRegex)
    by (try reflexivity; intros y Hy; cbn; apply inert_facts in Hy; tauto).
  rewrite replace_with_gaps.
  rewrite convertHeaders_lines, convertSpans_lines. reflexivity.
Qed.
End Lines.

(** A list element written out: inert, and closed by [>]. *)
Lemma list_text_inert tag its :
  forallb inertChar (u tag) = true -> Forall listItem its ->
  inert (u "<" ++ u tag ++ u ">" ++ concat (map liText its) ++ u "</" ++ u tag ++ u ">").
Proof.
  intros Ht H y Hy.
  repeat (apply in_app_or in Hy; destruct Hy as [Hy|Hy]);
    try (apply (forallb_In inertChar _ _ Ht), Hy);
    try (revert Hy; apply forallb_In; reflexivity).
  apply in_concat in Hy. destruct Hy as (l & Hl & Hy).
  apply in_map_iff in Hl. destruct Hl as (i & <- & Hi).
  rewrite Forall_forall in H. destruct (listItem_facts i (H i Hi)) as (_ & _ & _ & _ & _ & G).
  unfold liText in Hy.
  repeat (apply in_app_or in Hy; destruct Hy as [Hy|Hy]);
    try (revert Hy; apply forallb_In; reflexivity).
  apply G, Hy.
Qed.

Lemma list_text_last tag (body : str) :
  last (u "<" ++ u tag ++ u ">" ++ body ++ u "</" ++ u tag ++ u ">") 0 = code ">".
Proof.
  change (u ">") with [code ">"]. rewrite !app_assoc. apply last_last.
Qed.

(** From the second list loop on, the rewriter leaves a list element
    alone. *)
Lemma list_text_kept tag its :
  forallb inertChar (u tag) = true -> Forall listItem its ->
  let html := u "<" ++ u tag ++ u ">" ++ concat (map liText its) ++ u "</" ++ u tag ++ u ">" in
  convertLists numberedRegex "ol" html = html /\
  replace (placeholderRegex "__CODEBLOCK_") (restoreCode "pre" []) html = html /\
  replace (placeholderRegex "__INLINECODE_") (restoreCode "code" []) html = html /\
  wrapParagraphs html = html.
Proof.
  intros Ht H html.
  pose proof (list_text_inert tag its Ht H) as Hi.
  pose proof (list_text_last tag (concat (map liText its))) as Hl.
  fold html in Hi, Hl.
  change html with (code "<" :: (u tag ++ u ">" ++ concat (map liText its) ++ u "</" ++ u tag ++ u ">")) in *.
  repeat split.
  - apply (lists_inert _ Hi numberedRegex _ "ol" eq_refl); reflexivity.
  - apply restore_inert; [exact Hi | reflexivity | reflexivity].
  - apply restore_inert; [exact Hi | reflexivity | reflexivity].
  - apply wrapParagraphs_element; assumption.
Qed.

Lemma plainTag_ol : plainTag "ol".
Proof. repeat split; (discriminate || reflexivity). Qed.

Lemma items_markup its :
  markupText (map (fun i => el "li" (textM i)) its) = concat (map liText its).
Proof.
  induction its as [|i its IH]; [reflexivity|].
  cbn [map concat]. rewrite markupText_cons, render_el, IH.
  unfold markupText. rewrite render_text. unfold liText.
  rewrite <- !app_assoc. reflexivity.
Qed.

Lemma items_noAdjacent its : noAdjacentText (map (fun i => el "li" (textM i)) its).
Proof.
  induction its as [|i its IH]; [exact I|].
  split; [discriminate | exact IH].
Qed.

Lemma items_wf its :
  Forall noLt its -> Forall wf (map (fun i => el "li" (textM i)) its).
Proof.
  intros H. apply Forall_map. revert H. apply Forall_impl. intros i Hi.
  destruct (wf_text i Hi) as [Hw Ha].
  apply wf_el; [exact plainTag_li | exact Hw | exact Ha].
Qed.

Lemma items_tree its :
  Forall listItem its ->
  map tree (map (fun i => el "li" (textM i)) its)
  = map (fun i => NElem (u "li") None (Some [NText i])) its.
Proof.
  intros H. rewrite map_map. apply map_ext_Forall. revert H. apply Forall_impl.
  intros i (Hn & _). destruct i; [congruence | reflexivity].
Qed.

(** The tree of a list element written out. *)
Lemma list_tree tag its :
  tag = "ul"%string \/ tag = "ol"%string ->
  its <> [] -> Forall listItem its -> Forall noLt its ->
  htmlToNodes (u "<" ++ u tag ++ u ">" ++ concat (map liText its) ++ u "</" ++ u tag ++ u ">")
  = Some [listNode tag its].
Proof.
  intros Ht Hn Hi Hlt.
  assert (Hp : plainTag tag) by (destruct Ht as [->| ->]; [exact plainTag_ul | exact plainTag_ol]).
  pose (m := el tag (map (fun i => el "li" (textM i)) its)).
  assert (E : markupText [m]
              = u "<" ++ u tag ++ u ">" ++ concat (map liText its) ++ u "</" ++ u tag ++ u ">").
  { rewrite markupText_cons. unfold m. rewrite render_el, items_markup.
    change (markupText []) with (@nil char). rewrite app_nil_r. reflexivity. }
  rewrite <- E. rewrite parse_markup.
  - f_equal. cbn [map]. f_equal. unfold m, el. cbn [tree].
    rewrite items_tree by exact Hi. unfold listNode.
    destruct its as [|i its]; [congruence|].
    destruct Ht as [->| ->]; reflexivity.
  - split; [|split; [discriminate | exact I]].
    constructor; [|constructor].
    apply wf_el; [exact Hp | apply items_wf; exact Hlt | apply items_noAdjacent].
Qed.

Lemma bullet_rule i bef rest : match_at ruleRegex bef (bulletLine i ++ rest) = None.
Proof.
  unfold match_at, ruleRegex. cbn [rmatch].
  destruct (at_bol true _); [|reflexivity].
  apply (rmatch_lit_miss ["-"%char] "-"%char [] (code " ")). reflexivity.
Qed.

Lemma bullet_lines its :
  Forall listItem its ->
  Forall (fun l => forall y, In y l -> inertChar y = true) (map bulletLine its).
Proof.
  intros H. apply Forall_map. revert H. apply Forall_impl. intros i Hi.
  destruct (listItem_facts i Hi) as (_ & _ & _ & _ & _ & G).
  intros y [<-|[<-|Hy]]; [reflexivity | reflexivity | apply G, Hy].
Qed.

Lemma numbered_lines (its : list (str * str)) :
  Forall (fun p => fst p <> [] /\ forallb isDigit (fst p) = true /\ listItem (snd p)) its ->
  Forall (fun l => (forall y, In y l -> inertChar y = true) /\
                   match l with c :: _ => isDigit c = true | [] => True end)
         (map numberedLine its).
Proof.
  intros H. apply Forall_map. revert H. apply Forall_impl.
  intros [n i] (Hn & Hd & Hi). cbn [fst snd] in *. unfold numberedLine. cbn [fst snd].
  destruct n as [|d ds]; [congruence|].
  split.
  - destruct (listItem_facts i Hi) as (_ & _ & _ & _ & _ & G).
    intros y Hy. apply in_app_or in Hy. destruct Hy as [Hy|Hy].
    + apply (forallb_In _ _ _ Hd) in Hy. revert Hy. unfold isDigit, inertChar, isDot, isLineTerminator, eqc, code.
      intros Hy. apply andb_true_iff in Hy. destruct Hy as [A B].
      apply N.leb_le in A. apply N.leb_le in B.
      cbn in A, B.
      repeat match goal with |- context [?a =? ?b] =>
        let E := fresh in destruct (N.eqb_spec a b) as [E|E]; [cbn in E; lia|] end.
      reflexivity.
    + destruct Hy as [<-|[<-|Hy]]; [reflexivity | reflexivity | apply G, Hy].
  - cbn [app forallb] in *. apply andb_true_iff in Hd. tauto.
Qed.

(** A bullet list: lines that each hold a hyphen, a space and an item
    become one [ul] element with an [li] per item, in order, without
    line feeds; and the tree built from it is that [ul] holding the [li]
    elements with their texts. *)
Theorem bullet_list its :
  its <> [] -> Forall listItem its ->
  markdownToHtml (join [LF] (map bulletLine its))
  = u "<ul>" ++ concat (map liText its) ++ u "</ul>" /\
  (Forall noLt its ->
   htmlToNodes (markdownToHtml (join [LF] (map bulletLine its)))
   = Some [listNode "ul" its]).
Proof.
  intros Hn H.
  assert (Hne : map bulletLine its <> []) by (destruct its; [congruence | discriminate]).
  pose proof (bullet_lines its H) as Hl.
  assert (E : markdownToHtml (join [LF] (map bulletLine its))
              = u "<ul>" ++ concat (map liText its) ++ u "</ul>").
  { rewrite (lines_to_lists _ Hne Hl (eqc "-")).
    - rewrite (convertLists_all bulletRegex "ul" (map bulletLine its) its).
      + destruct (list_text_kept "ul" its eq_refl H) as (E1 & E2 & E3 & E4).
        cbv zeta in E1, E2, E3, E4.
        change (u "<" ++ u "ul" ++ u ">" ++ concat (map liText its) ++ u "</" ++ u "ul" ++ u ">")
          with (u "<ul>" ++ concat (map liText its) ++ u "</ul>") in *.
        rewrite E1, E2, E3. exact E4.
      + exact Hne.
      + revert Hl. apply Forall_impl. intros l Hi y Hy.
        apply Hi, inert_facts in Hy. tauto.
      + clear Hn Hne Hl. induction H as [|i its Hi _ IH]; constructor; [|exact IH].
        exists (mkHit (bulletLine i) [(1%nat, i)]). split; [|reflexivity].
        apply match_first_whole; [discriminate | apply bullet_match, Hi | reflexivity].
    - apply Forall_map, Forall_forall. intros i _. reflexivity.
    - intros c Hc. apply N.eqb_eq in Hc. subst c. reflexivity.
    - intros c Hc. apply N.eqb_eq in Hc. subst c. reflexivity.
    - apply Forall_map, Forall_forall. intros i _ bef rest _. apply bullet_rule. }
  split; [exact E|].
  intros Hlt. rewrite E. apply (list_tree "ul"); auto.
Qed.

Lemma bullet_list_witness :
  markdownToHtml (u "- milk" ++ [LF] ++ u "- two eggs")
  = u "<ul><li>milk</li><li>two eggs</li></ul>".
Proof.
  apply (proj1 (bullet_list [u "milk"; u "two eggs"] ltac:(discriminate)
    ltac:(repeat constructor; discriminate))).
Defined.

(** A numbered list: lines that each hold digits, a full stop, a space
    and an item become one [ol] element with an [li] per item, in order;
    the numbers themselves are dropped.  The tree built from it is that
    [ol] holding the [li] elements with their texts. *)
Theorem numbered_list (its : list (str * str)) :
  its <> [] ->
  Forall (fun p => fst p <> [] /\ forallb isDigit (fst p) = true /\ listItem (snd p)) its ->
  markdownToHtml (join [LF] (map numberedLine its))
  = u "<ol>" ++ concat (map liText (map snd its)) ++ u "</ol>" /\
  (Forall noLt (map snd its) ->
   htmlToNodes (markdownToHtml (join [LF] (map numberedLine its)))
   = Some [listNode "ol" (map snd its)]).
Proof.
  intros Hn H.
  assert (Hne : map numberedLine its <> []) by (destruct its; [congruence | discriminate]).
  pose proof (numbered_lines its H) as Hl.
  apply Forall_and_inv in Hl. destruct Hl as [Hl Hd].
  assert (Hits : Forall listItem (map snd its)).
  { apply Forall_map. revert H. apply Forall_impl. intros p Hp. tauto. }
  assert (E : markdownToHtml (join [LF] (map numberedLine its))
              = u "<ol>" ++ concat (map liText (map snd its)) ++ u "</ol>").
  { rewrite (lines_to_lists _ Hne Hl isDigit).
    - rewrite (convertLists_none bulletRegex).
      2:{ rewrite lines_split by assumption. revert Hd. apply Forall_impl.
          intros l Hc. unfold bulletRegex. apply match_first_anchored; [reflexivity|].
          destruct l as [|c l]; [exact I|]. cbn.
          unfold isDigit, inRange in Hc. apply andb_true_iff in Hc. destruct Hc as [A B].
          apply N.leb_le in A. apply N.leb_le in B. unfold eqc, code. cbn.
          destruct (N.eqb_spec c 45); [lia|]. destruct (N.eqb_spec c 42); [lia|].
          reflexivity. }
      rewrite (convertLists_all numberedRegex "ol" (map numberedLine its) (map snd its)).
      + destruct (list_text_kept "ol" (map snd its) eq_refl Hits) as (_ & E2 & E3 & E4).
        cbv zeta in E2, E3, E4.
        change (u "<" ++ u "ol" ++ u ">" ++ concat (map liText (map snd its)) ++ u "</" ++ u "ol" ++ u ">")
          with (u "<ol>" ++ concat (map liText (map snd its)) ++ u "</ol>") in *.
        rewrite E2, E3. exact E4.
      + exact Hne.
      + revert Hl. apply Forall_impl. intros l Hi y Hy.
        apply Hi, inert_facts in Hy. tauto.
      + clear Hn Hne Hl Hd Hits.
        induction H as [|[n i] its (Hn & Hd & Hi) _ IH]; constructor; [|exact IH].
        cbn [fst snd] in *.
        exists (mkHit (numberedLine (n, i)) [(1%nat, i)]). split; [|reflexivity].
        apply match_first_whole; [|apply numbered_match; assumption | reflexivity].
        destruct n; [congruence | discriminate].
    - exact Hd.
    - intros c Hc. unfold isDigit, inRange in Hc. apply andb_true_iff in Hc.
      destruct Hc as [A B]. apply N.leb_le in A. apply N.leb_le in B.
      unfold eqc, code. cbn. destruct (N.eqb_spec c 35); [lia | reflexivity].
    - intros c Hc. unfold isDigit, inRange in Hc. apply andb_true_iff in Hc.
      destruct Hc as [A B]. apply N.leb_le in A. apply N.leb_le in B.
      unfold eqc, code. cbn. destruct (N.eqb_spec c 62); [lia | reflexivity].
    - revert Hd. apply Forall_impl. intros l Hc bef rest Hr.
      apply match_at_head_fail. destruct l as [|c l];
        [destruct Hr as [->|[t ->]]; reflexivity|].
      cbn. unfold isDigit, inRange in Hc. apply andb_true_iff in Hc.
      destruct Hc as [A B]. apply N.leb_le in A. apply N.leb_le in B.
      unfold eqc, code. cbn. destruct (N.eqb_spec c 45); [lia | reflexivity]. }
  split; [exact E|].
  intros Hlt. rewrite E. apply (list_tree "ol"); auto.
  destruct its; [congruence | discriminate].
Qed.

Lemma numbered_list_witness :
  markdownToHtml (u "1. wash" ++ [LF] ++ u "7. rinse")
  = u "<ol><li>wash</li><li>rinse</li></ol>".
Proof.
  apply (proj1 (numbered_list [(u "1", u "wash"); (u "7", u "rinse")] ltac:(discriminate)
    ltac:(repeat constructor; discriminate))).
Defined.

(** A lazy star over a character class stops at the first position where
    the rest of the pattern matches. *)
Lemma lazy_loop {A} p (k : cursor -> option A) rest cs a : forall w n b,
  (length w <= n)%nat -> forallb p w = true ->
  (forall pre x suf, w = pre ++ x :: suf ->
     k (mkCursor (rev pre ++ b) (x :: suf ++ rest) cs) = None) ->
  k (mkCursor (rev w ++ b) rest cs) = Some a ->
  star_loop (rmatch (Cls p)) false k n (mkCursor b (w ++ rest) cs) = Some a.
Proof.
  induction w as [|x w IH]; intros n b Hn Hp Hf Hk.
  - cbn [rev app] in *. destruct n; cbn [star_loop]; [exact Hk | rewrite Hk; reflexivity].
  - destruct n; [cbn in Hn; lia|]. cbn [forallb] in Hp. apply andb_true_iff in Hp.
    destruct Hp as [Hx Hp]. cbn [star_loop app].
    pose proof (Hf [] x w eq_refl) as H0. cbn [rev app] in H0. rewrite H0.
    rewrite rmatch_cls_hit by exact Hx. cbn [after].
    replace (length (w ++ rest) <? length (x :: w ++ rest))%nat with true
      by (symmetry; apply Nat.ltb_lt; cbn [length]; lia).
    apply IH.
    + cbn [length] in Hn. lia.
    + exact Hp.
    + intros pre y suf E. specialize (Hf (x :: pre) y suf).
      cbn [rev app] in Hf. rewrite <- app_assoc in Hf. apply Hf. rewrite E. reflexivity.
    + cbn [rev] in Hk. rewrite <- app_assoc in Hk. exact Hk.
Qed.

Lemma rmatch_lazy_cls {A} p (k : cursor -> option A) w rest b cs a :
  forallb p w = true ->
  (forall pre x suf, w = pre ++ x :: suf ->
     k (mkCursor (rev pre ++ b) (x :: suf ++ rest) cs) = None) ->
  k (mkCursor (rev w ++ b) rest cs) = Some a ->
  rmatch (Star false (Cls p)) (mkCursor b (w ++ rest) cs) k = Some a.
Proof.
  intros Hp Hf Hk. cbn [rmatch after]. apply lazy_loop; try assumption.
  rewrite length_app. lia.
Qed.

Lemma codeText_facts s y : codeText s -> In y s -> eqc "`" y = false.
Proof.
  intros H Hy. apply (forallb_In _ _ _ H) in Hy. apply negb_true_iff in Hy. exact Hy.
Qed.

(** The fence regex on a fenced block without backticks inside: the
    whole block, its inside as group 1. *)
Lemma fence_match body :
  codeText body ->
  match_at fenceRegex [] (u "```" ++ body ++ u "```")
  = Some (mkHit (u "```" ++ body ++ u "```") [(1%nat, body)]).
Proof.
  intros H. unfold match_at, fenceRegex. cbn [rmatch].
  rewrite rmatch_str.
  apply rmatch_lazy_cls.
  - apply forallb_forall. reflexivity.
  - intros pre x suf E. apply head_fail. cbn [after set_cap hd_error].
    change (head_ok (Str "```") (Some x)) with (eqc "`" x).
    apply (codeText_facts body x H). rewrite E. apply in_or_app. right. left. reflexivity.
  - cbn beta. unfold set_cap. cbn [before after caps].
    etransitivity; [apply (rmatch_str "```" _ [] _ _)|].
    cbn [before after caps]. f_equal. f_equal.
    + replace (rev (u "```") ++ rev body ++ rev (u "```") ++ [])
        with (rev (u "```" ++ body ++ u "```") ++ []).
      * apply consumed_mk.
      * rewrite !rev_app_distr, <- !app_assoc. reflexivity.
    + f_equal. f_equal. apply consumed_mk.
Qed.

Lemma fence_segments body :
  codeText body ->
  segments fenceRegex (u "```" ++ body ++ u "```")
  = [Hit (mkHit (u "```" ++ body ++ u "```") [(1%nat, body)])].
Proof.
  intros H. unfold segments.
  rewrite <- (app_nil_r (u "```" ++ body ++ u "```")) at 1.
  rewrite (scan_hit_word fenceRegex [] _ []
             (mkHit (u "```" ++ body ++ u "```") [(1%nat, body)])).
  - cbn [scan]. rewrite match_at_head_fail by reflexivity. reflexivity.
  - discriminate.
  - rewrite app_nil_r. apply fence_match, H.
  - reflexivity.
Qed.

Lemma noDouble_suffix c pre : forall suf,
  noDouble c (pre ++ suf) = true -> noDouble c suf = true.
Proof.
  induction pre as [|x pre IH]; intros suf H; [exact H|].
  cbn [app noDouble] in H. apply andb_true_iff in H. apply IH, H.
Qed.

Lemma noDouble_app c a b :
  noDouble c a = true -> noDouble c b = true -> startsWith c b = false ->
  noDouble c (a ++ b) = true.
Proof.
  intros Ha Hb Hs. induction a as [|x a IH]; [exact Hb|].
  cbn [app noDouble] in *. apply andb_true_iff in Ha. destruct Ha as [H1 H2].
  rewrite (IH H2), andb_true_r.
  destruct a as [|d a]; [|exact H1].
  cbn [app]. rewrite Hs, andb_false_r. reflexivity.
Qed.

Lemma noDouble_head c s :
  noDouble c s = true ->
  match s with x :: r => (x =? c) && startsWith c r | [] => false end = false.
Proof.
  destruct s as [|x r]; [reflexivity|]. cbn [noDouble]. intros H.
  apply andb_true_iff in H. destruct H as [H _]. apply negb_true_iff, H.
Qed.

(** A regex that needs two [c] in a row finds nothing where there are
    none. *)
Lemma noDouble_segments c r s :
  (forall bef suf,
     match suf with x :: t => (x =? c) && startsWith c t | [] => false end = false ->
     match_at r bef suf = None) ->
  noDouble c s = true -> segments r s = map Gap s.
Proof.
  intros Hr H. apply scan_gaps. intros pre suf E. apply Hr.
  rewrite E in H. apply noDouble_suffix in H. apply noDouble_head, H.
Qed.

Lemma blank_miss bef suf :
  match suf with c :: r => (c =? LF) && startsWith LF r | [] => false end = false ->
  match_at blankRegex bef suf = None.
Proof.
  intros H. destruct suf as [|c r]; [apply match_at_head_fail; reflexivity|].
  destruct (N.eqb_spec c LF) as [->|Hc].
  - cbn [andb] in H. destruct r as [|d r]; [reflexivity|].
    cbn [startsWith] in H. unfold match_at, blankRegex, Plus. cbn [rmatch after advance].
    change (LF =? LF) with true. cbn iota. cbn [after].
    rewrite (N.eqb_sym LF d), H. reflexivity.
  - apply match_at_head_fail.
    change (head_ok blankRegex (hd_error (c :: r))) with (LF =? c).
    rewrite N.eqb_sym. apply N.eqb_neq, Hc.
Qed.

Lemma placeholder_miss bef suf :
  match suf with x :: t => (x =? code "_") && startsWith (code "_") t | [] => false end
  = false ->
  match_at (placeholderRegex "__INLINECODE_") bef suf = None.
Proof.
  intros H. destruct suf as [|x t]; [apply match_at_head_fail; reflexivity|].
  destruct (N.eqb_spec x (code "_")) as [->|Hx].
  - cbn [andb] in H. destruct t as [|d t]; [reflexivity|].
    cbn [startsWith] in H. unfold match_at, placeholderRegex. cbn [rmatch].
    apply (rmatch_lit_miss ["_"%char] "_"%char (list_ascii_of_string "INLINECODE_") d).
    exact H.
  - apply match_at_head_fail.
    change (head_ok (placeholderRegex "__INLINECODE_") (hd_error (x :: t)))
      with (x =? code "_").
    apply N.eqb_neq, Hx.
Qed.

(** A chunk without blank line that opens with [<] and ends with [>] is
    its own paragraph and is not wrapped. *)
Lemma wrapParagraphs_single s' :
  noDouble LF (code "<" :: s') = true -> last (code "<" :: s') 0 = code ">" ->
  wrapParagraphs (code "<" :: s') = code "<" :: s'.
Proof.
  intros Hb Hlast. set (s := code "<" :: s') in *.
  unfold wrapParagraphs, split_re.
  rewrite (noDouble_segments LF blankRegex s blank_miss Hb), split_segs_gaps. cbn [rev app map].
  assert (R : exists l, rev s = code ">" :: l).
  { destruct (rev s) as [|z l] eqn:R.
    - apply (f_equal (@rev char)) in R. rewrite rev_involutive in R. discriminate.
    - exists l. f_equal. rewrite <- Hlast. rewrite <- (rev_involutive s), R. simpl.
      rewrite last_last. reflexivity. }
  destruct R as [l R].
  assert (T : trim s = s).
  { unfold trim. assert (E : trimStart s = s) by reflexivity. rewrite E.
    unfold trimEnd. rewrite R. cbn [trimStart].
    change (isSpace (code ">")) with false. cbn iota.
    rewrite <- R. apply rev_involutive. }
  unfold wrapParagraph. rewrite T.
  assert (E : endsWith (code ">") s = true) by (unfold endsWith; rewrite R; reflexivity).
  rewrite E. reflexivity.
Qed.

(** The passes from the stash to the restore leave the placeholder of
    the first code block alone. *)
Lemma placeholder_kept :
  replace_with (stashCode "__INLINECODE_" (fun c => c)) []
               (segments inlineCodeRegex (u "__CODEBLOCK_0__"))
  = ([], u "__CODEBLOCK_0__") /\
  convertLists numberedRegex "ol"
    (convertLists bulletRegex "ul"
       (convertSpans (convertHeaders (u "__CODEBLOCK_0__"))))
  = u "__CODEBLOCK_0__".
Proof. split; vm_compute; reflexivity. Qed.

Lemma placeholder_restored code :
  replace (placeholderRegex "__CODEBLOCK_") (restoreCode "pre" [code])
          (u "__CODEBLOCK_0__")
  = u "<pre>" ++ code ++ u "</pre>".
Proof.
  unfold replace.
  assert (E : segments (placeholderRegex "__CODEBLOCK_") (u "__CODEBLOCK_0__")
              = [Hit (mkHit (u "__CODEBLOCK_0__") [(1%nat, u "0")])])
    by (vm_compute; reflexivity).
  rewrite E. cbn [flat_map]. unfold restoreCode.
  change (N.to_nat (parseDigits 0 (grp 1 (mkHit (u "__CODEBLOCK_0__") [(1%nat, u "0")]))))
    with 0%nat.
  cbn [nth_error]. rewrite app_nil_r. reflexivity.
Qed.

Lemma pre_tree code :
  noLt code ->
  htmlToNodes (u "<pre>" ++ code ++ u "</pre>")
  = Some [NElem (u "pre") None
            (match code with [] => None | _ :: _ => Some [NText code] end)].
Proof.
  intros Hlt.
  assert (E : markupText [el "pre" (textM code)] = u "<pre>" ++ code ++ u "</pre>").
  { rewrite markupText_cons, render_el. unfold markupText at 1. rewrite render_text.
    change (markupText []) with (@nil char). rewrite app_nil_r. reflexivity. }
  rewrite <- E. rewrite parse_markup.
  - destruct code; reflexivity.
  - split; [|split; [discriminate | exact I]].
    constructor; [|constructor].
    destruct (wf_text code Hlt) as [Hw Ha].
    apply wf_el; [exact plainTag_pre | exact Hw | exact Ha].
Qed.

(** A fenced code block: what stands inside the fences is kept as it is,
    trimmed, inside a [pre] element, whatever Markdown it holds; the tree
    built from it is a [pre] element holding that text. *)
Theorem fenced_code_kept body :
  codeText body ->
  noDouble LF (trim body) = true -> noDouble (code "_") (trim body) = true ->
  markdownToHtml (u "```" ++ body ++ u "```") = u "<pre>" ++ trim body ++ u "</pre>" /\
  (noLt body ->
   htmlToNodes (markdownToHtml (u "```" ++ body ++ u "```"))
   = Some [NElem (u "pre") None
             (match trim body with [] => None | _ :: _ => Some [NText (trim body)] end)]).
Proof.
  intros Hc Hb Hu.
  assert (E : markdownToHtml (u "```" ++ body ++ u "```")
              = u "<pre>" ++ trim body ++ u "</pre>").
  { unfold markdownToHtml. rewrite (fence_segments body Hc).
    assert (R : replace_with (stashCode "__CODEBLOCK_" trim) []
                  [Hit (mkHit (u "```" ++ body ++ u "```") [(1%nat, body)])]
                = ([trim body], u "__CODEBLOCK_0__")) by reflexivity.
    rewrite R. destruct placeholder_kept as [K1 K2]. rewrite K1, K2.
    rewrite placeholder_restored.
    rewrite (replace_gaps (placeholderRegex "__INLINECODE_") _
               (u "<pre>" ++ trim body ++ u "</pre>")).
    - apply (wrapParagraphs_single (u "pre>" ++ trim body ++ u "</pre>")).
      + change (noDouble LF (trim body ++ u "</pre>") = true).
        apply noDouble_app; [exact Hb | reflexivity | reflexivity].
      + change (u "</pre>") with (u "</pre" ++ [code ">"]).
        change (code "<" :: u "pre>" ++ trim body ++ u "</pre" ++ [code ">"])
          with (u "<pre>" ++ trim body ++ u "</pre" ++ [code ">"]).
        rewrite !app_assoc. apply last_last.
    - apply (noDouble_segments (code "_")); [exact placeholder_miss|].
      change (noDouble (code "_") (trim body ++ u "</pre>") = true).
      apply noDouble_app; [exact Hu | reflexivity | reflexivity]. }
  split; [exact E|].
  intros Hlt. rewrite E. apply pre_tree. apply forallb_trim, Hlt.
Qed.

Lemma fenced_code_kept_witness :
  markdownToHtml (u "```" ++ [LF] ++ u "# title" ++ [LF] ++ u "- **x** [a](b)" ++ [LF] ++ u "```")
  = u "<pre># title" ++ [LF] ++ u "- **x** [a](b)</pre>".
Proof.
  apply (proj1 (fenced_code_kept ([LF] ++ u "# title" ++ [LF] ++ u "- **x** [a](b)" ++ [LF])
                  eq_refl eq_refl eq_refl)).
Defined.

Lemma join_trailing ls :
  join [LF] (ls ++ [[]]) = concat (map (fun l => l ++ [LF]) ls).
Proof.
  induction ls as [|l ls IH]; [reflexivity|].
  cbn [app map concat]. rewrite <- IH.
  destruct (ls ++ [[]]) as [|l2 r] eqn:E.
  - destruct ls; discriminate.
  - rewrite join_cons, <- app_assoc. reflexivity.
Qed.

(** The Markdown of a list element: an empty line, a bullet line per
    item, and a final line feed. *)
Lemma list_markdown tag its :
  tag = "ul"%string \/ tag = "ol"%string ->
  nodesToMarkdown [listNode tag its]
  = join [LF] ([] :: map bulletLine its ++ [[]]).
Proof.
  intros Ht.
  assert (E : join [LF] ([] :: map bulletLine its ++ [[]])
              = LF :: concat (map (fun l => l ++ [LF]) (map bulletLine its))).
  { rewrite <- join_trailing.
    destruct (map bulletLine its ++ [[]]) as [|l r] eqn:E.
    - destruct (map bulletLine its); discriminate.
    - rewrite join_cons, <- E. reflexivity. }
  rewrite E. unfold nodesToMarkdown, listNode. cbn [flat_map nodeToMarkdown].
  rewrite app_nil_r.
  assert (M : markdownOfElement (u tag) None
                (flat_map nodeToMarkdown
                   (map (fun i => NElem (u "li") None (Some [NText i])) its))
              = LF :: flat_map nodeToMarkdown
                        (map (fun i => NElem (u "li") None (Some [NText i])) its))
    by (destruct Ht as [->| ->]; reflexivity).
  rewrite M. f_equal. clear E M.
  induction its as [|i its IH]; [reflexivity|].
  cbn [map flat_map concat nodeToMarkdown]. rewrite IH, markdown_li, app_nil_r.
  unfold bulletLine. rewrite <- !app_assoc. reflexivity.
Qed.

Lemma noDouble_without c x : forall t,
  (forall y, In y x -> (y =? c) = false) -> noDouble c (x ++ t) = noDouble c t.
Proof.
  induction x as [|a x IH]; intros t H; [reflexivity|].
  cbn [app noDouble]. rewrite (H a) by (left; reflexivity).
  cbn [andb negb]. apply IH. intros y Hy. apply H. right. exact Hy.
Qed.

(** An element on a line of its own, after the paragraph pass: the
    element alone. *)
Lemma wrapParagraphs_padded x' :
  inert (code "<" :: x') -> last (code "<" :: x') 0 = code ">" ->
  wrapParagraphs (LF :: (code "<" :: x') ++ [LF]) = code "<" :: x'.
Proof.
  intros Hi Hlast. set (x := code "<" :: x') in *.
  assert (R : exists l, rev x = code ">" :: l).
  { destruct (rev x) as [|z l] eqn:R.
    - apply (f_equal (@rev char)) in R. rewrite rev_involutive in R. discriminate.
    - exists l. f_equal. rewrite <- Hlast. rewrite <- (rev_involutive x), R. simpl.
      rewrite last_last. reflexivity. }
  destruct R as [l R].
  assert (N : noDouble LF (LF :: x ++ [LF]) = true).
  { change (noDouble LF (x ++ [LF]) = true). rewrite noDouble_without; [reflexivity|].
    intros y Hy. apply Hi, inert_facts in Hy. tauto. }
  unfold wrapParagraphs, split_re.
  rewrite (noDouble_segments LF blankRegex _ blank_miss N), split_segs_gaps.
  cbn [rev app map].
  assert (T : trim (LF :: x ++ [LF]) = x).
  { unfold trim. change (trimStart (LF :: x ++ [LF])) with (x ++ [LF]).
    unfold trimEnd. rewrite rev_app_distr, R. cbn [rev app trimStart].
    change (isSpace LF) with true. change (isSpace (code ">")) with false. cbn iota.
    rewrite <- R. apply rev_involutive. }
  unfold wrapParagraph. rewrite T.
  assert (E : endsWith (code ">") x = true) by (unfold endsWith; rewrite R; reflexivity).
  rewrite E. reflexivity.
Qed.

(** The list loops and the passes after them on a bullet list inside
    empty lines. *)
Lemma padded_list its :
  its <> [] -> Forall listItem its ->
  wrapParagraphs
    (replace (placeholderRegex "__INLINECODE_") (restoreCode "code" [])
       (replace (placeholderRegex "__CODEBLOCK_") (restoreCode "pre" [])
          (convertLists numberedRegex "ol"
             (convertLists bulletRegex "ul"
                (join [LF] ([] :: map bulletLine its ++ [[]]))))))
  = u "<ul>" ++ concat (map liText its) ++ u "</ul>".
Proof.
  intros Hn H. set (x := u "<ul>" ++ concat (map liText its) ++ u "</ul>").
  pose proof (list_text_inert "ul" its eq_refl H) as Hi.
  pose proof (list_text_last "ul" (concat (map liText its))) as Hlast.
  change (u "<" ++ u "ul" ++ u ">" ++ concat (map liText its) ++ u "</" ++ u "ul" ++ u ">")
    with x in Hi, Hlast.
  assert (Hx : forall y, In y x -> (y =? LF) = false)
    by (intros y Hy; apply Hi, inert_facts in Hy; tauto).
  assert (B : convertLists bulletRegex "ul" (join [LF] ([] :: map bulletLine its ++ [[]]))
              = join [LF] [[]; x; []]).
  { unfold convertLists. rewrite split_lines.
    - cbn [fold_left].
      change (listLine bulletRegex "ul" (mkList [] false []) [])
        with (mkList [] false [[]]).
      rewrite fold_left_app.
      rewrite (listLines_all bulletRegex "ul" (map bulletLine its) its).
      + cbn [fold_left]. unfold listLine.
        change (match_first bulletRegex []) with (@None hit).
        cbn [inList items processedLines flushList app]. rewrite join_nil. reflexivity.
      + clear Hn Hi Hlast Hx. induction H as [|i its Hi _ IH]; constructor; [|exact IH].
        exists (mkHit (bulletLine i) [(1%nat, i)]). split; [|reflexivity].
        apply match_first_whole; [discriminate | apply bullet_match, Hi | reflexivity].
      + destruct its; [congruence | discriminate].
    - discriminate.
    - constructor; [intros y []|]. apply Forall_app. split.
      + pose proof (bullet_lines its H) as Hl. revert Hl. apply Forall_impl.
        intros l Hl y Hy. apply Hl, inert_facts in Hy. tauto.
      + constructor; [intros y [] | constructor]. }
  rewrite B.
  assert (Hc : forall y, In y (join [LF] [[]; x; []]) -> y = LF \/ In y x).
  { cbn [join app]. intros y [<-|Hy]; [left; reflexivity|].
    apply in_app_or in Hy. destruct Hy as [Hy|[<-|[]]]; [right; exact Hy | left; reflexivity]. }
  rewrite (convertLists_none numberedRegex).
  2:{ rewrite split_lines; [|discriminate|].
      - repeat constructor. unfold numberedRegex. apply match_first_anchored; reflexivity.
      - constructor; [intros y []|]. constructor; [exact Hx|].
        constructor; [intros y [] | constructor]. }
  rewrite (replace_gaps (placeholderRegex "__CODEBLOCK_") _ (join [LF] [[]; x; []])).
  2:{ apply segments_headless; [reflexivity|]. intros y Hy.
      change (head_ok (placeholderRegex "__CODEBLOCK_") (Some y)) with (eqc "_" y).
      destruct (Hc y Hy) as [->|Hy']; [reflexivity|].
      apply Hi, inert_facts in Hy'. tauto. }
  rewrite (replace_gaps (placeholderRegex "__INLINECODE_") _ (join [LF] [[]; x; []])).
  2:{ apply segments_headless; [reflexivity|]. intros y Hy.
      change (head_ok (placeholderRegex "__INLINECODE_") (Some y)) with (eqc "_" y).
      destruct (Hc y Hy) as [->|Hy']; [reflexivity|].
      apply Hi, inert_facts in Hy'. tauto. }
  change (join [LF] [[]; x; []]) with (LF :: x ++ [LF]).
  apply (wrapParagraphs_padded (u "ul>" ++ concat (map liText its) ++ u "</ul>"));
    assumption.
Qed.

(** A list through Markdown and back: the Markdown written for a [ul]
    or [ol] element whose items are plain texts is rewritten to the
    markup of the [ul] element with the same items, and parsed to that
    element; an [ol] element comes back as a [ul] element. *)
Theorem list_through_markdown tag its :
  tag = "ul"%string \/ tag = "ol"%string ->
  its <> [] -> Forall listItem its ->
  markdownToHtml (nodesToMarkdown [listNode tag its])
  = u "<ul>" ++ concat (map liText its) ++ u "</ul>" /\
  (Forall noLt its ->
   htmlToNodes (markdownToHtml (nodesToMarkdown [listNode tag its]))
   = Some [listNode "ul" its]).
Proof.
  intros Ht Hn H.
  assert (E : markdownToHtml (nodesToMarkdown [listNode tag its])
              = u "<ul>" ++ concat (map liText its) ++ u "</ul>").
  { rewrite (list_markdown tag its Ht).
    assert (Hne : [] :: map bulletLine its ++ [[]] <> []) by discriminate.
    assert (Hl : Forall (fun l => forall y, In y l -> inertChar y = true)
                        ([] :: map bulletLine its ++ [[]])).
    { constructor; [intros y []|]. apply Forall_app. split;
        [apply bullet_lines, H | constructor; [intros y [] | constructor]]. }
    rewrite (lines_to_lists _ Hne Hl (eqc "-")).
    - apply padded_list; assumption.
    - constructor; [exact I|]. apply Forall_app. split;
        [apply Forall_map, Forall_forall; intros i _; reflexivity
        | constructor; [exact I | constructor]].
    - intros c Hc. apply N.eqb_eq in Hc. subst c. reflexivity.
    - intros c Hc. apply N.eqb_eq in Hc. subst c. reflexivity.
    - assert (H0 : forall bef rest, lineEnd rest -> match_at ruleRegex bef ([] ++ rest) = None).
      { intros bef rest Hr. apply match_at_head_fail.
        destruct Hr as [->|[t ->]]; reflexivity. }
      constructor; [exact H0|]. apply Forall_app. split;
        [apply Forall_map, Forall_forall; intros i _ bef rest _; apply bullet_rule
        | constructor; [exact H0 | constructor]]. }
  split; [exact E|].
  intros Hlt. rewrite E. apply (list_tree "ul"); auto.
Qed.

Lemma list_through_markdown_witness :
  htmlToNodes (markdownToHtml (nodesToMarkdown [listNode "ol" [u "one"; u "two"]]))
  = Some [listNode "ul" [u "one"; u "two"]].
Proof.
  apply (proj2 (list_through_markdown "ol" [u "one"; u "two"] (or_intror eq_refl)
                  ltac:(discriminate) ltac:(repeat constructor; discriminate))).
  repeat constructor.
Defined.

Section ClientFacts.
Variables (world E : Type).
Variable getPage : str -> bool -> world -> settled E Page * world.
Variable getPageList : str -> N -> N -> world -> settled E PageList * world.

Lemma requestLimit_bound limit : requestLimit limit <= 200.
Proof. unfold requestLimit. apply N.le_min_r. Qed.

(** Every iteration adds one exported page, or one logged error, or
    nothing; a logged path is the path of a listed page. *)
Lemma backupPage_counts f l : forall st,
  let st' := fold_left (backupPage world E getPage f) l st in
  (length (exportedPages _ _ st') + length (logged _ _ st')
   <= length (exportedPages _ _ st) + length (logged _ _ st) + length l)%nat /\
  (forall x, In x (logged _ _ st') ->
     In x (logged _ _ st) \/ In (fst x) (map page_path l)).
Proof.
  induction l as [|info l IH]; intros st; cbn [fold_left length map].
  - split; [lia | intros x Hx; left; exact Hx].
  - specialize (IH (backupPage world E getPage f st info)).
    cbv zeta in IH. destruct IH as [IH1 IH2].
    assert (G : (length (exportedPages _ _ (backupPage world E getPage f st info))
                 + length (logged _ _ (backupPage world E getPage f st info))
                 <= length (exportedPages _ _ st) + length (logged _ _ st) + 1)%nat /\
                forall x, In x (logged _ _ (backupPage world E getPage f st info)) ->
                  In x (logged _ _ st) \/ fst x = page_path info).
    { unfold backupPage.
      destruct (getPage (page_path info) true (service _ _ st)) as [[page|e] w'].
      - destruct (page_content page) as [content|]; cbn [exportedPages logged].
        + rewrite length_app. cbn [length]. split; [lia | intros x Hx; left; exact Hx].
        + split; [lia | intros x Hx; left; exact Hx].
      - cbn [exportedPages logged]. rewrite length_app. cbn [length]. split; [lia|].
        intros x Hx. apply in_app_or in Hx. destruct Hx as [Hx|[<-|[]]];
          [left; exact Hx | right; reflexivity]. }
    destruct G as [G1 G2]. split; [lia|].
    intros x Hx. destruct (IH2 x Hx) as [H|H].
    + destruct (G2 x H) as [H'|H']; [left; exact H' | right; left; symmetry; exact H'].
    + right. right. exact H.
Qed.

(** When every call of [getPage] is answered as [answer] says and leaves
    the service as it is, the loop exports what [exportPage] gives. *)
Lemma backupPage_pure (answer : str -> settled E Page) f w0 l :
  (forall p w, getPage p true w = (answer p, w)) ->
  forall st,
  fold_left (backupPage world E getPage f) l st
  = mkBackupState _ _
      (exportedPages _ _ st ++
       flat_map (fun info =>
         match fst (exportPage world E getPage (page_path info) (Some f) w0) with
         | Fulfilled e => [withoutFormat e]
         | Rejected _ => []
         end) l)
      (logged _ _ st ++
       flat_map (fun info =>
         match fst (exportPage world E getPage (page_path info) (Some f) w0) with
         | Rejected (FromClient e) => [(page_path info, e)]
         | _ => []
         end) l)
      (service _ _ st).
Proof.
  intros Hp. induction l as [|info l IH]; intros st; cbn [fold_left flat_map].
  - rewrite !app_nil_r. destruct st; reflexivity.
  - rewrite IH. unfold backupPage, exportPage.
    rewrite !Hp. destruct (answer (page_path info)) as [page|e].
    + destruct (page_content page) as [content|]; cbn [exportedPages logged service fst app].
      * rewrite <- app_assoc. reflexivity.
      * reflexivity.
    + cbn [exportedPages logged service fst app]. rewrite <- app_assoc. reflexivity.
Qed.

(** Backup of an account: the page list is asked for once, from offset
    0, with a limit of at most 200.  When that call is rejected so is
    the backup; otherwise the backup is fulfilled whatever happens to
    the pages: it reports the total of the list, counts the pages it
    holds, and every listed page is exported, logged with its error, or
    left out. *)
Theorem backupAccount_settles accessToken fmt limit w :
  requestLimit limit <= 200 /\
  match getPageList accessToken 0 (requestLimit limit) w with
  | (Rejected e, w1) =>
      backupAccount world E getPage getPageList accessToken fmt limit w
      = (Rejected e, [], w1)
  | (Fulfilled pageList, w1) =>
      exists backup log w2,
        backupAccount world E getPage getPageList accessToken fmt limit w
        = (Fulfilled backup, log, w2) /\
        total_count backup = list_total_count pageList /\
        backup_format backup = formatOr fmt /\
        exported_count backup = length (backup_pages backup) /\
        (exported_count backup + length log <= length (list_pages pageList))%nat /\
        forall x, In x log -> In (fst x) (map page_path (list_pages pageList))
  end.
Proof.
  split; [apply requestLimit_bound|].
  unfold backupAccount.
  destruct (getPageList accessToken 0 (requestLimit limit) w) as [[pageList|e] w1];
    [|reflexivity].
  eexists _, _, _. split; [reflexivity|].
  cbn [total_count backup_format exported_count backup_pages].
  split; [reflexivity|]. split; [reflexivity|]. split; [reflexivity|]. split.
  - destruct (backupPage_counts (formatOr fmt) (list_pages pageList)
                (mkBackupState _ _ [] [] w1)) as [H _].
    cbv zeta in H. cbn [exportedPages logged length] in H. exact H.
  - intros x Hx.
    destruct (backupPage_counts (formatOr fmt) (list_pages pageList)
                (mkBackupState _ _ [] [] w1)) as [_ H].
    destruct (H x Hx) as [[]|H']. exact H'.
Qed.

(** A backup holds what [exportPage] gives: when the service answers a
    request for a page always in the same way, the pages of the backup
    are, in the order of the listing, the results of [exportPage] for
    the listed paths, without their format; a page for which
    [exportPage] is rejected is left out, and logged when the error came
    from the client. *)
Theorem backupAccount_matches_exportPage (answer : str -> settled E Page)
  accessToken fmt limit w pageList w1 :
  (forall p w, getPage p true w = (answer p, w)) ->
  getPageList accessToken 0 (requestLimit limit) w = (Fulfilled pageList, w1) ->
  exists backup,
    backupAccount world E getPage getPageList accessToken fmt limit w
    = (Fulfilled backup,
       flat_map (fun info =>
         match fst (exportPage world E getPage (page_path info) fmt w1) with
         | Rejected (FromClient e) => [(page_path info, e)]
         | _ => []
         end) (list_pages pageList),
       w1) /\
    backup_pages backup
    = flat_map (fun info =>
        match fst (exportPage world E getPage (page_path info) fmt w1) with
        | Fulfilled e => [withoutFormat e]
        | Rejected _ => []
        end) (list_pages pageList).
Proof.
  intros Hp Hl. unfold backupAccount. rewrite Hl.
  rewrite (backupPage_pure answer (formatOr fmt) w1 _ Hp).
  cbn [exportedPages logged service app].
  assert (X : forall p, exportPage world E getPage p (Some (formatOr fmt)) w1
                        = exportPage world E getPage p fmt w1)
    by (intros p; destruct fmt; reflexivity).
  rewrite (flat_map_ext _ (fun info =>
             match fst (exportPage world E getPage (page_path info) fmt w1) with
             | Fulfilled e => [withoutFormat e]
             | Rejected _ => []
             end)) by (intros info; rewrite X; reflexivity).
  rewrite (flat_map_ext _ (fun info =>
             match fst (exportPage world E getPage (page_path info) fmt w1) with
             | Rejected (FromClient e) => [(page_path info, e)]
             | _ => []
             end)) by (intros info; rewrite X; reflexivity).
  eexists. split; reflexivity.
Qed.
End ClientFacts.

Lemma backupAccount_matches_exportPage_witness :
  exists backup,
    fst (fst (backupAccount unit unit
      (fun p _ w => (if str_eqb p (u "b") then Rejected tt
                     else Fulfilled (mkPage p p p (Some [NText p])), w))
      (fun _ _ _ w => (Fulfilled (mkPageList 2 [mkPage (u "a") (u "a") (u "a") None;
                                                mkPage (u "b") (u "b") (u "b") None]), w))
      (u "token") None None tt)) = Fulfilled backup /\
    backup_pages backup = [mkBackupPage (u "a") (u "a") (u "a") (u "a")].
Proof.
  destruct (backupAccount_matches_exportPage unit unit
    (fun p _ w => (if str_eqb p (u "b") then Rejected tt
                   else Fulfilled (mkPage p p p (Some [NText p])), w))
    (fun _ _ _ w => (Fulfilled (mkPageList 2 [mkPage (u "a") (u "a") (u "a") None;
                                              mkPage (u "b") (u "b") (u "b") None]), w))
    (fun p => if str_eqb p (u "b") then Rejected tt
              else Fulfilled (mkPage p p p (Some [NText p])))
    (u "token") None None tt _ tt (fun p w => eq_refl) eq_refl) as [backup [H1 H2]].
  exists backup. split; [rewrite H1; reflexivity | exact H2].
Defined.

(** ** Markup with elements left open, and stray closing tags *)

Lemma readable_children l :
  (fix all (l : list markup) : Prop :=
     match l with [] => True | c :: r => readable c /\ all r end) l <-> Forall readable l.
Proof.
  induction l as [|c l IH]; [split; [constructor | exact (fun _ => I)]|].
  rewrite IH. split; [intros [H1 H2]; constructor; assumption|].
  intros H. inversion H; subst. split; assumption.
Qed.

Lemma wf_readable m : wf m -> readable m.
Proof.
  induction m as [text|name attr|name attr children IH] using markup_induction; intros H.
  - exact H.
  - destruct H as (H1 & H2 & _). split; assumption.
  - destruct H as (H1 & H2 & H3 & H4). apply wf_children in H3.
    split; [exact H1|]. split; [exact H2|]. split; [|exact H4].
    apply readable_children. rewrite Forall_forall in *. intros c Hc.
    apply IH; [exact Hc | apply H3, Hc].
Qed.

Lemma run_readable m : readable m -> forall st,
  fold_left step_total (map tok_event (tokens m)) st = push_current (tree m) st.
Proof.
  induction m as [text|name attr|name attr children IH] using markup_induction;
    intros Hwf st.
  - destruct Hwf as [Hne _]. destruct text; [congruence | reflexivity].
  - destruct Hwf as (_ & Hsc). cbn [tokens map tok_event fold_left step_total].
    unfold open_tag. rewrite Hsc. reflexivity.
  - destruct Hwf as (_ & Hsc & Hch & _). apply readable_children in Hch.
    cbn [tokens map tok_event fold_left step_total].
    unfold open_tag at 1. rewrite Hsc. rewrite map_app, fold_left_app.
    assert (Hrun : forall st0,
      fold_left step_total (map tok_event (flat_map tokens children)) st0
      = pushes (map tree children) st0).
    { clear Hsc. induction children as [|c l IHl]; intros st0; [reflexivity|].
      inversion IH; subst. inversion Hch; subst.
      cbn [flat_map]. rewrite map_app, fold_left_app, H1 by assumption.
      rewrite IHl by assumption. reflexivity. }
    rewrite Hrun, pushes_frame. cbn [map tok_event fold_left step_total app].
    unfold close_top. cbn [stack nodes]. unfold finalize. cbn [ftag fattrs fchildren].
    destruct st as [N S]. reflexivity.
Qed.

Lemma run_readables ms : Forall readable ms -> forall st,
  fold_left step_total (markupEvents ms) st = pushes (map tree ms) st.
Proof.
  induction 1 as [|m ms Hm _ IH]; intros st; [reflexivity|].
  rewrite markupEvents_cons, fold_left_app, run_readable by exact Hm.
  rewrite IH. reflexivity.
Qed.

Lemma readable_toks_ok m : readable m -> toks_ok (tokens m).
Proof.
  induction m as [text|name attr|name attr children IH] using markup_induction;
    intros Hwf.
  - cbn. repeat split; apply Hwf.
  - cbn. destruct Hwf as (Hok & _). repeat split; try apply Hok; try discriminate.
  - destruct Hwf as (Hok & _ & Hch & Hadj). apply readable_children in Hch.
    change (tokens (MElem name attr children))
      with ([TkTag false name attr] ++ flat_map tokens children ++ [TkTag true name []]).
    apply toks_ok_join.
    + cbn. repeat split; try apply Hok; try discriminate.
    + apply toks_ok_join.
      * apply toks_ok_list; [|exact Hadj].
        rewrite Forall_forall in *. intros c Hc. apply IH; [exact Hc | apply Hch, Hc].
      * cbn. repeat split; try apply Hok; try discriminate.
      * reflexivity.
    + discriminate.
Qed.

Lemma readables_toks_ok ms : readables ms -> toks_ok (flat_map tokens ms).
Proof.
  intros [H Hadj]. apply toks_ok_list; [|exact Hadj].
  eapply Forall_impl; [|exact H]. apply readable_toks_ok.
Qed.

(** The builder reads readable markup as the tree it stands for. *)
Lemma parse_readable ms : readables ms -> htmlToNodes (markupText ms) = Some (map tree ms).
Proof.
  intros H. rewrite htmlToNodes_total. unfold markupText.
  rewrite events_render by (apply readables_toks_ok, H).
  fold (markupEvents ms). rewrite (run_readables ms (proj1 H)).
  unfold init. rewrite pushes_root. reflexivity.
Qed.

Lemma finish_close_top st : stack st <> [] -> finish st = finish (close_top st).
Proof.
  intros H. unfold finish at 1. destruct (stack st) as [|f r] eqn:E; [congruence|].
  simpl. rewrite E. unfold finish. rewrite close_top_depth, E. reflexivity.
Qed.

Lemma unclosed_toks_ok o : readableUnclosed o -> toks_ok (unclosedTokens o).
Proof.
  induction o as [ms|ms name attr inner IH]; cbn [readableUnclosed unclosedTokens].
  - apply readables_toks_ok.
  - intros (Hms & Hok & _ & Hin). apply toks_ok_app.
    + apply readables_toks_ok, Hms.
    + cbn [toks_ok]. split; [exact Hok|]. split; [discriminate | apply IH, Hin].
    + reflexivity.
Qed.

(** What the builder holds after input with open elements, once the
    end-of-input loop has run: what it would hold after the same input
    with the elements closed. *)
Lemma run_unclosed o : readableUnclosed o -> forall st,
  finish (fold_left step_total (map tok_event (unclosedTokens o)) st)
  = finish (pushes (map tree (closeAll o)) st).
Proof.
  induction o as [ms|ms name attr inner IH]; cbn [readableUnclosed unclosedTokens closeAll].
  - intros [H _] st. fold (markupEvents ms). rewrite run_readables by exact H. reflexivity.
  - intros ([Hms _] & Hok & Hsc & Hin) st.
    rewrite map_app, fold_left_app. fold (markupEvents ms).
    rewrite run_readables by exact Hms.
    cbn [map tok_event fold_left step_total]. unfold open_tag. rewrite Hsc.
    rewrite IH by exact Hin.
    rewrite map_app, pushes_app. cbn [map].
    destruct (pushes (map tree ms) st) as [N S]. cbn [nodes stack].
    rewrite pushes_frame. cbn [app].
    rewrite finish_close_top by discriminate. reflexivity.
Qed.

Lemma closeAll_readable o : readableUnclosed o -> readables (closeAll o).
Proof.
  induction o as [ms|ms name attr inner IH]; cbn [readableUnclosed closeAll];
    [exact (fun H => H)|].
  intros ([Hms Hadj] & Hok & Hsc & Hin). destruct (IH Hin) as [Hc Hca]. split.
  - apply Forall_app. split; [exact Hms|]. constructor; [|constructor].
    split; [exact Hok|]. split; [exact Hsc|]. split; [apply readable_children, Hc | exact Hca].
  - clear - Hadj. induction ms as [|m ms IHm]; [cbn; tauto|].
    destruct Hadj as [H1 H2]. cbn [app noAdjacentText]. split; [|apply IHm, H2].
    intros Hm. specialize (H1 Hm). destruct ms as [|m' ms']; [reflexivity | exact H1].
Qed.

(** The complete markup is the cut-off input followed by the closing
    tags it lacks, innermost first. *)
Lemma closeAll_text o :
  markupText (closeAll o)
  = unclosedText o ++ render (map closingTag (openNames o)).
Proof.
  unfold unclosedText, markupText.
  induction o as [ms|ms name attr inner IH]; cbn [closeAll unclosedTokens openNames map].
  - rewrite app_nil_r. reflexivity.
  - rewrite flat_map_app. cbn [flat_map tokens]. rewrite app_nil_r.
    rewrite !render_app. rewrite <- app_assoc. f_equal.
    change (TkTag false name attr :: flat_map tokens (closeAll inner) ++ [TkTag true name []])
      with ([TkTag false name attr] ++ flat_map tokens (closeAll inner) ++ [TkTag true name []]).
    change (TkTag false name attr :: unclosedTokens inner)
      with ([TkTag false name attr] ++ unclosedTokens inner).
    rewrite !render_app, IH, map_app, render_app, <- !app_assoc. reflexivity.
Qed.

(** Input with open elements gives the tree of the same input with the
    elements closed. *)
Lemma parse_unclosed o :
  readableUnclosed o -> htmlToNodes (unclosedText o) = Some (map tree (closeAll o)).
Proof.
  intros H. rewrite htmlToNodes_total. unfold unclosedText.
  rewrite events_render by (apply unclosed_toks_ok, H).
  rewrite run_unclosed by exact H. unfold init. rewrite pushes_root. reflexivity.
Qed.

(** A closing tag met while no element is open changes nothing. *)
Lemma parse_stray_close ms name ms' :
  readables ms -> validName name -> readables ms' ->
  htmlToNodes (markupText ms ++ render [closingTag name] ++ markupText ms')
  = Some (map tree ms ++ map tree ms').
Proof.
  intros Hms Hn Hms'. unfold markupText. rewrite <- !render_app.
  rewrite htmlToNodes_total, events_render.
  - rewrite !map_app, !fold_left_app. fold (markupEvents ms) (markupEvents ms').
    rewrite (run_readables ms (proj1 Hms)). unfold init. rewrite pushes_root.
    cbn [map tok_event closingTag fold_left step_total].
    change (close_top (mkState ([] ++ map tree ms) [])) with (mkState ([] ++ map tree ms) []).
    rewrite (run_readables ms' (proj1 Hms')). rewrite pushes_root. reflexivity.
  - apply toks_ok_app; [apply readables_toks_ok, Hms | | reflexivity].
    change ([closingTag name] ++ flat_map tokens ms')
      with (map closingTag [name] ++ flat_map tokens ms').
    apply toks_ok_join; [|apply readables_toks_ok, Hms' | discriminate].
    apply toks_ok_closers. constructor; [exact Hn | constructor].
Qed.

(** A closing tag closes the innermost open element, whatever the name
    it carries. *)
Lemma parse_other_close name attr children other :
  readable (MElem name attr children) -> validName other ->
  htmlToNodes (render (TkTag false name attr :: flat_map tokens children
                       ++ [closingTag other]))
  = Some [tree (MElem name attr children)].
Proof.
  intros H Ho.
  assert (R : forall st,
    fold_left step_total
      (map tok_event (TkTag false name attr :: flat_map tokens children
                      ++ [closingTag other])) st
    = push_current (tree (MElem name attr children)) st).
  { intros st. rewrite <- (run_readable _ H st). cbn [tokens map fold_left].
    rewrite !map_app, !fold_left_app. reflexivity. }
  rewrite htmlToNodes_total, events_render.
  - rewrite R. reflexivity.
  - pose proof (readable_toks_ok _ H) as T. destruct H as (Hok & _ & Hch & Hadj).
    apply readable_children in Hch.
    change (TkTag false name attr :: flat_map tokens children ++ [closingTag other])
      with ([TkTag false name attr] ++ flat_map tokens children ++ [closingTag other]).
    apply toks_ok_join.
    + cbn. repeat split; try apply Hok; try discriminate.
    + apply toks_ok_join.
      * apply toks_ok_list; [|exact Hadj].
        eapply Forall_impl; [|exact Hch]. apply readable_toks_ok.
      * apply (toks_ok_closers [other]). constructor; [exact Ho | constructor].
      * reflexivity.
    + discriminate.
Qed.

Lemma render_closers names :
  render (map closingTag names) = flat_map (fun n => u "</" ++ n ++ u ">") names.
Proof.
  induction names as [|n names IH]; [reflexivity|].
  cbn [map]. change (closingTag n :: map closingTag names)
    with ([closingTag n] ++ map closingTag names).
  rewrite render_app, IH. cbn [flat_map]. f_equal.
  unfold render. cbn [flat_map render_tok closingTag slash app]. rewrite app_nil_r.
  reflexivity.
Qed.

(** ** Stray [<] and attribute text without pairs *)

Lemma noQuotedPair_inside pre q post :
  noQuotedPair (pre ++ code "=" :: q :: post) = true -> isQuote q = false.
Proof.
  induction pre as [|c pre IH]; cbn [app noQuotedPair]; intros H;
    apply andb_true_iff in H; destruct H as [H1 H2].
  - apply negb_true_iff in H1. exact H1.
  - apply IH, H2.
Qed.

(** What the attribute regex matches holds a [=] followed by a quote. *)
Lemma match_attr_pair bef aft h :
  match_at attrRegex bef aft = Some h ->
  exists pre q post, aft = pre ++ code "=" :: q :: post /\ isQuote q = true.
Proof.
  intros H. destruct (match_at_lang _ _ _ _ H) as [L [rest E]].
  unfold attrRegex in L. remember (whole h) as W eqn:EW. clear EW H.
  inversion L as [| |r1 r2 w1 w2 L1 L2| | | | | | | | |]; subst.
  inversion L2 as [| |r1' r2' w3 w4 L3 L4| | | | | | | | |]; subst.
  inversion L4 as [| |r1'' r2'' w5 w6 L5 L6| | | | | | | | |]; subst.
  inversion L3 as [|p y Hy| | | | | | | | | |]; subst.
  inversion L5 as [|p x Hx| | | | | | | | | |]; subst.
  apply N.eqb_eq in Hy. subst y.
  exists w1, x, (w6 ++ rest). split; [|exact Hx].
  rewrite <- !app_assoc. reflexivity.
Qed.

(** Attribute text without such a pair gives no attribute. *)
Lemma attrsOf_none attr : noQuotedPair attr = true -> attrsOf attr = [].
Proof.
  intros H. unfold attrsOf.
  assert (G : segments attrRegex attr = map Gap attr).
  { apply scan_gaps. intros pre suf E.
    destruct (match_at attrRegex (rev pre ++ []) suf) as [h|] eqn:M; [|reflexivity].
    destruct (match_attr_pair _ _ _ M) as (p & q & post & -> & Hq).
    rewrite E, app_assoc in H. apply noQuotedPair_inside in H. congruence. }
  rewrite G, hits_gaps. reflexivity.
Qed.

(** An element whose attribute text holds no pair has no [attrs]. *)
Lemma parse_without_attrs name attr children :
  readable (MElem name attr children) -> noQuotedPair attr = true ->
  htmlToNodes (markupText [MElem name attr children])
  = Some [NElem (toLowerCase name) None
            (match map tree children with [] => None | l => Some l end)].
Proof.
  intros H Hq. rewrite parse_readable.
  - cbn [map tree]. rewrite (attrsOf_none attr Hq). reflexivity.
  - split; [constructor; [exact H | constructor] | cbn; tauto].
Qed.

(** A [<] that no tag follows is dropped, and what follows it is read as
    text. *)
Lemma parse_stray_lt text :
  tok_ok (TkText text) -> forallb (neqc ">") text = true ->
  htmlToNodes (code "<" :: text) = Some [NText text].
Proof.
  intros [Hne Hlt] Hgt. rewrite htmlToNodes_total. unfold events, segments.
  assert (M : match_at tagRegex [] (code "<" :: text) = None).
  { destruct (match_at tagRegex [] (code "<" :: text)) as [h|] eqn:M; [|reflexivity].
    exfalso. destruct (match_tagRegex_inv _ _ _ M) as (t & rest & Hok & E & _ & _).
    destruct t as [s|closing name attr].
    - destruct Hok as [Hs Hs']. destruct s as [|c s]; [congruence|].
      cbn [render_tok app] in E. inversion E; subst. discriminate.
    - cbn [render_tok app] in E. inversion E as [E'].
      assert (In (code ">") text).
      { rewrite E'. rewrite !app_assoc. apply in_or_app. left. apply in_or_app. right.
        left. reflexivity. }
      apply (forallb_In _ _ _ Hgt) in H. discriminate. }
  rewrite scan_gap by exact M.
  assert (S : scan tagRegex [code "<"] text 0 = [Hit (mkHit text [(4%nat, text)])]).
  { pose proof (scan_hit_word tagRegex [code "<"] text [] (mkHit text [(4%nat, text)]) Hne)
      as S. rewrite app_nil_r in S. rewrite S.
    - cbn [scan]. rewrite match_at_head_fail by reflexivity. reflexivity.
    - rewrite <- (app_nil_r text) at 1. apply match_text; [exact Hne | exact Hlt | exact I].
    - reflexivity. }
  rewrite S. cbn [hits map].
  change (classify (mkHit text [(4%nat, text)]))
    with (if truthy text then EvText text else EvNone).
  destruct text; [congruence | reflexivity].
Qed.

(** ** Heading lines among other lines *)

Lemma at_bol_start bef a cs :
  startsLine bef = true -> at_bol true (mkCursor bef a cs) = true.
Proof. destruct bef as [|x bef]; [reflexivity|]. cbn. intros ->. reflexivity. Qed.

Lemma lineEnd_dot rest :
  lineEnd rest -> match rest with [] => True | y :: _ => isDot y = false end.
Proof. intros [->|[t ->]]; [exact I | reflexivity]. Qed.

Lemma at_eol_end b rest cs : lineEnd rest -> at_eol true (mkCursor b rest cs) = true.
Proof. intros [->|[t ->]]; reflexivity. Qed.

Section HeadingAt.
Variables (w0 : char) (ws' : str) (t0 : char) (title' : str).
Let ws := w0 :: ws'.
Let title := t0 :: title'.
Hypothesis Hws : forallb isSpace ws = true.
Hypothesis Ht0 : isSpace t0 = false.
Hypothesis Htitle : forallb isDot title = true.

(** The heading regex at the start of a line made of its marker, white
    space and a title: it matches the whole line, with the title as
    group 1, whatever comes before and after the line. *)
Lemma heading_match_at marker bef rest :
  startsLine bef = true -> lineEnd rest ->
  match_at (lineRegex marker) bef (u marker ++ ws ++ title ++ rest)
  = Some (mkHit (u marker ++ ws ++ title) [(1%nat, title)]).
Proof.
  intros Hb Hr. unfold match_at, lineRegex. cbn [rmatch].
  rewrite at_bol_start by exact Hb.
  rewrite rmatch_str. subst ws title.
  pose proof Hws as Hs. cbn [forallb] in Hs. apply andb_true_iff in Hs.
  destruct Hs as [Hw0 Hws'].
  pose proof Htitle as Hd. cbn [forallb] in Hd. apply andb_true_iff in Hd.
  destruct Hd as [Hd0 Hd'].
  change ((w0 :: ws') ++ (t0 :: title') ++ rest) with (w0 :: ws' ++ t0 :: title' ++ rest).
  rewrite rmatch_plus_cls by (auto; exact Ht0).
  apply tries_longest. cbn [rmatch].
  rewrite rmatch_plus_cls by (auto; apply lineEnd_dot, Hr).
  apply tries_longest. cbn [rmatch]. unfold set_cap. cbn [before after caps].
  rewrite at_eol_end by exact Hr.
  f_equal. f_equal.
  - replace (rev title' ++ t0 :: rev ws' ++ w0 :: rev (u marker) ++ bef)
      with (rev (u marker ++ w0 :: ws' ++ t0 :: title') ++ bef).
    + apply consumed_mk.
    + rewrite !rev_app_distr. cbn [rev]. rewrite !rev_app_distr. cbn [rev app].
      rewrite <- !app_assoc. reflexivity.
  - f_equal. f_equal.
    replace (rev title' ++ t0 :: rev ws' ++ w0 :: rev (u marker) ++ bef)
      with (rev (t0 :: title') ++ (rev ws' ++ w0 :: rev (u marker) ++ bef)).
    + apply consumed_mk.
    + cbn [rev]. rewrite <- app_assoc. reflexivity.
Qed.

(** The regex of a longer marker fails there: where it wants one more
    [#] there is white space. *)
Lemma heading_miss_at marker hs l1 l2 bef rest :
  list_ascii_of_string marker = l1 ++ "#"%char :: l2 -> hs = map code l1 ->
  match_at (lineRegex marker) bef (hs ++ ws ++ title ++ rest) = None.
Proof.
  intros Hm ->. unfold lineRegex, Str. rewrite Hm.
  unfold match_at. cbn [rmatch].
  destruct (at_bol true _); [|reflexivity]. subst ws.
  change ((w0 :: ws') ++ title ++ rest) with (w0 :: ws' ++ title ++ rest).
  apply rmatch_lit_miss. apply space_not_hash.
  pose proof Hws as Hs. cbn [forallb] in Hs. apply andb_true_iff in Hs. tauto.
Qed.
End HeadingAt.

Lemma lineScan_cons lo lo2 r :
  lineScan (lo :: lo2 :: r) = lineSegs lo ++ Gap LF :: lineScan (lo2 :: r).
Proof. reflexivity. Qed.

(** A regex anchored at the start of a line, over lines on each of
    which it fails or matches the whole line. *)
Lemma scan_lines_hits r ls :
  Forall (fun lo =>
    (forall y, In y (fst lo) -> isLineTerminator y = false) /\
    match snd lo with
    | None => forall bef rest, lineEnd rest ->
                match_at (Cat (Bol true) r) bef (fst lo ++ rest) = None
    | Some h => fst lo <> [] /\ whole h = fst lo /\
                forall bef rest, startsLine bef = true -> lineEnd rest ->
                  match_at (Cat (Bol true) r) bef (fst lo ++ rest) = Some h
    end) ls ->
  ls <> [] ->
  forall bef, startsLine bef = true ->
  scan (Cat (Bol true) r) bef (join [LF] (map fst ls)) 0 = lineScan ls.
Proof.
  induction 1 as [|[l o] ls (Hl & Ho) Hls IH]; intros Hn bef Hb; [congruence|].
  cbn [fst snd] in *.
  assert (Hafter : forall c l' rest,
            l = c :: l' -> match_at (Cat (Bol true) r) (rev l ++ bef) rest = None).
  { intros c l' rest ->. cbn [rev]. rewrite <- app_assoc. cbn [app].
    apply match_at_inside. intros y Hy. apply Hl. destruct Hy as [<-|Hy].
    - left. reflexivity.
    - right. exact Hy. }
  destruct ls as [|lo2 ls].
  - cbn [map join lineScan]. unfold lineSegs. cbn [fst snd].
    destruct o as [h|].
    + destruct Ho as (Hne & Hw & Hm). destruct l as [|c l']; [congruence|].
      rewrite <- (app_nil_r (c :: l')) at 1.
      rewrite (scan_hit_word _ bef (c :: l') [] h Hne
                 (Hm bef [] Hb (or_introl eq_refl)) Hw).
      cbn [scan]. rewrite (Hafter c l' [] eq_refl). reflexivity.
    + pose proof (Ho bef [] (or_introl eq_refl)) as H0. rewrite app_nil_r in H0.
      destruct l as [|c l'].
      * cbn [scan]. rewrite H0. reflexivity.
      * rewrite scan_gap by exact H0.
        rewrite <- (app_nil_r l') at 1. rewrite scan_line_inside by exact Hl.
        cbn [scan]. rewrite match_at_inside by exact Hl.
        rewrite app_nil_r. reflexivity.
  - change (map fst ((l, o) :: lo2 :: ls)) with (l :: map fst (lo2 :: ls)).
    cbn [map] in *. rewrite join_cons, lineScan_cons. unfold lineSegs at 1. cbn [fst snd].
    assert (Hend : lineEnd ([LF] ++ join [LF] (fst lo2 :: map fst ls)))
      by (right; eexists; reflexivity).
    destruct o as [h|].
    + destruct Ho as (Hne & Hw & Hm). destruct l as [|c l']; [congruence|].
      pose proof (Hm bef _ Hb Hend) as H0.
      etransitivity; [exact (scan_hit_word _ _ _ _ h Hne H0 Hw)|].
      cbn [app]. rewrite scan_gap by (apply (Hafter c l' _ eq_refl)).
      rewrite IH by (discriminate || reflexivity). reflexivity.
    + pose proof (Ho bef _ Hend) as H0.
      destruct l as [|c l'].
      * cbn [app] in *. rewrite scan_gap by exact H0.
        rewrite IH by (discriminate || reflexivity). reflexivity.
      * cbn [app] in *. rewrite scan_gap by exact H0.
        rewrite scan_line_inside by exact Hl.
        rewrite scan_gap by (apply match_at_inside; exact Hl).
        rewrite IH by (discriminate || reflexivity).
        cbn [map]. reflexivity.
Qed.

Lemma lineScan_replace f ls :
  flat_map (fun g => match g with Gap c => [c] | Hit h => f h end) (lineScan ls)
  = join [LF] (map (lineOut f) ls).
Proof.
  assert (S : forall lo,
            flat_map (fun g => match g with Gap c => [c] | Hit h => f h end) (lineSegs lo)
            = lineOut f lo).
  { intros [l [h|]]; unfold lineSegs, lineOut; cbn [fst snd flat_map].
    - apply app_nil_r.
    - induction l as [|c l IH]; [reflexivity|]. cbn [map flat_map app]. rewrite IH.
      reflexivity. }
  induction ls as [|lo ls IH]; [reflexivity|].
  destruct ls as [|lo2 ls].
  - cbn [lineScan map join]. apply S.
  - rewrite lineScan_cons, flat_map_app. cbn [flat_map map]. rewrite S.
    change (map (lineOut f) (lo2 :: ls)) with (lineOut f lo2 :: map (lineOut f) ls) in IH.
    rewrite join_cons. cbn [app]. cbn [map] in IH. rewrite IH. reflexivity.
Qed.

Lemma replace_lines_hits r f ls :
  Forall (fun lo =>
    (forall y, In y (fst lo) -> isLineTerminator y = false) /\
    match snd lo with
    | None => forall bef rest, lineEnd rest ->
                match_at (Cat (Bol true) r) bef (fst lo ++ rest) = None
    | Some h => fst lo <> [] /\ whole h = fst lo /\
                forall bef rest, startsLine bef = true -> lineEnd rest ->
                  match_at (Cat (Bol true) r) bef (fst lo ++ rest) = Some h
    end) ls ->
  ls <> [] ->
  replace (Cat (Bol true) r) f (join [LF] (map fst ls)) = join [LF] (map (lineOut f) ls).
Proof.
  intros H Hn. unfold replace, segments.
  rewrite (scan_lines_hits r ls H Hn [] eq_refl). apply lineScan_replace.
Qed.

Lemma headingElement_dot level title :
  forallb isDot title = true -> forallb isDot (headingElement level title) = true.
Proof.
  intros H. unfold headingElement. rewrite !forallb_app, H.
  destruct level as [|[|n]]; reflexivity.
Qed.

Lemma hashes_dot level : forallb isDot (hashes level) = true.
Proof. induction level as [|n IH]; [reflexivity | exact IH]. Qed.

Lemma repeat_split {T} (x : T) k level :
  (level < k)%nat -> repeat x k = repeat x level ++ x :: repeat x (k - level - 1).
Proof.
  intros H. replace k with (level + S (k - level - 1))%nat at 1 by lia.
  rewrite repeat_app. reflexivity.
Qed.

Lemma dot_line s y : forallb isDot s = true -> In y s -> isLineTerminator y = false.
Proof. intros H Hy. apply negb_true_iff. apply (forallb_In _ _ _ H Hy). Qed.

(** One heading pass over the lines of a text: the headings of its
    level are rewritten, the other lines left as they are. *)
Lemma pass_lines k marker f ls :
  (1 <= k)%nat ->
  list_ascii_of_string marker = repeat "#"%char k ->
  head_ok (lineRegex marker) None = false ->
  (forall c, head_ok (lineRegex marker) (Some c) = eqc "#" c) ->
  (forall w title, f (mkHit w [(1%nat, title)]) = headingElement k title) ->
  Forall lineOk ls -> ls <> [] ->
  replace (lineRegex marker) f (join [LF] (map (passText k) ls))
  = join [LF] (map (passText (k - 1)) ls).
Proof.
  intros Hk Hm H0 Hh Hf Hls Hn.
  assert (Hu : u marker = hashes k).
  { change (u marker) with (map code (list_ascii_of_string marker)).
    rewrite Hm. apply map_repeat. }
  pose (ls' := map (fun l => (passText k l, passHit k l)) ls).
  assert (E1 : map (passText k) ls = map fst ls')
    by (unfold ls'; rewrite map_map; reflexivity).
  assert (E2 : map (passText (k - 1)) ls = map (lineOut f) ls').
  { unfold ls'. rewrite map_map. apply map_ext_in. intros l Hl.
    rewrite Forall_forall in Hls. specialize (Hls l Hl).
    destruct l as [level ws title|text]; [|reflexivity].
    unfold lineOut. cbn [passText passHit fst snd].
    destruct (Nat.eqb_spec level k) as [->|Hne].
    - rewrite Hf. replace (k - 1 <? k)%nat with true
        by (symmetry; apply Nat.ltb_lt; lia). reflexivity.
    - destruct (Nat.ltb_spec k level) as [Hlt|Hge].
      + replace (k - 1 <? level)%nat with true
          by (symmetry; apply Nat.ltb_lt; lia). reflexivity.
      + replace (k - 1 <? level)%nat with false
          by (symmetry; apply Nat.ltb_ge; lia). reflexivity. }
  rewrite E1, E2. unfold lineRegex in *. apply replace_lines_hits.
  2:{ unfold ls'. destruct ls; [congruence | discriminate]. }
  unfold ls'. rewrite Forall_map. revert Hls. apply Forall_impl.
  intros [level ws title|text] Hl; cbn [lineOk passText passHit fst snd] in *.
  - destruct Hl as (Hlevel & Hws_ne & Hws & Hws_line & Ht_ne & Ht0 & Hdot).
    destruct ws as [|w0 ws']; [congruence|].
    destruct title as [|t0 title']; [congruence|]. cbn [startsSpace] in Ht0.
    destruct (Nat.eqb_spec level k) as [->|Hne].
    + rewrite Nat.ltb_irrefl. split.
      { intros y Hy. apply (dot_line (hashes k ++ (w0 :: ws') ++ t0 :: title')); [|exact Hy].
        rewrite !forallb_app, hashes_dot, Hws_line, Hdot. reflexivity. }
      split; [destruct (hashes k); discriminate|]. split; [reflexivity|].
      intros bef rest Hb Hr. rewrite <- Hu, <- !app_assoc.
      apply (heading_match_at w0 ws' t0 title' Hws Ht0 Hdot marker bef rest Hb Hr).
    + destruct (Nat.ltb_spec k level) as [Hlt|Hge].
      * split.
        { intros y. apply dot_line, headingElement_dot, Hdot. }
        intros bef rest _. apply match_at_head_fail.
        change (hd_error (headingElement level (t0 :: title') ++ rest))
          with (Some (code "<")).
        rewrite Hh. reflexivity.
      * split.
        { intros y Hy.
          apply (dot_line (hashes level ++ (w0 :: ws') ++ t0 :: title')); [|exact Hy].
          rewrite !forallb_app, hashes_dot, Hws_line, Hdot. reflexivity. }
        intros bef rest _. rewrite <- !app_assoc.
        apply (heading_miss_at w0 ws' t0 title' Hws marker (hashes level)
                 (repeat "#"%char level) (repeat "#"%char (k - level - 1))).
        -- rewrite Hm. apply repeat_split. lia.
        -- unfold hashes. symmetry. apply map_repeat.
  - destruct Hl as [Hdot Hhash]. split; [intros y; apply dot_line, Hdot|].
    intros bef rest Hr. apply match_at_head_fail.
    destruct text as [|c text'].
    + destruct Hr as [->|[t ->]]; cbn [app hd_error]; [exact H0 | rewrite Hh; reflexivity].
    + cbn [app hd_error]. rewrite Hh. exact Hhash.
Qed.

(** The four heading passes over the lines of a text. *)
Lemma convertHeaders_headings ls :
  Forall lineOk ls ->
  convertHeaders (join [LF] (map lineText ls)) = join [LF] (map lineHtml ls).
Proof.
  intros H. destruct ls as [|l0 ls0]; [reflexivity|].
  set (ls := l0 :: ls0) in *.
  assert (Hn : ls <> []) by discriminate.
  assert (E4 : map lineText ls = map (passText 4) ls).
  { apply map_ext_in. intros l Hl. rewrite Forall_forall in H. specialize (H l Hl).
    destruct l as [level ws title|text]; [|reflexivity]. cbn [lineText passText].
    destruct H as [Hlevel _].
    replace (4 <? level)%nat with false by (symmetry; apply Nat.ltb_ge; lia).
    reflexivity. }
  assert (E0 : map lineHtml ls = map (passText 0) ls).
  { apply map_ext_in. intros l Hl. rewrite Forall_forall in H. specialize (H l Hl).
    destruct l as [level ws title|text]; [|reflexivity]. cbn [lineHtml passText].
    destruct H as [Hlevel _].
    replace (0 <? level)%nat with true by (symmetry; apply Nat.ltb_lt; lia).
    reflexivity. }
  rewrite E4, E0. unfold convertHeaders.
  rewrite (pass_lines 4 "####" _ ls) by (auto; try reflexivity; lia).
  rewrite (pass_lines 3 "###" _ ls) by (auto; try reflexivity; lia).
  rewrite (pass_lines 2 "##" _ ls) by (auto; try reflexivity; lia).
  apply (pass_lines 1 "#" _ ls); auto; try reflexivity.
Qed.

(** ** Headings and paragraphs set apart by blank lines *)

Lemma between_cons {T} (sep x y : T) r :
  between sep (x :: y :: r) = x :: sep :: between sep (y :: r).
Proof. reflexivity. Qed.

Lemma between_nonempty {A} (sep : A) l : l <> [] -> between sep l <> [].
Proof. destruct l as [|x [|y l]]; [congruence | discriminate | discriminate]. Qed.

Lemma join_cons_any sep x r : r <> [] -> join sep (x :: r) = x ++ sep ++ join sep r.
Proof. destruct r as [|y r]; [congruence|]. intros _. apply join_cons. Qed.

Lemma join_between (l : list str) : join [LF; LF] l = join [LF] (between [] l).
Proof.
  induction l as [|x l IH]; [reflexivity|]. destruct l as [|y l]; [reflexivity|].
  rewrite between_cons, join_cons, IH.
  rewrite (join_cons_any [LF] x) by discriminate.
  rewrite (join_cons_any [LF] []) by (apply between_nonempty; discriminate).
  reflexivity.
Qed.

Lemma map_between {A B} (f : A -> B) sep l :
  map f (between sep l) = between (f sep) (map f l).
Proof.
  induction l as [|x l IH]; [reflexivity|]. destruct l as [|y l]; [reflexivity|].
  rewrite between_cons. cbn [map] in *. rewrite IH. reflexivity.
Qed.

Lemma Forall_between {A} (P : A -> Prop) sep l :
  P sep -> Forall P l -> Forall P (between sep l).
Proof.
  intros Hs H. apply Forall_forall. intros x Hx.
  destruct (between_In _ _ _ Hx) as [->|Hin]; [exact Hs|].
  rewrite Forall_forall in H. apply H, Hin.
Qed.

Lemma inert_dot s : forallb inertChar s = true -> forallb isDot s = true.
Proof.
  intros H. apply forallb_forall. intros y Hy.
  pose proof (forallb_In _ _ _ H Hy) as Hi. unfold inertChar in Hi.
  apply andb_true_iff in Hi. tauto.
Qed.

Lemma blockOk_lineOk l : blockOk l -> lineOk l.
Proof.
  destruct l as [level ws title|text]; cbn [blockOk lineOk]; [tauto|].
  intros [Hp _]. destruct (prose_facts text Hp) as [Hin (c & r & -> & Hc)].
  split.
  - apply inert_dot. apply forallb_forall. exact Hin.
  - apply opensProse_facts in Hc. cbn [startsWith]. unfold eqc in Hc. tauto.
Qed.

Lemma headingElement_inert level title :
  forallb inertChar title = true -> forallb inertChar (headingElement level title) = true.
Proof.
  intros H. unfold headingElement. rewrite !forallb_app, H.
  destruct level as [|[|n]]; reflexivity.
Qed.

Lemma headingElement_shape level title :
  exists s, headingElement level title = code "<" :: s ++ [code ">"].
Proof.
  exists (headingTag level ++ u ">" ++ title ++ u "</" ++ headingTag level).
  unfold headingElement. cbn [app]. rewrite <- !app_assoc. reflexivity.
Qed.

Lemma wrapParagraph_tagged s :
  wrapParagraph (code "<" :: s ++ [code ">"]) = code "<" :: s ++ [code ">"].
Proof.
  assert (R : rev (code "<" :: s ++ [code ">"]) = code ">" :: rev s ++ [code "<"]).
  { cbn [rev]. rewrite rev_app_distr. reflexivity. }
  assert (T : trim (code "<" :: s ++ [code ">"]) = code "<" :: s ++ [code ">"]).
  { unfold trim. change (trimStart (code "<" :: s ++ [code ">"]))
      with (code "<" :: s ++ [code ">"]).
    unfold trimEnd. rewrite R.
    change (trimStart (code ">" :: rev s ++ [code "<"]))
      with (code ">" :: rev s ++ [code "<"]).
    rewrite <- R. apply rev_involutive. }
  unfold wrapParagraph. rewrite T. unfold endsWith. rewrite R. reflexivity.
Qed.

Section Blocks.
Variable bs : list mdLine.
Hypothesis Hbs : Forall blockOk bs.
Hypothesis Hne : bs <> [].

Let ls1 : list str := between [] (map lineHtml bs).

Lemma blocks_chars y :
  In y (join [LF; LF] (map lineText bs)) -> eqc "`" y = false.
Proof.
  intros Hy. destruct (join_chars _ _ _ Hy) as [[<-|[<-|[]]]|(p & Hp & Hyp)];
    try reflexivity.
  apply in_map_iff in Hp. destruct Hp as (b & <- & Hb).
  rewrite Forall_forall in Hbs. specialize (Hbs b Hb).
  destruct b as [level ws title|text]; cbn [blockOk lineText] in *.
  - destruct Hbs as (_ & (_ & Hws & _) & (Hin & _)).
    apply in_app_or in Hyp. destruct Hyp as [Hyp|Hyp].
    + apply repeat_spec in Hyp. subst y. reflexivity.
    + apply in_app_or in Hyp. destruct Hyp as [Hyp|Hyp].
      * apply (forallb_In _ _ _ Hws), space_facts in Hyp. tauto.
      * apply (forallb_In _ _ _ Hin), inert_facts in Hyp. tauto.
  - destruct Hbs as [Hp _]. apply (proj1 (prose_facts text Hp)), inert_facts in Hyp. tauto.
Qed.

Lemma blocks_headers :
  convertHeaders (join [LF; LF] (map lineText bs)) = join [LF; LF] (map lineHtml bs).
Proof.
  rewrite !join_between.
  replace (between [] (map lineText bs)) with (map lineText (between (Other []) bs))
    by exact (map_between lineText (Other []) bs).
  replace (between [] (map lineHtml bs)) with (map lineHtml (between (Other []) bs))
    by exact (map_between lineHtml (Other []) bs).
  apply convertHeaders_headings.
  apply Forall_between; [split; reflexivity|].
  revert Hbs. apply Forall_impl. exact blockOk_lineOk.
Qed.

Lemma blocks_inert : Forall (fun l => forall y, In y l -> inertChar y = true) ls1.
Proof.
  apply Forall_between; [intros y []|]. rewrite Forall_map.
  revert Hbs. apply Forall_impl. intros [level ws title|text]; cbn [blockOk lineHtml].
  - intros (_ & _ & (Hin & _)) y. apply forallb_In, headingElement_inert, Hin.
  - intros [Hp _]. apply (proj1 (prose_facts text Hp)).
Qed.

Lemma blocks_nonempty : ls1 <> [].
Proof. apply between_nonempty. destruct bs; [congruence | discriminate]. Qed.

Let ok (c : char) : bool := eqc "<" c || opensProse c.

Lemma blocks_heads :
  Forall (fun l => match l with c :: _ => ok c = true | [] => True end) ls1.
Proof.
  apply Forall_between; [exact I|]. rewrite Forall_map.
  revert Hbs. apply Forall_impl. intros [level ws title|text]; cbn [blockOk lineHtml].
  - intros _. reflexivity.
  - intros [Hp _]. destruct (prose_facts text Hp) as [_ (c & r & -> & Hc)].
    unfold ok. rewrite Hc. apply orb_true_r.
Qed.

Lemma ok_head c : ok c = true ->
  eqc ">" c = false /\ eqc "-" c = false /\ isDigit c = false.
Proof.
  unfold ok. intros H. apply orb_true_iff in H. destruct H as [H|H].
  - apply N.eqb_eq in H. subst c. repeat split; reflexivity.
  - apply opensProse_facts in H. tauto.
Qed.

Lemma blocks_anchored ml r :
  head_ok r None = false -> head_ok r (Some LF) = false ->
  (forall c, ok c = true -> head_ok r (Some c) = false) ->
  Forall (fun l => forall bef rest, lineEnd rest ->
            match_at (Cat (Bol ml) r) bef (l ++ rest) = None) ls1.
Proof.
  intros H0 HLF Hh. pose proof blocks_heads as H.
  rewrite Forall_forall in *. intros l Hl bef rest Hr.
  specialize (H l Hl). apply match_at_head_fail.
  destruct l as [|c l].
  - destruct Hr as [->|[t ->]]; [exact H0 | exact HLF].
  - cbn [app hd_error head_ok transparent]. apply Hh, H.
Qed.

Lemma blocks_spans : convertSpans (join [LF] ls1) = join [LF] ls1.
Proof.
  apply (convertSpans_lines ls1 blocks_nonempty blocks_inert ok blocks_heads).
  - intros c Hc. apply ok_head in Hc. tauto.
  - unfold ruleRegex. apply blocks_anchored; [reflexivity | reflexivity|].
    intros c Hc. apply ok_head in Hc. cbn. tauto.
Qed.

Lemma blocks_lists r tag :
  head_ok r None = false ->
  (forall c, ok c = true -> inertChar c = true -> head_ok r (Some c) = false) ->
  convertLists (Cat (Bol false) r) tag (join [LF] ls1) = join [LF] ls1.
Proof.
  intros H0 Hh. apply convertLists_none.
  rewrite (lines_split ls1 blocks_nonempty blocks_inert).
  pose proof blocks_heads as H. pose proof blocks_inert as Hi.
  rewrite Forall_forall in *. intros l Hl. apply match_first_anchored; [exact H0|].
  specialize (H l Hl). specialize (Hi l Hl).
  destruct l as [|c l]; [exact I|]. apply Hh; [exact H|]. apply Hi. left. reflexivity.
Qed.

Lemma blocks_restore prefix f :
  head_ok (placeholderRegex prefix) None = false ->
  (forall y, head_ok (placeholderRegex prefix) (Some y) = eqc "_" y) ->
  replace (placeholderRegex prefix) f (join [LF] ls1) = join [LF] ls1.
Proof.
  intros H0 Hh. apply replace_gaps.
  apply (lines_headless ls1 blocks_inert); [exact H0 | rewrite Hh; reflexivity|].
  intros y Hy. rewrite Hh. apply inert_facts in Hy. tauto.
Qed.
End Blocks.

Lemma split_chunks ps :
  Forall (fun p => p <> [] /\ forall y, In y p -> (LF =? y) = false) ps -> ps <> [] ->
  forall bef, split_segs [] (scan blankRegex bef (join [LF; LF] ps) 0) = ps.
Proof.
  intros H. induction H as [|p ps [Hp Hh] Hps IH]; [congruence|]. intros _ bef.
  destruct ps as [|q ps].
  - cbn [join]. rewrite <- (app_nil_r p) at 1. rewrite scan_run_gaps by exact Hh.
    cbn [scan]. rewrite match_at_head_fail by reflexivity.
    rewrite app_nil_r. rewrite split_segs_gaps. reflexivity.
  - rewrite join_cons, scan_run_gaps by exact Hh. cbn [app].
    assert (Hq : match join [LF; LF] (q :: ps) with
                 | [] => True
                 | y :: _ => (LF =? y) = false
                 end).
    { inversion Hps as [|? ? [Hq Hqh] _]; subst.
      destruct q as [|c r]; [congruence|].
      assert (E : (LF =? c) = false) by (apply Hqh; left; reflexivity).
      destruct ps; [exact E | rewrite join_cons; exact E]. }
    rewrite (scan_hit blankRegex _ LF [LF] _ _ (blank_hit _ _ Hq) eq_refl).
    rewrite split_segs_run. cbn [split_segs app rev].
    rewrite app_nil_r, rev_involutive. f_equal. apply IH. discriminate.
Qed.

Lemma blocks_paragraphs bs :
  Forall blockOk bs -> bs <> [] ->
  wrapParagraphs (join [LF; LF] (map lineHtml bs)) = join [LF] (map blockHtml bs).
Proof.
  intros H Hne. unfold wrapParagraphs, split_re, segments.
  rewrite split_chunks.
  - f_equal. clear Hne. induction H as [|b bs Hb _ IH]; [reflexivity|].
    cbn [map filter].
    assert (E : wrapParagraph (lineHtml b) = blockHtml b).
    { destruct b as [level ws title|text]; cbn [blockOk lineHtml blockHtml] in *.
      - destruct (headingElement_shape level title) as [s ->]. apply wrapParagraph_tagged.
      - apply wrapParagraph_prose. tauto. }
    rewrite E.
    assert (T : truthy (blockHtml b) = true).
    { destruct b as [level ws title|text]; cbn [blockHtml]; [|reflexivity].
      destruct (headingElement_shape level title) as [s ->]. reflexivity. }
    rewrite T. f_equal. exact IH.
  - rewrite Forall_map. revert H. apply Forall_impl.
    intros [level ws title|text]; cbn [blockOk lineHtml].
    + intros (_ & _ & (Hin & _)). split.
      * destruct (headingElement_shape level title) as [s ->]. discriminate.
      * intros y Hy. apply (forallb_In _ _ _ (headingElement_inert level title Hin)) in Hy.
        apply inert_facts in Hy. rewrite N.eqb_sym. tauto.
    + intros [Hp _]. split.
      * destruct (prose_facts text Hp) as [_ (c & r & -> & _)]. discriminate.
      * intros y Hy. apply (prose_not_LF text y Hp Hy).
  - destruct bs; [congruence | discriminate].
Qed.

(** Headings with plain titles and paragraphs of plain prose, one blank
    line between every two of them, through the passes of
    [markdownToHtml]. *)
Lemma markdownToHtml_blocks bs :
  Forall blockOk bs -> bs <> [] ->
  markdownToHtml (join [LF; LF] (map lineText bs)) = join [LF] (map blockHtml bs).
Proof.
  intros H Hne. unfold markdownToHtml.
  rewrite (segments_headless fenceRegex)
    by (try reflexivity; intros y Hy; cbn; apply (blocks_chars bs H y Hy)).
  rewrite replace_with_gaps.
  rewrite (segments_headless inlineCodeRegex)
    by (try reflexivity; intros y Hy; cbn; apply (blocks_chars bs H y Hy)).
  rewrite replace_with_gaps.
  rewrite (blocks_headers bs H).
  rewrite join_between.
  rewrite (blocks_spans bs H Hne).
  unfold bulletRegex, numberedRegex.
  rewrite (blocks_lists bs H Hne); [|reflexivity|].
  2:{ intros c Hc Hi. cbn. apply ok_head in Hc. apply inert_facts in Hi.
      apply orb_false_iff. tauto. }
  rewrite (blocks_lists bs H Hne); [|reflexivity|].
  2:{ intros c Hc Hi. cbn. apply ok_head in Hc. tauto. }
  rewrite (blocks_restore bs H) by (reflexivity || (intros y; reflexivity)).
  rewrite (blocks_restore bs H) by (reflexivity || (intros y; reflexivity)).
  rewrite <- join_between. apply blocks_paragraphs; assumption.
Qed.

(** ** The tree of headings and paragraphs *)

Lemma between_markup_any es :
  markupText (between nl es) = join [LF] (map (fun e => render (tokens e)) es).
Proof.
  induction es as [|e es IH]; [reflexivity|]. destruct es as [|e2 es].
  - cbn [map between join]. rewrite markupText_cons. unfold markupText.
    cbn [flat_map render]. apply app_nil_r.
  - rewrite between_cons, !markupText_cons, markupText_nl, IH.
    change (map (fun e0 => render (tokens e0)) (e :: e2 :: es))
      with (render (tokens e) :: map (fun e0 => render (tokens e0)) (e2 :: es)).
    rewrite (join_cons_any [LF] (render (tokens e))) by discriminate. reflexivity.
Qed.

Lemma headingTag_cases level : headingTag level = u "h3" \/ headingTag level = u "h4".
Proof. destruct level as [|[|n]]; auto. Qed.

Lemma blockMarkup_facts b : blockOk b ->
  render (tokens (blockMarkup b)) = blockHtml b /\
  wf (blockMarkup b) /\ isMText (blockMarkup b) = false /\
  tree (blockMarkup b) = blockNode b.
Proof.
  destruct b as [level ws title|text]; cbn [blockOk blockMarkup blockHtml blockNode].
  - intros (_ & (_ & _ & _ & Ht & _) & (_ & Hlt)).
    assert (E : forall tag : string,
              render (tokens (el tag (textM title))) = u "<" ++ u tag ++ u ">" ++ title ++ u "</" ++ u tag ++ u ">").
    { intros tag. rewrite render_el. unfold markupText. rewrite render_text. reflexivity. }
    unfold headingElement.
    destruct (headingTag_cases level) as [->| ->].
    + change (MElem (u "h3") [] (textM title)) with (el "h3" (textM title)).
      split; [apply E|]. split; [apply wf_line; [exact plainTag_h3 | exact Hlt]|].
      split; [reflexivity|]. destruct title; [congruence | reflexivity].
    + change (MElem (u "h4") [] (textM title)) with (el "h4" (textM title)).
      split; [apply E|]. split; [apply wf_line; [exact plainTag_h4 | exact Hlt]|].
      split; [reflexivity|]. destruct title; [congruence | reflexivity].
  - intros [Hp Hlt].
    split; [rewrite render_el; unfold markupText; rewrite render_text; reflexivity|].
    split; [apply wf_line; [exact plainTag_p | exact Hlt]|].
    split; [reflexivity|].
    destruct (prose_facts text Hp) as [_ (c & r & -> & _)]. reflexivity.
Qed.

Lemma between_nodes es :
  map tree (between nl es) = between (NText [LF]) (map tree es).
Proof. exact (map_between tree nl es). Qed.

(** The tree of the markup of headings and paragraphs: one element for
    each, and a text leaf holding the line feed between every two. *)
Lemma blocks_tree bs :
  Forall blockOk bs ->
  htmlToNodes (join [LF] (map blockHtml bs))
  = Some (between (NText [LF]) (map blockNode bs)).
Proof.
  intros H.
  assert (E1 : map blockHtml bs = map (fun e => render (tokens e)) (map blockMarkup bs)).
  { rewrite map_map. apply map_ext_in. intros b Hb. rewrite Forall_forall in H.
    symmetry. apply (blockMarkup_facts b (H b Hb)). }
  assert (E2 : map blockNode bs = map tree (map blockMarkup bs)).
  { rewrite map_map. apply map_ext_in. intros b Hb. rewrite Forall_forall in H.
    symmetry. apply (blockMarkup_facts b (H b Hb)). }
  rewrite E1, E2, <- between_markup_any, <- between_nodes.
  apply parse_markup. split.
  - apply Forall_between; [exact wf_nl|]. rewrite Forall_map.
    revert H. apply Forall_impl. intros b Hb. apply (blockMarkup_facts b Hb).
  - apply between_adjacent. rewrite Forall_map.
    revert H. apply Forall_impl. intros b Hb. apply (blockMarkup_facts b Hb).
Qed.

(** * The claims *)

(** C1.  On the markup [<p><a href="https://johndoe.com">johndoe.com</a></p>]
    the builder takes the [/] of the address for a self-close marker:
    the link has no children and its closing tag closes the paragraph.
    Serializing that tree and reading it back gives a different tree. *)
Theorem round_trip_breaks_on_slash :
  let html :=
    u "<p><a href=" ++ [DQ] ++ u "https://johndoe.com" ++ [DQ] ++ u ">johndoe.com</a></p>" in
  let link := NElem (u "a") (Some [(u "href", u "https://johndoe.com")]) None in
  let tree := [NElem (u "p") None (Some [link; NText (u "johndoe.com")])] in
  let tree' := [NElem (u "p") None (Some [link]); NText (u "johndoe.com")] in
  htmlToNodes html = Some tree /\
  nodesToHtml tree =
    u "<p><a href=" ++ [DQ] ++ u "https://johndoe.com" ++ [DQ] ++ u "></a>johndoe.com</p>" /\
  htmlToNodes (nodesToHtml tree) = Some tree' /\
  tree <> tree'.
Proof.
  repeat split; try (vm_compute; reflexivity). discriminate.
Qed.

(** C2.  For every input, the tree is built from the text runs and tags
    of the input, its nodes are, in document order, the text runs and
    opening tags, one for one, and closing every frame left on the stack
    gives the tree that the end of the input gives.  A closing tag met
    while the stack is empty leaves the builder as it is, and the end of
    the input closes the open frames innermost first.  On the markup
    itself: a closing tag met where no element is open is dropped; and
    input that leaves elements open gives the tree of the same input
    with those elements closed where the input ends, every open element
    at its place in its parent, holding what follows its opening tag;
    the complete input is the cut-off one followed by the missing
    closing tags. *)
Theorem stack_discipline :
  (forall html, exists l st,
     html = flat_map render_piece l /\ Forall tok_ok (piece_tokens l) /\
     run step init (map tok_event (piece_tokens l)) = Some st /\
     htmlToNodes html = Some (finish st) /\
     Forall2 corr (visible (map tok_event (piece_tokens l))) (outlines (finish st)) /\
     (forall names, length names = length (stack st) ->
        run step init (map tok_event (piece_tokens l) ++ map EvClose names)
        = Some (mkState (finish st) []))) /\
  (forall st0 tagName, stack st0 = [] -> step st0 (EvClose tagName) = Some st0) /\
  (forall st0, stack st0 <> [] ->
     finish st0 = finish (close_top st0) /\
     length (stack (close_top st0)) = pred (length (stack st0))) /\
  (forall ms name ms',
     readables ms -> validName name -> readables ms' ->
     htmlToNodes (markupText ms ++ u "</" ++ name ++ u ">" ++ markupText ms')
     = Some (map tree ms ++ map tree ms')) /\
  (forall o, readableUnclosed o ->
     htmlToNodes (unclosedText o) = Some (map tree (closeAll o)) /\
     htmlToNodes (markupText (closeAll o)) = Some (map tree (closeAll o)) /\
     markupText (closeAll o)
     = unclosedText o ++ flat_map (fun n => u "</" ++ n ++ u ">") (openNames o)).
Proof.
  split; [|split; [|split; [|split]]].
  - intros html. destruct (events_pieces html) as (l & E & Hok & Hev).
    exists l, (fold_left step_total (map tok_event (piece_tokens l)) init).
    split; [exact E|]. split; [exact Hok|].
    split; [apply run_total, step_is_total|].
    split; [rewrite htmlToNodes_total, Hev; reflexivity|].
    split; [apply outline_finish|].
    intros names H.
    rewrite (run_total step step_total step_is_total), fold_left_app.
    rewrite closes_unwind by exact H. reflexivity.
  - intros [ns stk] tagName H. simpl in H. subst. reflexivity.
  - intros st0 H. split; [apply finish_close_top, H | apply close_top_depth].
  - intros ms name ms' Hms Hn Hms'.
    rewrite <- (parse_stray_close ms name ms' Hms Hn Hms'). f_equal. f_equal.
    unfold render. cbn [flat_map render_tok closingTag slash app].
    rewrite !app_nil_r, <- !app_assoc. reflexivity.
  - intros o H. split; [apply parse_unclosed, H|].
    split; [apply parse_readable, closeAll_readable, H|].
    rewrite closeAll_text, render_closers. reflexivity.
Qed.

Lemma stack_discipline_witness :
  htmlToNodes (u "<p>Hello <b>world")
  = Some [NElem (u "p") None
            (Some [NText (u "Hello ");
                   NElem (u "b") None (Some [NText (u "world")])])].
Proof.
  refine (proj1 (proj2 (proj2 (proj2 (proj2 stack_discipline)))
                  (Open [] (u "p") [] (Open [MText (u "Hello ")] (u "b") []
                     (Closed [MText (u "world")]))) _)).
  cbn. repeat split; try discriminate; try reflexivity;
    repeat constructor; discriminate.
Defined.

(** C3.  For every input, [parseHtmlToNodes] is [htmlToNodes] run on the
    events in which each text run is trimmed and dropped when nothing is
    left, while [htmlToNodes] takes every run as it is; so the two agree
    whenever every text run equals its own trim, and they differ on
    [<p> a </p><i> </i>]. *)
Theorem builders_differ_in_trimming html :
  tokenize html = Some (events html) /\
  htmlToNodes html = option_map finish (run step init (events html)) /\
  parseHtmlToNodes html =
    option_map finish (run step init (flat_map trimEvent (events html))) /\
  (Forall isTrimmed (events html) -> parseHtmlToNodes html = htmlToNodes html) /\
  htmlToNodes (u "<p> a </p><i> </i>") =
    Some [NElem (u "p") None (Some [NText (u " a ")]);
          NElem (u "i") None (Some [NText (u " ")])] /\
  parseHtmlToNodes (u "<p> a </p><i> </i>") =
    Some [NElem (u "p") None (Some [NText (u "a")]); NElem (u "i") None None].
Proof.
  split; [apply tokenize_total|].
  split; [unfold htmlToNodes, build; rewrite tokenize_total; reflexivity|].
  split; [apply parseHtmlToNodes_trims|].
  split; [|split; vm_compute; reflexivity].
  intros H. unfold parseHtmlToNodes, htmlToNodes, build.
  rewrite tokenize_total, (parse_step_trimmed _ H). reflexivity.
Qed.

Lemma builders_differ_in_trimming_witness :
  parseHtmlToNodes (u "<p>Hi<b>there</b></p>") = htmlToNodes (u "<p>Hi<b>there</b></p>").
Proof.
  apply (proj1 (proj2 (proj2 (proj2 (builders_differ_in_trimming (u "<p>Hi<b>there</b></p>")))))).
  vm_compute. repeat constructor.
Defined.

(** C4.  When [JSON.parse] accepts the string and gives an array,
    [parseContent] returns that array whatever the format, and neither
    the Markdown rewriter nor the tree builder runs; in every other case
    the string goes to the conversion of its format.  For [[1,2,3]] the
    result is the array of the three numbers, not the tree the builder
    would make of that text. *)
Theorem json_sniff (text : str) (fmt : format) :
  (forall parsed, JSON_parse text = Some (JArr parsed) ->
     parseContent (inl text) fmt = Some (ParsedArray parsed)) /\
  ((forall parsed, JSON_parse text <> Some (JArr parsed)) ->
     parseContent (inl text) fmt =
     option_map Tree (htmlToNodes match fmt with
                                  | Markdown => markdownToHtml text
                                  | Html => text
                                  end)) /\
  JSON_parse (u "[1,2,3]") = Some (JArr [JNum (u "1"); JNum (u "2"); JNum (u "3")]) /\
  parseContent (inl (u "[1,2,3]")) Html =
    Some (ParsedArray [JNum (u "1"); JNum (u "2"); JNum (u "3")]) /\
  parseContent (inl (u "[1,2,3]")) Markdown =
    Some (ParsedArray [JNum (u "1"); JNum (u "2"); JNum (u "3")]) /\
  htmlToNodes (u "[1,2,3]") = Some [NText (u "[1,2,3]")].
Proof.
  split; [|split; [|repeat split; vm_compute; reflexivity]].
  - intros parsed H. unfold parseContent. rewrite H. reflexivity.
  - intros H. unfold parseContent.
    destruct (JSON_parse text) as [[| | | |l|]|]; try reflexivity.
    exfalso. apply (H l). reflexivity.
Qed.

Lemma json_sniff_witness :
  parseContent (inl (u "[[],{},true]")) Markdown
    = Some (ParsedArray [JArr []; JObj []; JBool true]) /\
  parseContent (inl (u "{}")) Html = Some (Tree [NText (u "{}")]) /\
  parseContent (inl (u "[1,2")) Html = Some (Tree [NText (u "[1,2")]).
Proof.
  split; [|split].
  - apply (proj1 (json_sniff (u "[[],{},true]") Markdown)).
    vm_compute. reflexivity.
  - rewrite (proj1 (proj2 (json_sniff (u "{}") Html))).
    + vm_compute. reflexivity.
    + intros parsed. vm_compute. discriminate.
  - rewrite (proj1 (proj2 (json_sniff (u "[1,2") Html))).
    + vm_compute. reflexivity.
    + intros parsed. vm_compute. discriminate.
Defined.




(** C6.  For every input, the elements of the tree built by
    [htmlToNodes] are, in document order, those of the opening tags of
    the input, and an element whose tag is [br], [hr] or [img], or whose
    opening tag carries a [/] in its raw attribute text, has no
    [children] field.  The input [<img src="x.jpg"/>] gives one [img]
    element with [attrs] and without [children]. *)
Theorem void_tag_invariant :
  (forall html, exists tree,
     tokenize html = Some (events html) /\
     htmlToNodes html = Some tree /\
     Forall2 corr (visible (events html)) (outlines tree) /\
     Forall voidWithoutChildren (outlines tree)) /\
  htmlToNodes (u "<img src=" ++ [DQ] ++ u "x.jpg" ++ [DQ] ++ u "/>") =
  Some [NElem (u "img") (Some [(u "src", u "x.jpg")]) None].
Proof.
  split; [|vm_compute; reflexivity].
  intros html. eexists. split; [apply tokenize_total|].
  split; [apply htmlToNodes_total|].
  pose proof (outline_finish (events html)) as H.
  split; [exact H | exact (corr_void _ _ H)].
Qed.




(** C8.  [htmlToNodes] on the input [<p>Hello <b>world</b>!</p>] returns
    one [p] element whose children are the text [Hello ] with its
    trailing space, a [b] element holding [world], and the text [!]. *)
Theorem literal_scenario :
  htmlToNodes (u "<p>Hello <b>world</b>!</p>") =
  Some [NElem (u "p") None
          (Some [NText (u "Hello ");
                 NElem (u "b") None (Some [NText (u "world")]);
                 NText (u "!")])].
Proof. vm_compute. reflexivity. Qed.

(** C9.  An [ol] element and a [ul] element with the same children give
    the same Markdown: a line feed followed by the Markdown of the
    children, in which every [li] child is a line that starts with a
    hyphen and a space. *)
Theorem list_ordering_lost (attrs attrs' : option obj)
  (children : option (list Node)) :
  nodesToMarkdown [NElem (u "ol") attrs children] =
  nodesToMarkdown [NElem (u "ul") attrs' children] /\
  nodeElementToMarkdown (u "ol") attrs children =
  nodeElementToMarkdown (u "ul") attrs' children /\
  (forall items : list (option obj * option (list Node)),
     let lis := map (fun i => NElem (u "li") (fst i) (snd i)) items in
     let bullets :=
       flat_map (fun i => u "- " ++
                   match snd i with Some l => nodesToMarkdown l | None => [] end
                   ++ [LF]) items in
     nodesToMarkdown [NElem (u "ol") attrs (Some lis)] = LF :: bullets /\
     nodesToMarkdown [NElem (u "ul") attrs' (Some lis)] = LF :: bullets).
Proof.
  split; [|split].
  - rewrite !nodesToMarkdown_cons, !nodeToMarkdown_elem.
    unfold nodeElementToMarkdown. rewrite markdown_ol, markdown_ul. reflexivity.
  - unfold nodeElementToMarkdown. rewrite markdown_ol, markdown_ul. reflexivity.
  - intros items lis bullets.
    assert (H : nodesToMarkdown lis = bullets).
    { subst lis bullets. induction items as [|i items IH]; [reflexivity|].
      cbn [map flat_map]. rewrite nodesToMarkdown_cons, IH, nodeToMarkdown_elem.
      unfold nodeElementToMarkdown. rewrite markdown_li.
      rewrite <- !app_assoc. reflexivity. }
    rewrite !nodesToMarkdown_cons, !nodeToMarkdown_elem.
    unfold nodeElementToMarkdown. rewrite markdown_ol, markdown_ul, H.
    split; simpl; rewrite app_nil_r; reflexivity.
Qed.

(** C10.  Both builders lower the tag names: every element of their
    trees has a tag without capital letters, and two inputs whose events
    differ only in the letter case of tag names give the same trees, as
    [<B>hi</B>] and [<b>hi</b>] do. *)
Theorem tag_case_normalization :
  (forall html, exists t1 t2,
     htmlToNodes html = Some t1 /\ parseHtmlToNodes html = Some t2 /\
     Forall lowercaseTag (outlines t1) /\ Forall lowercaseTag (outlines t2)) /\
  (forall html1 html2,
     Forall2 sameCase (events html1) (events html2) ->
     htmlToNodes html1 = htmlToNodes html2 /\
     parseHtmlToNodes html1 = parseHtmlToNodes html2) /\
  htmlToNodes (u "<B>hi</B>") = Some [NElem (u "b") None (Some [NText (u "hi")])] /\
  htmlToNodes (u "<b>hi</b>") = Some [NElem (u "b") None (Some [NText (u "hi")])].
Proof.
  split; [|split; [|split; vm_compute; reflexivity]].
  - intros html. eexists. eexists.
    split; [apply htmlToNodes_total|]. split; [apply parseHtmlToNodes_total|].
    split; eapply corr_lowercase; apply outline_finish.
  - intros html1 html2 H. rewrite !htmlToNodes_total, !parseHtmlToNodes_total.
    rewrite (sameCase_run _ _ H), (sameCase_run _ _ (sameCase_trim _ _ H)).
    split; reflexivity.
Qed.

Lemma tag_case_normalization_witness :
  htmlToNodes (u "<DIV Id='a'>x<Br></DIV>") = htmlToNodes (u "<div Id='a'>x<bR></div>") /\
  parseHtmlToNodes (u "<DIV Id='a'>x<Br></DIV>") = parseHtmlToNodes (u "<div Id='a'>x<bR></div>").
Proof.
  apply (proj1 (proj2 tag_case_normalization)).
  vm_compute. repeat constructor.
Defined.
